(** * Ballot protocol of SCP (src/scp/BallotProtocol.cpp)

    A shallow embedding of [BallotProtocol]: the per-slot ballot state, the
    statement order, statement ingestion ([processEnvelope]), the advance
    driver ([advanceSlot] and the four attempt steps), the bump rule and the
    emission of own statements.  The collaborators of the class (the slot, the
    driver, the local node's quorum oracle) are the fields of a record
    [Env]. *)

From Stdlib Require Import List NArith ZArith Bool Lia String.
From Stdlib.Strings Require Import Byte.
From Stdlib Require Import Sorted.
Import ListNotations.

Set Implicit Arguments.

Local Open Scope N_scope.

(** ** Data model (the XDR types the class works on) *)

Definition uint32 := N.
Definition UINT32_MAX : uint32 := 4294967295.
Definition uint32_modulus : N := 4294967296.

(** [Value] is [opaque<>]: a vector of bytes. *)
Definition Value := list byte.
Definition NodeID := N.
Definition Hash := N.

Record SCPBallot := mkBallot { counter : uint32; value : Value }.

(** A default-constructed [SCPBallot]. *)
Definition nullBallot : SCPBallot := mkBallot 0 [].

Record SCPPrepare := mkPrepare {
  p_quorumSetHash : Hash;
  p_ballot : SCPBallot;
  p_prepared : option SCPBallot;
  p_preparedPrime : option SCPBallot;
  p_nC : uint32;
  p_nH : uint32 }.

Record SCPConfirm := mkConfirm {
  c_ballot : SCPBallot;
  c_nPrepared : uint32;
  c_nCommit : uint32;
  c_nH : uint32;
  c_quorumSetHash : Hash }.

Record SCPExternalize := mkExternalize {
  e_commit : SCPBallot;
  e_nH : uint32;
  e_commitQuorumSetHash : Hash }.

(** The pledges of a ballot statement.  Nomination statements are routed by
    the slot to the nomination protocol and never reach this class (every
    [switch] of the source aborts on them), so the union has three arms. *)
Inductive SCPPledges :=
| SCP_ST_PREPARE (p : SCPPrepare)
| SCP_ST_CONFIRM (c : SCPConfirm)
| SCP_ST_EXTERNALIZE (e : SCPExternalize).

(** [pledges.type()] as the integer of the enumeration. *)
Definition pledgesType (pl : SCPPledges) : N :=
  match pl with
  | SCP_ST_PREPARE _ => 0
  | SCP_ST_CONFIRM _ => 1
  | SCP_ST_EXTERNALIZE _ => 2
  end.

Record SCPStatement := mkStatement {
  nodeID : NodeID;
  slotIndex : N;
  pledges : SCPPledges }.

Record SCPEnvelope := mkEnvelope {
  statement : SCPStatement;
  signature : list byte }.

(** A [shared_ptr<SCPEnvelopeWrapper>]: the address identifies the wrapper,
    [operator!=] on two such pointers compares addresses.  Wrappers handed in
    by the caller and wrappers made by [wrapEnvelope] live at different
    addresses. *)
Inductive Ptr := CallerPtr (n : N) | OwnPtr (n : N).

Record SCPEnvelopeWrapper := mkWrapper {
  w_ptr : Ptr;
  getEnvelope : SCPEnvelope }.

Definition getStatement (w : SCPEnvelopeWrapper) : SCPStatement :=
  statement (getEnvelope w).

Inductive SCPPhase := SCP_PHASE_PREPARE | SCP_PHASE_CONFIRM | SCP_PHASE_EXTERNALIZE.

Inductive EnvelopeState := INVALID | VALID.

Inductive ValidationLevel := kInvalidValue | kMaybeValidValue | kFullyValidatedValue.

#[warnings="-register-all"]
Inductive SCPQuorumSet :=
| mkQSet (threshold : N) (validators : list NodeID) (innerSets : list SCPQuorumSet).

Inductive SCPStatementType := ST_PREPARE | ST_CONFIRM | ST_EXTERNALIZE.

(** ** Decidable equality of the wire types ([operator==] of xdrpp) *)

Definition Value_eq_dec : forall a b : Value, {a = b} + {a <> b} :=
  list_eq_dec byte_eq_dec.

Definition SCPBallot_eq_dec : forall a b : SCPBallot, {a = b} + {a <> b}.
Proof. decide equality; [apply Value_eq_dec | apply N.eq_dec]. Defined.

Definition SCPPledges_eq_dec : forall a b : SCPPledges, {a = b} + {a <> b}.
Proof.
  pose proof SCPBallot_eq_dec. pose proof N.eq_dec.
  assert (forall a b : option SCPBallot, {a = b} + {a <> b})
    by (decide equality).
  decide equality; decide equality.
Defined.

Definition SCPEnvelope_eq_dec : forall a b : SCPEnvelope, {a = b} + {a <> b}.
Proof.
  pose proof SCPPledges_eq_dec. pose proof N.eq_dec.
  pose proof (list_eq_dec byte_eq_dec).
  decide equality. decide equality.
Defined.

Definition Ptr_eq_dec : forall a b : Ptr, {a = b} + {a <> b}.
Proof. decide equality; apply N.eq_dec. Defined.

Definition phase_eqb (a b : SCPPhase) : bool :=
  match a, b with
  | SCP_PHASE_PREPARE, SCP_PHASE_PREPARE
  | SCP_PHASE_CONFIRM, SCP_PHASE_CONFIRM
  | SCP_PHASE_EXTERNALIZE, SCP_PHASE_EXTERNALIZE => true
  | _, _ => false
  end.

(** ** Orders *)

(** [operator<] of two byte vectors is the lexicographic order. *)
Fixpoint compareValues (a b : Value) : comparison :=
  match a, b with
  | [], [] => Eq
  | [], _ :: _ => Lt
  | _ :: _, [] => Gt
  | x :: a', y :: b' =>
      match Byte.to_N x ?= Byte.to_N y with
      | Eq => compareValues a' b'
      | c => c
      end
  end.

Definition value_ltb (a b : Value) : bool :=
  match compareValues a b with Lt => true | _ => false end.

Definition value_eqb (a b : Value) : bool :=
  if Value_eq_dec a b then true else false.

Definition value_empty (v : Value) : bool :=
  match v with [] => true | _ => false end.

(** [compareBallots(SCPBallot const&, SCPBallot const&)] *)
Definition compareBallots (b1 b2 : SCPBallot) : Z :=
  if counter b1 <? counter b2 then (-1)%Z
  else if counter b2 <? counter b1 then 1%Z
  else if value_ltb (value b1) (value b2) then (-1)%Z
  else if value_ltb (value b2) (value b1) then 1%Z
  else 0%Z.

(** [compareBallots(unique_ptr<SCPBallot> const&, unique_ptr<SCPBallot> const&)] *)
Definition compareBallotsOpt (b1 b2 : option SCPBallot) : Z :=
  match b1, b2 with
  | Some x, Some y => compareBallots x y
  | Some _, None => 1%Z
  | None, Some _ => (-1)%Z
  | None, None => 0%Z
  end.

Definition areBallotsCompatible (b1 b2 : SCPBallot) : bool :=
  value_eqb (value b1) (value b2).

Definition areBallotsLessAndIncompatible (b1 b2 : SCPBallot) : bool :=
  (compareBallots b1 b2 <=? 0)%Z && negb (areBallotsCompatible b1 b2).

Definition areBallotsLessAndCompatible (b1 b2 : SCPBallot) : bool :=
  (compareBallots b1 b2 <=? 0)%Z && areBallotsCompatible b1 b2.

(** [isNewerStatement(SCPStatement const& oldst, SCPStatement const& st)] *)
Definition isNewerStatement (oldst st : SCPStatement) : bool :=
  let t := pledgesType (pledges st) in
  if negb (pledgesType (pledges oldst) =? t) then
    pledgesType (pledges oldst) <? t
  else
    match pledges oldst, pledges st with
    | SCP_ST_EXTERNALIZE _, SCP_ST_EXTERNALIZE _ => false
    | SCP_ST_CONFIRM oldC, SCP_ST_CONFIRM c =>
        let compBallot := compareBallots (c_ballot oldC) (c_ballot c) in
        if (compBallot <? 0)%Z then true
        else if (compBallot =? 0)%Z then
          if c_nPrepared oldC =? c_nPrepared c then c_nH oldC <? c_nH c
          else c_nPrepared oldC <? c_nPrepared c
        else false
    | SCP_ST_PREPARE oldPrep, SCP_ST_PREPARE prep =>
        let compBallot := compareBallots (p_ballot oldPrep) (p_ballot prep) in
        if (compBallot <? 0)%Z then true
        else if (compBallot =? 0)%Z then
          let compBallot := compareBallotsOpt (p_prepared oldPrep) (p_prepared prep) in
          if (compBallot <? 0)%Z then true
          else if (compBallot =? 0)%Z then
            let compBallot :=
              compareBallotsOpt (p_preparedPrime oldPrep) (p_preparedPrime prep) in
            if (compBallot <? 0)%Z then true
            else if (compBallot =? 0)%Z then p_nH oldPrep <? p_nH prep
            else false
          else false
        else false
    | _, _ => false
    end.

(** [getWorkingBallot] *)
Definition getWorkingBallot (st : SCPStatement) : SCPBallot :=
  match pledges st with
  | SCP_ST_PREPARE p => p_ballot p
  | SCP_ST_CONFIRM con => mkBallot (c_nCommit con) (value (c_ballot con))
  | SCP_ST_EXTERNALIZE e => e_commit e
  end.

(** ** Ordered containers: [std::set] and [std::map] *)

(** Insertion in a [std::set] kept as a strictly increasing list. *)
Fixpoint set_insert {A} (cmp : A -> A -> comparison) (x : A) (l : list A) : list A :=
  match l with
  | [] => [x]
  | y :: l' =>
      match cmp x y with
      | Lt => x :: l
      | Eq => l
      | Gt => y :: set_insert cmp x l'
      end
  end.

Definition ballotOrder (a b : SCPBallot) : comparison :=
  (compareBallots a b ?= 0)%Z.

(** [mLatestEnvelopes]: a [std::map<NodeID, SCPEnvelopeWrapperPtr>], kept as
    an association list in increasing order of the node identifier. *)
Definition EnvMap := list (NodeID * SCPEnvelopeWrapper).

Fixpoint map_find (n : NodeID) (m : EnvMap) : option SCPEnvelopeWrapper :=
  match m with
  | [] => None
  | (k, w) :: m' => if k =? n then Some w else map_find n m'
  end.

(** [insert] of a new key, or assignment through the iterator of an old one. *)
Fixpoint map_set (n : NodeID) (w : SCPEnvelopeWrapper) (m : EnvMap) : EnvMap :=
  match m with
  | [] => [(n, w)]
  | (k, w') :: m' =>
      match n ?= k with
      | Lt => (n, w) :: m
      | Eq => (k, w) :: m'
      | Gt => (k, w') :: map_set n w m'
      end
  end.

(** ** The ballot state *)

(** What the class calls on the driver and on the slot, in the order of the
    calls (newest first). *)
Inductive DriverCall :=
| emitEnvelope (e : SCPEnvelope)
| setupTimer (armedForCounter : option uint32)
| startedBallotProtocol (b : SCPBallot)
| acceptedBallotPrepared (b : SCPBallot)
| confirmedBallotPrepared (b : SCPBallot)
| acceptedCommit (b : SCPBallot)
| valueExternalized (v : Value)
| ballotDidHearFromQuorum (b : SCPBallot)
| stopNomination
| recordStatement (st : SCPStatement).

(** The members of [BallotProtocol], followed by what the class reads and
    writes outside itself: the slot's "fully validated" flag, the calls made
    on the driver, and the next address [wrapEnvelope] allocates at. *)
#[projections(primitive)]
Record BallotProtocol := mkState {
  mHeardFromQuorum : bool;
  mCurrentBallot : option SCPBallot;
  mPrepared : option SCPBallot;
  mPreparedPrime : option SCPBallot;
  mHighBallot : option SCPBallot;
  mCommit : option SCPBallot;
  mLatestEnvelopes : EnvMap;
  mPhase : SCPPhase;
  mValueOverride : option Value;
  mCurrentMessageLevel : Z;
  mTimerExpCount : uint32;
  mLastEnvelope : option SCPEnvelopeWrapper;
  mLastEnvelopeEmit : option SCPEnvelopeWrapper;
  isFullyValidated : bool;
  driverCalls : list DriverCall;
  nextPtr : N }.

(** The state built by the constructor, in a slot that is fully validated. *)
Definition initialState : BallotProtocol :=
  mkState false None None None None None [] SCP_PHASE_PREPARE None 0 0
          None None true [] 0.

Definition set_mHeardFromQuorum (v : bool) (s : BallotProtocol) :=
  mkState v (mCurrentBallot s) (mPrepared s) (mPreparedPrime s) (mHighBallot s)
    (mCommit s) (mLatestEnvelopes s) (mPhase s) (mValueOverride s)
    (mCurrentMessageLevel s) (mTimerExpCount s) (mLastEnvelope s)
    (mLastEnvelopeEmit s) (isFullyValidated s) (driverCalls s) (nextPtr s).

Definition set_mCurrentBallot (v : option SCPBallot) (s : BallotProtocol) :=
  mkState (mHeardFromQuorum s) v (mPrepared s) (mPreparedPrime s) (mHighBallot s)
    (mCommit s) (mLatestEnvelopes s) (mPhase s) (mValueOverride s)
    (mCurrentMessageLevel s) (mTimerExpCount s) (mLastEnvelope s)
    (mLastEnvelopeEmit s) (isFullyValidated s) (driverCalls s) (nextPtr s).

Definition set_mPrepared (v : option SCPBallot) (s : BallotProtocol) :=
  mkState (mHeardFromQuorum s) (mCurrentBallot s) v (mPreparedPrime s)
    (mHighBallot s) (mCommit s) (mLatestEnvelopes s) (mPhase s) (mValueOverride s)
    (mCurrentMessageLevel s) (mTimerExpCount s) (mLastEnvelope s)
    (mLastEnvelopeEmit s) (isFullyValidated s) (driverCalls s) (nextPtr s).

Definition set_mPreparedPrime (v : option SCPBallot) (s : BallotProtocol) :=
  mkState (mHeardFromQuorum s) (mCurrentBallot s) (mPrepared s) v
    (mHighBallot s) (mCommit s) (mLatestEnvelopes s) (mPhase s) (mValueOverride s)
    (mCurrentMessageLevel s) (mTimerExpCount s) (mLastEnvelope s)
    (mLastEnvelopeEmit s) (isFullyValidated s) (driverCalls s) (nextPtr s).

Definition set_mHighBallot (v : option SCPBallot) (s : BallotProtocol) :=
  mkState (mHeardFromQuorum s) (mCurrentBallot s) (mPrepared s) (mPreparedPrime s)
    v (mCommit s) (mLatestEnvelopes s) (mPhase s) (mValueOverride s)
    (mCurrentMessageLevel s) (mTimerExpCount s) (mLastEnvelope s)
    (mLastEnvelopeEmit s) (isFullyValidated s) (driverCalls s) (nextPtr s).

Definition set_mCommit (v : option SCPBallot) (s : BallotProtocol) :=
  mkState (mHeardFromQuorum s) (mCurrentBallot s) (mPrepared s) (mPreparedPrime s)
    (mHighBallot s) v (mLatestEnvelopes s) (mPhase s) (mValueOverride s)
    (mCurrentMessageLevel s) (mTimerExpCount s) (mLastEnvelope s)
    (mLastEnvelopeEmit s) (isFullyValidated s) (driverCalls s) (nextPtr s).

Definition set_mLatestEnvelopes (v : EnvMap) (s : BallotProtocol) :=
  mkState (mHeardFromQuorum s) (mCurrentBallot s) (mPrepared s) (mPreparedPrime s)
    (mHighBallot s) (mCommit s) v (mPhase s) (mValueOverride s)
    (mCurrentMessageLevel s) (mTimerExpCount s) (mLastEnvelope s)
    (mLastEnvelopeEmit s) (isFullyValidated s) (driverCalls s) (nextPtr s).

Definition set_mPhase (v : SCPPhase) (s : BallotProtocol) :=
  mkState (mHeardFromQuorum s) (mCurrentBallot s) (mPrepared s) (mPreparedPrime s)
    (mHighBallot s) (mCommit s) (mLatestEnvelopes s) v (mValueOverride s)
    (mCurrentMessageLevel s) (mTimerExpCount s) (mLastEnvelope s)
    (mLastEnvelopeEmit s) (isFullyValidated s) (driverCalls s) (nextPtr s).

Definition set_mValueOverride (v : option Value) (s : BallotProtocol) :=
  mkState (mHeardFromQuorum s) (mCurrentBallot s) (mPrepared s) (mPreparedPrime s)
    (mHighBallot s) (mCommit s) (mLatestEnvelopes s) (mPhase s) v
    (mCurrentMessageLevel s) (mTimerExpCount s) (mLastEnvelope s)
    (mLastEnvelopeEmit s) (isFullyValidated s) (driverCalls s) (nextPtr s).

Definition set_mCurrentMessageLevel (v : Z) (s : BallotProtocol) :=
  mkState (mHeardFromQuorum s) (mCurrentBallot s) (mPrepared s) (mPreparedPrime s)
    (mHighBallot s) (mCommit s) (mLatestEnvelopes s) (mPhase s) (mValueOverride s)
    v (mTimerExpCount s) (mLastEnvelope s)
    (mLastEnvelopeEmit s) (isFullyValidated s) (driverCalls s) (nextPtr s).

Definition set_mTimerExpCount (v : uint32) (s : BallotProtocol) :=
  mkState (mHeardFromQuorum s) (mCurrentBallot s) (mPrepared s) (mPreparedPrime s)
    (mHighBallot s) (mCommit s) (mLatestEnvelopes s) (mPhase s) (mValueOverride s)
    (mCurrentMessageLevel s) v (mLastEnvelope s)
    (mLastEnvelopeEmit s) (isFullyValidated s) (driverCalls s) (nextPtr s).

Definition set_mLastEnvelope (v : option SCPEnvelopeWrapper) (s : BallotProtocol) :=
  mkState (mHeardFromQuorum s) (mCurrentBallot s) (mPrepared s) (mPreparedPrime s)
    (mHighBallot s) (mCommit s) (mLatestEnvelopes s) (mPhase s) (mValueOverride s)
    (mCurrentMessageLevel s) (mTimerExpCount s) v
    (mLastEnvelopeEmit s) (isFullyValidated s) (driverCalls s) (nextPtr s).

Definition set_mLastEnvelopeEmit (v : option SCPEnvelopeWrapper) (s : BallotProtocol) :=
  mkState (mHeardFromQuorum s) (mCurrentBallot s) (mPrepared s) (mPreparedPrime s)
    (mHighBallot s) (mCommit s) (mLatestEnvelopes s) (mPhase s) (mValueOverride s)
    (mCurrentMessageLevel s) (mTimerExpCount s) (mLastEnvelope s)
    v (isFullyValidated s) (driverCalls s) (nextPtr s).

Definition setFullyValidated (v : bool) (s : BallotProtocol) :=
  mkState (mHeardFromQuorum s) (mCurrentBallot s) (mPrepared s) (mPreparedPrime s)
    (mHighBallot s) (mCommit s) (mLatestEnvelopes s) (mPhase s) (mValueOverride s)
    (mCurrentMessageLevel s) (mTimerExpCount s) (mLastEnvelope s)
    (mLastEnvelopeEmit s) v (driverCalls s) (nextPtr s).

Definition call (c : DriverCall) (s : BallotProtocol) :=
  mkState (mHeardFromQuorum s) (mCurrentBallot s) (mPrepared s) (mPreparedPrime s)
    (mHighBallot s) (mCommit s) (mLatestEnvelopes s) (mPhase s) (mValueOverride s)
    (mCurrentMessageLevel s) (mTimerExpCount s) (mLastEnvelope s)
    (mLastEnvelopeEmit s) (isFullyValidated s) (c :: driverCalls s) (nextPtr s).

Definition set_nextPtr (v : N) (s : BallotProtocol) :=
  mkState (mHeardFromQuorum s) (mCurrentBallot s) (mPrepared s) (mPreparedPrime s)
    (mHighBallot s) (mCommit s) (mLatestEnvelopes s) (mPhase s) (mValueOverride s)
    (mCurrentMessageLevel s) (mTimerExpCount s) (mLastEnvelope s)
    (mLastEnvelopeEmit s) (isFullyValidated s) (driverCalls s) v.

(** ** A state and error monad for the member functions *)

(** How a call ends otherwise than by returning: a C++ exception, a failed
    [dbgAssert], or the dereference of an empty pointer. *)
Inductive Exn :=
| RuntimeError (what : string)
| AssertionFailed
| NullDereference.

(** The two places where the embedding recurses without a structural
    argument: the nesting of [processEnvelope] through the emission of own
    statements, and the [do ... while] of the bump rule. *)
Inductive FuelKind := Depth | Loop.

Inductive Outcome (A : Type) :=
| Ret (a : A) (s : BallotProtocol)
| Raise (e : Exn) (s : BallotProtocol)
| OutOfFuel (k : FuelKind).

Arguments Ret {A} a s.
Arguments Raise {A} e s.
Arguments OutOfFuel {A} k.

Definition M (A : Type) := BallotProtocol -> Outcome A.

Definition ret {A} (a : A) : M A := fun s => Ret a s.

Definition bind {A B} (m : M A) (k : A -> M B) : M B :=
  fun s =>
    match m s with
    | Ret a s' => k a s'
    | Raise e s' => Raise e s'
    | OutOfFuel f => OutOfFuel f
    end.

Definition get : M BallotProtocol := fun s => Ret s s.
Definition modify (f : BallotProtocol -> BallotProtocol) : M unit :=
  fun s => Ret tt (f s).
Definition throw {A} (e : Exn) : M A := fun s => Raise e s.

(** [p->...] on a pointer that may be empty. *)
Definition deref {A} (o : option A) : M A :=
  match o with
  | Some a => ret a
  | None => throw NullDereference
  end.

Declare Scope scp_scope.
Delimit Scope scp_scope with scp.
Notation "x <- m ;; k" := (bind m (fun x => k))
  (at level 61, m at next level, right associativity) : scp_scope.
Notation "m ;; k" := (bind m (fun _ => k))
  (at level 61, right associativity) : scp_scope.
Local Open Scope scp_scope.

Definition isSome {A} (o : option A) : bool :=
  match o with Some _ => true | None => false end.

(** ** The collaborators *)

(** What the class consumes from outside [BallotProtocol.cpp]: the build
    flavour ([ndebug]: [dbgAssert] compiles to nothing), the slot, the driver
    and the quorum oracle of the local node.  The predicates of federated
    voting are passed to the oracle as functions on statements, as in the
    source. *)
Record Env := mkEnv {
  ndebug : bool;
  getLocalNodeID : NodeID;
  getSlotIndex : N;
  getQuorumSetHash : Hash;
  getQuorumSetFromStatement : SCPStatement -> option SCPQuorumSet;
  isQuorumSetSane : SCPQuorumSet -> bool;
  getLatestCompositeCandidate : option Value;
  validateValue : Value -> ValidationLevel;
  signEnvelope : SCPStatement -> list byte;
  federatedAccept :
    (SCPStatement -> bool) -> (SCPStatement -> bool) -> EnvMap -> bool;
  federatedRatify : (SCPStatement -> bool) -> EnvMap -> bool;
  isVBlocking : EnvMap -> (SCPStatement -> bool) -> bool;
  isQuorum : EnvMap -> (SCPStatement -> bool) -> bool }.

(** Modelled from the spec: the order of [SCPDriver::ValidationLevel], which
    is declared in SCPDriver.h: INVALID below MAYBE_VALID below FULLY_VALID. *)
Definition levelRank (l : ValidationLevel) : N :=
  match l with
  | kInvalidValue => 0
  | kMaybeValidValue => 1
  | kFullyValidatedValue => 2
  end.

Definition minLevel (a b : ValidationLevel) : ValidationLevel :=
  if levelRank b <? levelRank a then b else a.

(** [max number of transitions that can occur from processing one message] *)
Definition MAX_ADVANCE_SLOT_RECURSION : Z := 50.

Section Protocol.

Variable E : Env.

(** [dbgAssert(expression)]: nothing under [NDEBUG], where the expression is
    not evaluated; otherwise the process aborts when it is false. *)
Definition dbgAssert (expression : M bool) : M unit :=
  if ndebug E then ret tt
  else
    ok <- expression ;;
    if ok then ret tt else throw AssertionFailed.

Definition isNewerStatementFrom (n : NodeID) (st : SCPStatement) : M bool :=
  s <- get ;;
  match map_find n (mLatestEnvelopes s) with
  | None => ret true
  | Some old => ret (isNewerStatement (getStatement old) st)
  end.

Definition recordEnvelope (env : SCPEnvelopeWrapper) : M unit :=
  let st := getStatement env in
  modify (fun s => set_mLatestEnvelopes (map_set (nodeID st) env (mLatestEnvelopes s)) s) ;;
  modify (call (recordStatement st)).

Definition isStatementSane (st : SCPStatement) (self : bool) : bool :=
  let res :=
    match getQuorumSetFromStatement E st with
    | Some qSet => isQuorumSetSane E qSet
    | None => false
    end in
  if negb res then false
  else
    match pledges st with
    | SCP_ST_PREPARE p =>
        let isOK := self || (0 <? counter (p_ballot p)) in
        let isOK := isOK &&
          (match p_preparedPrime p, p_prepared p with
           | Some pp, Some pr => areBallotsLessAndIncompatible pp pr
           | _, _ => true
           end) in
        let isOK := isOK &&
          ((p_nH p =? 0) ||
           match p_prepared p with
           | Some pr => p_nH p <=? counter pr
           | None => false
           end) in
        let isOK := isOK &&
          ((p_nC p =? 0) ||
           (negb (p_nH p =? 0) && (p_nH p <=? counter (p_ballot p)) &&
            (p_nC p <=? p_nH p))) in
        if negb isOK then false else res
    | SCP_ST_CONFIRM c =>
        let res := 0 <? counter (c_ballot c) in
        let res := res && (c_nH c <=? counter (c_ballot c)) in
        let res := res && (c_nCommit c <=? c_nH c) in
        res
    | SCP_ST_EXTERNALIZE e =>
        let res := 0 <? counter (e_commit e) in
        let res := res && (counter (e_commit e) <=? e_nH e) in
        res
    end.

Definition valueOrder : Value -> Value -> comparison := compareValues.

Definition getStatementValues (st : SCPStatement) : list Value :=
  match pledges st with
  | SCP_ST_PREPARE prep =>
      let values := [] in
      let values :=
        if negb (counter (p_ballot prep) =? 0)
        then set_insert valueOrder (value (p_ballot prep)) values else values in
      let values :=
        match p_prepared prep with
        | Some pr => set_insert valueOrder (value pr) values
        | None => values
        end in
      match p_preparedPrime prep with
      | Some pp => set_insert valueOrder (value pp) values
      | None => values
      end
  | SCP_ST_CONFIRM c => set_insert valueOrder (value (c_ballot c)) []
  | SCP_ST_EXTERNALIZE e => set_insert valueOrder (value (e_commit e)) []
  end.

Definition validateValues (st : SCPStatement) : ValidationLevel :=
  let values := getStatementValues st in
  match values with
  | [] => kInvalidValue
  | _ =>
      fold_left
        (fun lv v =>
           if levelRank kInvalidValue <? levelRank lv
           then minLevel (validateValue E v) lv
           else lv)
        values kFullyValidatedValue
  end.

Definition sendLatestEnvelope : M unit :=
  s <- get ;;
  if (mCurrentMessageLevel s =? 0)%Z && isSome (mLastEnvelope s)
     && isFullyValidated s
  then
    match mLastEnvelope s with
    | Some last =>
        if match mLastEnvelopeEmit s with
           | None => true
           | Some sent => if Ptr_eq_dec (w_ptr last) (w_ptr sent) then false else true
           end
        then
          modify (set_mLastEnvelopeEmit (Some last)) ;;
          modify (call (emitEnvelope (getEnvelope last)))
        else ret tt
    | None => ret tt
    end
  else ret tt.

Definition checkInvariants : M unit :=
  s <- get ;;
  match mPhase s with
  | SCP_PHASE_PREPARE => ret tt
  | _ =>
      dbgAssert (ret (isSome (mCurrentBallot s))) ;;
      dbgAssert (ret (isSome (mPrepared s))) ;;
      dbgAssert (ret (isSome (mCommit s))) ;;
      dbgAssert (ret (isSome (mHighBallot s)))
  end ;;
  match mCurrentBallot s with
  | Some b => dbgAssert (ret (negb (counter b =? 0)))
  | None => ret tt
  end ;;
  match mPrepared s, mPreparedPrime s with
  | Some p, Some pp => dbgAssert (ret (areBallotsLessAndIncompatible pp p))
  | _, _ => ret tt
  end ;;
  match mHighBallot s with
  | Some h =>
      dbgAssert (ret (isSome (mCurrentBallot s))) ;;
      dbgAssert (b <- deref (mCurrentBallot s) ;;
                 ret (areBallotsLessAndCompatible h b))
  | None => ret tt
  end ;;
  match mCommit s with
  | Some c =>
      dbgAssert (ret (isSome (mCurrentBallot s))) ;;
      dbgAssert (h <- deref (mHighBallot s) ;;
                 ret (areBallotsLessAndCompatible c h)) ;;
      dbgAssert (h <- deref (mHighBallot s) ;;
                 b <- deref (mCurrentBallot s) ;;
                 ret (areBallotsLessAndCompatible h b))
  | None => ret tt
  end.

Definition createStatement (type : SCPStatementType) : M SCPStatement :=
  checkInvariants ;;
  s <- get ;;
  match type with
  | ST_PREPARE =>
      ret (mkStatement 0 0
             (SCP_ST_PREPARE
                (mkPrepare (getQuorumSetHash E)
                   (match mCurrentBallot s with Some b => b | None => nullBallot end)
                   (mPrepared s)
                   (mPreparedPrime s)
                   (match mCommit s with Some c => counter c | None => 0 end)
                   (match mHighBallot s with Some h => counter h | None => 0 end))))
  | ST_CONFIRM =>
      b <- deref (mCurrentBallot s) ;;
      p <- deref (mPrepared s) ;;
      c <- deref (mCommit s) ;;
      h <- deref (mHighBallot s) ;;
      ret (mkStatement 0 0
             (SCP_ST_CONFIRM
                (mkConfirm b (counter p) (counter c) (counter h)
                   (getQuorumSetHash E))))
  | ST_EXTERNALIZE =>
      c <- deref (mCommit s) ;;
      h <- deref (mHighBallot s) ;;
      ret (mkStatement 0 0
             (SCP_ST_EXTERNALIZE (mkExternalize c (counter h) (getQuorumSetHash E))))
  end.

(** Modelled from the spec: [Slot::createEnvelope] (Slot.cpp), which stamps
    the statement with the local node and the slot index and has the driver
    sign it. *)
Definition createEnvelope (st : SCPStatement) : SCPEnvelope :=
  let mySt := mkStatement (getLocalNodeID E) (getSlotIndex E) (pledges st) in
  mkEnvelope mySt (signEnvelope E mySt).

(** [SCPDriver::wrapEnvelope]: a fresh shared wrapper. *)
Definition wrapEnvelope (e : SCPEnvelope) : M SCPEnvelopeWrapper :=
  s <- get ;;
  modify (set_nextPtr (nextPtr s + 1)) ;;
  ret (mkWrapper (OwnPtr (nextPtr s)) e).

(** Modelled from the spec: [Slot::processEnvelope] (Slot.cpp) hands a
    ballot statement to [BallotProtocol::processEnvelope]; it is the
    parameter [slotProcessEnvelope] of the functions below, and
    [processEnvelope] ties the knot. *)
Variable slotProcessEnvelope : SCPEnvelopeWrapper -> bool -> M EnvelopeState.

Definition emitCurrentStateStatement : M unit :=
  s <- get ;;
  let t :=
    match mPhase s with
    | SCP_PHASE_PREPARE => ST_PREPARE
    | SCP_PHASE_CONFIRM => ST_CONFIRM
    | SCP_PHASE_EXTERNALIZE => ST_EXTERNALIZE
    end in
  stmt <- createStatement t ;;
  let envelope := createEnvelope stmt in
  s <- get ;;
  let canEmit := isSome (mCurrentBallot s) in
  let lastEnv := map_find (getLocalNodeID E) (mLatestEnvelopes s) in
  if match lastEnv with
     | None => true
     | Some w => if SCPEnvelope_eq_dec (getEnvelope w) envelope then false else true
     end
  then
    envW <- wrapEnvelope envelope ;;
    r <- slotProcessEnvelope envW true ;;
    match r with
    | VALID =>
        s <- get ;;
        if canEmit &&
           match mLastEnvelope s with
           | None => true
           | Some last => isNewerStatement (getStatement last) (statement envelope)
           end
        then
          modify (set_mLastEnvelope (Some envW)) ;;
          sendLatestEnvelope
        else ret tt
    | INVALID =>
        throw (RuntimeError "moved to a bad state (ballot protocol)")
    end
  else ret tt.

(** [bumpToBallot(ballot, check)] *)
Definition bumpToBallot (ballot : SCPBallot) (check : bool) : M unit :=
  s <- get ;;
  dbgAssert (ret (negb (phase_eqb (mPhase s) SCP_PHASE_EXTERNALIZE))) ;;
  (if check then
     dbgAssert (ret (match mCurrentBallot s with
                     | None => true
                     | Some b => (compareBallots ballot b >=? 0)%Z
                     end))
   else ret tt) ;;
  let gotBumped :=
    match mCurrentBallot s with
    | None => true
    | Some b => negb (counter b =? counter ballot)
    end in
  (if isSome (mCurrentBallot s) then ret tt
   else modify (call (startedBallotProtocol ballot))) ;;
  modify (set_mCurrentBallot (Some ballot)) ;;
  (match mHighBallot s with
   | Some h =>
       if negb (areBallotsCompatible ballot h)
       then modify (set_mHighBallot None) ;; modify (set_mCommit None)
       else ret tt
   | None => ret tt
   end) ;;
  if gotBumped then modify (set_mHeardFromQuorum false) else ret tt.

Definition phaseIsPrepareOrConfirm (s : BallotProtocol) : bool :=
  phase_eqb (mPhase s) SCP_PHASE_PREPARE || phase_eqb (mPhase s) SCP_PHASE_CONFIRM.

(** [updateCurrentValue(ballot)] *)
Definition updateCurrentValue (ballot : SCPBallot) : M bool :=
  s <- get ;;
  if negb (phaseIsPrepareOrConfirm s) then ret false
  else
    match mCurrentBallot s with
    | None =>
        bumpToBallot ballot true ;;
        checkInvariants ;;
        ret true
    | Some b =>
        dbgAssert (ret (compareBallots b ballot <=? 0)%Z) ;;
        if match mCommit s with
           | Some c => negb (areBallotsCompatible c ballot)
           | None => false
           end
        then ret false
        else
          let comp := compareBallots b ballot in
          if (comp <? 0)%Z then
            bumpToBallot ballot true ;;
            checkInvariants ;;
            ret true
          else if (comp >? 0)%Z then ret false
          else
            checkInvariants ;;
            ret false
    end.

Definition startBallotProtocolTimer : M unit :=
  s <- get ;;
  b <- deref (mCurrentBallot s) ;;
  modify (call (setupTimer (Some (counter b)))).

Definition stopBallotProtocolTimer : M unit :=
  modify (call (setupTimer None)).

(** [checkHeardFromQuorum] *)
Definition checkHeardFromQuorum : M unit :=
  s <- get ;;
  match mCurrentBallot s with
  | Some b =>
      if isQuorum E (mLatestEnvelopes s)
           (fun st =>
              match pledges st with
              | SCP_ST_PREPARE p => counter b <=? counter (p_ballot p)
              | _ => true
              end)
      then
        let oldHQ := mHeardFromQuorum s in
        modify (set_mHeardFromQuorum true) ;;
        (if negb oldHQ then
           modify (call (ballotDidHearFromQuorum b)) ;;
           if negb (phase_eqb (mPhase s) SCP_PHASE_EXTERNALIZE)
           then startBallotProtocolTimer else ret tt
         else ret tt) ;;
        if phase_eqb (mPhase s) SCP_PHASE_EXTERNALIZE
        then stopBallotProtocolTimer else ret tt
      else
        modify (set_mHeardFromQuorum false) ;;
        stopBallotProtocolTimer
  | None => ret tt
  end.

(** [bumpState(value, uint32 n)] *)
Definition bumpState (value : Value) (n : uint32) : M bool :=
  s <- get ;;
  if negb (phaseIsPrepareOrConfirm s) then ret false
  else
    let newb :=
      mkBallot n (match mValueOverride s with
                  | Some v => v
                  | None => value
                  end) in
    updated <- updateCurrentValue newb ;;
    (if updated then emitCurrentStateStatement ;; checkHeardFromQuorum
     else ret tt) ;;
    ret updated.

(** [bumpState(value, bool force)] *)
Definition bumpStateForce (value : Value) (force : bool) : M bool :=
  s <- get ;;
  if negb force && isSome (mCurrentBallot s) then ret false
  else
    let n :=
      match mCurrentBallot s with
      | Some b => (counter b + 1) mod uint32_modulus
      | None => 1
      end in
    bumpState value n.

(** [abandonBallot(n)] *)
Definition abandonBallot (n : uint32) : M bool :=
  s <- get ;;
  let v := getLatestCompositeCandidate E in
  let v :=
    if match v with None => true | Some x => value_empty x end
    then match mCurrentBallot s with
         | Some b => Some (value b)
         | None => v
         end
    else v in
  match v with
  | Some x =>
      if negb (value_empty x) then
        if n =? 0 then bumpStateForce x true else bumpState x n
      else ret false
  | None => ret false
  end.

(** [ballotProtocolTimerExpired] *)
Definition ballotProtocolTimerExpired : M unit :=
  modify (fun s => set_mTimerExpCount ((mTimerExpCount s + 1) mod uint32_modulus) s) ;;
  abandonBallot 0 ;;
  ret tt.

(** *** Candidate ballots of the prepare steps *)

Definition insertBallot (b : SCPBallot) (l : list SCPBallot) : list SCPBallot :=
  set_insert ballotOrder b l.

(** The ballots of the hint, from which [getPrepareCandidates] starts. *)
Definition hintBallots (hint : SCPStatement) : list SCPBallot :=
  match pledges hint with
  | SCP_ST_PREPARE prep =>
      let hb := insertBallot (p_ballot prep) [] in
      let hb :=
        match p_prepared prep with
        | Some pr => insertBallot pr hb
        | None => hb
        end in
      match p_preparedPrime prep with
      | Some pp => insertBallot pp hb
      | None => hb
      end
  | SCP_ST_CONFIRM con =>
      insertBallot (mkBallot UINT32_MAX (value (c_ballot con)))
        (insertBallot (mkBallot (c_nPrepared con) (value (c_ballot con))) [])
  | SCP_ST_EXTERNALIZE ext =>
      insertBallot (mkBallot UINT32_MAX (value (e_commit ext))) []
  end.

(** The body of the loop over [mLatestEnvelopes], for one [topVote]. *)
Definition candidatesOfStatement (topVote : SCPBallot) (candidates : list SCPBallot)
    (st : SCPStatement) : list SCPBallot :=
  let val := value topVote in
  match pledges st with
  | SCP_ST_PREPARE prep =>
      let candidates :=
        if areBallotsLessAndCompatible (p_ballot prep) topVote
        then insertBallot (p_ballot prep) candidates else candidates in
      let candidates :=
        match p_prepared prep with
        | Some pr =>
            if areBallotsLessAndCompatible pr topVote
            then insertBallot pr candidates else candidates
        | None => candidates
        end in
      match p_preparedPrime prep with
      | Some pp =>
          if areBallotsLessAndCompatible pp topVote
          then insertBallot pp candidates else candidates
      | None => candidates
      end
  | SCP_ST_CONFIRM con =>
      if areBallotsCompatible topVote (c_ballot con) then
        let candidates := insertBallot topVote candidates in
        if c_nPrepared con <? counter topVote
        then insertBallot (mkBallot (c_nPrepared con) val) candidates
        else candidates
      else candidates
  | SCP_ST_EXTERNALIZE ext =>
      if areBallotsCompatible topVote (e_commit ext)
      then insertBallot topVote candidates else candidates
  end.

(** [getPrepareCandidates(hint)]: the hint ballots are taken from the
    highest down. *)
Definition getPrepareCandidates (hint : SCPStatement) (envs : EnvMap)
  : list SCPBallot :=
  fold_left
    (fun candidates topVote =>
       fold_left
         (fun candidates e => candidatesOfStatement topVote candidates (getStatement (snd e)))
         envs candidates)
    (rev (hintBallots hint)) [].

(** [hasPreparedBallot(ballot, st)] *)
Definition hasPreparedBallot (ballot : SCPBallot) (st : SCPStatement) : bool :=
  match pledges st with
  | SCP_ST_PREPARE p =>
      match p_prepared p with
      | Some pr => areBallotsLessAndCompatible ballot pr
      | None => false
      end
      ||
      match p_preparedPrime p with
      | Some pp => areBallotsLessAndCompatible ballot pp
      | None => false
      end
  | SCP_ST_CONFIRM c =>
      areBallotsLessAndCompatible ballot (mkBallot (c_nPrepared c) (value (c_ballot c)))
  | SCP_ST_EXTERNALIZE e => areBallotsCompatible ballot (e_commit e)
  end.

(** The first predicate of [federatedAccept] in [attemptAcceptPrepared]: the
    statement votes to prepare [ballot]. *)
Definition votesToPrepare (ballot : SCPBallot) (st : SCPStatement) : bool :=
  match pledges st with
  | SCP_ST_PREPARE p => areBallotsLessAndCompatible ballot (p_ballot p)
  | SCP_ST_CONFIRM c => areBallotsCompatible ballot (c_ballot c)
  | SCP_ST_EXTERNALIZE e => areBallotsCompatible ballot (e_commit e)
  end.

(** [updateCurrentIfNeeded(h)] *)
Definition updateCurrentIfNeeded (h : SCPBallot) : M bool :=
  s <- get ;;
  if match mCurrentBallot s with
     | None => true
     | Some b => (compareBallots b h <? 0)%Z
     end
  then bumpToBallot h true ;; ret true
  else ret false.

(** [setPrepared(ballot)] *)
Definition setPrepared (ballot : SCPBallot) : M bool :=
  s <- get ;;
  match mPrepared s with
  | Some p =>
      let comp := compareBallots p ballot in
      if (comp <? 0)%Z then
        (if negb (areBallotsCompatible p ballot)
         then modify (set_mPreparedPrime (Some p)) else ret tt) ;;
        modify (set_mPrepared (Some ballot)) ;;
        ret true
      else if (comp >? 0)%Z then
        if match mPreparedPrime s with
           | None => true
           | Some pp =>
               (compareBallots pp ballot <? 0)%Z && negb (areBallotsCompatible p ballot)
           end
        then modify (set_mPreparedPrime (Some ballot)) ;; ret true
        else ret false
      else ret false
  | None =>
      modify (set_mPrepared (Some ballot)) ;;
      ret true
  end.

(** [setAcceptPrepared(ballot)] *)
Definition setAcceptPrepared (ballot : SCPBallot) : M bool :=
  didWork <- setPrepared ballot ;;
  s <- get ;;
  didWork <-
    match mCommit s, mHighBallot s with
    | Some _, Some h =>
        if match mPrepared s with
           | Some p => areBallotsLessAndIncompatible h p
           | None => false
           end
           ||
           match mPreparedPrime s with
           | Some pp => areBallotsLessAndIncompatible h pp
           | None => false
           end
        then
          dbgAssert (ret (phase_eqb (mPhase s) SCP_PHASE_PREPARE)) ;;
          modify (set_mCommit None) ;;
          ret true
        else ret didWork
    | _, _ => ret didWork
    end ;;
  (if didWork then
     modify (call (acceptedBallotPrepared ballot)) ;;
     emitCurrentStateStatement
   else ret tt) ;;
  ret didWork.

(** The loop of [attemptAcceptPrepared] over the candidates, highest first:
    the first ballot that is federated-accepted, if any. *)
Fixpoint acceptPreparedSearch (candidates : list SCPBallot) : M (option SCPBallot) :=
  match candidates with
  | [] => ret None
  | ballot :: rest =>
      s <- get ;;
      skip <-
        (if phase_eqb (mPhase s) SCP_PHASE_CONFIRM then
           p <- deref (mPrepared s) ;;
           if negb (areBallotsLessAndCompatible p ballot) then ret true
           else
             dbgAssert (c <- deref (mCommit s) ;;
                        ret (areBallotsCompatible c ballot)) ;;
             ret false
         else ret false) ;;
      if skip then acceptPreparedSearch rest
      else if match mPreparedPrime s with
              | Some pp => (compareBallots ballot pp <=? 0)%Z
              | None => false
              end
      then acceptPreparedSearch rest
      else if match mPrepared s with
              | Some p => areBallotsLessAndCompatible ballot p
              | None => false
              end
      then acceptPreparedSearch rest
      else if federatedAccept E (votesToPrepare ballot) (hasPreparedBallot ballot)
                (mLatestEnvelopes s)
      then ret (Some ballot)
      else acceptPreparedSearch rest
  end.

(** [attemptAcceptPrepared(hint)] *)
Definition attemptAcceptPrepared (hint : SCPStatement) : M bool :=
  s <- get ;;
  if negb (phaseIsPrepareOrConfirm s) then ret false
  else
    let candidates := getPrepareCandidates hint (mLatestEnvelopes s) in
    found <- acceptPreparedSearch (rev candidates) ;;
    match found with
    | Some ballot => setAcceptPrepared ballot
    | None => ret false
    end.

(** [setConfirmPrepared(newC, newH)] *)
Definition setConfirmPrepared (newC newH : SCPBallot) : M bool :=
  modify (set_mValueOverride (Some (value newH))) ;;
  s <- get ;;
  didWork <-
    (if match mCurrentBallot s with
        | None => true
        | Some b => areBallotsCompatible b newH
        end
     then
       didWork <-
         (if match mHighBallot s with
             | None => true
             | Some h => (compareBallots newH h >? 0)%Z
             end
          then modify (set_mHighBallot (Some newH)) ;; ret true
          else ret false) ;;
       didWork <-
         (if negb (counter newC =? 0) then
            dbgAssert (ret (negb (isSome (mCommit s)))) ;;
            modify (set_mCommit (Some newC)) ;;
            ret true
          else ret didWork) ;;
       (if didWork then modify (call (confirmedBallotPrepared newH)) else ret tt) ;;
       ret didWork
     else ret false) ;;
  updated <- updateCurrentIfNeeded newH ;;
  let didWork := updated || didWork in
  (if didWork then emitCurrentStateStatement else ret tt) ;;
  ret didWork.

(** The first loop of [attemptConfirmPrepared]: the highest candidate above
    [h] that is ratified as prepared, with the iterator left on it. *)
Fixpoint findNewH (s : BallotProtocol) (cur : list SCPBallot)
  : option (SCPBallot * list SCPBallot) :=
  match cur with
  | [] => None
  | ballot :: rest =>
      if match mHighBallot s with
         | Some h => (compareBallots h ballot >=? 0)%Z
         | None => false
         end
      then None
      else if federatedRatify E (hasPreparedBallot ballot) (mLatestEnvelopes s)
      then Some (ballot, cur)
      else findNewH s rest
  end.

(** The second loop: step (3) of the paper, the lowest ballot from [newH]
    down that is still ratified. *)
Fixpoint findNewC (s : BallotProtocol) (b newH : SCPBallot) (cur : list SCPBallot)
    (newC : SCPBallot) : SCPBallot :=
  match cur with
  | [] => newC
  | ballot :: rest =>
      if (compareBallots ballot b <? 0)%Z then newC
      else if negb (areBallotsLessAndCompatible ballot newH)
      then findNewC s b newH rest newC
      else if federatedRatify E (hasPreparedBallot ballot) (mLatestEnvelopes s)
      then findNewC s b newH rest ballot
      else newC
  end.

(** [attemptConfirmPrepared(hint)] *)
Definition attemptConfirmPrepared (hint : SCPStatement) : M bool :=
  s <- get ;;
  if negb (phase_eqb (mPhase s) SCP_PHASE_PREPARE) then ret false
  else if negb (isSome (mPrepared s)) then ret false
  else
    let candidates := getPrepareCandidates hint (mLatestEnvelopes s) in
    match findNewH s (rev candidates) with
    | Some (newH, cur) =>
        let b := match mCurrentBallot s with Some b => b | None => nullBallot end in
        let newC :=
          if negb (isSome (mCommit s))
             && match mPrepared s with
                | None => true
                | Some p => negb (areBallotsLessAndIncompatible newH p)
                end
             && match mPreparedPrime s with
                | None => true
                | Some pp => negb (areBallotsLessAndIncompatible newH pp)
                end
          then findNewC s b newH cur nullBallot
          else nullBallot in
        setConfirmPrepared newC newH
    | None => ret false
    end.

(** *** Commit intervals *)

Definition Interval := (uint32 * uint32)%type.

(** [commitPredicate(ballot, check, st)] *)
Definition commitPredicate (ballot : SCPBallot) (check : Interval)
    (st : SCPStatement) : bool :=
  match pledges st with
  | SCP_ST_PREPARE _ => false
  | SCP_ST_CONFIRM c =>
      if areBallotsCompatible ballot (c_ballot c)
      then (c_nCommit c <=? fst check) && (snd check <=? c_nH c)
      else false
  | SCP_ST_EXTERNALIZE e =>
      if areBallotsCompatible ballot (e_commit e)
      then counter (e_commit e) <=? fst check
      else false
  end.

(** [findExtendedInterval(candidate, boundaries, pred)]; [boundaries] is
    given from the top down, as the reverse iterators visit it. *)
Fixpoint findExtendedInterval (candidate : Interval) (boundaries : list uint32)
    (pred : Interval -> bool) : Interval :=
  match boundaries with
  | [] => candidate
  | b :: rest =>
      if fst candidate =? 0 then
        let cur := (b, b) in
        if pred cur then findExtendedInterval cur rest pred
        else findExtendedInterval candidate rest pred
      else if snd candidate <? b then findExtendedInterval candidate rest pred
      else
        let cur := (b, snd candidate) in
        if pred cur then findExtendedInterval cur rest pred
        else candidate
  end.

Definition insertCounter (n : uint32) (l : list uint32) : list uint32 :=
  set_insert N.compare n l.

(** [getCommitBoundariesFromStatements(ballot)] *)
Definition getCommitBoundariesFromStatements (ballot : SCPBallot) (envs : EnvMap)
  : list uint32 :=
  fold_left
    (fun res env =>
       match pledges (getStatement (snd env)) with
       | SCP_ST_PREPARE p =>
           if areBallotsCompatible ballot (p_ballot p) then
             if negb (p_nC p =? 0)
             then insertCounter (p_nH p) (insertCounter (p_nC p) res)
             else res
           else res
       | SCP_ST_CONFIRM c =>
           if areBallotsCompatible ballot (c_ballot c)
           then insertCounter (c_nH c) (insertCounter (c_nCommit c) res)
           else res
       | SCP_ST_EXTERNALIZE e =>
           if areBallotsCompatible ballot (e_commit e)
           then insertCounter UINT32_MAX
                  (insertCounter (e_nH e) (insertCounter (counter (e_commit e)) res))
           else res
       end)
    envs [].

(** The first predicate of [federatedAccept] in [attemptAcceptCommit]: the
    statement votes to commit [ballot] on the whole interval. *)
Definition votesToCommit (ballot : SCPBallot) (cur : Interval) (st : SCPStatement)
  : bool :=
  match pledges st with
  | SCP_ST_PREPARE p =>
      if areBallotsCompatible ballot (p_ballot p) then
        if negb (p_nC p =? 0)
        then (p_nC p <=? fst cur) && (snd cur <=? p_nH p)
        else false
      else false
  | SCP_ST_CONFIRM c =>
      if areBallotsCompatible ballot (c_ballot c)
      then c_nCommit c <=? fst cur
      else false
  | SCP_ST_EXTERNALIZE e =>
      if areBallotsCompatible ballot (e_commit e)
      then counter (e_commit e) <=? fst cur
      else false
  end.

(** [setAcceptCommit(c, h)] *)
Definition setAcceptCommit (c h : SCPBallot) : M bool :=
  modify (set_mValueOverride (Some (value h))) ;;
  s <- get ;;
  didWork <-
    (if match mHighBallot s, mCommit s with
        | Some oldH, Some oldC =>
            negb (compareBallots oldH h =? 0)%Z || negb (compareBallots oldC c =? 0)%Z
        | _, _ => true
        end
     then
       modify (set_mCommit (Some c)) ;;
       modify (set_mHighBallot (Some h)) ;;
       ret true
     else ret false) ;;
  didWork <-
    (if phase_eqb (mPhase s) SCP_PHASE_PREPARE then
       modify (set_mPhase SCP_PHASE_CONFIRM) ;;
       (match mCurrentBallot s with
        | Some b =>
            if negb (areBallotsLessAndCompatible h b)
            then bumpToBallot h false else ret tt
        | None => ret tt
        end) ;;
       modify (set_mPreparedPrime None) ;;
       ret true
     else ret didWork) ;;
  (if didWork then
     s <- get ;;
     newH <- deref (mHighBallot s) ;;
     updateCurrentIfNeeded newH ;;
     modify (call (acceptedCommit h)) ;;
     emitCurrentStateStatement
   else ret tt) ;;
  ret didWork.

(** [attemptAcceptCommit(hint)] *)
Definition attemptAcceptCommit (hint : SCPStatement) : M bool :=
  s <- get ;;
  if negb (phaseIsPrepareOrConfirm s) then ret false
  else
    match
      match pledges hint with
      | SCP_ST_PREPARE prep =>
          if negb (p_nC prep =? 0)
          then Some (mkBallot (p_nH prep) (value (p_ballot prep)))
          else None
      | SCP_ST_CONFIRM con => Some (mkBallot (c_nH con) (value (c_ballot con)))
      | SCP_ST_EXTERNALIZE ext => Some (mkBallot (e_nH ext) (value (e_commit ext)))
      end
    with
    | None => ret false
    | Some ballot =>
        incompatible <-
          (if phase_eqb (mPhase s) SCP_PHASE_CONFIRM then
             h <- deref (mHighBallot s) ;;
             ret (negb (areBallotsCompatible ballot h))
           else ret false) ;;
        if (incompatible : bool) then ret false
        else
          let pred := fun cur : Interval =>
            federatedAccept E (votesToCommit ballot cur) (commitPredicate ballot cur)
              (mLatestEnvelopes s) in
          let boundaries := getCommitBoundariesFromStatements ballot (mLatestEnvelopes s) in
          match boundaries with
          | [] => ret false
          | _ =>
              let candidate := findExtendedInterval (0, 0) (rev boundaries) pred in
              if negb (fst candidate =? 0) then
                proceed <-
                  (if negb (phase_eqb (mPhase s) SCP_PHASE_CONFIRM) then ret true
                   else
                     h <- deref (mHighBallot s) ;;
                     ret (counter h <? snd candidate)) ;;
                if (proceed : bool) then
                  setAcceptCommit (mkBallot (fst candidate) (value ballot))
                                  (mkBallot (snd candidate) (value ballot))
                else ret false
              else ret false
          end
    end.

(** [setConfirmCommit(c, h)] *)
Definition setConfirmCommit (c h : SCPBallot) : M bool :=
  modify (set_mCommit (Some c)) ;;
  modify (set_mHighBallot (Some h)) ;;
  updateCurrentIfNeeded h ;;
  modify (set_mPhase SCP_PHASE_EXTERNALIZE) ;;
  emitCurrentStateStatement ;;
  modify (call stopNomination) ;;
  s <- get ;;
  cm <- deref (mCommit s) ;;
  modify (call (valueExternalized (value cm))) ;;
  ret true.

(** [attemptConfirmCommit(hint)] *)
Definition attemptConfirmCommit (hint : SCPStatement) : M bool :=
  s <- get ;;
  if negb (phase_eqb (mPhase s) SCP_PHASE_CONFIRM) then ret false
  else
    match mHighBallot s, mCommit s with
    | Some _, Some oldC =>
        match
          match pledges hint with
          | SCP_ST_PREPARE _ => None
          | SCP_ST_CONFIRM con => Some (mkBallot (c_nH con) (value (c_ballot con)))
          | SCP_ST_EXTERNALIZE ext => Some (mkBallot (e_nH ext) (value (e_commit ext)))
          end
        with
        | None => ret false
        | Some ballot =>
            if negb (areBallotsCompatible ballot oldC) then ret false
            else
              let boundaries :=
                getCommitBoundariesFromStatements ballot (mLatestEnvelopes s) in
              let pred := fun cur : Interval =>
                federatedRatify E (commitPredicate ballot cur) (mLatestEnvelopes s) in
              let candidate := findExtendedInterval (0, 0) (rev boundaries) pred in
              if negb (fst candidate =? 0) then
                setConfirmCommit (mkBallot (fst candidate) (value ballot))
                                 (mkBallot (snd candidate) (value ballot))
              else ret false
        end
    | _, _ => ret false
    end.

(** *** The bump rule *)

Definition statementBallotCounter (st : SCPStatement) : uint32 :=
  match pledges st with
  | SCP_ST_PREPARE p => counter (p_ballot p)
  | SCP_ST_CONFIRM c => counter (c_ballot c)
  | SCP_ST_EXTERNALIZE _ => UINT32_MAX
  end.

Definition hasVBlockingSubsetStrictlyAheadOf (map : EnvMap) (n : uint32) : bool :=
  isVBlocking E map (fun st => n <? statementBallotCounter st).

(** [attemptBump] *)
Definition attemptBump : M bool :=
  s <- get ;;
  if phaseIsPrepareOrConfirm s then
    let localCounter :=
      match mCurrentBallot s with Some b => counter b | None => 0 end in
    if negb (hasVBlockingSubsetStrictlyAheadOf (mLatestEnvelopes s) localCounter)
    then ret false
    else
      let allCounters :=
        fold_left
          (fun acc e =>
             let c := statementBallotCounter (getStatement (snd e)) in
             if localCounter <? c then insertCounter c acc else acc)
          (mLatestEnvelopes s) [] in
      match
        find (fun n => negb (hasVBlockingSubsetStrictlyAheadOf (mLatestEnvelopes s) n))
          allCounters
      with
      | Some n => abandonBallot n
      | None => ret false
      end
  else ret false.

(** The [do ... while (didBump)] of [advanceSlot]. *)
Fixpoint bumpLoop (fuel : nat) (didWork : bool) : M bool :=
  match fuel with
  | O => fun _ => OutOfFuel Loop
  | S fuel' =>
      didBump <- attemptBump ;;
      let didWork := didBump || didWork in
      if didBump then bumpLoop fuel' didWork else ret didWork
  end.

(** [advanceSlot(hint)] *)
Definition advanceSlot (loopFuel : nat) (hint : SCPStatement) : M unit :=
  modify (fun s => set_mCurrentMessageLevel (mCurrentMessageLevel s + 1) s) ;;
  s <- get ;;
  if (mCurrentMessageLevel s >=? MAX_ADVANCE_SLOT_RECURSION)%Z then
    throw (RuntimeError "maximum number of transitions reached in advanceSlot")
  else
    let didWork := false in
    r <- attemptAcceptPrepared hint ;;
    let didWork := r || didWork in
    r <- attemptConfirmPrepared hint ;;
    let didWork := r || didWork in
    r <- attemptAcceptCommit hint ;;
    let didWork := r || didWork in
    r <- attemptConfirmCommit hint ;;
    let didWork := r || didWork in
    s <- get ;;
    didWork <-
      (if (mCurrentMessageLevel s =? 1)%Z then
         didWork <- bumpLoop loopFuel didWork ;;
         checkHeardFromQuorum ;;
         ret didWork
       else ret didWork) ;;
    modify (fun s => set_mCurrentMessageLevel (mCurrentMessageLevel s - 1) s) ;;
    if (didWork : bool) then sendLatestEnvelope else ret tt.

(** [processEnvelope(envelope, self)] *)
Definition processEnvelopeBody (loopFuel : nat) (envelope : SCPEnvelopeWrapper)
    (self : bool) : M EnvelopeState :=
  let stmt := getStatement envelope in
  dbgAssert (ret (slotIndex stmt =? getSlotIndex E)) ;;
  if negb (isStatementSane stmt self) then ret INVALID
  else
    newer <- isNewerStatementFrom (nodeID stmt) stmt ;;
    if negb newer then ret INVALID
    else
      let validationRes := validateValues stmt in
      match validationRes with
      | kInvalidValue => ret INVALID
      | _ =>
          s <- get ;;
          if negb (phase_eqb (mPhase s) SCP_PHASE_EXTERNALIZE) then
            (match validationRes with
             | kMaybeValidValue => modify (setFullyValidated false)
             | _ => ret tt
             end) ;;
            recordEnvelope envelope ;;
            advanceSlot loopFuel stmt ;;
            ret VALID
          else
            dbgAssert (ret (phase_eqb (mPhase s) SCP_PHASE_EXTERNALIZE)) ;;
            c <- deref (mCommit s) ;;
            if value_eqb (value c) (value (getWorkingBallot stmt)) then
              recordEnvelope envelope ;;
              ret VALID
            else ret INVALID
      end.

(** [setStateFromEnvelope(e)] *)
Definition setStateFromEnvelope (e : SCPEnvelopeWrapper) : M unit :=
  s <- get ;;
  if isSome (mCurrentBallot s) then
    throw (RuntimeError "Cannot set state after starting ballot protocol")
  else
    recordEnvelope e ;;
    modify (set_mLastEnvelope (Some e)) ;;
    modify (fun s => set_mLastEnvelopeEmit (mLastEnvelope s) s) ;;
    match pledges (getStatement e) with
    | SCP_ST_PREPARE prep =>
        let b := p_ballot prep in
        bumpToBallot b true ;;
        (match p_prepared prep with
         | Some pr => modify (set_mPrepared (Some pr))
         | None => ret tt
         end) ;;
        (match p_preparedPrime prep with
         | Some pp => modify (set_mPreparedPrime (Some pp))
         | None => ret tt
         end) ;;
        (if negb (p_nH prep =? 0)
         then modify (set_mHighBallot (Some (mkBallot (p_nH prep) (value b))))
         else ret tt) ;;
        (if negb (p_nC prep =? 0)
         then modify (set_mCommit (Some (mkBallot (p_nC prep) (value b))))
         else ret tt) ;;
        modify (set_mPhase SCP_PHASE_PREPARE)
    | SCP_ST_CONFIRM c =>
        let v := value (c_ballot c) in
        bumpToBallot (c_ballot c) true ;;
        modify (set_mPrepared (Some (mkBallot (c_nPrepared c) v))) ;;
        modify (set_mHighBallot (Some (mkBallot (c_nH c) v))) ;;
        modify (set_mCommit (Some (mkBallot (c_nCommit c) v))) ;;
        modify (set_mPhase SCP_PHASE_CONFIRM)
    | SCP_ST_EXTERNALIZE ext =>
        let v := value (e_commit ext) in
        bumpToBallot (mkBallot UINT32_MAX v) true ;;
        modify (set_mPrepared (Some (mkBallot UINT32_MAX v))) ;;
        modify (set_mHighBallot (Some (mkBallot (e_nH ext) v))) ;;
        modify (set_mCommit (Some (e_commit ext))) ;;
        modify (set_mPhase SCP_PHASE_EXTERNALIZE)
    end.

End Protocol.

(** [processEnvelope], with the nesting through [Slot::processEnvelope]
    unrolled [depth] times. *)
Fixpoint processEnvelope (E : Env) (depth loopFuel : nat)
    (envelope : SCPEnvelopeWrapper) (self : bool) : M EnvelopeState :=
  processEnvelopeBody E
    (match depth with
     | O => fun _ _ _ => OutOfFuel Depth
     | S depth' => processEnvelope E depth' loopFuel
     end)
    loopFuel envelope self.

(** The entry points the slot calls, with the same unrolling. *)
Definition runBumpState (E : Env) (depth loopFuel : nat) (value : Value)
    (force : bool) : M bool :=
  bumpStateForce E (processEnvelope E depth loopFuel) value force.

Definition runAbandonBallot (E : Env) (depth loopFuel : nat) (n : uint32) : M bool :=
  abandonBallot E (processEnvelope E depth loopFuel) n.

Definition runBallotProtocolTimerExpired (E : Env) (depth loopFuel : nat) : M unit :=
  ballotProtocolTimerExpired E (processEnvelope E depth loopFuel).

(** ** A concrete quorum oracle *)

(** Modelled from the spec: the quorum oracle of the local node
    (LocalNode.cpp) and the federated voting of the slot (Slot.cpp), which
    section 4.1 of the specification describes: a slice of a quorum set is
    satisfied by a set of nodes when at least [threshold] of its members are;
    a set is v-blocking when it leaves fewer than [threshold] members; a
    quorum is a set of nodes that contains the local node, is closed under
    the slice check of each member's quorum set, and satisfies a slice of
    the local node; ratify asks for a quorum of voters, accept for a
    v-blocking set of acceptors or for ratification. *)
Module Oracle.

Definition memNode (n : NodeID) (nodes : list NodeID) : bool :=
  existsb (N.eqb n) nodes.

Fixpoint isQuorumSlice (q : SCPQuorumSet) (nodes : list NodeID) {struct q} : bool :=
  match q with
  | mkQSet t vs inner =>
      let hit := List.length (filter (fun v => memNode v nodes) vs) in
      let innerHit :=
        (fix go (l : list SCPQuorumSet) : nat :=
           match l with
           | [] => O
           | q' :: l' => ((if isQuorumSlice q' nodes then 1 else 0) + go l')%nat
           end) inner in
      (0 <? t) && (t <=? N.of_nat (hit + innerHit))
  end.

Fixpoint isVBlockingSet (q : SCPQuorumSet) (nodes : list NodeID) {struct q} : bool :=
  match q with
  | mkQSet t vs inner =>
      let hit := List.length (filter (fun v => memNode v nodes) vs) in
      let innerHit :=
        (fix go (l : list SCPQuorumSet) : nat :=
           match l with
           | [] => O
           | q' :: l' => ((if isVBlockingSet q' nodes then 1 else 0) + go l')%nat
           end) inner in
      let total := N.of_nat (List.length vs + List.length inner) in
      (0 <? t) && (1 + total - t <=? N.of_nat (hit + innerHit))
  end.

Definition nodesSatisfying (map : EnvMap) (pred : SCPStatement -> bool) : list NodeID :=
  List.map fst (filter (fun e => pred (getStatement (snd e))) map).

Section WithQuorumSets.

Variable qfun : SCPStatement -> option SCPQuorumSet.
Variable localQSet : SCPQuorumSet.
Variable localNode : NodeID.

(** One round of the closure: keep the nodes whose own quorum set has a
    slice among the nodes kept so far. *)
Definition shrink (map : EnvMap) (nodes : list NodeID) : list NodeID :=
  filter
    (fun n =>
       match map_find n map with
       | Some w =>
           match qfun (getStatement w) with
           | Some q => isQuorumSlice q nodes
           | None => false
           end
       | None => false
       end)
    nodes.

Fixpoint closure (rounds : nat) (map : EnvMap) (nodes : list NodeID) : list NodeID :=
  match rounds with
  | O => nodes
  | S r =>
      let nodes' := shrink map nodes in
      if (List.length nodes' =? List.length nodes)%nat then nodes
      else closure r map nodes'
  end.

(** The nodes that satisfy [pred] contain a quorum of the local node: what
    is left of them after the closure contains the local node and a slice
    of its quorum set. *)
Definition isQuorum (map : EnvMap) (pred : SCPStatement -> bool) : bool :=
  let nodes := nodesSatisfying map pred in
  let closed := closure (List.length nodes) map nodes in
  memNode localNode closed && isQuorumSlice localQSet closed.

Definition isVBlocking (map : EnvMap) (pred : SCPStatement -> bool) : bool :=
  isVBlockingSet localQSet (nodesSatisfying map pred).

Definition federatedRatify (voted : SCPStatement -> bool) (map : EnvMap) : bool :=
  isQuorum map voted.

Definition federatedAccept (voted accepted : SCPStatement -> bool) (map : EnvMap)
  : bool :=
  isVBlocking map accepted || federatedRatify voted map.

End WithQuorumSets.

End Oracle.

(** A network of four validators that all use the quorum set "three of the
    four"; node 1 is the local node, slot 7 is the slot, every value is fully
    valid, and nomination has produced no candidate yet. *)
Definition qset3of4 : SCPQuorumSet := mkQSet 3 [1; 2; 3; 4] [].

Definition network (assertionsOff : bool) (candidate : option Value)
    (validate : Value -> ValidationLevel) : Env :=
  mkEnv assertionsOff 1 7 11
        (fun _ => Some qset3of4)
        (fun _ => true)
        candidate
        validate
        (fun _ => [])
        (Oracle.federatedAccept (fun _ => Some qset3of4) qset3of4 1)
        (Oracle.federatedRatify (fun _ => Some qset3of4) qset3of4 1)
        (Oracle.isVBlocking qset3of4)
        (Oracle.isQuorum (fun _ => Some qset3of4) qset3of4 1).

Definition allValid : Value -> ValidationLevel := fun _ => kFullyValidatedValue.

(** An envelope received from a peer. *)
Definition fromPeer (ptr : N) (n : NodeID) (pl : SCPPledges) : SCPEnvelopeWrapper :=
  mkWrapper (CallerPtr ptr) (mkEnvelope (mkStatement n 7 pl) []).

(** Feeding a list of peer envelopes, stopping at the first that does not
    return. *)
Fixpoint feed (E : Env) (depth loopFuel : nat) (envs : list SCPEnvelopeWrapper)
  : M (list EnvelopeState) :=
  match envs with
  | [] => ret []
  | e :: rest =>
      (r <- processEnvelope E depth loopFuel e false ;;
       rs <- feed E depth loopFuel rest ;;
       ret (r :: rs))%scp
  end.

(** ** The properties, in the words of the specification *)

(** [Slot::processEnvelope] as [processEnvelope] sees it at depth [depth]. *)
Definition slotCallback (E : Env) (depth loopFuel : nat)
  : SCPEnvelopeWrapper -> bool -> M EnvelopeState :=
  match depth with
  | O => fun _ _ _ => OutOfFuel Depth
  | S depth' => processEnvelope E depth' loopFuel
  end.

Definition ballotLt (a b : SCPBallot) : bool := (compareBallots a b <? 0)%Z.
Definition ballotEq (a b : SCPBallot) : bool := (compareBallots a b =? 0)%Z.
Definition optBallotLt (a b : option SCPBallot) : bool := (compareBallotsOpt a b <? 0)%Z.
Definition optBallotEq (a b : option SCPBallot) : bool := (compareBallotsOpt a b =? 0)%Z.

(** The statement order of section 3 of the specification: the rank of the
    variant first; PREPARE statements by [(b, p, p', nH)], CONFIRM statements
    by [(b, nPrepared, nH)], lexicographically; an EXTERNALIZE statement is
    never newer than another one. *)
Definition strictlyNewer (oldst st : SCPStatement) : bool :=
  match pledges oldst, pledges st with
  | SCP_ST_PREPARE _, SCP_ST_CONFIRM _
  | SCP_ST_PREPARE _, SCP_ST_EXTERNALIZE _
  | SCP_ST_CONFIRM _, SCP_ST_EXTERNALIZE _ => true
  | SCP_ST_PREPARE o, SCP_ST_PREPARE n =>
      ballotLt (p_ballot o) (p_ballot n)
      || ballotEq (p_ballot o) (p_ballot n)
         && (optBallotLt (p_prepared o) (p_prepared n)
             || optBallotEq (p_prepared o) (p_prepared n)
                && (optBallotLt (p_preparedPrime o) (p_preparedPrime n)
                    || optBallotEq (p_preparedPrime o) (p_preparedPrime n)
                       && (p_nH o <? p_nH n)))
  | SCP_ST_CONFIRM o, SCP_ST_CONFIRM n =>
      ballotLt (c_ballot o) (c_ballot n)
      || ballotEq (c_ballot o) (c_ballot n)
         && ((c_nPrepared o <? c_nPrepared n)
             || (c_nPrepared o =? c_nPrepared n) && (c_nH o <? c_nH n))
  | _, _ => false
  end.

(** The shape a statement must have (section 4.2, step 1), without the
    check of its quorum set. *)
Definition saneShape (st : SCPStatement) (self : bool) : bool :=
  match pledges st with
  | SCP_ST_PREPARE p =>
      (self || (0 <? counter (p_ballot p)))
      && match p_prepared p, p_preparedPrime p with
         | Some pr, Some pp => areBallotsLessAndIncompatible pp pr
         | _, _ => true
         end
      && ((p_nH p =? 0)
          || match p_prepared p with
             | Some pr => p_nH p <=? counter pr
             | None => false
             end)
      && ((p_nC p =? 0)
          || (negb (p_nH p =? 0) && (p_nH p <=? counter (p_ballot p))
              && (p_nC p <=? p_nH p)))
  | SCP_ST_CONFIRM c =>
      (0 <? counter (c_ballot c)) && (c_nH c <=? counter (c_ballot c))
      && (c_nCommit c <=? c_nH c)
  | SCP_ST_EXTERNALIZE e =>
      (0 <? counter (e_commit e)) && (counter (e_commit e) <=? e_nH e)
  end.

(** The quorum set of the statement is known and sane. *)
Definition quorumSetSane (E : Env) (st : SCPStatement) : bool :=
  match getQuorumSetFromStatement E st with
  | Some q => isQuorumSetSane E q
  | None => false
  end.

(** The state after [recordEnvelope]. *)
Definition recorded (env : SCPEnvelopeWrapper) (s : BallotProtocol) : BallotProtocol :=
  call (recordStatement (getStatement env))
    (set_mLatestEnvelopes
       (map_set (nodeID (getStatement env)) env (mLatestEnvelopes s)) s).

(** The envelopes handed to [emitEnvelope], newest first. *)
Definition emitted (s : BallotProtocol) : list SCPEnvelope :=
  flat_map (fun c => match c with emitEnvelope e => [e] | _ => [] end)
    (driverCalls s).

(** The counter [abandonBallot(n)] aims at. *)
Definition abandonCounter (n : uint32) (s : BallotProtocol) : uint32 :=
  if n =? 0 then
    match mCurrentBallot s with
    | Some b => (counter b + 1) mod uint32_modulus
    | None => 1
    end
  else n.

(** The value [abandonBallot] hands to [bumpState]: the composite candidate
    of nomination when there is a non-empty one, else the value of the
    current ballot. *)
Definition abandonValue (E : Env) (s : BallotProtocol) : option Value :=
  match getLatestCompositeCandidate E with
  | Some x =>
      if value_empty x
      then match mCurrentBallot s with Some b => Some (value b) | None => Some x end
      else Some x
  | None =>
      match mCurrentBallot s with Some b => Some (value b) | None => None end
  end.

(** The value of the ballot [bumpState] builds. *)
Definition bumpValue (v : Value) (s : BallotProtocol) : Value :=
  match mValueOverride s with Some o => o | None => v end.

(** *** Scenarios on the four-node network *)

Definition valueV : Value := [x01].
Definition valueW : Value := [x02].

Definition peerPrepare (n : NodeID) (b : SCPBallot) (p : option SCPBallot)
  : SCPEnvelopeWrapper :=
  fromPeer n n (SCP_ST_PREPARE (mkPrepare 11 b p None 0 0)).

Definition peerConfirm (n : NodeID) (b : SCPBallot) (nPrepared nCommit nH : uint32)
  : SCPEnvelopeWrapper :=
  fromPeer n n (SCP_ST_CONFIRM (mkConfirm b nPrepared nCommit nH 11)).

Definition peerExternalize (ptr : N) (n : NodeID) (c : SCPBallot) (nH : uint32)
  : SCPEnvelopeWrapper :=
  fromPeer ptr n (SCP_ST_EXTERNALIZE (mkExternalize c nH 11)).

Definition stateOf {A} (o : Outcome A) : BallotProtocol :=
  match o with
  | Ret _ s => s
  | Raise _ s => s
  | OutOfFuel _ => initialState
  end.

(** Nodes 2 and 3 prepare [(1, V)]; node 4 does so too but claims to have
    accepted [(0, V)] as prepared; then node 2 reports [(1, V)] prepared.  The
    local node has no value from nomination yet. *)
Definition zeroCounterRun : list SCPEnvelopeWrapper :=
  [ peerPrepare 2 (mkBallot 1 valueV) None;
    peerPrepare 3 (mkBallot 1 valueV) None;
    peerPrepare 4 (mkBallot 1 valueV) (Some (mkBallot 0 valueV));
    peerPrepare 2 (mkBallot 1 valueV) (Some (mkBallot 1 valueV)) ].

(** The local node starts on [(1, W)], times out once, and is at [(2, W)]. *)
Definition atTwoW : BallotProtocol :=
  stateOf
    ((runBumpState (network false None allValid) 50 50 valueW false ;;
      runAbandonBallot (network false None allValid) 50 50 0)%scp initialState).

(** Nodes 2 and 3 meanwhile confirm [(1, V)]. *)
Definition confirmV (n : NodeID) : SCPEnvelopeWrapper :=
  peerConfirm n (mkBallot 1 valueV) 1 1 1.

(** The local node after it has followed them and externalized [V]. *)
Definition externalizedV : BallotProtocol :=
  stateOf (feed (network false None allValid) 50 50 [confirmV 2; confirmV 3] atTwoW).

(** A network in which the quorum set of a statement cannot be resolved. *)
Definition unknownQuorumSets : Env :=
  mkEnv false 1 7 11 (fun _ => None) (fun _ => true) None allValid (fun _ => [])
        (Oracle.federatedAccept (fun _ => None) qset3of4 1)
        (Oracle.federatedRatify (fun _ => None) qset3of4 1)
        (Oracle.isVBlocking qset3of4)
        (Oracle.isQuorum (fun _ => None) qset3of4 1).

Definition maybeValid : Value -> ValidationLevel := fun _ => kMaybeValidValue.

(** The claims that do not hold of the code as they are worded, as
    predicates, so that they can be refuted at a concrete input. *)

(** C5 as worded: in EXTERNALIZE every envelope is rejected without a change
    when its working ballot disagrees with [c], and recorded and answered
    VALID when it agrees. *)
Definition externalizeGuardAsWorded (E : Env) (depth loopFuel : nat)
    (e : SCPEnvelopeWrapper) (self : bool) (s : BallotProtocol) : Prop :=
  mPhase s = SCP_PHASE_EXTERNALIZE ->
  forall c, mCommit s = Some c ->
  (value (getWorkingBallot (getStatement e)) <> value c ->
   processEnvelope E depth loopFuel e self s = Ret INVALID s)
  /\ (value (getWorkingBallot (getStatement e)) = value c ->
      processEnvelope E depth loopFuel e self s = Ret VALID (recorded e s)).

(** C6 as worded: the sanity check accepts exactly the statements of sane
    shape. *)
Definition sanityAsWorded (E : Env) (st : SCPStatement) (self : bool) : Prop :=
  isStatementSane E st self = true <-> saneShape st self = true.

(** C7 as worded: [abandonBallot(0)] leaves the ballot at the next counter
    with the current value. *)
Definition abandonKeepsValueAsWorded (E : Env) (depth loopFuel : nat)
    (s : BallotProtocol) : Prop :=
  forall b, mCurrentBallot s = Some b ->
  forall r s', runAbandonBallot E depth loopFuel 0 s = Ret r s' ->
  mCurrentBallot s' = Some (mkBallot (counter b + 1) (value b)).

(** C9 as worded, second half: a worst validation result of MAYBE_VALID
    marks the slot not fully validated. *)
Definition maybeValidAsWorded (E : Env) (depth loopFuel : nat)
    (e : SCPEnvelopeWrapper) (self : bool) (s : BallotProtocol) : Prop :=
  validateValues E (getStatement e) = kMaybeValidValue ->
  forall r s', processEnvelope E depth loopFuel e self s = Ret r s' ->
  isFullyValidated s' = false.

(** [a <= b] in the ballot order, an unset ballot being below every ballot. *)
Definition ballotLe (a b : option SCPBallot) : Prop :=
  (compareBallotsOpt a b <= 0)%Z.

(** C2 as worded, for one call: the current ballot does not decrease. *)
Definition currentBallotMonotoneAsWorded (E : Env) (depth loopFuel : nat)
    (e : SCPEnvelopeWrapper) (s : BallotProtocol) : Prop :=
  forall r s', processEnvelope E depth loopFuel e false s = Ret r s' ->
  ballotLe (mCurrentBallot s) (mCurrentBallot s').

(** C2 as worded, for [h]: the high ballot does not decrease. *)
Definition highBallotMonotoneAsWorded (E : Env) (depth loopFuel : nat)
    (e : SCPEnvelopeWrapper) (s : BallotProtocol) : Prop :=
  forall r s', processEnvelope E depth loopFuel e false s = Ret r s' ->
  ballotLe (mHighBallot s) (mHighBallot s').

(** *** More scenarios *)

(** The local node at [(2, W)] after node 2 has confirmed [(1, V)]. *)
Definition afterConfirmV2 : BallotProtocol :=
  stateOf (feed (network false None allValid) 50 50 [confirmV 2] atTwoW).

(** The local node starts on [(1, V)]; nodes 2 and 3 report [(5, V)]
    prepared, which the local node confirms prepared: [h = (5, V)]; node 2
    then confirms [(1, V)]. *)
Definition prepareFive (n : NodeID) : SCPEnvelopeWrapper :=
  peerPrepare n (mkBallot 5 valueV) (Some (mkBallot 5 valueV)).

Definition highAtFive : BallotProtocol :=
  stateOf
    ((runBumpState (network false None allValid) 50 50 valueV false ;;
      feed (network false None allValid) 50 50
        [prepareFive 2; prepareFive 3; confirmV 2])%scp initialState).

(** Scenario 4 of the specification: [PREPARE (2, V)] of node 2 is on
    record when its [PREPARE (1, V)] arrives. *)
Definition afterTwoV : BallotProtocol :=
  stateOf (feed (network false None allValid) 50 50
             [peerPrepare 2 (mkBallot 2 valueV) None] initialState).

(** The four-node network when nomination has produced the candidate [V]. *)
Definition candidateV : Env := network false (Some valueV) allValid.

(** ** The vocabulary of the theorems *)

(** A three-way comparison that is a strict total order. *)
Record TotalOrder {A} (cmp : A -> A -> comparison) : Prop := mkTotalOrder {
  cmp_eq : forall a b, cmp a b = Eq <-> a = b;
  cmp_opp : forall a b, cmp b a = CompOpp (cmp a b);
  cmp_trans : forall a b c, cmp a b = Lt -> cmp b c = Lt -> cmp a c = Lt }.

Definition lex (c1 c2 : comparison) : comparison :=
  match c1 with Eq => c2 | c => c end.

Definition lexProd {A B} (ca : A -> A -> comparison) (cb : B -> B -> comparison)
    (x y : A * B) : comparison :=
  lex (ca (fst x) (fst y)) (cb (snd x) (snd y)).

(** [compareBallots] as a three-way comparison. *)
Definition ballotCmp (a b : SCPBallot) : comparison :=
  lex (counter a ?= counter b) (compareValues (value a) (value b)).

Definition signOf (c : comparison) : Z :=
  match c with Lt => (-1)%Z | Eq => 0%Z | Gt => 1%Z end.

Definition optBallotCmp (a b : option SCPBallot) : comparison :=
  match a, b with
  | Some x, Some y => ballotCmp x y
  | Some _, None => Gt
  | None, Some _ => Lt
  | None, None => Eq
  end.

(** The key on which PREPARE, respectively CONFIRM, statements are ordered. *)
Definition statementCmp (a b : SCPStatement) : comparison :=
  match pledges a, pledges b with
  | SCP_ST_PREPARE o, SCP_ST_PREPARE n =>
      lex (ballotCmp (p_ballot o) (p_ballot n))
        (lex (optBallotCmp (p_prepared o) (p_prepared n))
           (lex (optBallotCmp (p_preparedPrime o) (p_preparedPrime n))
              (p_nH o ?= p_nH n)))
  | SCP_ST_CONFIRM o, SCP_ST_CONFIRM n =>
      lex (ballotCmp (c_ballot o) (c_ballot n))
        (lex (c_nPrepared o ?= c_nPrepared n) (c_nH o ?= c_nH n))
  | SCP_ST_EXTERNALIZE _, SCP_ST_EXTERNALIZE _ => Eq
  | x, y => pledgesType x ?= pledgesType y
  end.

(** The outcome of [m] from [s] satisfies [Q] if it returns, [X] if it
    raises, [F] if the embedding runs out of fuel. *)
Definition wp {A} (m : M A) (s : BallotProtocol) (Q : A -> BallotProtocol -> Prop)
    (X : Exn -> BallotProtocol -> Prop) (F : FuelKind -> Prop) : Prop :=
  match m s with
  | Ret a s' => Q a s'
  | Raise e s' => X e s'
  | OutOfFuel k => F k
  end.

Definition phaseRank (p : SCPPhase) : Z :=
  match p with
  | SCP_PHASE_PREPARE => 0
  | SCP_PHASE_CONFIRM => 1
  | SCP_PHASE_EXTERNALIZE => 2
  end.

(** [h] and [c], when set, carry the value of the current ballot: [h] set
    implies [b] set and compatible, [c] set implies [h] set and compatible. *)
Definition compatibleState (s : BallotProtocol) : bool :=
  match mHighBallot s with
  | Some h =>
      match mCurrentBallot s with
      | Some b => areBallotsCompatible h b
      | None => false
      end
  | None => true
  end
  &&
  match mCommit s with
  | Some c =>
      match mHighBallot s with
      | Some h => areBallotsCompatible c h
      | None => false
      end
  | None => true
  end.

(** The envelope waiting to be broadcast is the one last broadcast, or a
    strictly newer statement. *)
Definition broadcastOrder (s : BallotProtocol) : Prop :=
  match mLastEnvelopeEmit s with
  | None => True
  | Some sent =>
      match mLastEnvelope s with
      | None => False
      | Some last =>
          last = sent
          \/ isNewerStatement (getStatement sent) (getStatement last) = true
      end
  end.

(** How the state [s] a member function returns in relates to the state
    [s0] it was called in. *)
Record Step (s0 s : BallotProtocol) : Prop := mkStep {
  step_level : mCurrentMessageLevel s = mCurrentMessageLevel s0;
  step_nested :
    (1 <= mCurrentMessageLevel s0)%Z ->
    emitted s = emitted s0 /\ mLastEnvelopeEmit s = mLastEnvelopeEmit s0;
  step_unvalidated :
    isFullyValidated s0 = false ->
    isFullyValidated s = false /\ emitted s = emitted s0;
  step_order : broadcastOrder s0 -> broadcastOrder s;
  step_prepared : ballotLe (mPrepared s0) (mPrepared s);
  step_phase : (phaseRank (mPhase s0) <= phaseRank (mPhase s))%Z;
  step_ballot :
    ballotLe (mCurrentBallot s0) (mCurrentBallot s)
    \/ (mPhase s0 = SCP_PHASE_PREPARE /\ mPhase s <> SCP_PHASE_PREPARE);
  step_compatible : compatibleState s0 = true -> compatibleState s = true }.

(** The same for the state an exception leaves behind. *)
Record Stop (s0 s : BallotProtocol) : Prop := mkStop {
  stop_level : (mCurrentMessageLevel s0 <= mCurrentMessageLevel s)%Z;
  stop_bound :
    (mCurrentMessageLevel s0 < MAX_ADVANCE_SLOT_RECURSION)%Z ->
    (mCurrentMessageLevel s <= MAX_ADVANCE_SLOT_RECURSION)%Z;
  stop_nested :
    (1 <= mCurrentMessageLevel s0)%Z ->
    emitted s = emitted s0 /\ mLastEnvelopeEmit s = mLastEnvelopeEmit s0;
  stop_unvalidated :
    isFullyValidated s0 = false ->
    isFullyValidated s = false /\ emitted s = emitted s0;
  stop_prepared : ballotLe (mPrepared s0) (mPrepared s);
  stop_phase : (phaseRank (mPhase s0) <= phaseRank (mPhase s))%Z }.

(** Running out of depth is possible at level [L] with [d] nested calls left
    only if [d] more levels stay below the cap. *)
Definition fuelOk (d : nat) (L : Z) (k : FuelKind) : Prop :=
  match k with
  | Loop => True
  | Depth => (L < MAX_ADVANCE_SLOT_RECURSION -> Z.of_nat d + L < MAX_ADVANCE_SLOT_RECURSION)%Z
  end.

(** A member function keeps [Step]. *)
Definition keeps {A} (d : nat) (m : M A) : Prop :=
  forall s,
    wp m s (fun _ s' => Step s s') (fun _ s' => Stop s s')
      (fuelOk d (mCurrentMessageLevel s)).

(** A computation that reads the state only. *)
Definition readOnly {A} (m : M A) : Prop :=
  forall s, wp m s (fun _ s' => s' = s) (fun _ s' => s' = s) (fun _ => False).

(** The state [bumpToBallot] leaves behind. *)
Definition bumpResult (ballot : SCPBallot) (s : BallotProtocol) : BallotProtocol :=
  let s1 := if isSome (mCurrentBallot s) then s
            else call (startedBallotProtocol ballot) s in
  let s2 := set_mCurrentBallot (Some ballot) s1 in
  let s3 :=
    match mHighBallot s with
    | Some h =>
        if negb (areBallotsCompatible ballot h)
        then set_mCommit None (set_mHighBallot None s2)
        else s2
    | None => s2
    end in
  if match mCurrentBallot s with
     | None => true
     | Some b => negb (counter b =? counter ballot)
     end
  then set_mHeardFromQuorum false s3
  else s3.

(** No older or equal statement of the sender of [e] is on record. *)
Definition fresh (e : SCPEnvelopeWrapper) (s : BallotProtocol) : Prop :=
  match map_find (nodeID (getStatement e)) (mLatestEnvelopes s) with
  | Some old => isNewerStatement (getStatement old) (getStatement e) = true
  | None => True
  end.

(** What [checkInvariants] asserts, as a predicate on the state. *)
Definition invariantsHold (s : BallotProtocol) : bool :=
  match mPhase s with
  | SCP_PHASE_PREPARE => true
  | _ => isSome (mCurrentBallot s) && isSome (mPrepared s)
         && isSome (mCommit s) && isSome (mHighBallot s)
  end
  && match mCurrentBallot s with
     | Some b => negb (counter b =? 0)
     | None => true
     end
  && match mPrepared s, mPreparedPrime s with
     | Some p, Some pp => areBallotsLessAndIncompatible pp p
     | _, _ => true
     end
  && match mHighBallot s with
     | Some h =>
         match mCurrentBallot s with
         | Some b => areBallotsLessAndCompatible h b
         | None => false
         end
     | None => true
     end
  && match mCommit s with
     | Some c =>
         match mHighBallot s, mCurrentBallot s with
         | Some h, Some b =>
             areBallotsLessAndCompatible c h && areBallotsLessAndCompatible h b
         | _, _ => false
         end
     | None => true
     end.

(** The inputs the slot hands to the ballot protocol from outside. *)
Inductive ExternalInput : Type :=
| EnvelopeReceived (e : SCPEnvelopeWrapper) (self : bool)
| BumpRequested (v : Value) (force : bool)
| AbandonRequested (n : uint32)
| TimerExpired.

Definition handle (E : Env) (depth loopFuel : nat) (i : ExternalInput) : M unit :=
  match i with
  | EnvelopeReceived e self => processEnvelope E depth loopFuel e self ;; ret tt
  | BumpRequested v force => runBumpState E depth loopFuel v force ;; ret tt
  | AbandonRequested n => runAbandonBallot E depth loopFuel n ;; ret tt
  | TimerExpired => runBallotProtocolTimerExpired E depth loopFuel
  end.

(** Between [s] and [s'] nothing was broadcast, or exactly one envelope
    was: the one waiting in [mLastEnvelope], which is not the one broadcast
    last (another wrapper and, when [s] is in broadcast order, another
    statement). *)
Definition broadcastsAtMostOnce (s s' : BallotProtocol) : Prop :=
  (emitted s' = emitted s /\ mLastEnvelopeEmit s' = mLastEnvelopeEmit s)
  \/ exists w,
       emitted s' = getEnvelope w :: emitted s
       /\ mLastEnvelopeEmit s' = Some w
       /\ mLastEnvelope s' = Some w
       /\ isFullyValidated s' = true
       /\ forall sent, mLastEnvelopeEmit s = Some sent ->
            w_ptr w <> w_ptr sent
            /\ (broadcastOrder s -> getStatement w <> getStatement sent).

(** The worst validation level over the values of a statement (section 4.2,
    step 3). *)
Definition worstLevel (E : Env) (values : list Value) : ValidationLevel :=
  fold_right (fun v lv => minLevel (validateValue E v) lv) kFullyValidatedValue values.

(** [updateCurrentValue] moves to [ballot]: the phase is PREPARE or CONFIRM
    and, when a current ballot is set, [ballot] is above it and compatible
    with [c]. *)
Definition canBumpTo (ballot : SCPBallot) (s : BallotProtocol) : Prop :=
  phaseIsPrepareOrConfirm s = true
  /\ match mCurrentBallot s with
     | None => True
     | Some b =>
         (compareBallots b ballot < 0)%Z
         /\ match mCommit s with
            | Some c => areBallotsCompatible c ballot = true
            | None => True
            end
     end.

(** A member function keeps the invariants: called in a state that satisfies
    them, it returns in one that does. *)
Definition sound {A} (m : M A) : Prop :=
  forall s, invariantsHold s = true ->
    wp m s (fun _ s' => invariantsHold s' = true) (fun _ _ => True) (fun _ => True).

(** ** More vocabulary: the rest of the class *)

(** The counters are [uint32] values. *)
Definition ballotInRange (b : SCPBallot) : Prop := counter b <= UINT32_MAX.

Definition optInRange (o : option SCPBallot) : Prop :=
  match o with Some b => ballotInRange b | None => True end.

Definition statementInRange (st : SCPStatement) : Prop :=
  match pledges st with
  | SCP_ST_PREPARE p =>
      ballotInRange (p_ballot p) /\ optInRange (p_prepared p)
      /\ optInRange (p_preparedPrime p)
      /\ p_nC p <= UINT32_MAX /\ p_nH p <= UINT32_MAX
  | SCP_ST_CONFIRM c =>
      ballotInRange (c_ballot c) /\ c_nPrepared c <= UINT32_MAX
      /\ c_nCommit c <= UINT32_MAX /\ c_nH c <= UINT32_MAX
  | SCP_ST_EXTERNALIZE e => ballotInRange (e_commit e) /\ e_nH e <= UINT32_MAX
  end.

Definition envelopesInRange (m : EnvMap) : Prop :=
  Forall (fun kv => statementInRange (getStatement (snd kv))) m.

Definition stateInRange (s : BallotProtocol) : Prop :=
  optInRange (mCurrentBallot s) /\ optInRange (mPrepared s)
  /\ optInRange (mPreparedPrime s) /\ optInRange (mHighBallot s)
  /\ optInRange (mCommit s) /\ envelopesInRange (mLatestEnvelopes s).

(** The state is in range and at nesting level [L]. *)
Definition inRangeAt (L : Z) (s : BallotProtocol) : Prop :=
  stateInRange s /\ mCurrentMessageLevel s = L.

(** Called at level [L], [m] keeps the counters in range and the level, and
    does not run out of loop fuel. *)
Definition totalAt {A} (L : Z) (m : M A) : Prop :=
  forall s, inRangeAt L s ->
    wp m s (fun _ s' => inRangeAt L s') (fun _ _ => True) (fun k => k = Depth).

(** The measure of the bump loop: the phases left and, within a phase, the
    counters left above the current one. *)
Definition currentCounter (s : BallotProtocol) : Z :=
  match mCurrentBallot s with
  | Some b => Z.of_N (counter b)
  | None => (-1)%Z
  end.

Definition bumpMeasure (s : BallotProtocol) : Z :=
  ((2 - phaseRank (mPhase s)) * (Z.of_N UINT32_MAX + 2)
   + (Z.of_N UINT32_MAX - currentCounter s))%Z.

(** A round of the bump loop that bumps lowers the measure. *)
Definition progress (s : BallotProtocol) (r : bool) (s' : BallotProtocol) : Prop :=
  inRangeAt 1 s' /\ (r = true -> (bumpMeasure s' < bumpMeasure s)%Z).

(** Enough rounds for the do-while loop of the bump rule. *)
Definition enoughLoopFuel (loopFuel : nat) : Prop :=
  (3 * (Z.of_N UINT32_MAX + 2) <= Z.of_nat loopFuel)%Z.

(** The fatal error of [advanceSlot]. *)
Definition capError : Exn :=
  RuntimeError "maximum number of transitions reached in advanceSlot".

(** The fatal error is thrown with the nesting level at the cap or above. *)
Definition atCapOrAbove (x : Exn) (s' : BallotProtocol) : Prop :=
  x = capError -> (MAX_ADVANCE_SLOT_RECURSION <= mCurrentMessageLevel s')%Z.

(** A member function throws the fatal error at the cap only. *)
Definition capOnly {A} (m : M A) : Prop :=
  forall s, wp m s (fun _ _ => True) atCapOrAbove (fun _ => True).

(** C3 as worded: [advanceSlot] is re-entrant up to a depth of 50, so an
    invocation that takes the nesting level to 50 or less is not refused. *)
Definition reentrantUpToCapAsWorded (E : Env)
    (pe : SCPEnvelopeWrapper -> bool -> M EnvelopeState) (loopFuel : nat)
    (hint : SCPStatement) (s : BallotProtocol) : Prop :=
  (mCurrentMessageLevel s + 1 <= 50)%Z ->
  advanceSlot E pe loopFuel hint s
  <> Raise (RuntimeError "maximum number of transitions reached in advanceSlot")
       (set_mCurrentMessageLevel (mCurrentMessageLevel s + 1) s).

(** [getLatestMessage(id)]: the envelope on record for [id], or a null
    pointer. *)
Definition getLatestMessage (id : NodeID) (s : BallotProtocol) : option SCPEnvelope :=
  match map_find id (mLatestEnvelopes s) with
  | Some w => Some (getEnvelope w)
  | None => None
  end.

(** [getCompanionQuorumSetHashFromStatement(st)] *)
Definition getCompanionQuorumSetHashFromStatement (st : SCPStatement) : Hash :=
  match pledges st with
  | SCP_ST_PREPARE p => p_quorumSetHash p
  | SCP_ST_CONFIRM c => c_quorumSetHash c
  | SCP_ST_EXTERNALIZE e => e_commitQuorumSetHash e
  end.

(** The loop of [getExternalizingState] over [mLatestEnvelopes]. *)
Fixpoint externalizingEnvelopes (E : Env) (s : BallotProtocol) (m : EnvMap)
    (res : list SCPEnvelope) : M (list SCPEnvelope) :=
  match m with
  | [] => ret res
  | (n, w) :: m' =>
      if negb (n =? getLocalNodeID E) then
        c <- deref (mCommit s) ;;
        if areBallotsCompatible (getWorkingBallot (getStatement w)) c
        then externalizingEnvelopes E s m' (res ++ [getEnvelope w])
        else externalizingEnvelopes E s m' res
      else if isFullyValidated s
      then externalizingEnvelopes E s m' (res ++ [getEnvelope w])
      else externalizingEnvelopes E s m' res
  end.

(** [getExternalizingState()] *)
Definition getExternalizingState (E : Env) : M (list SCPEnvelope) :=
  s <- get ;;
  if phase_eqb (mPhase s) SCP_PHASE_EXTERNALIZE
  then externalizingEnvelopes E s (mLatestEnvelopes s) []
  else ret [].

(** [SCP::QuorumInfoNodeState] *)
Inductive QuorumInfoNodeState := NO_INFO | AGREE | MISSING | DELAYED | DISAGREE.

(** [getState(n, selfAlreadyMovedOn)].  The constant
    [Slot::NUM_TIMEOUTS_THRESHOLD_FOR_REPORTING] is declared in Slot.h; it is
    the argument [threshold]. *)
Definition getState (E : Env) (threshold : uint32) (n : NodeID)
    (selfAlreadyMovedOn : bool) (s : BallotProtocol) : QuorumInfoNodeState :=
  let state := AGREE in
  if n =? getLocalNodeID E then state
  else
    match map_find n (mLatestEnvelopes s) with
    | None =>
        if (threshold <=? mTimerExpCount s) || selfAlreadyMovedOn
        then MISSING else NO_INFO
    | Some w =>
        match mLastEnvelopeEmit s with
        | Some sent =>
            let st := getStatement w in
            let externalized :=
              match pledges st with SCP_ST_EXTERNALIZE _ => true | _ => false end in
            let confirmedCommit :=
              match pledges st with
              | SCP_ST_CONFIRM c => counter (c_ballot c) =? UINT32_MAX
              | _ => false
              end in
            let state :=
              if phase_eqb (mPhase s) SCP_PHASE_EXTERNALIZE
                 && (negb externalized || negb confirmedCommit)
                 && selfAlreadyMovedOn
              then DELAYED else state in
            let selfAcceptedConfirm :=
              phase_eqb (mPhase s) SCP_PHASE_CONFIRM
              || phase_eqb (mPhase s) SCP_PHASE_EXTERNALIZE in
            let otherAcceptedConfirm :=
              match pledges st with SCP_ST_PREPARE _ => false | _ => true end in
            let selfSt := getStatement sent in
            if selfAcceptedConfirm && otherAcceptedConfirm
               && negb (areBallotsCompatible (getWorkingBallot st)
                          (getWorkingBallot selfSt))
            then DISAGREE else state
        | None => state
        end
    end.

(** The local node has externalized [V]; node 2 then reports that it has
    externalized [V] as well. *)
Definition peerExternalizedV : BallotProtocol :=
  stateOf (feed (network false None allValid) 50 50
             [peerExternalize 9 2 (mkBallot 1 valueV) 1] externalizedV).

(** [localCounter] of [attemptBump]: the counter of the current ballot, 0
    when there is none. *)
Definition localCounter (s : BallotProtocol) : uint32 :=
  match mCurrentBallot s with Some b => counter b | None => 0 end.

(** The bump rule applies: the phase is PREPARE or CONFIRM, a v-blocking
    set is strictly ahead of the local counter, and a statement on record
    carries a counter above the local one that no v-blocking set is strictly
    ahead of. *)
Definition bumpDue (E : Env) (s : BallotProtocol) : Prop :=
  phaseIsPrepareOrConfirm s = true
  /\ hasVBlockingSubsetStrictlyAheadOf E (mLatestEnvelopes s) (localCounter s) = true
  /\ exists e,
       In e (mLatestEnvelopes s)
       /\ localCounter s < statementBallotCounter (getStatement (snd e))
       /\ hasVBlockingSubsetStrictlyAheadOf E (mLatestEnvelopes s)
            (statementBallotCounter (getStatement (snd e))) = false.

(** The local node is at [(2, W)] and has on record that node 2 prepares
    [(5, V)] and node 3 prepares [(7, V)]. *)
Definition peersAhead : BallotProtocol :=
  recorded (peerPrepare 3 (mkBallot 7 valueV) None)
    (recorded (peerPrepare 2 (mkBallot 5 valueV) None) atTwoW).

(** Two statements carry the same key of the statement order: the fields
    [isNewerStatement] compares. *)
Definition sameKey (a b : SCPStatement) : Prop :=
  match pledges a, pledges b with
  | SCP_ST_PREPARE o, SCP_ST_PREPARE n =>
      p_ballot o = p_ballot n /\ p_prepared o = p_prepared n
      /\ p_preparedPrime o = p_preparedPrime n /\ p_nH o = p_nH n
  | SCP_ST_CONFIRM o, SCP_ST_CONFIRM n =>
      c_ballot o = c_ballot n /\ c_nPrepared o = c_nPrepared n /\ c_nH o = c_nH n
  | SCP_ST_EXTERNALIZE _, SCP_ST_EXTERNALIZE _ => True
  | _, _ => False
  end.

(** An interval that [findExtendedInterval] may answer: it satisfies the
    predicate, so does its upper end alone, its ends are in order and both
    are boundaries. *)
Definition goodInterval (pred : Interval -> bool) (boundaries : list uint32)
    (c : Interval) : Prop :=
  pred c = true /\ pred (snd c, snd c) = true /\ fst c <= snd c
  /\ In (fst c) boundaries /\ In (snd c) boundaries.

(** The statement type [emitCurrentStateStatement] asks [createStatement]
    for. *)
Definition statementTypeOf (p : SCPPhase) : SCPStatementType :=
  match p with
  | SCP_PHASE_PREPARE => ST_PREPARE
  | SCP_PHASE_CONFIRM => ST_CONFIRM
  | SCP_PHASE_EXTERNALIZE => ST_EXTERNALIZE
  end.

(** No ballot is set yet: the state the constructor leaves, whatever is on
    record. *)
Definition notStarted (s : BallotProtocol) : Prop :=
  mCurrentBallot s = None /\ mPrepared s = None /\ mPreparedPrime s = None
  /\ mHighBallot s = None /\ mCommit s = None /\ mPhase s = SCP_PHASE_PREPARE.

(** The local node has made the envelope [e]: it is what [createEnvelope]
    makes of its statement, and it names the quorum set of the local node. *)
Definition ownEnvelope (E : Env) (e : SCPEnvelopeWrapper) : Prop :=
  getEnvelope e = createEnvelope E (getStatement e)
  /\ getCompanionQuorumSetHashFromStatement (getStatement e) = getQuorumSetHash E.

(** The envelope the local node made when it confirmed [(1, V)] committed
    and externalized, as the slot keeps it. *)
Definition ownExternalizeV : SCPEnvelopeWrapper :=
  mkWrapper (CallerPtr 0)
    (createEnvelope (network false None allValid)
       (mkStatement 0 0
          (SCP_ST_EXTERNALIZE (mkExternalize (mkBallot 1 valueV) 1 11)))).

(** The conditions under which [attemptAcceptPrepared] accepts [ballot] as
    prepared in the state [s]. *)
Definition acceptsPrepared (E : Env) (s : BallotProtocol) (ballot : SCPBallot) : Prop :=
  federatedAccept E (votesToPrepare ballot) (hasPreparedBallot ballot)
    (mLatestEnvelopes s) = true
  /\ (forall pp, mPreparedPrime s = Some pp -> (0 < compareBallots ballot pp)%Z)
  /\ (forall p, mPrepared s = Some p -> areBallotsLessAndCompatible ballot p = false)
  /\ (mPhase s = SCP_PHASE_CONFIRM ->
      exists p, mPrepared s = Some p /\ areBallotsLessAndCompatible p ballot = true).

(** The conditions under which [attemptConfirmPrepared] takes [newC] for
    the commit ballot, next to the new high ballot [newH]. *)
Definition confirmsCommit (E : Env) (s : BallotProtocol) (candidates : list SCPBallot)
    (newH newC : SCPBallot) : Prop :=
  mCommit s = None
  /\ In newC candidates
  /\ federatedRatify E (hasPreparedBallot newC) (mLatestEnvelopes s) = true
  /\ areBallotsLessAndCompatible newC newH = true
  /\ (0 <= compareBallots newC
             (match mCurrentBallot s with Some b => b | None => nullBallot end))%Z.

(** The values handed to [valueExternalized], newest first. *)
Definition extCalls (s : BallotProtocol) : list Value :=
  flat_map (fun c => match c with valueExternalized v => [v] | _ => [] end)
    (driverCalls s).

(** A statement of the local node for this slot. *)
Definition ownStatement (E : Env) (st : SCPStatement) : Prop :=
  nodeID st = getLocalNodeID E /\ slotIndex st = getSlotIndex E.

(** The envelope waiting to be broadcast and the envelopes broadcast so far
    are the local node's own. *)
Definition ownOnly (E : Env) (s : BallotProtocol) : Prop :=
  match mLastEnvelope s with
  | Some w => ownStatement E (getStatement w)
  | None => True
  end
  /\ Forall (fun env => ownStatement E (statement env)) (emitted s).

(** The entry of a node in [mLatestEnvelopes] stays, or is replaced by a
    newer statement. *)
Definition forward (old new : option SCPEnvelopeWrapper) : Prop :=
  match old with
  | Some o =>
      match new with
      | Some n => n = o \/ isNewerStatement (getStatement o) (getStatement n) = true
      | None => False
      end
  | None => True
  end.

(** How the state [s'] a member function leaves, by returning or by
    throwing, relates to the state [s] it was called in, when the envelopes
    it is handed by the slot are the local node's. *)
Record Evolves (E : Env) (s s' : BallotProtocol) : Prop := mkEvolves {
  ev_peers :
    forall n, n <> getLocalNodeID E ->
      map_find n (mLatestEnvelopes s') = map_find n (mLatestEnvelopes s);
  ev_own :
    forward (map_find (getLocalNodeID E) (mLatestEnvelopes s))
      (map_find (getLocalNodeID E) (mLatestEnvelopes s'));
  ev_ownOnly : ownOnly E s -> ownOnly E s';
  ev_final :
    mPhase s = SCP_PHASE_EXTERNALIZE ->
    mPhase s' = SCP_PHASE_EXTERNALIZE /\ mCommit s' = mCommit s
    /\ extCalls s' = extCalls s;
  ev_once :
    mPhase s <> SCP_PHASE_EXTERNALIZE -> extCalls s = [] ->
    extCalls s' = []
    \/ (mPhase s' = SCP_PHASE_EXTERNALIZE
        /\ exists c, mCommit s' = Some c /\ extCalls s' = [value c]);
  ev_pending :
    mLastEnvelope s' = mLastEnvelope s
    \/ exists m,
         mLastEnvelope s' = Some m
         /\ forall w,
              map_find (getLocalNodeID E) (mLatestEnvelopes s) = Some w ->
              isNewerStatement (getStatement w) (getStatement m) = true }.

(** In EXTERNALIZE the driver has been told of the value. *)
Definition announced (s : BallotProtocol) : Prop :=
  mPhase s = SCP_PHASE_EXTERNALIZE -> extCalls s <> [].

(** The same for the state a member function returns in. *)
Definition Returns (E : Env) (s s' : BallotProtocol) : Prop :=
  Evolves E s s' /\ (announced s -> announced s').

(** A member function keeps [Evolves]. *)
Definition tracks {A} (E : Env) (m : M A) : Prop :=
  forall s,
    wp m s (fun _ s' => Returns E s s') (fun _ s' => Evolves E s s') (fun _ => True).

(** The same for the processing of the envelope [e], which is fresh when
    the answer is VALID. *)
Definition tracksOwn (E : Env) (e : SCPEnvelopeWrapper) (m : M EnvelopeState) : Prop :=
  forall s,
    wp m s (fun r s' => Returns E s s' /\ (r = VALID -> fresh e s))
      (fun _ s' => Evolves E s s') (fun _ => True).

(** The state in which [processEnvelope] begins to advance the slot for the
    envelope [e]: [e] is on record and, when a value of [e] is only maybe
    valid, the slot is marked so. *)
Definition taken (e : SCPEnvelopeWrapper) (fullyValid : bool) (s : BallotProtocol)
  : BallotProtocol :=
  recorded e (if fullyValid then s else setFullyValidated false s).

(** The external inputs of a slot, handled one after the other as long as
    they return. *)
Fixpoint handleAll (E : Env) (depth loopFuel : nat) (inputs : list ExternalInput)
  : M unit :=
  match inputs with
  | [] => ret tt
  | i :: rest => handle E depth loopFuel i ;; handleAll E depth loopFuel rest
  end.

(** [s1] is [s] but for an envelope taken on record: the ballot variables,
    the phase, the envelope waiting to be broadcast and the calls that matter
    are those of [s], and the record has moved forward. *)
Definition onRecord (s s1 : BallotProtocol) : Prop :=
  mPhase s1 = mPhase s /\ mCommit s1 = mCommit s /\ extCalls s1 = extCalls s
  /\ mLastEnvelope s1 = mLastEnvelope s /\ emitted s1 = emitted s
  /\ forall n, forward (map_find n (mLatestEnvelopes s)) (map_find n (mLatestEnvelopes s1)).

(** The slot has not externalized and has not told the driver so. *)
Definition notExternalized (s : BallotProtocol) : Prop :=
  mPhase s <> SCP_PHASE_EXTERNALIZE /\ extCalls s = [].

(** The slot has externalized the value of [c] and has told the driver so,
    once. *)
Definition externalizedOnce (s : BallotProtocol) : Prop :=
  mPhase s = SCP_PHASE_EXTERNALIZE
  /\ exists c, mCommit s = Some c /\ extCalls s = [value c].

(** The inputs that take the local node from the start to the
    externalization of [V]. *)
Definition runToExternalize : list ExternalInput :=
  [ BumpRequested valueW false; AbandonRequested 0;
    EnvelopeReceived (confirmV 2) false; EnvelopeReceived (confirmV 3) false ].

(** Nothing waits to be broadcast: on a fully validated slot the envelope in
    [mLastEnvelope], when there is one, is the one broadcast last. *)
Definition nothingPending (s : BallotProtocol) : Prop :=
  isFullyValidated s = true ->
  match mLastEnvelope s with
  | None => True
  | Some last =>
      exists sent, mLastEnvelopeEmit s = Some sent /\ w_ptr last = w_ptr sent
  end.

(** At most one envelope was broadcast between [s] and [s']. *)
Definition atMostOneBroadcast (s s' : BallotProtocol) : Prop :=
  emitted s' = emitted s \/ exists env, emitted s' = env :: emitted s.

(** A step of the protocol that answers false has left the envelope waiting
    to be broadcast alone. *)
Definition quiet (s : BallotProtocol) (r : bool) (s' : BallotProtocol) : Prop :=
  r = false -> mLastEnvelope s' = mLastEnvelope s.

(** [s'] is [s] as far as broadcasting goes. *)
Definition sameQueue (s s' : BallotProtocol) : Prop :=
  emitted s' = emitted s /\ mLastEnvelope s' = mLastEnvelope s
  /\ mLastEnvelopeEmit s' = mLastEnvelopeEmit s
  /\ isFullyValidated s' = isFullyValidated s
  /\ mCurrentMessageLevel s' = mCurrentMessageLevel s.

(** A statement of the local node has been processed at level 0: what was
    broadcast, what waits, and that the envelope that waits is the one that
    waited before or carries a statement newer than the one processed. *)
Definition processedOwn (e : SCPEnvelopeWrapper) (s s' : BallotProtocol) : Prop :=
  broadcastsAtMostOnce s s' /\ nothingPending s' /\ Step s s'
  /\ (mLastEnvelope s' = mLastEnvelope s
      \/ exists m, mLastEnvelope s' = Some m
           /\ isNewerStatement (getStatement e) (getStatement m) = true).

(** An input has been handled at level 0, from a state in which nothing
    waited. *)
Definition handledOnce (s s' : BallotProtocol) : Prop :=
  broadcastsAtMostOnce s s' /\ nothingPending s'
  /\ mCurrentMessageLevel s' = 0%Z.

(** A runtime error leaves the nesting level above the level [L]. *)
Definition levelRaised (L : Z) (x : Exn) (s' : BallotProtocol) : Prop :=
  match x with
  | RuntimeError _ => (L < mCurrentMessageLevel s')%Z
  | _ => True
  end.

(** The local node at [(2, W)], one nested call below the cap. *)
Definition belowCap : BallotProtocol := set_mCurrentMessageLevel 49 atTwoW.

(** The statements [checkHeardFromQuorum] counts for the ballot [b]: a
    PREPARE at a counter not below the counter of [b], and every CONFIRM and
    EXTERNALIZE. *)
Definition atLeastAt (b : SCPBallot) (st : SCPStatement) : bool :=
  match pledges st with
  | SCP_ST_PREPARE p => counter b <=? counter (p_ballot p)
  | _ => true
  end.

(** The ballots handed to [ballotDidHearFromQuorum], newest first. *)
Definition heardCalls (s : BallotProtocol) : list SCPBallot :=
  flat_map (fun c => match c with ballotDidHearFromQuorum b => [b] | _ => [] end)
    (driverCalls s).

(** The counters the ballot timer was armed for, newest first. *)
Definition timerStarts (s : BallotProtocol) : list uint32 :=
  flat_map (fun c => match c with setupTimer (Some n) => [n] | _ => [] end)
    (driverCalls s).

(** * Theorems *)

Lemma processEnvelope_eq E depth loopFuel :
  processEnvelope E depth loopFuel
  = processEnvelopeBody E (slotCallback E depth loopFuel) loopFuel.
Proof. destruct depth; reflexivity. Qed.

(** ** The statement order *)

(** The order the code implements is the order the specification writes. *)
Lemma isNewerStatement_strictlyNewer oldst st :
  isNewerStatement oldst st = strictlyNewer oldst st.
Proof.
  unfold isNewerStatement, strictlyNewer, ballotLt, ballotEq, optBallotLt, optBallotEq.
  destruct (pledges oldst) as [o|o|o], (pledges st) as [n|n|n]; simpl; try reflexivity.
  destruct (compareBallots (c_ballot o) (c_ballot n) <? 0)%Z,
    (compareBallots (c_ballot o) (c_ballot n) =? 0)%Z; simpl; try reflexivity.
  destruct (N.eqb_spec (c_nPrepared o) (c_nPrepared n)) as [e|ne]; simpl.
  - rewrite e, N.ltb_irrefl. reflexivity.
  - rewrite orb_false_r. reflexivity.
Qed.

(** ** Running the monad *)

Lemma bind_Ret {A B} (m : M A) (k : A -> M B) s a s' :
  m s = Ret a s' -> bind m k s = k a s'.
Proof. unfold bind. intros ->. reflexivity. Qed.

Lemma bind_Raise {A B} (m : M A) (k : A -> M B) s e s' :
  m s = Raise e s' -> bind m k s = Raise e s'.
Proof. unfold bind. intros ->. reflexivity. Qed.

Lemma dbgAssert_true E s : dbgAssert E (ret true) s = Ret tt s.
Proof. unfold dbgAssert. destruct (ndebug E); reflexivity. Qed.

(** ** Early exits of [processEnvelope] *)

Section EarlyExits.

Variable E : Env.
Variables depth loopFuel : nat.
Variable e : SCPEnvelopeWrapper.
Variable self : bool.
Variable s : BallotProtocol.

(** The [dbgAssert] at the head of [processEnvelope] holds: the slot routes
    to this object the envelopes of its own index only. *)
Hypothesis ownSlot : slotIndex (getStatement e) = getSlotIndex E.

Lemma processEnvelope_head (k : M EnvelopeState) :
  (dbgAssert E (ret (slotIndex (getStatement e) =? getSlotIndex E)) ;; k)%scp s = k s.
Proof.
  rewrite ownSlot, N.eqb_refl.
  exact (bind_Ret _ (fun _ => k) _ (dbgAssert_true E s)).
Qed.

Lemma processEnvelope_not_sane :
  isStatementSane E (getStatement e) self = false ->
  processEnvelope E depth loopFuel e self s = Ret INVALID s.
Proof.
  intros H. rewrite processEnvelope_eq. unfold processEnvelopeBody.
  rewrite processEnvelope_head, H. reflexivity.
Qed.

Lemma processEnvelope_stale old :
  map_find (nodeID (getStatement e)) (mLatestEnvelopes s) = Some old ->
  isNewerStatement (getStatement old) (getStatement e) = false ->
  processEnvelope E depth loopFuel e self s = Ret INVALID s.
Proof.
  intros Hf Hn. rewrite processEnvelope_eq. unfold processEnvelopeBody.
  rewrite processEnvelope_head.
  destruct (isStatementSane E (getStatement e) self); [|reflexivity].
  cbn [negb]. erewrite bind_Ret.
  2:{ unfold isNewerStatementFrom. erewrite bind_Ret by reflexivity.
      rewrite Hf. reflexivity. }
  rewrite Hn. reflexivity.
Qed.

Lemma processEnvelope_invalid_value :
  validateValues E (getStatement e) = kInvalidValue ->
  processEnvelope E depth loopFuel e self s = Ret INVALID s.
Proof.
  intros Hv. rewrite processEnvelope_eq. unfold processEnvelopeBody.
  rewrite processEnvelope_head.
  destruct (isStatementSane E (getStatement e) self); [|reflexivity].
  cbn [negb]. unfold isNewerStatementFrom.
  destruct (map_find (nodeID (getStatement e)) (mLatestEnvelopes s)) as [old|] eqn:Hf.
  - erewrite bind_Ret.
    2:{ erewrite bind_Ret by reflexivity. rewrite Hf. reflexivity. }
    destruct (isNewerStatement (getStatement old) (getStatement e)); [|reflexivity].
    cbn [negb]. rewrite Hv. reflexivity.
  - erewrite bind_Ret.
    2:{ erewrite bind_Ret by reflexivity. rewrite Hf. reflexivity. }
    cbn [negb]. rewrite Hv. reflexivity.
Qed.

(** What is left of [processEnvelope] once the three checks have passed. *)
Lemma processEnvelope_checked :
  isStatementSane E (getStatement e) self = true ->
  fresh e s ->
  validateValues E (getStatement e) <> kInvalidValue ->
  processEnvelope E depth loopFuel e self s
  = if negb (phase_eqb (mPhase s) SCP_PHASE_EXTERNALIZE) then
      ((match validateValues E (getStatement e) with
        | kMaybeValidValue => modify (setFullyValidated false)
        | _ => ret tt
        end ;;
        recordEnvelope e ;;
        advanceSlot E (slotCallback E depth loopFuel) loopFuel (getStatement e) ;;
        ret VALID)%scp s)
    else
      ((c <- deref (mCommit s) ;;
        if value_eqb (value c) (value (getWorkingBallot (getStatement e)))
        then recordEnvelope e ;; ret VALID
        else ret INVALID)%scp s).
Proof.
  intros Hs Hf Hv. rewrite processEnvelope_eq. unfold processEnvelopeBody.
  rewrite processEnvelope_head, Hs. cbn [negb].
  erewrite bind_Ret with (a := true).
  2:{ unfold isNewerStatementFrom, fresh in *. erewrite bind_Ret by reflexivity.
      destruct (map_find (nodeID (getStatement e)) (mLatestEnvelopes s));
        [rewrite Hf|]; reflexivity. }
  cbn [negb].
  destruct (validateValues E (getStatement e)) eqn:Hval; [congruence| |];
    (erewrite bind_Ret by reflexivity;
     destruct (phase_eqb (mPhase s) SCP_PHASE_EXTERNALIZE) eqn:Hp; cbn [negb];
     [erewrite bind_Ret by apply dbgAssert_true|]; reflexivity).
Qed.

End EarlyExits.

(** ** C4: stale statements *)

(** C4.  When a statement of the sender is on record and the statement of
    [e] is not strictly newer in the order of the specification,
    [processEnvelope] answers INVALID and the whole state is as before. *)
Theorem C4_stale_envelope_is_rejected :
  forall E depth loopFuel e self s old,
    slotIndex (getStatement e) = getSlotIndex E ->
    map_find (nodeID (getStatement e)) (mLatestEnvelopes s) = Some old ->
    strictlyNewer (getStatement old) (getStatement e) = false ->
    processEnvelope E depth loopFuel e self s = Ret INVALID s.
Proof.
  intros E depth loopFuel e self s old Hslot Hfind Hnew.
  rewrite <- isNewerStatement_strictlyNewer in Hnew.
  eapply processEnvelope_stale; eassumption.
Qed.

Lemma C4_witness :
  processEnvelope (network false None allValid) 50 50
    (peerPrepare 2 (mkBallot 1 valueV) None) false afterTwoV
  = Ret INVALID afterTwoV.
Proof.
  apply (C4_stale_envelope_is_rejected (network false None allValid) 50 50
           (peerPrepare 2 (mkBallot 1 valueV) None) false afterTwoV
           (old := peerPrepare 2 (mkBallot 2 valueV) None));
    vm_compute; reflexivity.
Defined.

(** ** C5: the externalize guard *)

Lemma value_eqb_eq a b : value_eqb a b = true <-> a = b.
Proof. unfold value_eqb. destruct (Value_eq_dec a b); split; congruence. Qed.

Lemma fresh_dec e s : {fresh e s} + {exists old,
    map_find (nodeID (getStatement e)) (mLatestEnvelopes s) = Some old
    /\ isNewerStatement (getStatement old) (getStatement e) = false}.
Proof.
  unfold fresh.
  destruct (map_find (nodeID (getStatement e)) (mLatestEnvelopes s)) as [old|].
  - destruct (isNewerStatement (getStatement old) (getStatement e)) eqn:Hn.
    + left. reflexivity.
    + right. exists old. split; [reflexivity | exact Hn].
  - left. exact I.
Qed.

(** C5, as the code has it.  In phase EXTERNALIZE an envelope whose working
    ballot disagrees with the committed value is answered INVALID and
    nothing changes; an envelope that agrees is recorded and answered VALID,
    with no other change (no advance step, the phase stays EXTERNALIZE),
    provided it went through the three earlier steps: it is sane, it is
    newer than what its sender has on record, and no value of it is
    invalid.  An envelope that fails one of the three is answered INVALID
    and nothing changes, whatever its value. *)
Theorem C5_externalize_guard :
  forall E depth loopFuel e self s c,
    slotIndex (getStatement e) = getSlotIndex E ->
    mPhase s = SCP_PHASE_EXTERNALIZE ->
    mCommit s = Some c ->
    (value (getWorkingBallot (getStatement e)) <> value c ->
     processEnvelope E depth loopFuel e self s = Ret INVALID s)
    /\ (value (getWorkingBallot (getStatement e)) = value c ->
        isStatementSane E (getStatement e) self = true ->
        fresh e s ->
        validateValues E (getStatement e) <> kInvalidValue ->
        processEnvelope E depth loopFuel e self s = Ret VALID (recorded e s)
        /\ mPhase (recorded e s) = SCP_PHASE_EXTERNALIZE
        /\ mCurrentMessageLevel (recorded e s) = mCurrentMessageLevel s)
    /\ (isStatementSane E (getStatement e) self = false
        \/ (exists old,
               map_find (nodeID (getStatement e)) (mLatestEnvelopes s) = Some old
               /\ isNewerStatement (getStatement old) (getStatement e) = false)
        \/ validateValues E (getStatement e) = kInvalidValue ->
        processEnvelope E depth loopFuel e self s = Ret INVALID s).
Proof.
  intros E depth loopFuel e self s c Hslot Hphase Hc. split; [|split].
  - intros Hneq.
    destruct (isStatementSane E (getStatement e) self) eqn:Hsane;
      [|apply processEnvelope_not_sane; assumption].
    destruct (fresh_dec e s) as [Hf|[old [Hf Hn]]];
      [|eapply processEnvelope_stale; eassumption].
    destruct (validateValues E (getStatement e)) eqn:Hv;
      [apply processEnvelope_invalid_value; assumption| |];
      (rewrite processEnvelope_checked by (assumption || congruence);
       rewrite Hphase, Hc; cbn;
       destruct (value_eqb (value c) (value (getWorkingBallot (getStatement e))))
         eqn:Heq; [apply value_eqb_eq in Heq; congruence | reflexivity]).
  - intros Heq Hsane Hf Hv. split; [|split; [exact Hphase | reflexivity]].
    rewrite processEnvelope_checked by assumption.
    rewrite Hphase, Hc. cbn.
    destruct (value_eqb (value c) (value (getWorkingBallot (getStatement e))))
      eqn:Hne.
    + reflexivity.
    + assert (value_eqb (value c) (value (getWorkingBallot (getStatement e))) = true)
        by (apply value_eqb_eq; congruence).
      congruence.
  - intros [Hsane|[(old & Hf & Hn)|Hv]].
    + apply processEnvelope_not_sane; assumption.
    + eapply processEnvelope_stale; eassumption.
    + apply processEnvelope_invalid_value; assumption.
Qed.

(** Node 4 reports the externalized value to the local node, which has
    externalized [(1, V)]. *)
Lemma C5_witness :
  processEnvelope (network false None allValid) 50 50
    (peerExternalize 4 4 (mkBallot 1 valueV) 1) false externalizedV
  = Ret VALID (recorded (peerExternalize 4 4 (mkBallot 1 valueV) 1) externalizedV).
Proof.
  apply (C5_externalize_guard (network false None allValid) 50 50
           (peerExternalize 4 4 (mkBallot 1 valueV) 1) false externalizedV
           (c := mkBallot 1 valueV));
    vm_compute; (reflexivity || discriminate || exact I).
Defined.

(** Node 2 repeats its CONFIRM of [(1, V)]: the working ballot agrees with
    the committed value, and the envelope is answered INVALID all the same,
    for being stale. *)
Lemma C5_counterexample :
  ~ externalizeGuardAsWorded (network false None allValid) 50 50
      (confirmV 2) false externalizedV.
Proof.
  intros H.
  destruct (H eq_refl (mkBallot 1 valueV) eq_refl) as [_ H2].
  specialize (H2 eq_refl). vm_compute in H2. discriminate H2.
Qed.

(** ** C6: the sanity check *)

Lemma isStatementSane_shape E st self :
  isStatementSane E st self = quorumSetSane E st && saneShape st self.
Proof.
  unfold isStatementSane, quorumSetSane, saneShape.
  destruct (match getQuorumSetFromStatement E st with
            | Some q => isQuorumSetSane E q
            | None => false
            end); cbn [negb andb]; [|reflexivity].
  destruct (pledges st) as [p|c|e]; try reflexivity.
  destruct (p_prepared p), (p_preparedPrime p);
    match goal with
    | |- (if negb ?b then false else true) = _ => destruct b
    end; reflexivity.
Qed.

(** C6, as the code has it.  The sanity check accepts a statement exactly
    when its quorum set is known and sane and its shape is the one the
    specification lists; when it fails, [processEnvelope] answers INVALID
    and changes nothing. *)
Theorem C6_statement_sanity :
  forall E st self,
    (isStatementSane E st self = true
     <-> quorumSetSane E st = true /\ saneShape st self = true)
    /\ (forall depth loopFuel e s,
          getStatement e = st ->
          slotIndex st = getSlotIndex E ->
          isStatementSane E st self = false ->
          processEnvelope E depth loopFuel e self s = Ret INVALID s).
Proof.
  intros E st self. split.
  - rewrite isStatementSane_shape. apply andb_true_iff.
  - intros depth loopFuel e s <- Hslot Hs.
    apply processEnvelope_not_sane; assumption.
Qed.

(** A CONFIRM statement with [nH] above its ballot counter. *)
Lemma C6_witness :
  processEnvelope (network false None allValid) 50 50
    (peerConfirm 2 (mkBallot 1 valueV) 1 1 2) false initialState
  = Ret INVALID initialState.
Proof.
  apply (proj2 (C6_statement_sanity (network false None allValid)
                  (getStatement (peerConfirm 2 (mkBallot 1 valueV) 1 1 2)) false)
           50%nat 50%nat);
    vm_compute; reflexivity.
Defined.

(** A PREPARE statement of the right shape whose quorum set is not known
    is not accepted. *)
Lemma C6_counterexample :
  ~ sanityAsWorded unknownQuorumSets
      (getStatement (peerPrepare 2 (mkBallot 1 valueV) None)) false.
Proof.
  intros [_ H]. specialize (H eq_refl). vm_compute in H. discriminate H.
Qed.

(** ** C10: restoring the state *)

(** C10.  [setStateFromEnvelope] on a protocol whose current ballot is set
    throws, and the state is as before: nothing was recorded.  When it
    returns, the current ballot was not set. *)
Theorem C10_setStateFromEnvelope_only_before_start :
  forall E e s,
    (isSome (mCurrentBallot s) = true ->
     setStateFromEnvelope E e s
     = Raise (RuntimeError "Cannot set state after starting ballot protocol") s)
    /\ (forall s', setStateFromEnvelope E e s = Ret tt s' ->
                   mCurrentBallot s = None).
Proof.
  intros E e s. unfold setStateFromEnvelope.
  erewrite bind_Ret by reflexivity.
  destruct (mCurrentBallot s); cbn [isSome]; split; intros; try reflexivity;
    discriminate.
Qed.

Lemma C10_witness :
  setStateFromEnvelope (network false None allValid)
    (peerConfirm 2 (mkBallot 1 valueV) 1 1 1) atTwoW
  = Raise (RuntimeError "Cannot set state after starting ballot protocol") atTwoW.
Proof.
  apply (proj1 (C10_setStateFromEnvelope_only_before_start
                  (network false None allValid)
                  (peerConfirm 2 (mkBallot 1 valueV) 1 1 1) atTwoW)).
  vm_compute. reflexivity.
Defined.

(** ** The ballot order is a total order *)

Lemma lexProd_total {A B} (ca : A -> A -> comparison) (cb : B -> B -> comparison) :
  TotalOrder ca -> TotalOrder cb -> TotalOrder (lexProd ca cb).
Proof.
  intros [ea oa ta] [eb ob tb]. split; unfold lexProd, lex.
  - intros [a1 b1] [a2 b2]; simpl. split.
    + destruct (ca a1 a2) eqn:H; try discriminate.
      intros H2. apply ea in H. apply eb in H2. congruence.
    + intros H. inversion H; subst.
      rewrite (proj2 (ea a2 a2) eq_refl). apply eb. reflexivity.
  - intros [a1 b1] [a2 b2]; simpl. rewrite oa.
    destruct (ca a1 a2); simpl; auto.
  - intros [a1 b1] [a2 b2] [a3 b3]; simpl.
    destruct (ca a1 a2) eqn:H12; try discriminate;
      destruct (ca a2 a3) eqn:H23; try discriminate; intros X Y.
    + apply ea in H12, H23. subst.
      rewrite (proj2 (ea a3 a3) eq_refl). eauto.
    + apply ea in H12. subst. rewrite H23. reflexivity.
    + apply ea in H23. subst. rewrite H12. reflexivity.
    + rewrite (ta _ _ _ H12 H23). reflexivity.
Qed.

Lemma N_compare_total : TotalOrder N.compare.
Proof.
  split.
  - apply N.compare_eq_iff.
  - intros a b. apply N.compare_antisym.
  - intros a b c. rewrite !N.compare_lt_iff. lia.
Qed.

Lemma to_N_inj x y : Byte.to_N x = Byte.to_N y -> x = y.
Proof.
  intros H. pose proof (Byte.of_to_N x) as Hx. rewrite H, Byte.of_to_N in Hx.
  congruence.
Qed.

Lemma compareValues_total : TotalOrder compareValues.
Proof.
  split.
  - induction a as [|x a IH]; destruct b as [|y b]; simpl; split;
      try congruence.
    + destruct (Byte.to_N x ?= Byte.to_N y) eqn:H; try discriminate.
      intros H2. apply N.compare_eq_iff, to_N_inj in H. apply IH in H2. congruence.
    + intros H. inversion H; subst. rewrite N.compare_refl. apply IH. reflexivity.
  - induction a as [|x a IH]; destruct b as [|y b]; simpl; auto.
    rewrite (N.compare_antisym (Byte.to_N x)).
    destruct (Byte.to_N x ?= Byte.to_N y); simpl; auto.
  - induction a as [|x a IH]; destruct b as [|y b]; destruct c as [|z c];
      simpl; try congruence.
    destruct (Byte.to_N x ?= Byte.to_N y) eqn:H12; try discriminate;
      destruct (Byte.to_N y ?= Byte.to_N z) eqn:H23; try discriminate;
      intros X Y.
    + apply N.compare_eq_iff in H12, H23.
      replace (Byte.to_N x ?= Byte.to_N z) with Eq
        by (symmetry; apply N.compare_eq_iff; congruence).
      eauto.
    + apply N.compare_eq_iff in H12. rewrite H12, H23. reflexivity.
    + apply N.compare_eq_iff in H23. rewrite <- H23, H12. reflexivity.
    + rewrite N.compare_lt_iff in H12, H23.
      replace (Byte.to_N x ?= Byte.to_N z) with Lt
        by (symmetry; apply N.compare_lt_iff; lia).
      reflexivity.
Qed.

Lemma compareBallots_sign a b : compareBallots a b = signOf (ballotCmp a b).
Proof.
  unfold compareBallots, ballotCmp, lex, value_ltb.
  rewrite (cmp_opp compareValues_total (value a) (value b)).
  destruct (N.ltb_spec (counter a) (counter b)) as [H|H].
  - apply N.compare_lt_iff in H. rewrite H. reflexivity.
  - destruct (N.ltb_spec (counter b) (counter a)) as [H2|H2].
    + apply N.compare_gt_iff in H2. rewrite H2. reflexivity.
    + replace (counter a ?= counter b) with Eq
        by (symmetry; apply N.compare_eq_iff; lia).
      destruct (compareValues (value a) (value b)); reflexivity.
Qed.

Lemma ballotCmp_total : TotalOrder ballotCmp.
Proof.
  pose proof (lexProd_total N_compare_total compareValues_total) as [e o t].
  split.
  - intros [n v] [n' v']. specialize (e (n, v) (n', v')).
    unfold lexProd in e. simpl in e. unfold ballotCmp. simpl.
    rewrite e. split; congruence.
  - intros [n v] [n' v']. exact (o (n, v) (n', v')).
  - intros [n v] [n' v'] [n'' v'']. exact (t (n, v) (n', v') (n'', v'')).
Qed.

Lemma compareBallotsOpt_sign a b :
  compareBallotsOpt a b = signOf (optBallotCmp a b).
Proof.
  destruct a, b; simpl; try reflexivity. apply compareBallots_sign.
Qed.

Lemma optBallotCmp_total : TotalOrder optBallotCmp.
Proof.
  destruct ballotCmp_total as [e o t]. split.
  - intros [a|] [b|]; simpl; split; try congruence.
    + intros H. apply e in H. congruence.
    + intros H. apply e. congruence.
  - intros [a|] [b|]; simpl; auto.
  - intros [a|] [b|] [c|]; simpl; try congruence. apply t.
Qed.

Lemma signOf_neg c : (signOf c <? 0)%Z = match c with Lt => true | _ => false end.
Proof. destruct c; reflexivity. Qed.

Lemma signOf_zero c : (signOf c =? 0)%Z = match c with Eq => true | _ => false end.
Proof. destruct c; reflexivity. Qed.

Lemma ballotLe_refl a : ballotLe a a.
Proof.
  unfold ballotLe. rewrite compareBallotsOpt_sign.
  rewrite (proj2 (cmp_eq optBallotCmp_total a a) eq_refl). simpl. lia.
Qed.

Lemma ballotLe_trans a b c : ballotLe a b -> ballotLe b c -> ballotLe a c.
Proof.
  unfold ballotLe. rewrite !compareBallotsOpt_sign.
  destruct (optBallotCmp a b) eqn:H1; simpl; try lia;
    destruct (optBallotCmp b c) eqn:H2; simpl; try lia; intros _ _.
  - apply (cmp_eq optBallotCmp_total) in H1, H2. subst.
    rewrite (proj2 (cmp_eq optBallotCmp_total c c) eq_refl). simpl. lia.
  - apply (cmp_eq optBallotCmp_total) in H1. subst. rewrite H2. simpl. lia.
  - apply (cmp_eq optBallotCmp_total) in H2. subst. rewrite H1. simpl. lia.
  - rewrite (cmp_trans optBallotCmp_total _ _ _ H1 H2). simpl. lia.
Qed.

Lemma isNewerStatement_cmp a b :
  isNewerStatement a b = match statementCmp a b with Lt => true | _ => false end.
Proof.
  rewrite isNewerStatement_strictlyNewer.
  unfold strictlyNewer, statementCmp, ballotLt, ballotEq, optBallotLt, optBallotEq.
  rewrite ?compareBallots_sign, ?compareBallotsOpt_sign.
  destruct (pledges a) as [o|o|o], (pledges b) as [n|n|n]; try reflexivity.
  - rewrite !compareBallots_sign, !compareBallotsOpt_sign, !signOf_neg, !signOf_zero.
    destruct (ballotCmp (p_ballot o) (p_ballot n)); simpl; try reflexivity.
    destruct (optBallotCmp (p_prepared o) (p_prepared n)); simpl; try reflexivity.
    destruct (optBallotCmp (p_preparedPrime o) (p_preparedPrime n)); simpl;
      try reflexivity.
  - rewrite !compareBallots_sign, !signOf_neg, !signOf_zero.
    destruct (ballotCmp (c_ballot o) (c_ballot n)); simpl; try reflexivity.
    destruct (N.compare_spec (c_nPrepared o) (c_nPrepared n)) as [H|H|H]; simpl.
    + rewrite H, N.ltb_irrefl, N.eqb_refl. reflexivity.
    + apply N.ltb_lt in H. rewrite H. reflexivity.
    + destruct (N.ltb_spec (c_nPrepared o) (c_nPrepared n)); [lia|].
      destruct (N.eqb_spec (c_nPrepared o) (c_nPrepared n)); [lia|].
      reflexivity.
Qed.

Lemma lex_Lt_trans {A B} (ca : A -> A -> comparison) (cb : B -> B -> comparison)
    (Ta : TotalOrder ca) (Tb : forall b1 b2 b3, cb b1 b2 = Lt -> cb b2 b3 = Lt -> cb b1 b3 = Lt)
    a1 a2 a3 b1 b2 b3 :
  lex (ca a1 a2) (cb b1 b2) = Lt -> lex (ca a2 a3) (cb b2 b3) = Lt ->
  lex (ca a1 a3) (cb b1 b3) = Lt.
Proof.
  destruct Ta as [e o t]. unfold lex.
  destruct (ca a1 a2) eqn:H12; try discriminate;
    destruct (ca a2 a3) eqn:H23; try discriminate; intros X Y.
  - apply e in H12, H23. subst. rewrite (proj2 (e a3 a3) eq_refl). eauto.
  - apply e in H12. subst. rewrite H23. reflexivity.
  - apply e in H23. subst. rewrite H12. reflexivity.
  - rewrite (t _ _ _ H12 H23). reflexivity.
Qed.

Arguments lex_Lt_trans {A B} ca cb Ta Tb a1 a2 a3 b1 b2 b3.

(** [isNewerStatement] is transitive and irreflexive. *)
Lemma isNewerStatement_trans a b c :
  isNewerStatement a b = true -> isNewerStatement b c = true ->
  isNewerStatement a c = true.
Proof.
  rewrite !isNewerStatement_cmp.
  assert (statementCmp a b = Lt -> statementCmp b c = Lt -> statementCmp a c = Lt).
  { unfold statementCmp.
    destruct (pledges a) as [x|x|x], (pledges b) as [y|y|y], (pledges c) as [z|z|z];
      cbn; try congruence.
    - apply (lex_Lt_trans ballotCmp
               (fun (u v : option SCPBallot * (option SCPBallot * N)) =>
                  lex (optBallotCmp (fst u) (fst v))
                    (lex (optBallotCmp (fst (snd u)) (fst (snd v)))
                       (snd (snd u) ?= snd (snd v))))
               ballotCmp_total)
        with (b1 := (p_prepared x, (p_preparedPrime x, p_nH x)))
             (b2 := (p_prepared y, (p_preparedPrime y, p_nH y)))
             (b3 := (p_prepared z, (p_preparedPrime z, p_nH z))).
      intros [u1 [u2 u3]] [v1 [v2 v3]] [w1 [w2 w3]]; simpl.
      apply (lex_Lt_trans optBallotCmp
               (fun (u v : option SCPBallot * N) =>
                  lex (optBallotCmp (fst u) (fst v)) (snd u ?= snd v))
               optBallotCmp_total)
        with (b1 := (u2, u3)) (b2 := (v2, v3)) (b3 := (w2, w3)).
      intros [p1 p2] [q1 q2] [r1 r2]; simpl.
      apply (lex_Lt_trans optBallotCmp N.compare optBallotCmp_total
               (cmp_trans N_compare_total)).
    - apply (lex_Lt_trans ballotCmp
               (fun (u v : N * N) => lex (fst u ?= fst v) (snd u ?= snd v))
               ballotCmp_total)
        with (b1 := (c_nPrepared x, c_nH x)) (b2 := (c_nPrepared y, c_nH y))
             (b3 := (c_nPrepared z, c_nH z)).
      intros [p1 p2] [q1 q2] [r1 r2]; simpl.
      apply (lex_Lt_trans N.compare N.compare N_compare_total
               (cmp_trans N_compare_total)). }
  destruct (statementCmp a b), (statementCmp b c); try discriminate.
  rewrite H by reflexivity. reflexivity.
Qed.

Lemma isNewerStatement_irrefl a : isNewerStatement a a = false.
Proof.
  rewrite isNewerStatement_cmp. unfold statementCmp.
  destruct (pledges a) as [x|x|x]; try reflexivity.
  - rewrite (proj2 (cmp_eq ballotCmp_total _ _) eq_refl).
    rewrite !(proj2 (cmp_eq optBallotCmp_total _ _) eq_refl).
    simpl. rewrite N.compare_refl. reflexivity.
  - rewrite (proj2 (cmp_eq ballotCmp_total _ _) eq_refl).
    simpl. rewrite !N.compare_refl. reflexivity.
Qed.

(** ** What every member function preserves *)

Lemma wp_ret {A} (a : A) s Q X F : Q a s -> wp (ret a) s Q X F.
Proof. exact (fun H => H). Qed.

Lemma wp_get s Q X F : Q s s -> wp get s Q X F.
Proof. exact (fun H => H). Qed.

Lemma wp_modify f s Q X F : Q tt (f s) -> wp (modify f) s Q X F.
Proof. exact (fun H => H). Qed.

Lemma wp_throw {A} e s (Q : A -> _) X F : X e s -> wp (throw e) s Q X F.
Proof. exact (fun H => H). Qed.

Lemma wp_bind {A B} (m : M A) (k : A -> M B) s Q X F :
  wp m s (fun a s' => wp (k a) s' Q X F) X F -> wp (bind m k) s Q X F.
Proof. unfold wp, bind. destruct (m s); auto. Qed.

Lemma wp_mono {A} (m : M A) s (Q Q' : A -> _ -> Prop) (X X' : _ -> _ -> Prop)
    (F F' : _ -> Prop) :
  wp m s Q X F ->
  (forall a s', Q a s' -> Q' a s') ->
  (forall e s', X e s' -> X' e s') ->
  (forall k, F k -> F' k) ->
  wp m s Q' X' F'.
Proof. unfold wp. destruct (m s); auto. Qed.

Lemma wp_deref {A} (o : option A) s Q X F :
  (forall a, o = Some a -> Q a s) -> (o = None -> X NullDereference s) ->
  wp (deref o) s Q X F.
Proof. destruct o; unfold wp; simpl; auto. Qed.

Lemma wp_readOnly {A} (m : M A) s Q X F :
  readOnly m -> (forall a, Q a s) -> (forall e, X e s) -> wp m s Q X F.
Proof.
  intros H HQ HX. specialize (H s). unfold wp in *.
  destruct (m s); subst; auto. contradiction.
Qed.

Lemma readOnly_ret {A} (a : A) : readOnly (ret a).
Proof. intros s. reflexivity. Qed.

Lemma readOnly_deref {A} (o : option A) : readOnly (deref o).
Proof. intros s. destruct o; reflexivity. Qed.

Lemma readOnly_bind {A B} (m : M A) (k : A -> M B) :
  readOnly m -> (forall a, readOnly (k a)) -> readOnly (bind m k).
Proof.
  intros Hm Hk s. apply wp_bind. specialize (Hm s). unfold wp in *.
  destruct (m s) as [a s'|e s'|f]; subst; auto. apply Hk.
Qed.

Lemma readOnly_get_bind {B} (k : BallotProtocol -> M B) :
  (forall a, readOnly (k a)) -> readOnly (bind get k).
Proof. intros Hk s. apply wp_bind, wp_get, Hk. Qed.

Lemma readOnly_dbgAssert E c : readOnly c -> readOnly (dbgAssert E c).
Proof.
  intros Hc. unfold dbgAssert. destruct (ndebug E); [apply readOnly_ret|].
  apply readOnly_bind; [exact Hc|]. intros [|]; [apply readOnly_ret|].
  intros s. reflexivity.
Qed.

Ltac readOnly_step :=
  match goal with
  | |- readOnly (ret _) => apply readOnly_ret
  | |- readOnly (deref _) => apply readOnly_deref
  | |- readOnly (dbgAssert _ _) => apply readOnly_dbgAssert
  | |- readOnly (bind get _) => apply readOnly_get_bind; intros ?
  | |- readOnly (bind _ _) => apply readOnly_bind; [|intros ?]
  | |- readOnly (if ?x then _ else _) => destruct x
  | |- readOnly (match ?x with _ => _ end) => destruct x
  end.

Lemma readOnly_checkInvariants E : readOnly (checkInvariants E).
Proof. unfold checkInvariants. repeat readOnly_step. Qed.

Lemma readOnly_createStatement E t : readOnly (createStatement E t).
Proof.
  unfold createStatement.
  repeat first [apply readOnly_checkInvariants | readOnly_step].
Qed.

Lemma readOnly_acceptPreparedSearch E l : readOnly (acceptPreparedSearch E l).
Proof.
  induction l as [|b l IH]; simpl; [apply readOnly_ret|].
  repeat first [exact IH | readOnly_step].
Qed.

Lemma Step_refl s : Step s s.
Proof.
  constructor;
    first [tauto | lia | apply ballotLe_refl | left; apply ballotLe_refl].
Qed.

Lemma Step_trans a b c : Step a b -> Step b c -> Step a c.
Proof.
  intros [l1 n1 u1 o1 p1 h1 b1 c1] [l2 n2 u2 o2 p2 h2 b2 c2]. constructor.
  - congruence.
  - intros H. destruct (n1 H) as [x y]. rewrite <- l1 in H.
    destruct (n2 H) as [x' y']. split; congruence.
  - intros H. destruct (u1 H) as [x y]. destruct (u2 x) as [x' y'].
    split; congruence.
  - auto.
  - eapply ballotLe_trans; eassumption.
  - lia.
  - destruct b1 as [b1|[b1 b1']].
    + destruct b2 as [b2|[b2 b2']].
      * left. eapply ballotLe_trans; eassumption.
      * right. split; [|exact b2'].
        destruct (mPhase a), (mPhase b); simpl in *; try reflexivity;
          try discriminate; lia.
    + right. split; [exact b1|].
      destruct (mPhase b), (mPhase c); simpl in *; try congruence; lia.
  - auto.
Qed.

Lemma Step_Stop a b c : Step a b -> Stop b c -> Stop a c.
Proof.
  intros [l1 n1 u1 o1 p1 h1 b1 c1] [l2 d2 n2 u2 p2 h2]. constructor.
  - lia.
  - rewrite <- l1. exact d2.
  - intros H. destruct (n1 H) as [x y]. rewrite <- l1 in H.
    destruct (n2 H) as [x' y']. split; congruence.
  - intros H. destruct (u1 H) as [x y]. destruct (u2 x) as [x' y'].
    split; congruence.
  - eapply ballotLe_trans; eassumption.
  - lia.
Qed.

Lemma Stop_refl s : Stop s s.
Proof.
  constructor;
    first [tauto | lia | apply ballotLe_refl
          | unfold MAX_ADVANCE_SLOT_RECURSION; lia].
Qed.

Lemma fuelOk_level d a b k :
  Step a b -> fuelOk d (mCurrentMessageLevel b) k -> fuelOk d (mCurrentMessageLevel a) k.
Proof. intros H. rewrite (step_level H). exact (fun x => x). Qed.

Lemma value_eqb_neq a b : value_eqb a b = false <-> a <> b.
Proof. unfold value_eqb. destruct (Value_eq_dec a b); split; congruence. Qed.

Ltac bump_cases s :=
  unfold bumpResult;
  destruct (mCurrentBallot s) as [?b|] eqn:?Hb;
  destruct (mHighBallot s) as [?h|] eqn:?Hh; cbn [isSome];
  repeat match goal with
         | |- context [areBallotsCompatible ?x ?y] =>
             destruct (areBallotsCompatible x y)
         | |- context [counter ?x =? counter ?y] =>
             destruct (counter x =? counter y)
         end;
  cbn; rewrite ?Hb, ?Hh; reflexivity.

Lemma bump_level b s : mCurrentMessageLevel (bumpResult b s) = mCurrentMessageLevel s.
Proof. bump_cases s. Qed.
Lemma bump_calls b s :
  flat_map (fun c => match c with emitEnvelope e => [e] | _ => [] end)
    (driverCalls (bumpResult b s))
  = flat_map (fun c => match c with emitEnvelope e => [e] | _ => [] end)
      (driverCalls s).
Proof. bump_cases s. Qed.
Lemma bump_lastEmit b s : mLastEnvelopeEmit (bumpResult b s) = mLastEnvelopeEmit s.
Proof. bump_cases s. Qed.
Lemma bump_last b s : mLastEnvelope (bumpResult b s) = mLastEnvelope s.
Proof. bump_cases s. Qed.
Lemma bump_validated b s : isFullyValidated (bumpResult b s) = isFullyValidated s.
Proof. bump_cases s. Qed.
Lemma bump_prepared b s : mPrepared (bumpResult b s) = mPrepared s.
Proof. bump_cases s. Qed.
Lemma bump_preparedPrime b s : mPreparedPrime (bumpResult b s) = mPreparedPrime s.
Proof. bump_cases s. Qed.
Lemma bump_phase b s : mPhase (bumpResult b s) = mPhase s.
Proof. bump_cases s. Qed.
Lemma bump_current b s : mCurrentBallot (bumpResult b s) = Some b.
Proof. bump_cases s. Qed.
Lemma bump_high b s :
  mHighBallot (bumpResult b s)
  = match mHighBallot s with
    | Some h => if areBallotsCompatible b h then Some h else None
    | None => None
    end.
Proof. bump_cases s. Qed.
Lemma bump_commit b s :
  mCommit (bumpResult b s)
  = match mHighBallot s with
    | Some h => if areBallotsCompatible b h then mCommit s else None
    | None => mCommit s
    end.
Proof. bump_cases s. Qed.

Create Rewrite HintDb bump.

#[local] Hint Rewrite bump_level bump_calls bump_lastEmit bump_last bump_validated
  bump_prepared bump_preparedPrime bump_phase bump_current bump_high bump_commit
  : bump.

Ltac boolify :=
  repeat match goal with
  | H : _ && _ = true |- _ => apply andb_true_iff in H; destruct H
  | H : _ || _ = false |- _ => apply orb_false_iff in H; destruct H
  | H : negb _ = true |- _ => apply negb_true_iff in H
  | H : negb _ = false |- _ => apply negb_false_iff in H
  | H : (_ =? _)%Z = true |- _ => apply Z.eqb_eq in H
  | H : (_ =? _)%Z = false |- _ => apply Z.eqb_neq in H
  | H : (_ <? _)%Z = true |- _ => apply Z.ltb_lt in H
  | H : (_ <? _)%Z = false |- _ => apply Z.ltb_ge in H
  | H : (_ <=? _)%Z = true |- _ => apply Z.leb_le in H
  | H : (_ <=? _)%Z = false |- _ => apply Z.leb_gt in H
  | H : (_ =? _)%N = true |- _ => apply N.eqb_eq in H
  | H : (_ =? _)%N = false |- _ => apply N.eqb_neq in H
  | H : (_ <? _)%N = true |- _ => apply N.ltb_lt in H
  | H : (_ <? _)%N = false |- _ => apply N.ltb_ge in H
  | H : (_ <=? _)%N = true |- _ => apply N.leb_le in H
  | H : (_ <=? _)%N = false |- _ => apply N.leb_gt in H
  | H : (_ >? _)%Z = _ |- _ => rewrite Z.gtb_ltb in H
  | H : (_ >=? _)%Z = _ |- _ => rewrite Z.geb_leb in H
  | H : areBallotsCompatible _ _ = _ |- _ => unfold areBallotsCompatible in H
  | H : areBallotsLessAndCompatible _ _ = _ |- _ => unfold areBallotsLessAndCompatible in H
  | H : areBallotsLessAndIncompatible _ _ = _ |- _ => unfold areBallotsLessAndIncompatible in H
  | H : value_eqb _ _ = true |- _ => apply value_eqb_eq in H
  | H : value_eqb _ _ = false |- _ => apply value_eqb_neq in H
  end.

Ltac wp_step :=
  match goal with
  | |- wp (bind _ _) _ _ _ _ => apply wp_bind
  | |- wp (ret _) _ _ _ _ => apply wp_ret
  | |- wp get _ _ _ _ => apply wp_get
  | |- wp (modify _) _ _ _ _ => apply wp_modify
  | |- wp (throw _) _ _ _ _ => apply wp_throw
  | |- wp (deref _) _ _ _ _ => apply wp_deref; [intros ? ?|intros ?]
  | |- wp (dbgAssert _ _) _ _ _ _ =>
      apply wp_readOnly; [apply readOnly_dbgAssert; repeat readOnly_step|intros ?|intros ?]
  | |- wp (checkInvariants _) _ _ _ _ =>
      apply wp_readOnly; [apply readOnly_checkInvariants|intros ?|intros ?]
  | |- wp (createStatement _ _) _ _ _ _ =>
      apply wp_readOnly; [apply readOnly_createStatement|intros ?|intros ?]
  | |- wp (if ?c then _ else _) _ _ _ _ => destruct c eqn:?
  | |- wp (match ?c with _ => _ end) _ _ _ _ => destruct c eqn:?
  end; cbv beta zeta.

Lemma ballotLe_None b : ballotLe None b.
Proof. unfold ballotLe. destruct b; simpl; lia. Qed.

Lemma ballotLe_lt a b : (compareBallots a b < 0)%Z -> ballotLe (Some a) (Some b).
Proof. unfold ballotLe. simpl. lia. Qed.

Lemma ballotLe_le a b : (compareBallots a b <= 0)%Z -> ballotLe (Some a) (Some b).
Proof. unfold ballotLe. simpl. lia. Qed.

Ltac finish :=
  solve [ reflexivity | assumption | lia | congruence | tauto
        | apply ballotLe_refl | apply ballotLe_None
        | apply ballotLe_lt; assumption | apply ballotLe_le; assumption
        | left; apply ballotLe_refl | left; apply ballotLe_None
        | left; apply ballotLe_lt; assumption
        | left; apply ballotLe_le; assumption
        | right; split; [assumption || reflexivity | congruence]
        | eapply isNewerStatement_trans; eassumption
        | right; eapply isNewerStatement_trans; eassumption
        | exfalso; lia | exfalso; congruence ].

Ltac crush_step :=
  match goal with
  | |- _ /\ _ => split
  | |- _ -> _ => intro
  | |- _ && _ = true => apply andb_true_iff; split
  | |- value_eqb _ _ = true => apply value_eqb_eq
  | H : _ /\ _ |- _ => destruct H
  | H : _ \/ _ |- _ => destruct H
  | H : exists _, _ |- _ => destruct H
  | H : Some _ = Some _ |- _ => inversion H; clear H
  | H : Some _ = None |- _ => discriminate H
  | H : None = Some _ |- _ => discriminate H
  | H : true = false |- _ => discriminate H
  | H : false = true |- _ => discriminate H
  | H : ?x = Some _ |- context [?x] => rewrite H in *
  | H : ?x = None |- context [?x] => rewrite H in *
  | H : ?x = Some _, H' : context [?x] |- _ =>
      lazymatch H' with H => fail | _ => rewrite H in H' end
  | H : ?x = None, H' : context [?x] |- _ =>
      lazymatch H' with H => fail | _ => rewrite H in H' end
  | H : phase_eqb ?p _ = _ |- _ =>
      destruct p eqn:?; cbn in H; try discriminate H; clear H
  | H : context [match ?c with _ => _ end] |- _ => destruct c eqn:?
  | |- context [match ?c with _ => _ end] => destruct c eqn:?
  | |- context [phaseRank (mPhase ?s)] => destruct (mPhase s) eqn:?
  end.

Ltac crush :=
  unfold compatibleState, broadcastOrder, emitted,
    MAX_ADVANCE_SLOT_RECURSION, areBallotsCompatible, getStatement,
    phaseIsPrepareOrConfirm in *;
  repeat (cbn in *; autorewrite with bump in *; boolify; subst;
          first [finish | crush_step]).

(** A component that holds because the fields it reads did not change. *)
Ltac quick :=
  unfold compatibleState, broadcastOrder, emitted, MAX_ADVANCE_SLOT_RECURSION;
  repeat progress (cbn; autorewrite with bump);
  solve [ reflexivity | lia | apply ballotLe_refl | left; apply ballotLe_refl
        | intros; assumption | intros; split; reflexivity
        | intros; split; [assumption | reflexivity] ].

Ltac relate := constructor; first [quick | crush].

Lemma sendLatestEnvelope_keeps F s :
  wp sendLatestEnvelope s (fun _ s' => Step s s') (fun _ s' => Stop s s') F.
Proof.
  unfold sendLatestEnvelope. repeat wp_step.
  all: try apply Step_refl.
  all: constructor; crush.
Qed.

Lemma recordEnvelope_keeps F e s :
  wp (recordEnvelope e) s (fun _ s' => Step s s') (fun _ s' => Stop s s') F.
Proof.
  unfold recordEnvelope. repeat wp_step. constructor; crush.
Qed.

Lemma bumpToBallot_wp E ballot check s Q X F :
  (forall e, X e s) -> Q tt (bumpResult ballot s) ->
  wp (bumpToBallot E ballot check) s Q X F.
Proof.
  intros HX HQ. unfold bumpToBallot. repeat wp_step; auto.
  all: unfold bumpResult in HQ;
    repeat match goal with
           | H : _ = _ |- _ => rewrite H in HQ
           end; cbn in HQ; try exact HQ.
Qed.

Ltac leaf :=
  match goal with
  | Href : Step ?s0 _ |- Step ?s0 _ =>
      apply (Step_trans Href); first [apply Step_refl | relate]
  | Href : Step ?s0 _ |- Stop ?s0 _ =>
      apply (Step_Stop Href); first [apply Stop_refl | relate]
  end.

Ltac wp_call L :=
  match goal with
  | Href : Step ?s0 _ |- wp _ ?scur _ _ _ =>
      let Hcur := fresh "Hcur" in
      assert (Hcur : Step s0 scur)
        by (apply (Step_trans Href); first [apply Step_refl | relate]);
      eapply wp_mono;
      [ apply L
      | let a := fresh "r" in let s' := fresh "s" in let Hn := fresh "Hn" in
        intros a s' Hn; pose proof (Step_trans Hcur Hn); clear Href Hcur Hn;
        match goal with H : Step s0 s' |- _ => rename H into Href end
      | let Hn := fresh "Hn" in
        intros ? ? Hn;
        first [ exact (Step_Stop Hcur Hn)
              | pose proof (Step_Stop Hcur Hn); clear Hn ]
      | let Hk := fresh "Hk" in
        intros ? Hk;
        first [ exact (fuelOk_level _ _ Hcur Hk)
              | pose proof (fuelOk_level _ _ Hcur Hk); clear Hk ] ]
  end; cbv beta.

(** The same for a function that never runs out of fuel. *)
Ltac wp_call0 L :=
  match goal with
  | Href : Step ?s0 _ |- wp _ ?scur _ _ _ =>
      let Hcur := fresh "Hcur" in
      assert (Hcur : Step s0 scur)
        by (apply (Step_trans Href); first [apply Step_refl | relate]);
      eapply wp_mono with (F := fun _ => False);
      [ apply L
      | let a := fresh "r" in let s' := fresh "s" in let Hn := fresh "Hn" in
        intros a s' Hn; pose proof (Step_trans Hcur Hn); clear Href Hcur Hn;
        match goal with H : Step s0 s' |- _ => rename H into Href end
      | let Hn := fresh "Hn" in
        intros ? ? Hn;
        first [ exact (Step_Stop Hcur Hn)
              | pose proof (Step_Stop Hcur Hn); clear Hn ]
      | intros ? [] ]
  end; cbv beta.

(** [wp_step], stopping in front of an assignment. *)
Ltac wp_step0 :=
  lazymatch goal with
  | |- wp (bind (modify _) _) _ _ _ _ => fail
  | |- wp (modify _) _ _ _ _ => fail
  | _ => wp_step
  end.

Lemma updateCurrentIfNeeded_wp E h s Q X F :
  (forall e, X e s) ->
  (match mCurrentBallot s with
   | None => True
   | Some b => (compareBallots b h < 0)%Z
   end -> Q true (bumpResult h s)) ->
  (forall b, mCurrentBallot s = Some b -> (0 <= compareBallots b h)%Z -> Q false s) ->
  wp (updateCurrentIfNeeded E h) s Q X F.
Proof.
  intros HX H1 H2. unfold updateCurrentIfNeeded. repeat wp_step.
  - apply bumpToBallot_wp; [auto|]. apply wp_ret. apply H1.
    destruct (mCurrentBallot s); boolify; auto.
  - destruct (mCurrentBallot s) eqn:Hb; [|discriminate]. boolify. eapply H2; eauto.
Qed.

Lemma bumpResult_Step ballot s :
  ballotLe (mCurrentBallot s) (Some ballot) -> Step s (bumpResult ballot s).
Proof. intros H. constructor; crush. Qed.

Lemma updateCurrentValue_keeps E F ballot s :
  wp (updateCurrentValue E ballot) s (fun _ s' => Step s s') (fun _ s' => Stop s s') F.
Proof.
  pose proof (Step_refl s) as Href.
  unfold updateCurrentValue. repeat first [wp_step | apply bumpToBallot_wp; [intros ?|]].
  all: try leaf.
Qed.

Lemma checkHeardFromQuorum_keeps E F s :
  wp (checkHeardFromQuorum E) s (fun _ s' => Step s s') (fun _ s' => Stop s s') F.
Proof.
  pose proof (Step_refl s) as Href.
  unfold checkHeardFromQuorum, startBallotProtocolTimer, stopBallotProtocolTimer.
  repeat wp_step. all: try leaf.
Qed.

Lemma setPrepared_keeps F ballot s :
  wp (setPrepared ballot) s (fun _ s' => Step s s') (fun _ s' => Stop s s') F.
Proof.
  pose proof (Step_refl s) as Href.
  unfold setPrepared. repeat wp_step. all: try leaf.
Qed.

Section WithCallback.

Variable E : Env.
Variable d : nat.
Variable pe : SCPEnvelopeWrapper -> bool -> M EnvelopeState.
Hypothesis pe_keeps : forall e self, keeps d (pe e self).

Lemma emitCurrentStateStatement_keeps : keeps d (emitCurrentStateStatement E pe).
Proof.
  intros s. pose proof (Step_refl s) as Href.
  unfold emitCurrentStateStatement, wrapEnvelope.
  repeat first [wp_step | wp_call pe_keeps | wp_call sendLatestEnvelope_keeps].
  all: try leaf.
Qed.

Lemma bumpState_keeps v n : keeps d (bumpState E pe v n).
Proof.
  intros s. pose proof (Step_refl s) as Href.
  unfold bumpState.
  repeat first [wp_step | wp_call (@updateCurrentValue_keeps E)
               | wp_call emitCurrentStateStatement_keeps
               | wp_call (@checkHeardFromQuorum_keeps E)].
  all: try leaf.
Qed.

Lemma bumpStateForce_keeps v f : keeps d (bumpStateForce E pe v f).
Proof.
  intros s. pose proof (Step_refl s) as Href.
  unfold bumpStateForce.
  repeat first [wp_step | wp_call bumpState_keeps].
  all: try leaf.
Qed.

Lemma abandonBallot_keeps n : keeps d (abandonBallot E pe n).
Proof.
  intros s. pose proof (Step_refl s) as Href.
  unfold abandonBallot.
  repeat first [wp_step | wp_call bumpState_keeps | wp_call bumpStateForce_keeps].
  all: try leaf.
Qed.

Lemma ballotProtocolTimerExpired_keeps : keeps d (ballotProtocolTimerExpired E pe).
Proof.
  intros s. pose proof (Step_refl s) as Href.
  unfold ballotProtocolTimerExpired.
  repeat first [wp_step | wp_call abandonBallot_keeps].
  all: try leaf.
Qed.

Lemma setAcceptPrepared_keeps b : keeps d (setAcceptPrepared E pe b).
Proof.
  intros s. pose proof (Step_refl s) as Href.
  unfold setAcceptPrepared.
  repeat first [wp_step | wp_call setPrepared_keeps
               | wp_call emitCurrentStateStatement_keeps].
  all: try leaf.
Qed.

Lemma attemptAcceptPrepared_keeps hint : keeps d (attemptAcceptPrepared E pe hint).
Proof.
  intros s. pose proof (Step_refl s) as Href.
  unfold attemptAcceptPrepared.
  repeat first [wp_step | wp_call setAcceptPrepared_keeps
               | apply wp_readOnly;
                 [apply readOnly_acceptPreparedSearch|intros ?|intros ?]].
  all: try leaf.
Qed.


Ltac wp_bump :=
  match goal with
  | |- wp (bumpToBallot _ _ _) _ _ _ _ => apply bumpToBallot_wp; [intros ?|]
  | |- wp (updateCurrentIfNeeded _ _) _ _ _ _ =>
      apply updateCurrentIfNeeded_wp; [intros ?|intros ?|intros ? ? ?]
  end; cbv beta.

Lemma setConfirmPrepared_keeps newC newH :
  (counter newC = 0 \/ value newC = value newH) ->
  keeps d (setConfirmPrepared E pe newC newH).
Proof.
  intros Hc s. pose proof (Step_refl s) as Href.
  unfold setConfirmPrepared.
  repeat first [wp_step | wp_bump | wp_call emitCurrentStateStatement_keeps].
  all: try leaf.
Qed.


Lemma findNewC_compatible s b newH cur newC :
  counter newC = 0 \/ value newC = value newH ->
  counter (findNewC E s b newH cur newC) = 0
  \/ value (findNewC E s b newH cur newC) = value newH.
Proof.
  revert newC. induction cur as [|x cur IH]; intros newC H; simpl; [exact H|].
  destruct (compareBallots x b <? 0)%Z; [exact H|].
  destruct (areBallotsLessAndCompatible x newH) eqn:Hx; simpl; [|apply IH, H].
  destruct (federatedRatify E (hasPreparedBallot x) (mLatestEnvelopes s));
    [|exact H].
  apply IH. right. boolify. assumption.
Qed.

Lemma attemptConfirmPrepared_keeps hint : keeps d (attemptConfirmPrepared E pe hint).
Proof.
  intros s. pose proof (Step_refl s) as Href.
  unfold attemptConfirmPrepared.
  repeat first [wp_step | wp_call setConfirmPrepared_keeps].
  all: try leaf.
  all: match goal with
       | |- context [if ?c then _ else _] => destruct c
       end;
    [apply findNewC_compatible|]; left; reflexivity.
Qed.

Lemma setAcceptCommit_keeps c h s :
  value c = value h ->
  (mPhase s = SCP_PHASE_PREPARE
   \/ exists oldH, mHighBallot s = Some oldH /\ value h = value oldH) ->
  wp (setAcceptCommit E pe c h) s (fun _ s' => Step s s') (fun _ s' => Stop s s')
    (fuelOk d (mCurrentMessageLevel s)).
Proof.
  intros Hv Hp. pose proof (Step_refl s) as Href.
  unfold setAcceptCommit.
  repeat first [wp_step | wp_bump | wp_call emitCurrentStateStatement_keeps].
  all: try leaf.
Qed.

Lemma attemptAcceptCommit_keeps hint : keeps d (attemptAcceptCommit E pe hint).
Proof.
  intros s. pose proof (Step_refl s) as Href.
  unfold attemptAcceptCommit.
  repeat first
    [ wp_step
    | match goal with
      | |- wp (setAcceptCommit _ _ _ _) _ _ _ _ => apply setAcceptCommit_keeps
      end ].
  all: try leaf.
  all: try reflexivity.
  all: first
    [ right; eexists; split; [eassumption|]; cbn; boolify; congruence
    | left; unfold phaseIsPrepareOrConfirm in *;
      destruct (mPhase s); cbn in *; first [reflexivity | discriminate] ].
Qed.

Lemma setConfirmCommit_keeps c h s :
  value c = value h ->
  (exists oldC, mCommit s = Some oldC /\ value h = value oldC) ->
  wp (setConfirmCommit E pe c h) s (fun _ s' => Step s s') (fun _ s' => Stop s s')
    (fuelOk d (mCurrentMessageLevel s)).
Proof.
  intros Hv Hp. pose proof (Step_refl s) as Href.
  unfold setConfirmCommit.
  repeat first [wp_step | wp_bump | wp_call emitCurrentStateStatement_keeps].
  all: try leaf.
Qed.

Lemma attemptConfirmCommit_keeps hint : keeps d (attemptConfirmCommit E pe hint).
Proof.
  intros s. pose proof (Step_refl s) as Href.
  unfold attemptConfirmCommit.
  repeat first
    [ wp_step
    | match goal with
      | |- wp (setConfirmCommit _ _ _ _) _ _ _ _ => apply setConfirmCommit_keeps
      end ].
  all: try leaf.
  all: try reflexivity.
  all: eexists; split; [eassumption|]; cbn; boolify; congruence.
Qed.

Lemma attemptBump_keeps : keeps d (attemptBump E pe).
Proof.
  intros s. pose proof (Step_refl s) as Href.
  unfold attemptBump.
  repeat first [wp_step | wp_call abandonBallot_keeps].
  all: try leaf.
Qed.

Lemma bumpLoop_keeps fuel didWork : keeps d (bumpLoop E pe fuel didWork).
Proof.
  revert didWork. induction fuel as [|fuel IH]; intros didWork s.
  - exact I.
  - pose proof (Step_refl s) as Href. simpl.
    repeat first [wp_step | wp_call attemptBump_keeps | wp_call IH].
    all: try leaf.
Qed.


Lemma advanceSlot_wp loopFuel hint s Q X F :
  ((MAX_ADVANCE_SLOT_RECURSION <= mCurrentMessageLevel s + 1)%Z ->
   X (RuntimeError "maximum number of transitions reached in advanceSlot")
     (set_mCurrentMessageLevel (mCurrentMessageLevel s + 1) s)) ->
  ((mCurrentMessageLevel s + 1 < MAX_ADVANCE_SLOT_RECURSION)%Z ->
   forall (didWork : bool) s',
     Step (set_mCurrentMessageLevel (mCurrentMessageLevel s + 1) s) s' ->
     wp (modify (fun s => set_mCurrentMessageLevel (mCurrentMessageLevel s - 1) s) ;;
         if didWork then sendLatestEnvelope else ret tt) s' Q X F) ->
  ((mCurrentMessageLevel s + 1 < MAX_ADVANCE_SLOT_RECURSION)%Z ->
   forall e s',
     Stop (set_mCurrentMessageLevel (mCurrentMessageLevel s + 1) s) s' -> X e s') ->
  ((mCurrentMessageLevel s + 1 < MAX_ADVANCE_SLOT_RECURSION)%Z ->
   forall k, fuelOk d (mCurrentMessageLevel s + 1) k -> F k) ->
  wp (advanceSlot E pe loopFuel hint) s Q X F.
Proof.
  intros H1 H2 H3 H4. unfold advanceSlot.
  apply wp_bind, wp_modify. apply wp_bind, wp_get. cbv beta.
  destruct (mCurrentMessageLevel
              (set_mCurrentMessageLevel (mCurrentMessageLevel s + 1) s)
            >=? MAX_ADVANCE_SLOT_RECURSION)%Z eqn:Hlvl;
    cbn in Hlvl; rewrite Z.geb_leb in Hlvl.
  - apply wp_throw, H1. apply Z.leb_le, Hlvl.
  - apply Z.leb_gt in Hlvl.
    pose proof (Step_refl (set_mCurrentMessageLevel (mCurrentMessageLevel s + 1) s))
      as Href.
    repeat first
      [ wp_step0
      | wp_call attemptAcceptPrepared_keeps
      | wp_call attemptConfirmPrepared_keeps
      | wp_call attemptAcceptCommit_keeps
      | wp_call attemptConfirmCommit_keeps
      | wp_call bumpLoop_keeps
      | wp_call0 (@checkHeardFromQuorum_keeps E) ].
    all: try (apply H2; [exact Hlvl | exact Href]).
    all: try (eapply H3; [exact Hlvl | eassumption]).
    all: try (eapply H4; [exact Hlvl | eassumption]).
Qed.


Lemma Step_unnest s s' :
  Step (set_mCurrentMessageLevel (mCurrentMessageLevel s + 1) s) s' ->
  Step s (set_mCurrentMessageLevel (mCurrentMessageLevel s' - 1) s').
Proof.
  intros [l n u o p h b c]. cbn in *. constructor; cbn; auto.
  - lia.
  - intros H. apply n. lia.
Qed.

Lemma Stop_unnest s s' :
  (mCurrentMessageLevel s + 1 < MAX_ADVANCE_SLOT_RECURSION)%Z ->
  Stop (set_mCurrentMessageLevel (mCurrentMessageLevel s + 1) s) s' ->
  Stop s s'.
Proof.
  intros Hl [l bd n u p h]. cbn in *. constructor; cbn; auto.
  - lia.
  - intros H. apply n. lia.
Qed.

Lemma fuelOk_unnest L k :
  (L + 1 < MAX_ADVANCE_SLOT_RECURSION)%Z ->
  fuelOk d (L + 1) k -> fuelOk (S d) L k.
Proof.
  unfold fuelOk, MAX_ADVANCE_SLOT_RECURSION. destruct k; auto. lia.
Qed.

Lemma advanceSlot_keeps loopFuel hint : keeps (S d) (advanceSlot E pe loopFuel hint).
Proof.
  intros s. apply advanceSlot_wp.
  - intros H. constructor; cbn; try tauto; try lia; try apply ballotLe_refl.
  - intros Hl didWork s' Hs. apply Step_unnest in Hs.
    pose proof Hs as Href. apply wp_bind, wp_modify.
    destruct didWork; [|apply wp_ret, Hs].
    eapply wp_mono; [apply sendLatestEnvelope_keeps| | |].
    + intros u s2 Hs2. exact (Step_trans Hs Hs2).
    + intros x s2 Hs2. exact (Step_Stop Hs Hs2).
    + intros k Hk. exact Hk.
  - intros Hl e s' Hs. apply Stop_unnest; assumption.
  - intros Hl k Hk. apply fuelOk_unnest; assumption.
Qed.

Lemma processEnvelopeBody_keeps loopFuel e self :
  keeps (S d) (processEnvelopeBody E pe loopFuel e self).
Proof.
  intros s. pose proof (Step_refl s) as Href.
  unfold processEnvelopeBody, isNewerStatementFrom.
  repeat first [wp_step | wp_call0 recordEnvelope_keeps | wp_call advanceSlot_keeps].
  all: try leaf.
Qed.

End WithCallback.

Lemma processEnvelope_keeps E loopFuel depth :
  forall e self, keeps (S depth) (processEnvelope E depth loopFuel e self).
Proof.
  induction depth as [|depth IH]; intros e self; rewrite processEnvelope_eq;
    apply processEnvelopeBody_keeps.
  - intros e' self' s. unfold wp, slotCallback, fuelOk. lia.
  - exact IH.
Qed.

Lemma feed_keeps E depth loopFuel envs : keeps (S depth) (feed E depth loopFuel envs).
Proof.
  induction envs as [|e rest IH]; intros s; simpl.
  - apply wp_ret, Step_refl.
  - pose proof (Step_refl s) as Href.
    repeat first [wp_step | wp_call (@processEnvelope_keeps E loopFuel depth)
                 | wp_call IH].
    all: try leaf.
Qed.

Lemma slotCallback_keeps E depth loopFuel :
  forall e self, keeps depth (slotCallback E depth loopFuel e self).
Proof.
  destruct depth as [|depth]; intros e self s.
  - unfold wp, slotCallback, fuelOk. lia.
  - apply processEnvelope_keeps.
Qed.

Lemma handle_keeps E depth loopFuel i : keeps (S depth) (handle E depth loopFuel i).
Proof.
  intros s. pose proof (Step_refl s) as Href.
  pose proof (processEnvelope_keeps E loopFuel depth) as Hpe.
  destruct i; unfold handle, runBumpState, runAbandonBallot,
    runBallotProtocolTimerExpired.
  - repeat first [wp_step | wp_call Hpe]. all: try leaf.
  - repeat first [wp_step | wp_call (@bumpStateForce_keeps E _ _ Hpe)]. all: try leaf.
  - repeat first [wp_step | wp_call (@abandonBallot_keeps E _ _ Hpe)]. all: try leaf.
  - eapply wp_mono; [apply (@ballotProtocolTimerExpired_keeps E _ _ Hpe)|auto..].
Qed.

(** ** C3: the recursion cap *)

Lemma advanceSlot_at_cap E pe loopFuel hint s :
  (MAX_ADVANCE_SLOT_RECURSION - 1 <= mCurrentMessageLevel s)%Z ->
  advanceSlot E pe loopFuel hint s
  = Raise (RuntimeError "maximum number of transitions reached in advanceSlot")
      (set_mCurrentMessageLevel (mCurrentMessageLevel s + 1) s).
Proof.
  intros H. unfold advanceSlot.
  erewrite bind_Ret by reflexivity. erewrite bind_Ret by reflexivity.
  cbn [mCurrentMessageLevel set_mCurrentMessageLevel].
  destruct (Z.geb_spec (mCurrentMessageLevel s + 1) MAX_ADVANCE_SLOT_RECURSION);
    [reflexivity | lia].
Qed.


(** ** C2: how the ballots move *)

(** C2, as the code has it.  Over any sequence of [processEnvelope] calls
    that return: [p] does not decrease; the phase does not go back; [b] does
    not decrease as long as the phase is PREPARE at the end or was no longer
    PREPARE at the start (it can drop in the call that leaves PREPARE); and
    the compatibility of [h] with [b] and of [c] with [h], once it holds,
    holds at the end.  Nothing is claimed of the order of [h]. *)
Theorem C2_ballot_state_evolution :
  forall E depth loopFuel envs s rs s',
    feed E depth loopFuel envs s = Ret rs s' ->
    ballotLe (mPrepared s) (mPrepared s')
    /\ (phaseRank (mPhase s) <= phaseRank (mPhase s'))%Z
    /\ (mPhase s' = SCP_PHASE_PREPARE \/ mPhase s <> SCP_PHASE_PREPARE ->
        ballotLe (mCurrentBallot s) (mCurrentBallot s'))
    /\ (compatibleState s = true -> compatibleState s' = true).
Proof.
  intros E depth loopFuel envs s rs s' Hrun.
  pose proof (feed_keeps E depth loopFuel envs s) as H.
  unfold wp in H. rewrite Hrun in H.
  repeat split.
  - apply (step_prepared H).
  - apply (step_phase H).
  - intros Hp. destruct (step_ballot H) as [Hb|[H0 H1]]; [exact Hb|].
    destruct Hp; contradiction.
  - apply (step_compatible H).
Qed.

Lemma C2_witness :
  ballotLe (mPrepared atTwoW) (mPrepared externalizedV)
  /\ (phaseRank (mPhase atTwoW) <= phaseRank (mPhase externalizedV))%Z
  /\ (mPhase externalizedV = SCP_PHASE_PREPARE \/ mPhase atTwoW <> SCP_PHASE_PREPARE ->
      ballotLe (mCurrentBallot atTwoW) (mCurrentBallot externalizedV))
  /\ (compatibleState atTwoW = true -> compatibleState externalizedV = true).
Proof.
  apply (@C2_ballot_state_evolution (network false None allValid) 50 50
           [confirmV 2; confirmV 3] atTwoW [VALID; VALID] externalizedV).
  vm_compute. reflexivity.
Defined.

(** The local node is at [(2, W)] after a timeout when the CONFIRM of
    [(1, V)] of node 3 completes a blocking set: it accepts the commit,
    leaves PREPARE and moves its ballot down to [(1, V)]. *)
Lemma C2_counterexample :
  ~ currentBallotMonotoneAsWorded (network false None allValid) 50 50
      (confirmV 3) afterConfirmV2.
Proof.
  intros H.
  specialize (H VALID externalizedV).
  assert (Hrun : processEnvelope (network false None allValid) 50 50 (confirmV 3) false
                   afterConfirmV2 = Ret VALID externalizedV) by (vm_compute; reflexivity).
  specialize (H Hrun). vm_compute in H. apply H. reflexivity.
Qed.

(** Nor is [h] monotone: with [h = (5, V)] confirmed prepared, accepting the
    commit of [(1, V)] sets [h] to [(1, V)]. *)
Lemma highBallot_can_decrease :
  mHighBallot highAtFive = Some (mkBallot 5 valueV)
  /\ ~ highBallotMonotoneAsWorded (network false None allValid) 50 50
         (confirmV 3) highAtFive.
Proof.
  split; [vm_compute; reflexivity|]. intros H.
  destruct (processEnvelope (network false None allValid) 50 50 (confirmV 3) false
              highAtFive) as [r s'|x s'|k] eqn:Hrun;
    [|vm_compute in Hrun; discriminate Hrun..].
  specialize (H _ _ Hrun). vm_compute in Hrun. inversion Hrun; subst.
  vm_compute in H. apply H. reflexivity.
Qed.

(** ** C8: what is broadcast *)

Lemma sendLatestEnvelope_guards s :
  exists s', sendLatestEnvelope s = Ret tt s'
    /\ (s' = s
        \/ (mCurrentMessageLevel s = 0%Z /\ isFullyValidated s = true
            /\ exists last, mLastEnvelope s = Some last
                 /\ emitted s' = getEnvelope last :: emitted s
                 /\ mLastEnvelopeEmit s' = Some last
                 /\ forall sent, mLastEnvelopeEmit s = Some sent ->
                                 w_ptr last <> w_ptr sent)).
Proof.
  unfold sendLatestEnvelope, bind, get.
  destruct ((mCurrentMessageLevel s =? 0)%Z && isSome (mLastEnvelope s)
            && isFullyValidated s) eqn:Hc; [|eexists; split; [reflexivity|left; reflexivity]].
  apply andb_true_iff in Hc. destruct Hc as [Hc Hfv].
  apply andb_true_iff in Hc. destruct Hc as [Hl _]. apply Z.eqb_eq in Hl.
  destruct (mLastEnvelope s) as [last|] eqn:Hlast;
    [|eexists; split; [reflexivity|left; reflexivity]].
  destruct (mLastEnvelopeEmit s) as [sent|] eqn:Hse.
  - destruct (Ptr_eq_dec (w_ptr last) (w_ptr sent)) as [|Hne];
      [eexists; split; [reflexivity|left; reflexivity]|].
    eexists; split; [reflexivity|]. right. repeat split; try assumption.
    exists last. repeat split. intros sent' H. inversion H; subst. assumption.
  - eexists; split; [reflexivity|]. right. repeat split; try assumption.
    exists last. repeat split. intros sent' H. discriminate.
Qed.

Lemma sendLatestEnvelope_once s0 s F :
  mLastEnvelopeEmit s = mLastEnvelopeEmit s0 ->
  emitted s = emitted s0 ->
  (broadcastOrder s0 -> broadcastOrder s) ->
  wp sendLatestEnvelope s (fun _ s' => broadcastsAtMostOnce s0 s')
    (fun _ s' => emitted s' = emitted s0) F.
Proof.
  intros Hsent Hem Hord. unfold sendLatestEnvelope. apply wp_bind, wp_get. cbv beta.
  destruct ((mCurrentMessageLevel s =? 0)%Z && isSome (mLastEnvelope s)
            && isFullyValidated s) eqn:Hc;
    [|apply wp_ret; left; split; assumption].
  apply andb_true_iff in Hc. destruct Hc as [_ Hfv].
  destruct (mLastEnvelope s) as [last|] eqn:Hlast;
    [|apply wp_ret; left; split; assumption].
  assert (Hnew : emitted (call (emitEnvelope (getEnvelope last))
                            (set_mLastEnvelopeEmit (Some last) s))
                 = getEnvelope last :: emitted s0)
    by (unfold emitted in *; cbn; rewrite Hem; reflexivity).
  destruct (mLastEnvelopeEmit s) as [sent|] eqn:Hse.
  - destruct (Ptr_eq_dec (w_ptr last) (w_ptr sent)) as [|Hne];
      [apply wp_ret; left; split; congruence|].
    apply wp_bind, wp_modify, wp_modify. right. exists last.
    repeat split; try assumption; try reflexivity.
    + rewrite <- Hsent in H. inversion H; subst. assumption.
    + intros Ho Heq. apply Hord in Ho. unfold broadcastOrder in Ho.
      rewrite <- Hsent in H. inversion H; subst sent0.
      rewrite Hse, Hlast in Ho.
      destruct Ho as [Ho|Ho]; [subst; apply Hne; reflexivity|].
      rewrite Heq in Ho. rewrite isNewerStatement_irrefl in Ho. discriminate.
  - apply wp_bind, wp_modify, wp_modify. right. exists last.
    repeat split; try assumption; try reflexivity.
    + rewrite <- Hsent in H. discriminate.
    + rewrite <- Hsent in H. discriminate.
Qed.

Lemma broadcastsAtMostOnce_same s0 s :
  emitted s = emitted s0 -> mLastEnvelopeEmit s = mLastEnvelopeEmit s0 ->
  broadcastsAtMostOnce s0 s.
Proof. intros; left; split; assumption. Qed.

(** One envelope from outside, at nesting level 0: everything the advance
    step emits is batched into at most one broadcast, at the very end. *)
Lemma processEnvelope_broadcasts E depth loopFuel e self s :
  mCurrentMessageLevel s = 0%Z ->
  wp (processEnvelope E depth loopFuel e self) s
    (fun _ s' => broadcastsAtMostOnce s s')
    (fun _ s' => emitted s' = emitted s) (fun _ => True).
Proof.
  intros Hl. rewrite processEnvelope_eq.
  unfold processEnvelopeBody, isNewerStatementFrom, recordEnvelope.
  pose proof (slotCallback_keeps E depth loopFuel) as Hcb.
  repeat first
    [ wp_step
    | match goal with
      | |- wp (advanceSlot _ _ _ _) _ _ _ _ => apply advanceSlot_wp with (d := depth)
      end ].
  all: try (apply broadcastsAtMostOnce_same; reflexivity).
  all: try reflexivity.
  all: try exact Hcb.
  all: try exact I.
  all: cbn [mCurrentMessageLevel set_mCurrentMessageLevel call set_mLatestEnvelopes
            setFullyValidated] in *.
  all: try (intros; exact I).
  all: try (intros Hlt c s' Hs;
            destruct (step_nested Hs) as [Hem Hse]; [cbn; lia|];
            pose proof (step_level Hs) as Hlv; pose proof (step_order Hs) as Ho;
            cbn in Hem, Hse, Hlv, Ho;
            apply wp_bind, wp_modify; cbv beta;
            destruct c;
            [ eapply wp_mono;
              [ apply sendLatestEnvelope_once with (s0 := s); cbn; auto
              | intros ? ? Hq; apply wp_ret; exact Hq
              | intros ? ? Hq; exact Hq
              | intros ? Hq; exact Hq ]
            | apply wp_ret, wp_ret, broadcastsAtMostOnce_same; cbn; assumption ]).
  all: try (intros Hlt x s' Hs; destruct (stop_nested Hs) as [Hem _]; [cbn; lia|];
            exact Hem).
Qed.


(** ** C9: value validation *)

Lemma validateValues_fold E values lv :
  fold_left
    (fun lv v =>
       if levelRank kInvalidValue <? levelRank lv
       then minLevel (validateValue E v) lv
       else lv)
    values lv
  = minLevel (worstLevel E values) lv.
Proof.
  revert lv. induction values as [|v values IH]; intros lv; simpl.
  - destruct lv; reflexivity.
  - rewrite IH.
    destruct lv, (validateValue E v), (worstLevel E values); reflexivity.
Qed.

(** [validateValues] computes the worst level over the values of the
    statement, and INVALID for a statement without values. *)
Lemma validateValues_worst E st :
  validateValues E st
  = match getStatementValues st with
    | [] => kInvalidValue
    | values => worstLevel E values
    end.
Proof.
  unfold validateValues. destruct (getStatementValues st) as [|v values]; [reflexivity|].
  rewrite validateValues_fold. destruct (worstLevel E (v :: values)); reflexivity.
Qed.

Lemma worstLevel_invalid E values v :
  In v values -> validateValue E v = kInvalidValue ->
  worstLevel E values = kInvalidValue.
Proof.
  induction values as [|w values IH]; simpl; [contradiction|].
  intros [->|Hin] Hv.
  - rewrite Hv. destruct (worstLevel E values); reflexivity.
  - rewrite (IH Hin Hv). destruct (validateValue E w); reflexivity.
Qed.

Lemma afterChecks_keeps E depth loopFuel e :
  keeps (S depth)
    (recordEnvelope e ;;
     advanceSlot E (slotCallback E depth loopFuel) loopFuel (getStatement e) ;;
     ret VALID).
Proof.
  pose proof (slotCallback_keeps E depth loopFuel) as Hcb.
  intros s. pose proof (Step_refl s) as Href.
  repeat first [wp_step | wp_call0 recordEnvelope_keeps
               | wp_call (@advanceSlot_keeps E _ _ Hcb)].
  all: try leaf.
Qed.

(** C9, as the code has it.  An envelope with a value the validator calls
    INVALID is answered INVALID and nothing changes.  When the envelope went
    through the first two steps and the worst level over its values is
    MAYBE_VALID: before EXTERNALIZE, [processEnvelope] marks the slot not
    fully validated and goes on as usual (it records the envelope and runs
    the advance step), the slot is still not fully validated when it returns
    or throws, and nothing was broadcast; in EXTERNALIZE the mark is not
    touched. *)
Theorem C9_value_validation :
  forall E depth loopFuel e self s,
    slotIndex (getStatement e) = getSlotIndex E ->
    (forall v, In v (getStatementValues (getStatement e)) ->
               validateValue E v = kInvalidValue ->
               processEnvelope E depth loopFuel e self s = Ret INVALID s)
    /\ (isStatementSane E (getStatement e) self = true ->
        fresh e s ->
        worstLevel E (getStatementValues (getStatement e)) = kMaybeValidValue ->
        (mPhase s <> SCP_PHASE_EXTERNALIZE ->
         processEnvelope E depth loopFuel e self s
         = (recordEnvelope e ;;
            advanceSlot E (slotCallback E depth loopFuel) loopFuel (getStatement e) ;;
            ret VALID) (setFullyValidated false s)
         /\ match processEnvelope E depth loopFuel e self s with
            | Ret _ s' => isFullyValidated s' = false /\ emitted s' = emitted s
            | Raise _ s' => isFullyValidated s' = false /\ emitted s' = emitted s
            | OutOfFuel _ => True
            end)
        /\ (mPhase s = SCP_PHASE_EXTERNALIZE ->
            forall r s', processEnvelope E depth loopFuel e self s = Ret r s' ->
                         isFullyValidated s' = isFullyValidated s)).
Proof.
  intros E depth loopFuel e self s Hslot. split.
  - intros v Hin Hv. apply processEnvelope_invalid_value; [exact Hslot|].
    rewrite validateValues_worst.
    destruct (getStatementValues (getStatement e)) as [|w values] eqn:Hvs;
      [reflexivity|].
    eapply worstLevel_invalid; eassumption.
  - intros Hsane Hfresh Hworst.
    assert (Hval : validateValues E (getStatement e) = kMaybeValidValue).
    { rewrite validateValues_worst.
      destruct (getStatementValues (getStatement e)); [discriminate Hworst|exact Hworst]. }
    assert (Hrun := @processEnvelope_checked E depth loopFuel e self s Hslot Hsane Hfresh).
    rewrite Hval in Hrun. specialize (Hrun ltac:(discriminate)).
    split.
    + intros Hphase.
      assert (Hp : phase_eqb (mPhase s) SCP_PHASE_EXTERNALIZE = false)
        by (destruct (mPhase s); try reflexivity; congruence).
      rewrite Hp in Hrun. cbn [negb] in Hrun.
      erewrite bind_Ret in Hrun by reflexivity.
      split; [exact Hrun|]. rewrite Hrun.
      pose proof (afterChecks_keeps E depth loopFuel e (setFullyValidated false s)) as H.
      unfold wp in H.
      destruct ((recordEnvelope e ;;
                 advanceSlot E (slotCallback E depth loopFuel) loopFuel (getStatement e) ;;
                 ret VALID) (setFullyValidated false s)) as [r s'|x s'|k]; [| |exact I].
      * exact (step_unvalidated H eq_refl).
      * exact (stop_unvalidated H eq_refl).
    + intros Hphase r s' Hret. rewrite Hrun, Hphase in Hret. cbn [phase_eqb negb] in Hret.
      unfold bind, deref in Hret.
      destruct (mCommit s) as [c|]; [|discriminate Hret].
      cbn in Hret.
      match type of Hret with
      | context [if ?b then _ else _] => destruct b
      end; unfold ret in Hret; cbn in Hret; inversion Hret; subst; reflexivity.
Qed.

(** Every value is MAYBE_VALID; the PREPARE of node 2 arrives on a fresh
    slot. *)
Lemma C9_witness :
  match processEnvelope (network false None maybeValid) 50 50
          (peerPrepare 2 (mkBallot 1 valueV) None) false initialState with
  | Ret _ s' => isFullyValidated s' = false /\ emitted s' = emitted initialState
  | Raise _ s' => isFullyValidated s' = false /\ emitted s' = emitted initialState
  | OutOfFuel _ => True
  end.
Proof.
  refine (proj2 (proj1 (proj2 (C9_value_validation (network false None maybeValid) 50 50
                                 (peerPrepare 2 (mkBallot 1 valueV) None) false
                                 initialState _) _ _ _) _));
    vm_compute; (reflexivity || discriminate || exact I).
Defined.

(** The local node has externalized [V] on a fully validated slot; node 4
    reports the externalized value, which the validator now calls
    MAYBE_VALID.  The envelope is recorded and the slot stays fully
    validated. *)
Lemma C9_counterexample :
  ~ maybeValidAsWorded (network false None maybeValid) 50 50
      (peerExternalize 4 4 (mkBallot 1 valueV) 1) false externalizedV.
Proof.
  intros H.
  assert (Hv : validateValues (network false None maybeValid)
                 (getStatement (peerExternalize 4 4 (mkBallot 1 valueV) 1))
               = kMaybeValidValue) by (vm_compute; reflexivity).
  assert (Hrun : processEnvelope (network false None maybeValid) 50 50
                   (peerExternalize 4 4 (mkBallot 1 valueV) 1) false externalizedV
                 = Ret VALID (recorded (peerExternalize 4 4 (mkBallot 1 valueV) 1)
                                externalizedV)) by (vm_compute; reflexivity).
  specialize (H Hv _ _ Hrun). vm_compute in H. discriminate H.
Qed.

(** ** C7: abandoning a ballot *)

Lemma bumpToBallot_eq E ballot s :
  phase_eqb (mPhase s) SCP_PHASE_EXTERNALIZE = false ->
  match mCurrentBallot s with
  | None => True
  | Some b => (compareBallots ballot b >= 0)%Z
  end ->
  bumpToBallot E ballot true s = Ret tt (bumpResult ballot s).
Proof.
  intros Hp Hb. unfold bumpToBallot.
  erewrite bind_Ret by reflexivity. rewrite Hp. cbn [negb].
  erewrite bind_Ret by apply dbgAssert_true.
  erewrite bind_Ret.
  2:{ replace (match mCurrentBallot s with
               | Some b => (compareBallots ballot b >=? 0)%Z
               | None => true
               end) with true; [apply dbgAssert_true|].
      destruct (mCurrentBallot s); [|reflexivity].
      symmetry. apply Z.geb_le. lia. }
  unfold bumpResult, bind, modify, ret.
  destruct (mCurrentBallot s) as [b|], (mHighBallot s) as [h|]; cbn [isSome];
    repeat match goal with
           | |- context [areBallotsCompatible ?x ?y] =>
               destruct (areBallotsCompatible x y)
           | |- context [counter ?x =? counter ?y] =>
               destruct (counter x =? counter y)
           end; reflexivity.
Qed.

Lemma compareBallots_antisym a b : (compareBallots a b < 0 -> compareBallots b a >= 0)%Z.
Proof.
  intros H. pose proof (compareBallots_sign a b) as Ha.
  pose proof (compareBallots_sign b a) as Hb.
  rewrite (cmp_opp ballotCmp_total a b) in Hb.
  destruct (ballotCmp a b); simpl in *; lia.
Qed.

Lemma updateCurrentValue_bumps E ballot s :
  canBumpTo ballot s ->
  updateCurrentValue E ballot s
  = (checkInvariants E ;; ret true) (bumpResult ballot s).
Proof.
  intros [Hphase Hb]. unfold updateCurrentValue.
  erewrite bind_Ret by reflexivity. rewrite Hphase. cbn [negb].
  assert (Hp : phase_eqb (mPhase s) SCP_PHASE_EXTERNALIZE = false).
  { unfold phaseIsPrepareOrConfirm in Hphase. destruct (mPhase s); [reflexivity..|discriminate]. }
  destruct (mCurrentBallot s) as [b|] eqn:Hcur.
  - destruct Hb as [Hlt Hc].
    erewrite bind_Ret.
    2:{ replace (compareBallots b ballot <=? 0)%Z with true; [apply dbgAssert_true|].
        symmetry. apply Z.leb_le. lia. }
    replace (match mCommit s with
             | Some c => negb (areBallotsCompatible c ballot)
             | None => false
             end) with false
      by (destruct (mCommit s); [rewrite Hc|]; reflexivity).
    replace (compareBallots b ballot <? 0)%Z with true by (symmetry; apply Z.ltb_lt; lia).
    erewrite bind_Ret; [reflexivity|].
    apply bumpToBallot_eq; [exact Hp|]. rewrite Hcur.
    apply compareBallots_antisym, Hlt.
  - erewrite bind_Ret; [reflexivity|].
    apply bumpToBallot_eq; [exact Hp|]. rewrite Hcur. exact I.
Qed.

Lemma abandonBallot_bumpState E pe n s :
  match abandonValue E s with
  | Some x =>
      if value_empty x then abandonBallot E pe n s = Ret false s
      else abandonBallot E pe n s = bumpState E pe x (abandonCounter n s) s
  | None => abandonBallot E pe n s = Ret false s
  end.
Proof.
  unfold abandonBallot, abandonValue, abandonCounter, bumpStateForce.
  erewrite bind_Ret by reflexivity.
  destruct (getLatestCompositeCandidate E) as [x|];
    [destruct (value_empty x) eqn:Hx|];
    destruct (mCurrentBallot s) as [b|] eqn:Hb; cbn [negb];
    rewrite ?Hx; cbn [negb];
    try destruct (value_empty (value b)) eqn:Hv; cbn [negb];
    try reflexivity;
    destruct (n =? 0); try reflexivity;
    erewrite bind_Ret by reflexivity; rewrite ?Hb; reflexivity.
Qed.

Lemma updateCurrentValue_stays E ballot s :
  ~ canBumpTo ballot s ->
  wp (updateCurrentValue E ballot) s (fun r s' => r = false /\ s' = s)
    (fun _ s' => s' = s) (fun _ => False).
Proof.
  intros Hnot. unfold updateCurrentValue. apply wp_bind, wp_get. cbv beta.
  destruct (phaseIsPrepareOrConfirm s) eqn:Hph; cbn [negb];
    [|apply wp_ret; split; reflexivity].
  destruct (mCurrentBallot s) as [b|] eqn:Hb.
  2:{ exfalso. apply Hnot. split; [exact Hph|]. rewrite Hb. exact I. }
  apply wp_bind.
  apply wp_readOnly; [apply readOnly_dbgAssert, readOnly_ret| |intros; reflexivity].
  intros _. cbv beta.
  destruct (match mCommit s with
            | Some c => negb (areBallotsCompatible c ballot)
            | None => false
            end) eqn:Hc; [apply wp_ret; split; reflexivity|].
  cbv zeta. destruct (compareBallots b ballot <? 0)%Z eqn:Hlt.
  - exfalso. apply Hnot. split; [exact Hph|]. rewrite Hb.
    split; [apply Z.ltb_lt, Hlt|].
    destruct (mCommit s); [apply negb_false_iff in Hc; exact Hc|exact I].
  - destruct (compareBallots b ballot >? 0)%Z; [apply wp_ret; split; reflexivity|].
    apply wp_bind.
    apply wp_readOnly; [apply readOnly_checkInvariants| |intros; reflexivity].
    intros _. apply wp_ret. split; reflexivity.
Qed.

(** [bumpState] leaves the state alone when the ballot cannot be moved to:
    it answers false, or an assertion fails. *)
Lemma bumpState_stays E pe v n s :
  ~ canBumpTo (mkBallot n (bumpValue v s)) s ->
  bumpState E pe v n s = Ret false s
  \/ exists x, bumpState E pe v n s = Raise x s.
Proof.
  intros Hnot.
  assert (Hw : wp (bumpState E pe v n) s (fun r s' => r = false /\ s' = s)
                 (fun _ s' => s' = s) (fun _ => False)).
  { unfold bumpState. apply wp_bind, wp_get. cbv beta.
    destruct (negb (phaseIsPrepareOrConfirm s)); [apply wp_ret; split; reflexivity|].
    cbv zeta. fold (bumpValue v s). apply wp_bind.
    eapply wp_mono; [apply updateCurrentValue_stays, Hnot| |auto|auto].
    intros r s' [-> ->]. cbv beta. apply wp_bind, wp_ret, wp_ret. split; reflexivity. }
  unfold wp in Hw.
  destruct (bumpState E pe v n s) as [r s'|x s'|k]; [| |contradiction].
  - destruct Hw as [-> ->]. left. reflexivity.
  - subst s'. right. exists x. reflexivity.
Qed.

(** C7, as the code has it.  [abandonBallot(n)] is [bumpState] to the
    counter [n], or for [n = 0] to the counter after the current one (1 when
    there is no current ballot), with the composite candidate of nomination
    when there is a non-empty one and the value of the current ballot
    otherwise; without a value it does nothing.  [bumpState] puts the value
    it remembers from confirming a ballot prepared in place of that value.
    When the ballot so built can be moved to, it is the current ballot
    afterwards, and the node emits its statement and checks whether it has
    heard from a quorum; when it cannot, the state is left as it is
    ([abandonBallot] answers false, or an assertion fails). *)
Theorem C7_abandonBallot_target :
  forall E pe n s,
    match abandonValue E s with
    | Some x =>
        if value_empty x then abandonBallot E pe n s = Ret false s
        else
          let newb := mkBallot (abandonCounter n s) (bumpValue x s) in
          abandonBallot E pe n s = bumpState E pe x (abandonCounter n s) s
          /\ (canBumpTo newb s ->
              mCurrentBallot (bumpResult newb s) = Some newb
              /\ abandonBallot E pe n s
                 = (checkInvariants E ;;
                    emitCurrentStateStatement E pe ;;
                    checkHeardFromQuorum E ;;
                    ret true) (bumpResult newb s))
          /\ (~ canBumpTo newb s ->
              abandonBallot E pe n s = Ret false s
              \/ exists e, abandonBallot E pe n s = Raise e s)
    | None => abandonBallot E pe n s = Ret false s
    end.
Proof.
  intros E pe n s. pose proof (abandonBallot_bumpState E pe n s) as H.
  destruct (abandonValue E s) as [x|]; [|exact H].
  destruct (value_empty x); [exact H|].
  cbv zeta. split; [exact H|].
  split; [|intros Hnot; rewrite H; apply bumpState_stays, Hnot].
  intros Hcan. split; [apply bump_current|].
  rewrite H. unfold bumpState.
  erewrite bind_Ret by reflexivity.
  destruct Hcan as [Hphase Hb]. rewrite Hphase. cbn [negb].
  fold (bumpValue x s).
  unfold bind at 1.
  rewrite (@updateCurrentValue_bumps E _ s (conj Hphase Hb)).
  unfold bind, ret.
  destruct (checkInvariants E (bumpResult (mkBallot (abandonCounter n s) (bumpValue x s)) s))
    as [[] s1|x1 s1|k]; [|reflexivity..].
  destruct (emitCurrentStateStatement E pe s1) as [[] s2|x2 s2|k]; reflexivity.
Qed.

(** The local node is at [(2, W)] and nomination has the candidate [V]: the
    timeout takes it to [(3, V)]. *)
Lemma C7_witness :
  mCurrentBallot (bumpResult (mkBallot 3 valueV) atTwoW) = Some (mkBallot 3 valueV)
  /\ abandonBallot candidateV (processEnvelope candidateV 50 50) 0 atTwoW
     = (checkInvariants candidateV ;;
        emitCurrentStateStatement candidateV (processEnvelope candidateV 50 50) ;;
        checkHeardFromQuorum candidateV ;;
        ret true) (bumpResult (mkBallot 3 valueV) atTwoW).
Proof.
  refine (proj1 (proj2 (C7_abandonBallot_target candidateV
                          (processEnvelope candidateV 50 50) 0 atTwoW)) _).
  vm_compute. repeat split; reflexivity.
Defined.

Lemma C7_counterexample : ~ abandonKeepsValueAsWorded candidateV 50 50 atTwoW.
Proof.
  intros H.
  assert (Hb : mCurrentBallot atTwoW = Some (mkBallot 2 valueW)) by (vm_compute; reflexivity).
  destruct (runAbandonBallot candidateV 50 50 0 atTwoW) as [r s'|x s'|k] eqn:Hrun;
    [|vm_compute in Hrun; discriminate Hrun..].
  specialize (H _ Hb _ _ Hrun).
  vm_compute in Hrun. inversion Hrun; subst. vm_compute in H. discriminate H.
Qed.

(** ** C1: the invariants *)

(** With assertions compiled in, [checkInvariants] returns exactly in the
    states that satisfy the invariants, and aborts in the others. *)
Lemma checkInvariants_checks E s :
  ndebug E = false ->
  (checkInvariants E s = Ret tt s <-> invariantsHold s = true)
  /\ (checkInvariants E s = Ret tt s
      \/ checkInvariants E s = Raise AssertionFailed s
      \/ checkInvariants E s = Raise NullDereference s).
Proof.
  intros Hnd. unfold checkInvariants, invariantsHold, dbgAssert, bind, get, ret, throw, deref.
  rewrite Hnd.
  destruct (mPhase s), (mCurrentBallot s) as [b|], (mPrepared s) as [p|],
    (mPreparedPrime s) as [pp|], (mHighBallot s) as [h|], (mCommit s) as [c|];
    cbn;
    repeat match goal with
           | |- context [if ?c then _ else _] => destruct c; cbn
           end;
    (split; [split; (reflexivity || discriminate) | tauto]).
Qed.

(** Under [NDEBUG] it checks nothing. *)
Lemma checkInvariants_release E s : ndebug E = true -> checkInvariants E s = Ret tt s.
Proof.
  intros Hnd. unfold checkInvariants, dbgAssert, bind, get, ret.
  rewrite Hnd.
  destruct (mPhase s), (mCurrentBallot s) as [b|], (mPrepared s) as [p|],
    (mPreparedPrime s) as [pp|], (mHighBallot s) as [h|], (mCommit s) as [c|];
    reflexivity.
Qed.

Lemma wp_checkInvariants E s (Q : unit -> BallotProtocol -> Prop)
    (X : Exn -> BallotProtocol -> Prop) F :
  ndebug E = false ->
  (invariantsHold s = true -> Q tt s) -> (forall x, X x s) ->
  wp (checkInvariants E) s Q X F.
Proof.
  intros Hnd HQ HX. unfold wp.
  destruct (@checkInvariants_checks E s Hnd) as [Hiff [H|[H|H]]]; rewrite H.
  - apply HQ, Hiff, H.
  - apply HX.
  - apply HX.
Qed.

Ltac inv_leaf :=
  first [ exact I | assumption | discriminate | cbn; assumption
        | cbn; autorewrite with bump; assumption
        | match goal with
          | H : _ || _ = false |- _ => cbn in H; discriminate H
          | H : _ && _ = true |- _ => cbn in H; discriminate H
          end ].

Ltac inv_step Hnd :=
  first
    [ match goal with
      | |- wp (checkInvariants _) _ _ _ _ =>
          apply (@wp_checkInvariants _ _ _ _ _ Hnd); [intros ?|intros ?]
      end
    | wp_step ]; cbv beta zeta.

Ltac inv_call L :=
  match goal with
  | |- wp _ _ _ _ _ =>
      eapply wp_mono;
      [ apply L; inv_leaf
      | intros ? ? ?
      | intros; exact I
      | intros; exact I ]
  end; cbv beta.

Lemma sendLatestEnvelope_sound : sound sendLatestEnvelope.
Proof.
  intros s Hs. unfold sendLatestEnvelope. repeat wp_step. all: inv_leaf.
Qed.

Lemma recordEnvelope_sound e : sound (recordEnvelope e).
Proof.
  intros s Hs. unfold recordEnvelope. repeat wp_step. all: inv_leaf.
Qed.

Lemma checkHeardFromQuorum_sound E : sound (checkHeardFromQuorum E).
Proof.
  intros s Hs.
  unfold checkHeardFromQuorum, startBallotProtocolTimer, stopBallotProtocolTimer.
  repeat wp_step. all: inv_leaf.
Qed.

Section Soundness.

Variable E : Env.
Variable pe : SCPEnvelopeWrapper -> bool -> M EnvelopeState.
Hypothesis assertionsOn : ndebug E = false.
Hypothesis pe_sound : forall e self, sound (pe e self).

(** Whatever the state it is called in, [emitCurrentStateStatement]
    returns in a state that satisfies the invariants: it checks them before
    anything else. *)
Lemma emitCurrentStateStatement_checked s :
  wp (emitCurrentStateStatement E pe) s (fun _ s' => invariantsHold s' = true)
    (fun _ _ => True) (fun _ => True).
Proof.
  unfold emitCurrentStateStatement, createStatement, wrapEnvelope.
  repeat first [inv_step assertionsOn | inv_call pe_sound
               | inv_call sendLatestEnvelope_sound].
  all: inv_leaf.
Qed.

Ltac inv_bump :=
  match goal with
  | |- wp (bumpToBallot _ _ _) _ _ _ _ => apply bumpToBallot_wp; [intros ?|]
  | |- wp (updateCurrentIfNeeded _ _) _ _ _ _ =>
      apply updateCurrentIfNeeded_wp; [intros ?|intros ?|intros ? ? ?]
  end; cbv beta.

Ltac inv_emit :=
  match goal with
  | |- wp (emitCurrentStateStatement _ _) _ _ _ _ =>
      eapply wp_mono;
      [ apply emitCurrentStateStatement_checked
      | intros ? ? ?
      | intros; exact I
      | intros; exact I ]
  end; cbv beta.

Ltac inv_go tac :=
  repeat first [inv_step assertionsOn | inv_bump | inv_emit | tac];
  try inv_leaf.

Lemma updateCurrentValue_sound ballot : sound (updateCurrentValue E ballot).
Proof. intros s Hs. unfold updateCurrentValue. inv_go fail. Qed.

Lemma bumpState_sound v n : sound (bumpState E pe v n).
Proof.
  intros s Hs. unfold bumpState.
  inv_go ltac:(first [inv_call updateCurrentValue_sound
                     | inv_call checkHeardFromQuorum_sound]).
Qed.

Lemma bumpStateForce_sound v f : sound (bumpStateForce E pe v f).
Proof. intros s Hs. unfold bumpStateForce. inv_go ltac:(inv_call bumpState_sound). Qed.

Lemma abandonBallot_sound n : sound (abandonBallot E pe n).
Proof.
  intros s Hs. unfold abandonBallot.
  inv_go ltac:(first [inv_call bumpState_sound | inv_call bumpStateForce_sound]).
Qed.

Lemma ballotProtocolTimerExpired_sound : sound (ballotProtocolTimerExpired E pe).
Proof.
  intros s Hs. unfold ballotProtocolTimerExpired.
  inv_go ltac:(inv_call abandonBallot_sound).
Qed.

Lemma setAcceptPrepared_sound b : sound (setAcceptPrepared E pe b).
Proof.
  intros s Hs. unfold setAcceptPrepared, setPrepared. inv_go fail.
Qed.

Lemma attemptAcceptPrepared_sound hint : sound (attemptAcceptPrepared E pe hint).
Proof.
  intros s Hs. unfold attemptAcceptPrepared.
  inv_go ltac:(first [ inv_call setAcceptPrepared_sound
                     | apply wp_readOnly;
                       [apply readOnly_acceptPreparedSearch|intros ?|intros ?] ]).
Qed.

Lemma setConfirmPrepared_sound newC newH : sound (setConfirmPrepared E pe newC newH).
Proof. intros s Hs. unfold setConfirmPrepared. inv_go fail. Qed.

Lemma attemptConfirmPrepared_sound hint : sound (attemptConfirmPrepared E pe hint).
Proof.
  intros s Hs. unfold attemptConfirmPrepared.
  inv_go ltac:(inv_call setConfirmPrepared_sound).
Qed.

Lemma setAcceptCommit_sound c h : sound (setAcceptCommit E pe c h).
Proof. intros s Hs. unfold setAcceptCommit. inv_go fail. Qed.

Lemma attemptAcceptCommit_sound hint : sound (attemptAcceptCommit E pe hint).
Proof.
  intros s Hs. unfold attemptAcceptCommit.
  inv_go ltac:(inv_call setAcceptCommit_sound).
Qed.

Lemma setConfirmCommit_sound c h : sound (setConfirmCommit E pe c h).
Proof. intros s Hs. unfold setConfirmCommit. inv_go fail. Qed.

Lemma attemptConfirmCommit_sound hint : sound (attemptConfirmCommit E pe hint).
Proof.
  intros s Hs. unfold attemptConfirmCommit.
  inv_go ltac:(inv_call setConfirmCommit_sound).
Qed.

Lemma attemptBump_sound : sound (attemptBump E pe).
Proof.
  intros s Hs. unfold attemptBump. inv_go ltac:(inv_call abandonBallot_sound).
Qed.

Lemma bumpLoop_sound fuel didWork : sound (bumpLoop E pe fuel didWork).
Proof.
  revert didWork. induction fuel as [|fuel IH]; intros didWork s Hs.
  - exact I.
  - simpl. inv_go ltac:(first [inv_call attemptBump_sound | inv_call IH]).
Qed.

Lemma advanceSlot_sound loopFuel hint : sound (advanceSlot E pe loopFuel hint).
Proof.
  intros s Hs. unfold advanceSlot.
  inv_go ltac:(first [ inv_call attemptAcceptPrepared_sound
                     | inv_call attemptConfirmPrepared_sound
                     | inv_call attemptAcceptCommit_sound
                     | inv_call attemptConfirmCommit_sound
                     | inv_call bumpLoop_sound
                     | inv_call checkHeardFromQuorum_sound
                     | inv_call sendLatestEnvelope_sound ]).
Qed.

Lemma processEnvelopeBody_sound loopFuel e self :
  sound (processEnvelopeBody E pe loopFuel e self).
Proof.
  intros s Hs. unfold processEnvelopeBody, isNewerStatementFrom.
  inv_go ltac:(first [ inv_call recordEnvelope_sound | inv_call advanceSlot_sound ]).
Qed.

End Soundness.

Lemma processEnvelope_sound E depth loopFuel :
  ndebug E = false ->
  forall e self, sound (processEnvelope E depth loopFuel e self).
Proof.
  intros Hnd. induction depth as [|depth IH]; intros e self;
    rewrite processEnvelope_eq; apply processEnvelopeBody_sound; try exact Hnd.
  - intros e' self' s Hs. exact I.
  - exact IH.
Qed.

Lemma handle_sound E depth loopFuel i :
  ndebug E = false -> sound (handle E depth loopFuel i).
Proof.
  intros Hnd s Hs. pose proof (@processEnvelope_sound E depth loopFuel Hnd) as Hpe.
  destruct i; unfold handle, runBumpState, runAbandonBallot,
    runBallotProtocolTimerExpired.
  - repeat first [wp_step | inv_call Hpe]. all: inv_leaf.
  - repeat first [wp_step | inv_call (@bumpStateForce_sound E _ Hnd Hpe)]. all: inv_leaf.
  - repeat first [wp_step | inv_call (@abandonBallot_sound E _ Hnd Hpe)]. all: inv_leaf.
  - apply (@ballotProtocolTimerExpired_sound E _ Hnd Hpe), Hs.
Qed.

(** C1.  What the code does about the invariants.  With assertions compiled
    in, every external input that returns leaves the invariants in force
    when they held before (and [checkInvariants] returns exactly when they
    hold).  But the code does not keep them by itself: the four statements
    of [zeroCounterRun] are sane, and on the four-node network they take the
    local node to the current ballot [(0, V)], where the assertion on the
    counter of [b] fails before [processEnvelope] returns; without
    assertions the driver is told that the ballot protocol started on
    [(0, V)] and is handed the local node's own PREPARE for [(0, V)], before
    the bump rule takes the node on to [(1, V)], where the invariants hold
    again. *)
Theorem C1_invariants_asserted_not_kept :
  (forall E depth loopFuel i s,
      ndebug E = false ->
      invariantsHold s = true ->
      match handle E depth loopFuel i s with
      | Ret _ s' => invariantsHold s' = true
      | Raise _ _ => True
      | OutOfFuel _ => True
      end)
  /\ (forall E s, ndebug E = false ->
                  (checkInvariants E s = Ret tt s <-> invariantsHold s = true))
  /\ Forall (fun e => isStatementSane (network false None allValid)
                        (getStatement e) false = true) zeroCounterRun
  /\ invariantsHold initialState = true
  /\ (exists s,
        feed (network false None allValid) 50 50 zeroCounterRun initialState
        = Raise AssertionFailed s
        /\ mCurrentBallot s = Some (mkBallot 0 valueV)
        /\ invariantsHold s = false)
  /\ (exists rs s,
        feed (network true None allValid) 50 50 zeroCounterRun initialState = Ret rs s
        /\ In (startedBallotProtocol (mkBallot 0 valueV)) (driverCalls s)
        /\ (exists st, In (recordStatement st) (driverCalls s)
                       /\ nodeID st = 1
                       /\ getWorkingBallot st = mkBallot 0 valueV)
        /\ mCurrentBallot s = Some (mkBallot 1 valueV)
        /\ invariantsHold s = true).
Proof.
  split; [|split; [|split; [|split; [|split]]]].
  - intros E depth loopFuel i s Hnd Hs.
    pose proof (@handle_sound E depth loopFuel i Hnd s Hs) as H. unfold wp in H.
    destruct (handle E depth loopFuel i s); [exact H|exact I..].
  - intros E s Hnd. apply (@checkInvariants_checks E s Hnd).
  - repeat constructor.
  - reflexivity.
  - eexists. split; [vm_compute; reflexivity|]. split; reflexivity.
  - eexists. eexists. split; [vm_compute; reflexivity|].
    split; [vm_compute; repeat (first [left; reflexivity | right])|].
    split; [|split; reflexivity].
    exists (mkStatement 1 7
              (SCP_ST_PREPARE
                 (mkPrepare 11 (mkBallot 0 valueV) (Some (mkBallot 0 valueV)) None 0 0))).
    split; [vm_compute; repeat (first [left; reflexivity | right])|].
    split; reflexivity.
Qed.

(** The CONFIRM of node 3 arrives at the local node, whose state satisfies
    the invariants: so does the state in which it has externalized. *)
Lemma C1_witness : invariantsHold externalizedV = true.
Proof.
  assert (H0 : invariantsHold afterConfirmV2 = true) by (vm_compute; reflexivity).
  pose proof (proj1 C1_invariants_asserted_not_kept (network false None allValid) 50%nat
                50%nat (EnvelopeReceived (confirmV 3) false) afterConfirmV2 eq_refl H0) as H.
  assert (Hrun : handle (network false None allValid) 50 50
                   (EnvelopeReceived (confirmV 3) false) afterConfirmV2
                 = Ret tt externalizedV) by (vm_compute; reflexivity).
  rewrite Hrun in H. exact H.
Defined.

(** * The rest of the class, and the claims that rest on it *)

Lemma set_insert_Forall {A} (P : A -> Prop) cmp x l :
  Forall P l -> P x -> Forall P (set_insert cmp x l).
Proof.
  intros Hl Hx. induction Hl as [|y l Hy Hl IH]; simpl.
  - constructor; [exact Hx|constructor].
  - destruct (cmp x y); repeat constructor; assumption.
Qed.

Lemma map_set_inRange n w m :
  envelopesInRange m -> statementInRange (getStatement w) ->
  envelopesInRange (map_set n w m).
Proof.
  unfold envelopesInRange. intros Hm Hw.
  induction Hm as [|[k w'] m Hy Hm IH]; simpl.
  - constructor; [exact Hw|constructor].
  - destruct (n ?= k); repeat constructor; assumption.
Qed.

Lemma UINT32_MAX_inRange v : ballotInRange (mkBallot UINT32_MAX v).
Proof. unfold ballotInRange. simpl. lia. Qed.

Lemma hintBallots_inRange hint :
  statementInRange hint -> Forall ballotInRange (hintBallots hint).
Proof.
  unfold statementInRange, hintBallots, insertBallot.
  destruct (pledges hint) as [p|c|e].
  - intros (Hb & Hp & Hpp & _).
    destruct (p_prepared p), (p_preparedPrime p);
      repeat apply set_insert_Forall; auto.
  - intros (Hb & Hp & _).
    repeat apply set_insert_Forall; auto; apply UINT32_MAX_inRange.
  - intros _. repeat apply set_insert_Forall; auto. apply UINT32_MAX_inRange.
Qed.

Lemma candidatesOfStatement_inRange topVote candidates st :
  ballotInRange topVote -> Forall ballotInRange candidates -> statementInRange st ->
  Forall ballotInRange (candidatesOfStatement topVote candidates st).
Proof.
  unfold statementInRange, candidatesOfStatement, insertBallot.
  intros Ht Hc. destruct (pledges st) as [p|c|e].
  - intros (Hb & Hp & Hpp & _).
    destruct (p_prepared p) as [pr|], (p_preparedPrime p) as [pp|];
      repeat match goal with
             | |- context [if ?c then _ else _] => destruct c
             end;
      repeat apply set_insert_Forall; auto.
  - intros (Hb & Hp & _).
    repeat match goal with
           | |- context [if ?c then _ else _] => destruct c
           end;
      repeat apply set_insert_Forall; auto.
  - intros _.
    destruct (areBallotsCompatible topVote (e_commit e));
      repeat apply set_insert_Forall; auto.
Qed.

Lemma fold_left_invariant {A B} (P : A -> Prop) (Q : B -> Prop) (f : A -> B -> A) l a :
  (forall a b, P a -> Q b -> P (f a b)) -> Forall Q l -> P a -> P (fold_left f l a).
Proof.
  intros Hf Hl. revert a. induction Hl as [|b l Hb Hl IH]; simpl; auto.
Qed.

Lemma getPrepareCandidates_inRange hint envs :
  statementInRange hint -> envelopesInRange envs ->
  Forall ballotInRange (getPrepareCandidates hint envs).
Proof.
  intros Hh He. unfold getPrepareCandidates.
  apply fold_left_invariant with (Q := ballotInRange).
  - intros a b Ha Hb.
    apply fold_left_invariant
      with (Q := fun kv => statementInRange (getStatement (snd kv))); auto.
    intros a' e Ha' Hs. apply candidatesOfStatement_inRange; assumption.
  - apply Forall_rev, hintBallots_inRange, Hh.
  - constructor.
Qed.

Lemma acceptPreparedSearch_In E l s (Q : option SCPBallot -> BallotProtocol -> Prop)
    (X : Exn -> BallotProtocol -> Prop) F :
  (forall r, (forall b, r = Some b -> In b l) -> Q r s) -> (forall x, X x s) ->
  wp (acceptPreparedSearch E l) s Q X F.
Proof.
  revert Q. induction l as [|ballot rest IH]; intros Q HQ HX; simpl.
  - apply wp_ret, HQ. discriminate.
  - assert (Hrec : wp (acceptPreparedSearch E rest) s Q X F).
    { apply IH; [|exact HX]. intros r Hr. apply HQ. intros b Hb. right. auto. }
    repeat wp_step; auto.
    all: apply HQ; intros b Hb; inversion Hb; left; reflexivity.
Qed.

Lemma findNewH_Forall E (P : SCPBallot -> Prop) s cur h rest :
  Forall P cur -> findNewH E s cur = Some (h, rest) -> P h /\ Forall P rest.
Proof.
  intros Hc. induction Hc as [|b cur Hb Hc IH]; simpl; [discriminate|].
  destruct (match mHighBallot s with
            | Some h0 => (compareBallots h0 b >=? 0)%Z
            | None => false
            end); [discriminate|].
  destruct (federatedRatify E (hasPreparedBallot b) (mLatestEnvelopes s)).
  - intros H. inversion H; subst. split; [assumption|constructor; assumption].
  - exact IH.
Qed.

Lemma findNewC_invariant E (P : SCPBallot -> Prop) s b newH cur newC :
  P newC -> Forall P cur -> P (findNewC E s b newH cur newC).
Proof.
  intros Hn Hc. revert newC Hn. induction Hc as [|x cur Hx Hc IH]; intros newC Hn; simpl;
    [exact Hn|].
  repeat match goal with
         | |- context [if ?c then _ else _] => destruct c
         end; auto.
Qed.

Lemma getCommitBoundaries_inRange ballot envs :
  envelopesInRange envs ->
  Forall (fun n => n <= UINT32_MAX) (getCommitBoundariesFromStatements ballot envs).
Proof.
  intros He. unfold getCommitBoundariesFromStatements.
  apply fold_left_invariant
    with (Q := fun kv => statementInRange (getStatement (snd kv))); auto.
  intros a e Ha Hs. unfold statementInRange, ballotInRange in Hs.
  unfold insertCounter.
  destruct (pledges (getStatement (snd e))) as [p|c|x];
    repeat match goal with
           | |- context [if ?c then _ else _] => destruct c
           end; auto;
    repeat apply set_insert_Forall; auto; try tauto; lia.
Qed.

Lemma findExtendedInterval_inRange candidate boundaries pred :
  fst candidate <= UINT32_MAX /\ snd candidate <= UINT32_MAX ->
  Forall (fun n => n <= UINT32_MAX) boundaries ->
  fst (findExtendedInterval candidate boundaries pred) <= UINT32_MAX
  /\ snd (findExtendedInterval candidate boundaries pred) <= UINT32_MAX.
Proof.
  intros Hc Hb. revert candidate Hc.
  induction Hb as [|b rest Hb Hr IH]; intros candidate Hc; simpl; [exact Hc|].
  repeat match goal with
         | |- context [if ?c then _ else _] => destruct c
         end; auto; apply IH; simpl; tauto.
Qed.

Lemma statementBallotCounter_inRange st :
  statementInRange st -> statementBallotCounter st <= UINT32_MAX.
Proof.
  unfold statementInRange, statementBallotCounter, ballotInRange.
  destruct (pledges st); try tauto. lia.
Qed.

Lemma find_In {A} (f : A -> bool) l x : find f l = Some x -> In x l.
Proof. intros H. apply find_some in H. tauto. Qed.

(** The counters [attemptBump] chooses from are above the local counter. *)
Lemma allCounters_above localCounter envs :
  envelopesInRange envs ->
  Forall (fun c => localCounter < c /\ c <= UINT32_MAX)
    (fold_left
       (fun acc e =>
          let c := statementBallotCounter (getStatement (snd e)) in
          if localCounter <? c then insertCounter c acc else acc)
       envs []).
Proof.
  intros He.
  apply fold_left_invariant
    with (Q := fun kv => statementInRange (getStatement (snd kv))); auto.
  intros a e Ha Hs. cbv zeta.
  destruct (N.ltb_spec localCounter (statementBallotCounter (getStatement (snd e))));
    [|exact Ha].
  apply set_insert_Forall; [exact Ha|].
  split; [assumption|apply statementBallotCounter_inRange, Hs].
Qed.

Lemma createStatement_inRange E t s (Q : SCPStatement -> BallotProtocol -> Prop)
    (X : Exn -> BallotProtocol -> Prop) F :
  stateInRange s ->
  (forall st, statementInRange st -> Q st s) -> (forall x, X x s) ->
  wp (createStatement E t) s Q X F.
Proof.
  intros (Hb & Hp & Hpp & Hh & Hc & _) HQ HX. unfold createStatement.
  repeat wp_step; auto; apply HQ; unfold statementInRange; cbn.
  - unfold optInRange, ballotInRange in *.
    destruct (mCurrentBallot s), (mCommit s), (mHighBallot s); cbn;
      repeat split; auto; lia.
  - unfold optInRange, ballotInRange in *.
    repeat match goal with
           | H : _ = Some _ |- _ => rewrite H in *
           end. tauto.
  - unfold optInRange, ballotInRange in *.
    repeat match goal with
           | H : _ = Some _ |- _ => rewrite H in *
           end. tauto.
Qed.

Lemma bump_envelopes b s : mLatestEnvelopes (bumpResult b s) = mLatestEnvelopes s.
Proof. bump_cases s. Qed.

Lemma bump_high_inRange b s :
  optInRange (mHighBallot s) -> optInRange (mHighBallot (bumpResult b s)).
Proof.
  rewrite bump_high. destruct (mHighBallot s) as [h|]; [|exact (fun x => x)].
  destruct (areBallotsCompatible b h); [exact (fun x => x)|exact (fun _ => I)].
Qed.

Lemma bump_commit_inRange b s :
  optInRange (mCommit s) -> optInRange (mCommit (bumpResult b s)).
Proof.
  rewrite bump_commit. destruct (mHighBallot s) as [h|]; [|exact (fun x => x)].
  destruct (areBallotsCompatible b h); [exact (fun x => x)|exact (fun _ => I)].
Qed.

Lemma optInRange_Some o b : optInRange o -> o = Some b -> ballotInRange b.
Proof. intros H ->. exact H. Qed.

Ltac range_field :=
  repeat (cbn; rewrite ?bump_current, ?bump_prepared, ?bump_preparedPrime,
            ?bump_envelopes);
  first
    [ assumption | exact I
    | apply UINT32_MAX_inRange
    | eapply optInRange_Some; [|eassumption]; assumption
    | match goal with
      | H : ?x = Some ?b |- ballotInRange ?b =>
          apply (@optInRange_Some x b); [range_field | exact H]
      end
    | apply bump_high_inRange; range_field
    | apply bump_commit_inRange; range_field
    | apply map_set_inRange; [range_field|]; try assumption ].

Ltac range_state :=
  unfold inRangeAt, stateInRange in *;
  repeat match goal with
         | H : _ /\ _ |- _ => destruct H
         end;
  repeat split; range_field.

Ltac range_leaf :=
  first
    [ exact I | assumption
    | match goal with
      | |- inRangeAt _ _ =>
          split;
          [ range_state
          | unfold inRangeAt in *;
            repeat match goal with
                   | H : _ /\ _ |- _ => destruct H
                   end;
            repeat progress (cbn; autorewrite with bump);
            first [eassumption | lia | congruence] ]
      end
    | match goal with
      | H : _ || _ = false |- _ => cbn in H; discriminate H
      | H : _ && _ = true |- _ => cbn in H; discriminate H
      end ].

Ltac tot_call lem :=
  match goal with
  | |- wp _ _ _ _ _ =>
      eapply wp_mono;
      [ apply lem; try range_leaf
      | intros ? ? ?
      | intros; exact I
      | let Hk := fresh in intros ? Hk; exact Hk ]
  end; cbv beta in *.

Ltac tot_bump :=
  match goal with
  | |- wp (bumpToBallot _ _ _) _ _ _ _ => apply bumpToBallot_wp; [intros ?|]
  | |- wp (updateCurrentIfNeeded _ _) _ _ _ _ =>
      apply updateCurrentIfNeeded_wp; [intros ?|intros ?|intros ? ? ?]
  end; cbv beta.

Lemma sendLatestEnvelope_total L : totalAt L sendLatestEnvelope.
Proof.
  intros s Hs. unfold sendLatestEnvelope. repeat wp_step. all: range_leaf.
Qed.

Lemma recordEnvelope_total L e :
  statementInRange (getStatement e) -> totalAt L (recordEnvelope e).
Proof.
  intros He s Hs. unfold recordEnvelope. repeat wp_step. all: range_leaf.
Qed.

Lemma checkHeardFromQuorum_total E L : totalAt L (checkHeardFromQuorum E).
Proof.
  intros s Hs.
  unfold checkHeardFromQuorum, startBallotProtocolTimer, stopBallotProtocolTimer.
  repeat wp_step. all: range_leaf.
Qed.

Lemma updateCurrentValue_total E L ballot :
  ballotInRange ballot -> totalAt L (updateCurrentValue E ballot).
Proof.
  intros Hb s Hs. unfold updateCurrentValue.
  repeat first [wp_step | tot_bump]. all: range_leaf.
Qed.

Section Total.

Variable E : Env.
Variable pe : SCPEnvelopeWrapper -> bool -> M EnvelopeState.
Variable L : Z.
Hypothesis pe_total :
  forall e self, statementInRange (getStatement e) -> totalAt L (pe e self).

Lemma emitCurrentStateStatement_total : totalAt L (emitCurrentStateStatement E pe).
Proof.
  intros s Hs. unfold emitCurrentStateStatement, wrapEnvelope.
  apply wp_bind, wp_get. cbv beta zeta. apply wp_bind.
  apply createStatement_inRange; [apply Hs| |intros; exact I].
  intros st Hst.
  repeat first [wp_step | tot_call pe_total | tot_call sendLatestEnvelope_total].
  all: try range_leaf.
  all: unfold statementInRange in *; cbn; assumption.
Qed.

Ltac tot_go tac :=
  repeat first
    [ wp_step | tot_bump
    | tot_call emitCurrentStateStatement_total
    | tac ];
  try range_leaf.

Lemma bumpState_total v n : n <= UINT32_MAX -> totalAt L (bumpState E pe v n).
Proof.
  intros Hn s Hs. unfold bumpState.
  tot_go ltac:(first [ tot_call (@updateCurrentValue_total E L)
                     | tot_call (@checkHeardFromQuorum_total E L) ]).
Qed.

Lemma bumpStateForce_total v f : totalAt L (bumpStateForce E pe v f).
Proof.
  intros s Hs. unfold bumpStateForce. tot_go ltac:(tot_call bumpState_total).
  destruct (mCurrentBallot s) as [b|]; [|unfold UINT32_MAX; lia].
  pose proof (N.mod_upper_bound (counter b + 1) uint32_modulus) as H.
  unfold uint32_modulus, UINT32_MAX in *. lia.
Qed.

Lemma abandonBallot_total n : n <= UINT32_MAX -> totalAt L (abandonBallot E pe n).
Proof.
  intros Hn s Hs. unfold abandonBallot.
  tot_go ltac:(first [tot_call bumpStateForce_total | tot_call bumpState_total]).
Qed.

Lemma setAcceptPrepared_total b :
  ballotInRange b -> totalAt L (setAcceptPrepared E pe b).
Proof.
  intros Hb s Hs. unfold setAcceptPrepared, setPrepared. tot_go fail.
Qed.

Lemma attemptAcceptPrepared_total hint :
  statementInRange hint -> totalAt L (attemptAcceptPrepared E pe hint).
Proof.
  intros Hh s Hs. unfold attemptAcceptPrepared.
  tot_go ltac:(first [ tot_call setAcceptPrepared_total
                     | apply acceptPreparedSearch_In; [intros ? ?|intros ?] ]).
  match goal with
  | H : forall b, Some ?x = Some b -> In b _ |- _ =>
      specialize (H x eq_refl); apply in_rev in H
  end.
  eapply Forall_forall; [|eassumption].
  apply getPrepareCandidates_inRange; [assumption|apply Hs].
Qed.

Lemma setConfirmPrepared_total newC newH :
  ballotInRange newC -> ballotInRange newH ->
  totalAt L (setConfirmPrepared E pe newC newH).
Proof. intros Hc Hh s Hs. unfold setConfirmPrepared. tot_go fail. Qed.

Lemma attemptConfirmPrepared_total hint :
  statementInRange hint -> totalAt L (attemptConfirmPrepared E pe hint).
Proof.
  intros Hh s Hs. unfold attemptConfirmPrepared.
  tot_go ltac:(tot_call setConfirmPrepared_total).
  all: match goal with
       | Hf : findNewH _ _ _ = Some _ |- _ =>
           apply (@findNewH_Forall _ ballotInRange) in Hf;
           [ destruct Hf as [Hnew Hrest]
           | apply Forall_rev, getPrepareCandidates_inRange; [assumption|apply Hs] ]
       end.
  - assert (Hnull : ballotInRange nullBallot) by apply N.le_0_l.
    match goal with
    | |- ballotInRange (if ?c then _ else _) => destruct c
    end; [apply findNewC_invariant; assumption | exact Hnull].
  - exact Hnew.
Qed.

Lemma setAcceptCommit_total c h :
  ballotInRange c -> ballotInRange h -> totalAt L (setAcceptCommit E pe c h).
Proof. intros Hc Hh s Hs. unfold setAcceptCommit. tot_go fail. Qed.

Lemma attemptAcceptCommit_total hint :
  statementInRange hint -> totalAt L (attemptAcceptCommit E pe hint).
Proof.
  intros Hh s Hs. unfold attemptAcceptCommit.
  tot_go ltac:(tot_call setAcceptCommit_total).
  all: unfold ballotInRange; cbn [counter];
    apply findExtendedInterval_inRange;
    [ split; apply N.le_0_l
    | apply Forall_rev;
      match goal with
      | H : getCommitBoundariesFromStatements _ _ = _ |- _ => rewrite <- H
      end;
      apply getCommitBoundaries_inRange, Hs ].
Qed.

Lemma setConfirmCommit_total c h :
  ballotInRange c -> ballotInRange h -> totalAt L (setConfirmCommit E pe c h).
Proof. intros Hc Hh s Hs. unfold setConfirmCommit. tot_go fail. Qed.

Lemma attemptConfirmCommit_total hint :
  statementInRange hint -> totalAt L (attemptConfirmCommit E pe hint).
Proof.
  intros Hh s Hs. unfold attemptConfirmCommit.
  tot_go ltac:(tot_call setConfirmCommit_total).
  all: unfold ballotInRange; cbn [counter];
    apply findExtendedInterval_inRange;
    [ split; apply N.le_0_l
    | apply Forall_rev, getCommitBoundaries_inRange, Hs ].
Qed.

End Total.

Lemma wp_conj {A} (m : M A) s (Q1 Q2 : A -> BallotProtocol -> Prop)
    (X1 X2 : Exn -> BallotProtocol -> Prop) (F1 F2 : FuelKind -> Prop) :
  wp m s Q1 X1 F1 -> wp m s Q2 X2 F2 ->
  wp m s (fun a s' => Q1 a s' /\ Q2 a s') (fun e s' => X1 e s' /\ X2 e s')
    (fun k => F1 k /\ F2 k).
Proof. unfold wp. destruct (m s); auto. Qed.

Lemma currentCounter_inRange s :
  stateInRange s -> (-1 <= currentCounter s <= Z.of_N UINT32_MAX)%Z.
Proof.
  intros (Hb & _). unfold currentCounter, optInRange, ballotInRange in *.
  destruct (mCurrentBallot s); lia.
Qed.

Lemma bumpMeasure_bounds s :
  stateInRange s -> (0 <= bumpMeasure s < 3 * (Z.of_N UINT32_MAX + 2))%Z.
Proof.
  intros Hs. pose proof (currentCounter_inRange Hs) as Hc.
  unfold bumpMeasure. destruct (mPhase s); simpl phaseRank; lia.
Qed.

Lemma ballotLe_counter s s' :
  ballotLe (mCurrentBallot s) (mCurrentBallot s') ->
  (currentCounter s <= currentCounter s')%Z.
Proof.
  unfold currentCounter, ballotLe.
  destruct (mCurrentBallot s) as [x|], (mCurrentBallot s') as [y|]; simpl; try lia.
  unfold compareBallots.
  destruct (N.ltb_spec (counter x) (counter y)); [lia|].
  destruct (N.ltb_spec (counter y) (counter x)); lia.
Qed.

Lemma bumpMeasure_Step a b :
  Step a b -> stateInRange a -> stateInRange b ->
  (bumpMeasure b <= bumpMeasure a)%Z.
Proof.
  intros H Ha Hb.
  pose proof (currentCounter_inRange Ha) as Hca.
  pose proof (currentCounter_inRange Hb) as Hcb.
  pose proof (step_phase H) as Hp. unfold bumpMeasure.
  destruct (step_ballot H) as [Hle|[Hpa Hpb]].
  - pose proof (ballotLe_counter _ _ Hle).
    destruct (mPhase a), (mPhase b); simpl phaseRank in *; lia.
  - rewrite Hpa in *. destruct (mPhase b); simpl phaseRank in *; [congruence|lia|lia].
Qed.

Lemma bumpMeasure_bump ballot s :
  (currentCounter s < Z.of_N (counter ballot))%Z ->
  (bumpMeasure (bumpResult ballot s) < bumpMeasure s)%Z.
Proof.
  intros H. unfold bumpMeasure, currentCounter in *.
  rewrite bump_phase, bump_current. lia.
Qed.

(** [updateCurrentValue] either moves to the ballot or leaves the state. *)
Lemma updateCurrentValue_result E ballot s F :
  wp (updateCurrentValue E ballot) s
    (fun r s' => if r then s' = bumpResult ballot s else s' = s)
    (fun _ _ => True) F.
Proof.
  unfold updateCurrentValue.
  repeat first [wp_step | apply bumpToBallot_wp; [intros ?|]]; auto.
Qed.

Section Progress.

Variable E : Env.
Variable d : nat.
Variable pe : SCPEnvelopeWrapper -> bool -> M EnvelopeState.
Hypothesis pe_keeps : forall e self, keeps d (pe e self).
Hypothesis pe_total :
  forall e self, statementInRange (getStatement e) -> totalAt 1 (pe e self).

Lemma afterBump_keeps :
  keeps d (emitCurrentStateStatement E pe ;; checkHeardFromQuorum E).
Proof.
  intros s. pose proof (Step_refl s) as Href.
  repeat first [wp_step | wp_call (@emitCurrentStateStatement_keeps E d pe pe_keeps)
               | wp_call0 (@checkHeardFromQuorum_keeps E)].
  all: try leaf.
Qed.

Lemma afterBump_total :
  totalAt 1 (emitCurrentStateStatement E pe ;; checkHeardFromQuorum E).
Proof.
  intros s Hs.
  repeat first [wp_step | tot_call (@emitCurrentStateStatement_total E pe 1 pe_total)
               | tot_call (@checkHeardFromQuorum_total E 1)].
  all: try range_leaf.
Qed.

Lemma bumpState_progress v n s :
  inRangeAt 1 s -> n <= UINT32_MAX -> (currentCounter s < Z.of_N n)%Z ->
  wp (bumpState E pe v n) s (progress s) (fun _ _ => True) (fun k => k = Depth).
Proof.
  intros Hs Hn Hlt. unfold bumpState.
  apply wp_bind, wp_get. cbv beta.
  destruct (negb (phaseIsPrepareOrConfirm s)); [apply wp_ret; split; [exact Hs|discriminate]|].
  cbv zeta. apply wp_bind.
  eapply wp_mono; [apply updateCurrentValue_result with (F := fun _ => False)| |auto|intros ? []].
  intros [|] s1 Hs1; cbv beta in Hs1; subst s1.
  - set (newb := mkBallot n (match mValueOverride s with Some v0 => v0 | None => v end)).
    assert (Hin : inRangeAt 1 (bumpResult newb s)) by (subst newb; range_leaf).
    apply wp_bind.
    eapply wp_mono;
      [ apply wp_conj;
        [exact (afterBump_total Hin) | exact (afterBump_keeps (bumpResult newb s))]
      | | intros; exact I | intros k [Hk _]; exact Hk ].
    intros [] s2 [Hin2 Hstep]. apply wp_ret. split; [exact Hin2|]. intros _.
    pose proof (bumpMeasure_Step Hstep (proj1 Hin) (proj1 Hin2)).
    pose proof (@bumpMeasure_bump newb s Hlt). lia.
  - apply wp_bind, wp_ret, wp_ret. split; [exact Hs|discriminate].
Qed.

Lemma attemptBump_progress s :
  inRangeAt 1 s ->
  wp (attemptBump E pe) s (progress s) (fun _ _ => True) (fun k => k = Depth).
Proof.
  intros Hs. unfold attemptBump. apply wp_bind, wp_get. cbv beta zeta.
  destruct (phaseIsPrepareOrConfirm s); [|apply wp_ret; split; [exact Hs|discriminate]].
  destruct (negb (hasVBlockingSubsetStrictlyAheadOf E (mLatestEnvelopes s)
                    match mCurrentBallot s with Some b => counter b | None => 0 end));
    [apply wp_ret; split; [exact Hs|discriminate]|].
  match goal with
  | |- wp (match find ?f ?l with _ => _ end) _ _ _ _ =>
      destruct (find f l) as [n|] eqn:Hfind;
        [|apply wp_ret; split; [exact Hs|discriminate]]
  end.
  apply find_In in Hfind.
  pose proof (allCounters_above
                match mCurrentBallot s with Some b => counter b | None => 0 end
                (proj2 (proj2 (proj2 (proj2 (proj2 (proj1 Hs))))))) as Hall.
  rewrite Forall_forall in Hall. destruct (Hall n Hfind) as [Hlt Hn].
  assert (Hcur : (currentCounter s < Z.of_N n)%Z).
  { unfold currentCounter. destruct (mCurrentBallot s); lia. }
  assert (Hn0 : (n =? 0) = false) by (apply N.eqb_neq; lia).
  unfold abandonBallot. apply wp_bind, wp_get. cbv beta zeta.
  match goal with
  | |- wp (match ?v with _ => _ end) _ _ _ _ =>
      destruct v as [x|]; [|apply wp_ret; split; [exact Hs|discriminate]]
  end.
  destruct (negb (value_empty x)); [|apply wp_ret; split; [exact Hs|discriminate]].
  rewrite Hn0. apply bumpState_progress; assumption.
Qed.

(** The do-while loop of the bump rule stops: every round that bumps
    lowers the measure. *)
Lemma bumpLoop_terminates fuel didWork s :
  inRangeAt 1 s -> (bumpMeasure s < Z.of_nat fuel)%Z ->
  wp (bumpLoop E pe fuel didWork) s (fun _ s' => inRangeAt 1 s') (fun _ _ => True)
    (fun k => k = Depth).
Proof.
  revert didWork s. induction fuel as [|fuel IH]; intros didWork s Hs Hm.
  - pose proof (bumpMeasure_bounds (proj1 Hs)). simpl in Hm. lia.
  - simpl. apply wp_bind.
    eapply wp_mono; [apply attemptBump_progress, Hs| |auto|auto].
    intros [|] s' [Hs' Hp]; cbv beta zeta.
    + apply IH; [exact Hs'|]. specialize (Hp eq_refl). lia.
    + apply wp_ret, Hs'.
Qed.

End Progress.

Section Advance.

Variable E : Env.
Variable d : nat.
Variable pe : SCPEnvelopeWrapper -> bool -> M EnvelopeState.
Variable L : Z.
Variable loopFuel : nat.
Hypothesis Lnonneg : (0 <= L)%Z.
Hypothesis fuel : enoughLoopFuel loopFuel.
Hypothesis pe_keeps : forall e self, keeps d (pe e self).
Hypothesis pe_total :
  forall e self, statementInRange (getStatement e) -> totalAt (L + 1) (pe e self).

Lemma advanceSlot_total hint :
  statementInRange hint -> totalAt L (advanceSlot E pe loopFuel hint).
Proof.
  intros Hh s Hs. unfold advanceSlot.
  repeat first
    [ wp_step0
    | match goal with
      | |- wp (bind (modify _) _) _ _ _ _ => apply wp_bind, wp_modify
      | |- wp (modify _) _ _ _ _ => apply wp_modify
      end
    | tot_call (@attemptAcceptPrepared_total E pe (L + 1) pe_total)
    | tot_call (@attemptConfirmPrepared_total E pe (L + 1) pe_total)
    | tot_call (@attemptAcceptCommit_total E pe (L + 1) pe_total)
    | tot_call (@attemptConfirmCommit_total E pe (L + 1) pe_total)
    | tot_call (@checkHeardFromQuorum_total E (L + 1))
    | tot_call (@sendLatestEnvelope_total L)
    | match goal with
      | Hl : (mCurrentMessageLevel ?s1 =? 1)%Z = true,
        Hin : inRangeAt (L + 1) ?s1 |- wp (bumpLoop _ _ _ _) ?s1 _ _ _ =>
          let HL := fresh "HL" in
          assert (HL : L = 0%Z) by (apply Z.eqb_eq in Hl; destruct Hin; lia);
          eapply wp_mono;
          [ apply (@bumpLoop_terminates E d pe pe_keeps);
            [ rewrite HL in pe_total; exact pe_total
            | rewrite HL in Hin; exact Hin
            | pose proof (bumpMeasure_bounds (proj1 Hin));
              unfold enoughLoopFuel in fuel; lia ]
          | intros ? ? ?
          | intros; exact I
          | let Hk := fresh in intros ? Hk; exact Hk ]
      end ].
  all: try range_leaf.
Qed.

End Advance.

Lemma processEnvelopeBody_total E d pe L loopFuel e self :
  (0 <= L)%Z -> enoughLoopFuel loopFuel ->
  (forall e' self', keeps d (pe e' self')) ->
  (forall e' self', statementInRange (getStatement e') -> totalAt (L + 1) (pe e' self')) ->
  statementInRange (getStatement e) ->
  totalAt L (processEnvelopeBody E pe loopFuel e self).
Proof.
  intros HL Hfuel Hk Ht He s Hs. unfold processEnvelopeBody, isNewerStatementFrom.
  repeat first
    [ wp_step
    | tot_call (@recordEnvelope_total L e He)
    | tot_call (@advanceSlot_total E d pe L loopFuel HL Hfuel Hk Ht) ].
  all: try range_leaf.
Qed.

Lemma processEnvelope_total E loopFuel depth :
  enoughLoopFuel loopFuel ->
  forall L e self,
    (0 <= L)%Z -> statementInRange (getStatement e) ->
    totalAt L (processEnvelope E depth loopFuel e self).
Proof.
  intros Hfuel. induction depth as [|depth IH]; intros L e self HL He;
    rewrite processEnvelope_eq;
    eapply processEnvelopeBody_total; try eassumption;
    try apply slotCallback_keeps.
  - intros e' self' _ s Hs. reflexivity.
  - intros e' self' He'. apply IH; [lia|exact He'].
Qed.

(** X1.  [processEnvelope] returns or throws: the do-while loop of the bump
    rule stops, because every round that bumps raises the phase or the
    counter of the current ballot, and the nesting stops at the cap.  On a
    state and an envelope whose counters are [uint32] values, called at a
    level from 0 up to the cap, unrolled to the cap and with three rounds
    of loop fuel for every counter, the embedding does not run out of fuel;
    the counters stay in range and the level is restored. *)
Theorem processEnvelope_returns_or_throws :
  forall E depth loopFuel e self s,
    stateInRange s ->
    statementInRange (getStatement e) ->
    (0 <= mCurrentMessageLevel s < MAX_ADVANCE_SLOT_RECURSION)%Z ->
    (MAX_ADVANCE_SLOT_RECURSION - 1 <= Z.of_nat depth + mCurrentMessageLevel s)%Z ->
    enoughLoopFuel loopFuel ->
    (exists r s',
        processEnvelope E depth loopFuel e self s = Ret r s'
        /\ stateInRange s' /\ mCurrentMessageLevel s' = mCurrentMessageLevel s)
    \/ (exists x s', processEnvelope E depth loopFuel e self s = Raise x s').
Proof.
  intros E depth loopFuel e self s Hs He Hl Hd Hfuel.
  pose proof (@processEnvelope_total E loopFuel depth Hfuel (mCurrentMessageLevel s)
                e self (proj1 Hl) He s (conj Hs eq_refl)) as Ht.
  pose proof (processEnvelope_keeps E loopFuel depth e self s) as Hk.
  unfold wp in *.
  destruct (processEnvelope E depth loopFuel e self s) as [r s'|x s'|k].
  - left. exists r, s'. split; [reflexivity|exact Ht].
  - right. exists x, s'. reflexivity.
  - subst k. unfold fuelOk, MAX_ADVANCE_SLOT_RECURSION in *. lia.
Qed.

(** A concrete state is in range: its envelopes one by one, its ballots by
    evaluation. *)
Ltac concrete_in_range s :=
  let Hm := fresh "Hm" in
  assert (Hm : envelopesInRange (mLatestEnvelopes s));
  [ unfold envelopesInRange;
    let l := eval vm_compute in (mLatestEnvelopes s) in
    replace (mLatestEnvelopes s) with l by (vm_compute; reflexivity);
    repeat (constructor; [vm_compute; intuition discriminate|]); constructor
  | refine (conj _ (conj _ (conj _ (conj _ (conj _ Hm))))); vm_compute;
    first [discriminate | exact I] ].

(** The CONFIRM of node 2 arrives at the local node at [(2, W)]. *)
Lemma processEnvelope_returns_witness :
  (exists r s',
      processEnvelope (network false None allValid) 49 (N.to_nat 12884901891)
        (confirmV 2) false atTwoW = Ret r s'
      /\ stateInRange s' /\ mCurrentMessageLevel s' = mCurrentMessageLevel atTwoW)
  \/ (exists x s',
        processEnvelope (network false None allValid) 49 (N.to_nat 12884901891)
          (confirmV 2) false atTwoW = Raise x s').
Proof.
  assert (H1 : stateInRange atTwoW) by concrete_in_range atTwoW.
  assert (H2 : statementInRange (getStatement (confirmV 2)))
    by (vm_compute; intuition discriminate).
  assert (H3 : (0 <= mCurrentMessageLevel atTwoW < MAX_ADVANCE_SLOT_RECURSION)%Z)
    by (vm_compute; split; [discriminate|reflexivity]).
  assert (H4 : (MAX_ADVANCE_SLOT_RECURSION - 1
                <= Z.of_nat 49 + mCurrentMessageLevel atTwoW)%Z)
    by (vm_compute; discriminate).
  assert (H5 : enoughLoopFuel (N.to_nat 12884901891))
    by (unfold enoughLoopFuel; rewrite N_nat_Z; vm_compute; discriminate).
  exact (@processEnvelope_returns_or_throws (network false None allValid) 49
           (N.to_nat 12884901891) (confirmV 2) false atTwoW H1 H2 H3 H4 H5).
Defined.

(** ** C3: the recursion cap, from below and to the end *)

Lemma capOnly_ret {A} (a : A) : capOnly (ret a).
Proof. intros s. exact I. Qed.

Lemma capOnly_get : capOnly get.
Proof. intros s. exact I. Qed.

Lemma capOnly_modify f : capOnly (modify f).
Proof. intros s. exact I. Qed.

Lemma capOnly_throw {A} x : x <> capError -> capOnly (@throw A x).
Proof. intros H s. apply wp_throw. intros Hx. contradiction. Qed.

Lemma capOnly_deref {A} (o : option A) : capOnly (deref o).
Proof. intros s. apply wp_deref; [intros; exact I|]. intros _ H. discriminate H. Qed.

Lemma capOnly_bind {A B} (m : M A) (k : A -> M B) :
  capOnly m -> (forall a, capOnly (k a)) -> capOnly (bind m k).
Proof.
  intros Hm Hk s. apply wp_bind.
  eapply wp_mono; [apply Hm| |auto|auto]. intros a s' _. apply Hk.
Qed.

Lemma capOnly_dbgAssert E c : capOnly c -> capOnly (dbgAssert E c).
Proof.
  intros Hc. unfold dbgAssert. destruct (ndebug E); [apply capOnly_ret|].
  apply capOnly_bind; [exact Hc|]. intros [|]; [apply capOnly_ret|].
  apply capOnly_throw. discriminate.
Qed.

Ltac cap_step :=
  match goal with
  | |- capOnly (ret _) => apply capOnly_ret
  | |- capOnly get => apply capOnly_get
  | |- capOnly (modify _) => apply capOnly_modify
  | |- capOnly (throw _) => apply capOnly_throw; discriminate
  | |- capOnly (deref _) => apply capOnly_deref
  | |- capOnly (dbgAssert _ _) => apply capOnly_dbgAssert
  | |- capOnly (bind _ _) => apply capOnly_bind; [|intros ?]
  | |- capOnly (if ?x then _ else _) => destruct x
  | |- capOnly (match ?x with _ => _ end) => destruct x
  end; cbv beta zeta.

Lemma capOnly_sendLatestEnvelope : capOnly sendLatestEnvelope.
Proof. unfold sendLatestEnvelope. repeat cap_step. Qed.

Lemma capOnly_recordEnvelope e : capOnly (recordEnvelope e).
Proof. unfold recordEnvelope. repeat cap_step. Qed.

Lemma capOnly_checkInvariants E : capOnly (checkInvariants E).
Proof. unfold checkInvariants. repeat cap_step. Qed.

Lemma capOnly_createStatement E t : capOnly (createStatement E t).
Proof.
  unfold createStatement. repeat first [apply capOnly_checkInvariants | cap_step].
Qed.

Lemma capOnly_bumpToBallot E b check : capOnly (bumpToBallot E b check).
Proof. unfold bumpToBallot. repeat cap_step. Qed.

Lemma capOnly_updateCurrentValue E b : capOnly (updateCurrentValue E b).
Proof.
  unfold updateCurrentValue.
  repeat first [apply capOnly_bumpToBallot | apply capOnly_checkInvariants | cap_step].
Qed.

Lemma capOnly_updateCurrentIfNeeded E h : capOnly (updateCurrentIfNeeded E h).
Proof.
  unfold updateCurrentIfNeeded. repeat first [apply capOnly_bumpToBallot | cap_step].
Qed.

Lemma capOnly_checkHeardFromQuorum E : capOnly (checkHeardFromQuorum E).
Proof.
  unfold checkHeardFromQuorum, startBallotProtocolTimer, stopBallotProtocolTimer.
  repeat cap_step.
Qed.

Lemma capOnly_setPrepared b : capOnly (setPrepared b).
Proof. unfold setPrepared. repeat cap_step. Qed.

Lemma capOnly_acceptPreparedSearch E l : capOnly (acceptPreparedSearch E l).
Proof.
  induction l as [|b l IH]; simpl; [apply capOnly_ret|].
  repeat first [exact IH | cap_step].
Qed.

Section CapOnly.

Variable E : Env.
Variable pe : SCPEnvelopeWrapper -> bool -> M EnvelopeState.
Hypothesis pe_capOnly : forall e self, capOnly (pe e self).

Ltac cap_go :=
  repeat first
    [ apply pe_capOnly
    | apply capOnly_sendLatestEnvelope
    | apply capOnly_recordEnvelope
    | apply capOnly_checkInvariants
    | apply capOnly_createStatement
    | apply capOnly_bumpToBallot
    | apply capOnly_updateCurrentValue
    | apply capOnly_updateCurrentIfNeeded
    | apply capOnly_checkHeardFromQuorum
    | apply capOnly_setPrepared
    | apply capOnly_acceptPreparedSearch
    | assumption
    | cap_step ].

Lemma capOnly_emitCurrentStateStatement : capOnly (emitCurrentStateStatement E pe).
Proof. unfold emitCurrentStateStatement, wrapEnvelope. cap_go. Qed.

Lemma capOnly_bumpState v n : capOnly (bumpState E pe v n).
Proof.
  pose proof capOnly_emitCurrentStateStatement. unfold bumpState. cap_go.
Qed.

Lemma capOnly_bumpStateForce v f : capOnly (bumpStateForce E pe v f).
Proof.
  pose proof capOnly_bumpState. unfold bumpStateForce. cap_go.
  match goal with H : forall v n, capOnly _ |- _ => apply H end.
Qed.

Lemma capOnly_abandonBallot n : capOnly (abandonBallot E pe n).
Proof.
  pose proof capOnly_bumpState as Hb. pose proof capOnly_bumpStateForce as Hf.
  unfold abandonBallot.
  repeat first [apply Hb | apply Hf | cap_step].
Qed.

Lemma capOnly_setAcceptPrepared b : capOnly (setAcceptPrepared E pe b).
Proof.
  pose proof capOnly_emitCurrentStateStatement. unfold setAcceptPrepared. cap_go.
Qed.

Lemma capOnly_attemptAcceptPrepared hint : capOnly (attemptAcceptPrepared E pe hint).
Proof.
  pose proof capOnly_setAcceptPrepared as Hs. unfold attemptAcceptPrepared.
  repeat first [apply Hs | apply capOnly_acceptPreparedSearch | cap_step].
Qed.

Lemma capOnly_setConfirmPrepared c h : capOnly (setConfirmPrepared E pe c h).
Proof.
  pose proof capOnly_emitCurrentStateStatement. unfold setConfirmPrepared. cap_go.
Qed.

Lemma capOnly_attemptConfirmPrepared hint : capOnly (attemptConfirmPrepared E pe hint).
Proof.
  pose proof capOnly_setConfirmPrepared as Hs. unfold attemptConfirmPrepared.
  repeat first [apply Hs | cap_step].
Qed.

Lemma capOnly_setAcceptCommit c h : capOnly (setAcceptCommit E pe c h).
Proof.
  pose proof capOnly_emitCurrentStateStatement. unfold setAcceptCommit. cap_go.
Qed.

Lemma capOnly_attemptAcceptCommit hint : capOnly (attemptAcceptCommit E pe hint).
Proof.
  pose proof capOnly_setAcceptCommit as Hs. unfold attemptAcceptCommit.
  repeat first [apply Hs | cap_step].
Qed.

Lemma capOnly_setConfirmCommit c h : capOnly (setConfirmCommit E pe c h).
Proof.
  pose proof capOnly_emitCurrentStateStatement. unfold setConfirmCommit. cap_go.
Qed.

Lemma capOnly_attemptConfirmCommit hint : capOnly (attemptConfirmCommit E pe hint).
Proof.
  pose proof capOnly_setConfirmCommit as Hs. unfold attemptConfirmCommit.
  repeat first [apply Hs | cap_step].
Qed.

Lemma capOnly_attemptBump : capOnly (attemptBump E pe).
Proof.
  pose proof capOnly_abandonBallot as Ha. unfold attemptBump.
  repeat first [apply Ha | cap_step].
Qed.

Lemma capOnly_bumpLoop fuel : forall didWork, capOnly (bumpLoop E pe fuel didWork).
Proof.
  induction fuel as [|fuel IH]; intros didWork; simpl.
  - intros s. exact I.
  - repeat first [apply capOnly_attemptBump | apply IH | cap_step].
Qed.

Lemma capOnly_advanceSlot loopFuel hint : capOnly (advanceSlot E pe loopFuel hint).
Proof.
  intros s. unfold advanceSlot.
  apply wp_bind, wp_modify. apply wp_bind, wp_get. cbv beta.
  match goal with
  | |- wp (if ?c then _ else ?rest) ?s1 _ _ _ =>
      destruct c eqn:Hlvl;
      [ apply wp_throw; intros _; rewrite Z.geb_leb in Hlvl; apply Z.leb_le, Hlvl
      | assert (Hrest : capOnly rest); [|apply Hrest] ]
  end.
  cbv zeta.
  repeat first
    [ apply capOnly_attemptAcceptPrepared
    | apply capOnly_attemptConfirmPrepared
    | apply capOnly_attemptAcceptCommit
    | apply capOnly_attemptConfirmCommit
    | apply capOnly_bumpLoop
    | apply capOnly_checkHeardFromQuorum
    | apply capOnly_sendLatestEnvelope
    | cap_step ].
Qed.

Lemma capOnly_processEnvelopeBody loopFuel e self :
  capOnly (processEnvelopeBody E pe loopFuel e self).
Proof.
  unfold processEnvelopeBody, isNewerStatementFrom.
  repeat first
    [ apply capOnly_advanceSlot | apply capOnly_recordEnvelope | cap_step ].
Qed.

End CapOnly.

Lemma capOnly_processEnvelope E loopFuel depth :
  forall e self, capOnly (processEnvelope E depth loopFuel e self).
Proof.
  induction depth as [|depth IH]; intros e self; rewrite processEnvelope_eq;
    apply capOnly_processEnvelopeBody.
  - intros e' self' s. exact I.
  - exact IH.
Qed.

(** How a call of [processEnvelope] below the cap ends, whatever the fuel. *)
Lemma processEnvelope_capped E depth loopFuel e self s :
  (mCurrentMessageLevel s < MAX_ADVANCE_SLOT_RECURSION)%Z ->
  (MAX_ADVANCE_SLOT_RECURSION - 1 <= Z.of_nat depth + mCurrentMessageLevel s)%Z ->
  wp (processEnvelope E depth loopFuel e self) s
    (fun _ s' => mCurrentMessageLevel s' = mCurrentMessageLevel s)
    (fun x s' =>
       (mCurrentMessageLevel s <= mCurrentMessageLevel s'
        <= MAX_ADVANCE_SLOT_RECURSION)%Z
       /\ (x = capError -> mCurrentMessageLevel s' = MAX_ADVANCE_SLOT_RECURSION))
    (fun k => k = Loop).
Proof.
  intros Hl Hd.
  pose proof (processEnvelope_keeps E loopFuel depth e self s) as H.
  pose proof (@capOnly_processEnvelope E loopFuel depth e self s) as Hc.
  unfold wp in *.
  destruct (processEnvelope E depth loopFuel e self s) as [r s'|x s'|k].
  - apply (step_level H).
  - pose proof (stop_level H). pose proof (stop_bound H Hl).
    split; [lia|]. intros Hx. specialize (Hc Hx). lia.
  - destruct k; [|reflexivity]. unfold fuelOk in H.
    specialize (H Hl). unfold MAX_ADVANCE_SLOT_RECURSION in *. lia.
Qed.

(** C3.  The cap is at the 50th nested invocation, not beyond it.
    [advanceSlot] entered at nesting level 49 or more throws the fatal error
    and does nothing else but raise the level; and the fatal error comes
    from nowhere else: when [processEnvelope], called below the cap, throws
    it, the level is at [MAX_ADVANCE_SLOT_RECURSION] = 50 exactly.  So
    [processEnvelope] needs no more than 50 levels of nesting: unrolled far
    enough to reach the cap it does not run out of depth; it returns with
    the level it was called at, or it throws with the level between that and
    50.  And it does one or the other: on counters that are [uint32] values,
    with loop fuel for every counter, the do-while loop of the bump rule
    stops as well. *)
Theorem C3_advanceSlot_recursion_is_capped :
  MAX_ADVANCE_SLOT_RECURSION = 50%Z
  /\ (forall E loopFuel pe hint s,
        (MAX_ADVANCE_SLOT_RECURSION - 1 <= mCurrentMessageLevel s)%Z ->
        advanceSlot E pe loopFuel hint s
        = Raise (RuntimeError "maximum number of transitions reached in advanceSlot")
            (set_mCurrentMessageLevel (mCurrentMessageLevel s + 1) s))
  /\ (forall E loopFuel depth e self s,
        (mCurrentMessageLevel s < MAX_ADVANCE_SLOT_RECURSION)%Z ->
        (MAX_ADVANCE_SLOT_RECURSION - 1 <= Z.of_nat depth + mCurrentMessageLevel s)%Z ->
        match processEnvelope E depth loopFuel e self s with
        | Ret _ s' => mCurrentMessageLevel s' = mCurrentMessageLevel s
        | Raise x s' =>
            (mCurrentMessageLevel s <= mCurrentMessageLevel s'
             <= MAX_ADVANCE_SLOT_RECURSION)%Z
            /\ (x = RuntimeError "maximum number of transitions reached in advanceSlot" ->
                mCurrentMessageLevel s' = MAX_ADVANCE_SLOT_RECURSION)
        | OutOfFuel k => k = Loop
        end)
  /\ (forall E loopFuel depth e self s,
        stateInRange s ->
        statementInRange (getStatement e) ->
        (0 <= mCurrentMessageLevel s < MAX_ADVANCE_SLOT_RECURSION)%Z ->
        (MAX_ADVANCE_SLOT_RECURSION - 1 <= Z.of_nat depth + mCurrentMessageLevel s)%Z ->
        enoughLoopFuel loopFuel ->
        (exists r s',
            processEnvelope E depth loopFuel e self s = Ret r s'
            /\ mCurrentMessageLevel s' = mCurrentMessageLevel s)
        \/ (exists x s',
              processEnvelope E depth loopFuel e self s = Raise x s'
              /\ (mCurrentMessageLevel s <= mCurrentMessageLevel s'
                  <= MAX_ADVANCE_SLOT_RECURSION)%Z
              /\ (x = RuntimeError "maximum number of transitions reached in advanceSlot" ->
                  mCurrentMessageLevel s' = MAX_ADVANCE_SLOT_RECURSION))).
Proof.
  split; [reflexivity|]. split; [|split].
  - intros E loopFuel pe hint s. apply advanceSlot_at_cap.
  - intros E loopFuel depth e self s Hl Hd.
    exact (@processEnvelope_capped E depth loopFuel e self s Hl Hd).
  - intros E loopFuel depth e self s Hs He Hl Hd Hfuel.
    pose proof (@processEnvelope_capped E depth loopFuel e self s (proj2 Hl) Hd) as Hc.
    pose proof (@processEnvelope_total E loopFuel depth Hfuel (mCurrentMessageLevel s)
                  e self (proj1 Hl) He s (conj Hs eq_refl)) as Ht.
    unfold wp in *.
    destruct (processEnvelope E depth loopFuel e self s) as [r s'|x s'|k].
    + left. exists r, s'. split; [reflexivity|exact Hc].
    + right. exists x, s'. split; [reflexivity|exact Hc].
    + exfalso. congruence.
Qed.

(** The CONFIRM of node 2 arrives at the local node at [(2, W)]; and with 49
    invocations of [advanceSlot] under way the 50th throws at once. *)
Lemma C3_witness :
  advanceSlot (network false None allValid)
    (processEnvelope (network false None allValid) 0 50) 50
    (getStatement (confirmV 2)) (set_mCurrentMessageLevel 49 atTwoW)
  = Raise (RuntimeError "maximum number of transitions reached in advanceSlot")
      (set_mCurrentMessageLevel 50 atTwoW)
  /\ ((exists r s',
          processEnvelope (network false None allValid) 49 (N.to_nat 12884901891)
            (confirmV 2) false atTwoW = Ret r s'
          /\ mCurrentMessageLevel s' = mCurrentMessageLevel atTwoW)
      \/ (exists x s',
            processEnvelope (network false None allValid) 49 (N.to_nat 12884901891)
              (confirmV 2) false atTwoW = Raise x s'
            /\ (mCurrentMessageLevel atTwoW <= mCurrentMessageLevel s'
                <= MAX_ADVANCE_SLOT_RECURSION)%Z
            /\ (x = RuntimeError "maximum number of transitions reached in advanceSlot" ->
                mCurrentMessageLevel s' = MAX_ADVANCE_SLOT_RECURSION))).
Proof.
  assert (H0 : (MAX_ADVANCE_SLOT_RECURSION - 1
                <= mCurrentMessageLevel (set_mCurrentMessageLevel 49 atTwoW))%Z)
    by (vm_compute; discriminate).
  assert (H1 : stateInRange atTwoW) by concrete_in_range atTwoW.
  assert (H2 : statementInRange (getStatement (confirmV 2)))
    by (vm_compute; intuition discriminate).
  assert (H3 : (0 <= mCurrentMessageLevel atTwoW < MAX_ADVANCE_SLOT_RECURSION)%Z)
    by (vm_compute; split; [discriminate|reflexivity]).
  assert (H4 : (MAX_ADVANCE_SLOT_RECURSION - 1
                <= Z.of_nat 49 + mCurrentMessageLevel atTwoW)%Z)
    by (vm_compute; discriminate).
  assert (H5 : enoughLoopFuel (N.to_nat 12884901891))
    by (unfold enoughLoopFuel; rewrite N_nat_Z; vm_compute; discriminate).
  split.
  - exact (proj1 (proj2 C3_advanceSlot_recursion_is_capped)
             (network false None allValid) 50%nat
             (processEnvelope (network false None allValid) 0 50)
             (getStatement (confirmV 2)) (set_mCurrentMessageLevel 49 atTwoW) H0).
  - exact (proj2 (proj2 (proj2 C3_advanceSlot_recursion_is_capped))
             (network false None allValid) (N.to_nat 12884901891) 49%nat
             (confirmV 2) false atTwoW H1 H2 H3 H4 H5).
Defined.

(** As worded the claim lets the nesting reach a depth of 50.  With 49
    invocations under way, the next one would be the 50th, and is
    refused. *)
Lemma C3_counterexample :
  ~ reentrantUpToCapAsWorded (network false None allValid)
      (processEnvelope (network false None allValid) 0 50) 50
      (getStatement (confirmV 2)) (set_mCurrentMessageLevel 49 atTwoW).
Proof.
  intros H. apply H; [vm_compute; discriminate|].
  apply advanceSlot_at_cap. vm_compute. discriminate.
Qed.

(** ** The two orders *)

Lemma compareBallots_refl a : compareBallots a a = 0%Z.
Proof.
  rewrite compareBallots_sign, (proj2 (cmp_eq ballotCmp_total a a) eq_refl).
  reflexivity.
Qed.

Lemma compareBallots_le_trans a b c :
  (compareBallots a b <= 0)%Z -> (compareBallots b c <= 0)%Z ->
  (compareBallots a c <= 0)%Z.
Proof. exact (@ballotLe_trans (Some a) (Some b) (Some c)). Qed.

Lemma compareBallots_opp a b : compareBallots b a = (- compareBallots a b)%Z.
Proof.
  rewrite (compareBallots_sign a b), (compareBallots_sign b a),
    (cmp_opp ballotCmp_total a b).
  destruct (ballotCmp a b); reflexivity.
Qed.


Lemma lex_opp c1 c2 : CompOpp (lex c1 c2) = lex (CompOpp c1) (CompOpp c2).
Proof. destruct c1; reflexivity. Qed.

Lemma statementCmp_opp a b : statementCmp b a = CompOpp (statementCmp a b).
Proof.
  unfold statementCmp.
  destruct (pledges a) as [x|x|x], (pledges b) as [y|y|y]; try reflexivity.
  - rewrite !lex_opp.
    rewrite <- (cmp_opp ballotCmp_total), <- !(cmp_opp optBallotCmp_total).
    rewrite <- N.compare_antisym. reflexivity.
  - rewrite !lex_opp.
    rewrite <- (cmp_opp ballotCmp_total), <- !N.compare_antisym. reflexivity.
Qed.

Lemma lex_Eq c1 c2 : lex c1 c2 = Eq <-> c1 = Eq /\ c2 = Eq.
Proof. destruct c1; simpl; split; intros; try tauto; try discriminate; intuition discriminate. Qed.

Lemma statementCmp_Eq a b : statementCmp a b = Eq <-> sameKey a b.
Proof.
  unfold statementCmp, sameKey.
  destruct (pledges a) as [x|x|x], (pledges b) as [y|y|y]; simpl;
    try (split; [discriminate|tauto]); try tauto.
  - rewrite !lex_Eq, (cmp_eq ballotCmp_total), !(cmp_eq optBallotCmp_total),
      N.compare_eq_iff. tauto.
  - rewrite !lex_Eq, (cmp_eq ballotCmp_total), !N.compare_eq_iff. tauto.
Qed.

(** X3.  [isNewerStatement] is a strict order on statements: no statement
    is newer than itself, and "newer" is asymmetric and transitive. *)
Theorem isNewerStatement_strict_order :
  forall a b c : SCPStatement,
    isNewerStatement a a = false
    /\ (isNewerStatement a b = true -> isNewerStatement b a = false)
    /\ (isNewerStatement a b = true -> isNewerStatement b c = true ->
        isNewerStatement a c = true).
Proof.
  intros a b c. refine (conj (isNewerStatement_irrefl a) (conj _ _)).
  - rewrite !isNewerStatement_cmp, (statementCmp_opp a b).
    destruct (statementCmp a b); simpl; congruence.
  - apply isNewerStatement_trans.
Qed.

(** X4.  Neither of two statements is newer than the other exactly when
    they are of the same type and agree on the fields the order reads:
    [(b, p, p', nH)] of a PREPARE, [(b, nPrepared, nH)] of a CONFIRM, nothing
    of an EXTERNALIZE.  The sender, the slot, the quorum set hash, [nC] and
    [nCommit] play no part. *)
Theorem isNewerStatement_incomparable :
  forall a b : SCPStatement,
    (isNewerStatement a b = false /\ isNewerStatement b a = false) <-> sameKey a b.
Proof.
  intros a b. rewrite <- statementCmp_Eq, !isNewerStatement_cmp, (statementCmp_opp a b).
  destruct (statementCmp a b); simpl; intuition congruence.
Qed.

(** ** The envelopes on record *)

Lemma map_find_set_same n w m : map_find n (map_set n w m) = Some w.
Proof.
  induction m as [|[k w'] m IH]; simpl.
  - rewrite N.eqb_refl. reflexivity.
  - destruct (N.compare_spec n k) as [H|H|H]; simpl.
    + subst. rewrite N.eqb_refl. reflexivity.
    + rewrite N.eqb_refl. reflexivity.
    + destruct (N.eqb_spec k n); [lia|exact IH].
Qed.

Lemma map_find_set_other n n' w m :
  n' <> n -> map_find n' (map_set n w m) = map_find n' m.
Proof.
  intros Hn. induction m as [|[k w'] m IH]; simpl.
  - destruct (N.eqb_spec n n'); congruence.
  - destruct (N.compare_spec n k) as [H|H|H]; simpl.
    + subst. destruct (N.eqb_spec k n'); congruence.
    + destruct (N.eqb_spec n n'); congruence.
    + destruct (N.eqb_spec k n'); [reflexivity|exact IH].
Qed.

(** X5.  [recordEnvelope] always returns; afterwards [getLatestMessage]
    answers the recorded envelope for its sender and what it answered before
    for every other node, and the driver has been told of the statement. *)
Theorem recordEnvelope_getLatestMessage :
  forall (env : SCPEnvelopeWrapper) (s : BallotProtocol),
  exists s',
    recordEnvelope env s = Ret tt s'
    /\ getLatestMessage (nodeID (getStatement env)) s' = Some (getEnvelope env)
    /\ (forall id, id <> nodeID (getStatement env) ->
        getLatestMessage id s' = getLatestMessage id s)
    /\ driverCalls s' = recordStatement (getStatement env) :: driverCalls s.
Proof.
  intros env s. eexists. split; [reflexivity|].
  unfold getLatestMessage. cbn.
  rewrite map_find_set_same. split; [reflexivity|]. split; [|reflexivity].
  intros id Hid. rewrite map_find_set_other by exact Hid. reflexivity.
Qed.

(** ** What [processEnvelope] leaves behind when it answers INVALID *)

Lemma wp_True {A} (m : M A) s :
  wp m s (fun _ _ => True) (fun _ _ => True) (fun _ => True).
Proof. unfold wp. destruct (m s); exact I. Qed.

Lemma wp_answer_bind {A B} (m : M A) (k : A -> M B) (v : B) s :
  (forall a s', wp (k a) s' (fun r _ => r = v) (fun _ _ => True) (fun _ => True)) ->
  wp (bind m k) s (fun r _ => r = v) (fun _ _ => True) (fun _ => True).
Proof.
  intros H. apply wp_bind. eapply wp_mono; [apply wp_True| |auto|auto].
  intros a s' _. apply H.
Qed.

Lemma processEnvelopeBody_invalid E pe loopFuel e self s :
  wp (processEnvelopeBody E pe loopFuel e self) s
    (fun r s' => r = INVALID -> s' = s) (fun _ _ => True) (fun _ => True).
Proof.
  assert (Hvalid : forall (m : M EnvelopeState) s0,
             wp m s0 (fun r _ => r = VALID) (fun _ _ => True) (fun _ => True) ->
             wp m s0 (fun r s' => r = INVALID -> s' = s) (fun _ _ => True)
               (fun _ => True)).
  { intros m s0 H. eapply wp_mono; [exact H| |auto|auto].
    intros r s' -> Hr. discriminate Hr. }
  unfold processEnvelopeBody, isNewerStatementFrom.
  repeat first
    [ match goal with
      | |- wp (bind (recordEnvelope _) _) _ _ _ _ =>
          apply Hvalid; repeat (apply wp_answer_bind; intros ? ?); reflexivity
      | |- wp (bind (match _ with _ => _ end) _) _ _ _ _ =>
          apply Hvalid; repeat (apply wp_answer_bind; intros ? ?); reflexivity
      | |- wp (bind (modify _) _) _ _ _ _ =>
          apply Hvalid; repeat (apply wp_answer_bind; intros ? ?); reflexivity
      | |- wp (bind (ret tt) _) _ _ _ _ =>
          apply Hvalid; repeat (apply wp_answer_bind; intros ? ?); reflexivity
      end
    | wp_step ]; auto; try discriminate.
Qed.

(** X6.  When [processEnvelope] answers INVALID, it has changed nothing:
    the state it returns in is the state it was called in. *)
Theorem processEnvelope_invalid_changes_nothing :
  forall E depth loopFuel e self s s',
    processEnvelope E depth loopFuel e self s = Ret INVALID s' -> s' = s.
Proof.
  intros E depth loopFuel e self s s' H.
  pose proof (processEnvelopeBody_invalid E (slotCallback E depth loopFuel)
                loopFuel e self s) as Hwp.
  rewrite processEnvelope_eq in H. unfold wp in Hwp. rewrite H in Hwp.
  exact (Hwp eq_refl).
Qed.

Lemma processEnvelope_invalid_witness :
  stateOf (processEnvelope (network false None allValid) 50 50
             (peerPrepare 2 (mkBallot 1 valueV) None) false afterTwoV)
  = afterTwoV.
Proof.
  apply (@processEnvelope_invalid_changes_nothing (network false None allValid) 50 50
           (peerPrepare 2 (mkBallot 1 valueV) None) false afterTwoV).
  vm_compute. reflexivity.
Defined.

(** ** After externalizing *)

Lemma phaseIsPrepareOrConfirm_externalize s :
  mPhase s = SCP_PHASE_EXTERNALIZE -> phaseIsPrepareOrConfirm s = false.
Proof. unfold phaseIsPrepareOrConfirm. intros ->. reflexivity. Qed.

Lemma bumpState_externalize E pe v n s :
  mPhase s = SCP_PHASE_EXTERNALIZE -> bumpState E pe v n s = Ret false s.
Proof.
  intros H. unfold bumpState, bind, get.
  rewrite (phaseIsPrepareOrConfirm_externalize _ H). reflexivity.
Qed.

Lemma bumpStateForce_externalize E pe v f s :
  mPhase s = SCP_PHASE_EXTERNALIZE -> bumpStateForce E pe v f s = Ret false s.
Proof.
  intros H. unfold bumpStateForce, bind, get.
  destruct (negb f && isSome (mCurrentBallot s)); [reflexivity|].
  apply bumpState_externalize, H.
Qed.

Lemma abandonBallot_externalize E pe n s :
  mPhase s = SCP_PHASE_EXTERNALIZE -> abandonBallot E pe n s = Ret false s.
Proof.
  intros H. pose proof (abandonBallot_bumpState E pe n s) as Ha.
  destruct (abandonValue E s) as [x|]; [|exact Ha].
  destruct (value_empty x); [exact Ha|].
  rewrite Ha. apply bumpState_externalize, H.
Qed.

(** X7.  EXTERNALIZE is final for the entry points of the slot other than
    [processEnvelope]: [bumpState] and [abandonBallot] answer false and change
    nothing, whatever their arguments, and the expiry of the timer only
    counts the expiry. *)
Theorem externalize_is_final :
  forall E depth loopFuel s,
    mPhase s = SCP_PHASE_EXTERNALIZE ->
    (forall v force, runBumpState E depth loopFuel v force s = Ret false s)
    /\ (forall n, runAbandonBallot E depth loopFuel n s = Ret false s)
    /\ runBallotProtocolTimerExpired E depth loopFuel s
       = Ret tt (set_mTimerExpCount ((mTimerExpCount s + 1) mod uint32_modulus) s).
Proof.
  intros E depth loopFuel s H. split; [|split].
  - intros v force. apply bumpStateForce_externalize, H.
  - intros n. apply abandonBallot_externalize, H.
  - unfold runBallotProtocolTimerExpired, ballotProtocolTimerExpired.
    erewrite bind_Ret by reflexivity.
    erewrite bind_Ret by (apply abandonBallot_externalize; exact H).
    reflexivity.
Qed.

Lemma externalize_is_final_witness :
  (forall v force,
      runBumpState (network false None allValid) 50 50 v force externalizedV
      = Ret false externalizedV)
  /\ (forall n,
        runAbandonBallot (network false None allValid) 50 50 n externalizedV
        = Ret false externalizedV)
  /\ runBallotProtocolTimerExpired (network false None allValid) 50 50 externalizedV
     = Ret tt (set_mTimerExpCount
                 ((mTimerExpCount externalizedV + 1) mod uint32_modulus) externalizedV).
Proof.
  apply (@externalize_is_final (network false None allValid) 50 50 externalizedV).
  vm_compute. reflexivity.
Defined.

(** ** The queries *)

(** X8.  Once the local node has externalized and moved on to the next
    slot, [getState] reports every peer with a statement on record as DELAYED
    or DISAGREE, also a peer that has itself sent EXTERNALIZE for the same
    value: DISAGREE when the peer's CONFIRM or EXTERNALIZE carries another
    value than the statement last broadcast, DELAYED in every other case. *)
Theorem getState_after_moving_on :
  forall E threshold n s w sent,
    n <> getLocalNodeID E ->
    map_find n (mLatestEnvelopes s) = Some w ->
    mLastEnvelopeEmit s = Some sent ->
    mPhase s = SCP_PHASE_EXTERNALIZE ->
    getState E threshold n true s
    = if match pledges (getStatement w) with
         | SCP_ST_PREPARE _ => false
         | _ => true
         end
         && negb (value_eqb (value (getWorkingBallot (getStatement w)))
                    (value (getWorkingBallot (getStatement sent))))
      then DISAGREE else DELAYED.
Proof.
  intros E threshold n s w sent Hn Hw Hsent Hphase. unfold getState.
  destruct (N.eqb_spec n (getLocalNodeID E)) as [|_]; [contradiction|].
  rewrite Hw, Hsent, Hphase. unfold areBallotsCompatible. cbn [phase_eqb orb andb].
  destruct (pledges (getStatement w)) as [p|c|e]; cbn [negb orb andb];
    reflexivity.
Qed.

Lemma getState_after_moving_on_witness :
  getState (network false None allValid) 2 2 true peerExternalizedV = DELAYED.
Proof.
  pose (sent := match mLastEnvelopeEmit peerExternalizedV with
                | Some sent => sent
                | None => confirmV 2
                end).
  assert (H1 : 2 <> getLocalNodeID (network false None allValid))
    by (vm_compute; discriminate).
  assert (H2 : map_find 2 (mLatestEnvelopes peerExternalizedV)
               = Some (peerExternalize 9 2 (mkBallot 1 valueV) 1))
    by (vm_compute; reflexivity).
  assert (H3 : mLastEnvelopeEmit peerExternalizedV = Some sent)
    by (vm_compute; reflexivity).
  assert (H4 : mPhase peerExternalizedV = SCP_PHASE_EXTERNALIZE)
    by (vm_compute; reflexivity).
  assert (H5 : (if match pledges (getStatement (peerExternalize 9 2 (mkBallot 1 valueV) 1)) with
                   | SCP_ST_PREPARE _ => false
                   | _ => true
                   end
                   && negb (value_eqb
                              (value (getWorkingBallot
                                        (getStatement
                                           (peerExternalize 9 2 (mkBallot 1 valueV) 1))))
                              (value (getWorkingBallot (getStatement sent))))
                then DISAGREE else DELAYED) = DELAYED)
    by (vm_compute; reflexivity).
  rewrite (@getState_after_moving_on (network false None allValid) 2 2
             peerExternalizedV (peerExternalize 9 2 (mkBallot 1 valueV) 1) sent
             H1 H2 H3 H4).
  exact H5.
Defined.

Lemma externalizingEnvelopes_spec E s c m res :
  mCommit s = Some c ->
  exists l,
    externalizingEnvelopes E s m res s = Ret (res ++ l) s
    /\ forall env,
         In env l <->
         exists n w,
           In (n, w) m /\ env = getEnvelope w
           /\ if n =? getLocalNodeID E then isFullyValidated s = true
              else value (getWorkingBallot (getStatement w)) = value c.
Proof.
  intros Hc. revert res. induction m as [|[n w] m IH]; intros res; simpl.
  - exists []. rewrite app_nil_r. split; [reflexivity|].
    intros env. split; [intros []|intros (n & w & [] & _)].
  - assert (Hstep : forall (keep : bool),
               (keep = true <->
                if n =? getLocalNodeID E then isFullyValidated s = true
                else value (getWorkingBallot (getStatement w)) = value c) ->
               exists l,
                 (if keep then externalizingEnvelopes E s m (res ++ [getEnvelope w])
                  else externalizingEnvelopes E s m res) s = Ret (res ++ l) s
                 /\ forall env,
                      In env l <->
                      exists n0 w0,
                        ((n, w) = (n0, w0) \/ In (n0, w0) m) /\ env = getEnvelope w0
                        /\ if n0 =? getLocalNodeID E then isFullyValidated s = true
                           else value (getWorkingBallot (getStatement w0)) = value c).
    { intros keep Hkeep. destruct keep.
      - destruct (IH (res ++ [getEnvelope w])) as (l & Hl & Hin).
        exists (getEnvelope w :: l). rewrite Hl, <- app_assoc. split; [reflexivity|].
        intros env. simpl. rewrite Hin. split.
        + intros [<-|(n0 & w0 & H0 & H1)].
          * exists n, w. split; [left; reflexivity|]. split; [reflexivity|].
            apply Hkeep. reflexivity.
          * exists n0, w0. tauto.
        + intros (n0 & w0 & [H0|H0] & H1 & H2).
          * inversion H0; subst. left. reflexivity.
          * right. exists n0, w0. tauto.
      - destruct (IH res) as (l & Hl & Hin).
        exists l. split; [exact Hl|].
        intros env. rewrite Hin. split.
        + intros (n0 & w0 & H0 & H1). exists n0, w0. tauto.
        + intros (n0 & w0 & [H0|H0] & H1 & H2).
          * inversion H0; subst. apply Hkeep in H2. discriminate H2.
          * exists n0, w0. tauto. }
    destruct (n =? getLocalNodeID E) eqn:Hn; cbn [negb].
    + apply Hstep. destruct (isFullyValidated s); tauto.
    + unfold bind. rewrite Hc. cbn [deref ret].
      apply Hstep. unfold areBallotsCompatible. apply value_eqb_eq.
Qed.

(** X9.  In a state that satisfies the invariants [getExternalizingState]
    returns, and leaves the state alone.  It returns nothing before
    EXTERNALIZE; in EXTERNALIZE it returns, of the envelopes on record, those
    of the peers whose working ballot carries the externalized value, and the
    local node's own envelope only when the slot is fully validated. *)
Theorem getExternalizingState_spec :
  forall E s,
    invariantsHold s = true ->
    exists l,
      getExternalizingState E s = Ret l s
      /\ forall env,
           In env l <->
           mPhase s = SCP_PHASE_EXTERNALIZE
           /\ exists n w c,
                In (n, w) (mLatestEnvelopes s) /\ env = getEnvelope w
                /\ mCommit s = Some c
                /\ if n =? getLocalNodeID E then isFullyValidated s = true
                   else value (getWorkingBallot (getStatement w)) = value c.
Proof.
  intros E s Hinv. unfold getExternalizingState, bind, get.
  destruct (mPhase s) eqn:Hphase; cbn [phase_eqb].
  - exists []. split; [reflexivity|]. intros env. split; [intros []|intros [H _]; discriminate H].
  - exists []. split; [reflexivity|]. intros env. split; [intros []|intros [H _]; discriminate H].
  - destruct (mCommit s) as [c|] eqn:Hc.
    + destruct (@externalizingEnvelopes_spec E s c (mLatestEnvelopes s) [] Hc)
        as (l & Hl & Hin).
      exists l. split; [exact Hl|].
      intros env. rewrite Hin. split.
      * intros (n & w & H0 & H1 & H2). split; [reflexivity|]. exists n, w, c. tauto.
      * intros (_ & n & w & c' & H0 & H1 & H2 & H3).
        inversion H2; subst c'. exists n, w. tauto.
    + exfalso. unfold invariantsHold in Hinv. rewrite Hphase, Hc in Hinv.
      rewrite !andb_false_r in Hinv. cbn in Hinv.
      destruct (isSome (mCurrentBallot s) && isSome (mPrepared s)); discriminate Hinv.
Qed.

Lemma getExternalizingState_witness :
  exists l,
    getExternalizingState (network false None allValid) peerExternalizedV
    = Ret l peerExternalizedV
    /\ forall env,
         In env l <->
         mPhase peerExternalizedV = SCP_PHASE_EXTERNALIZE
         /\ exists n w c,
              In (n, w) (mLatestEnvelopes peerExternalizedV) /\ env = getEnvelope w
              /\ mCommit peerExternalizedV = Some c
              /\ if n =? getLocalNodeID (network false None allValid)
                 then isFullyValidated peerExternalizedV = true
                 else value (getWorkingBallot (getStatement w)) = value c.
Proof.
  apply (@getExternalizingState_spec (network false None allValid) peerExternalizedV).
  vm_compute. reflexivity.
Defined.

(** ** The predicates of federated voting *)

Lemma lessAndCompatible_trans a b c :
  areBallotsLessAndCompatible a b = true -> areBallotsLessAndCompatible b c = true ->
  areBallotsLessAndCompatible a c = true.
Proof.
  unfold areBallotsLessAndCompatible, areBallotsCompatible. intros H1 H2. boolify.
  apply andb_true_iff. split.
  - apply Z.leb_le. eapply compareBallots_le_trans; eassumption.
  - apply value_eqb_eq. congruence.
Qed.

(** X10.  What a statement says of prepared ballots is closed downwards: a
    statement that has [ballot] prepared, in the sense of
    [hasPreparedBallot], has every lower compatible ballot prepared. *)
Theorem hasPreparedBallot_downward :
  forall ballot lower st,
    hasPreparedBallot ballot st = true ->
    areBallotsLessAndCompatible lower ballot = true ->
    hasPreparedBallot lower st = true.
Proof.
  intros ballot lower st H Hl. unfold hasPreparedBallot in *.
  destruct (pledges st) as [p|c|e].
  - apply orb_true_iff in H. apply orb_true_iff.
    destruct (p_prepared p) as [pr|], (p_preparedPrime p) as [pp|];
      destruct H as [H|H]; try discriminate H;
      first [ left; eapply lessAndCompatible_trans; eassumption
            | right; eapply lessAndCompatible_trans; eassumption ].
  - eapply lessAndCompatible_trans; eassumption.
  - unfold areBallotsLessAndCompatible, areBallotsCompatible in *. boolify.
    apply value_eqb_eq. congruence.
Qed.

Lemma hasPreparedBallot_downward_witness :
  hasPreparedBallot (mkBallot 3 valueV) (getStatement (prepareFive 2)) = true.
Proof.
  apply (@hasPreparedBallot_downward (mkBallot 5 valueV) (mkBallot 3 valueV)
           (getStatement (prepareFive 2)));
    vm_compute; reflexivity.
Defined.

(** X11.  A statement that accepts the commit of [ballot] on an interval of
    counters, in the sense of [commitPredicate], accepts it on every interval
    inside, and counts as voting for it there. *)
Theorem commitPredicate_subinterval :
  forall ballot lo hi lo' hi' st,
    commitPredicate ballot (lo, hi) st = true ->
    lo <= lo' -> hi' <= hi ->
    commitPredicate ballot (lo', hi') st = true
    /\ votesToCommit ballot (lo', hi') st = true.
Proof.
  intros ballot lo hi lo' hi' st H Hlo Hhi.
  unfold commitPredicate, votesToCommit in *. cbn [fst snd] in *.
  destruct (pledges st) as [p|c|e]; [discriminate H| |].
  - destruct (areBallotsCompatible ballot (c_ballot c)); [|discriminate H].
    apply andb_true_iff in H. destruct H as [H1 H2].
    apply N.leb_le in H1. apply N.leb_le in H2.
    split; [apply andb_true_iff; split|]; apply N.leb_le; lia.
  - destruct (areBallotsCompatible ballot (e_commit e)); [|discriminate H].
    apply N.leb_le in H. split; apply N.leb_le; lia.
Qed.

Lemma commitPredicate_subinterval_witness :
  commitPredicate (mkBallot 1 valueV) (2, 3)
    (getStatement (peerConfirm 2 (mkBallot 5 valueV) 5 1 4)) = true
  /\ votesToCommit (mkBallot 1 valueV) (2, 3)
       (getStatement (peerConfirm 2 (mkBallot 5 valueV) 5 1 4)) = true.
Proof.
  apply (@commitPredicate_subinterval (mkBallot 1 valueV) 1 4 2 3
           (getStatement (peerConfirm 2 (mkBallot 5 valueV) 5 1 4)));
    vm_compute; first [reflexivity | discriminate].
Defined.

(** ** The search for a commit interval *)

Lemma findExtendedInterval_good pred all boundaries :
  forall candidate : Interval,
    incl boundaries all ->
    fst candidate = 0 \/ goodInterval pred all candidate ->
    fst (findExtendedInterval candidate boundaries pred) = 0
    \/ goodInterval pred all (findExtendedInterval candidate boundaries pred).
Proof.
  induction boundaries as [|b rest IH]; intros [lo hi] Hincl Hc;
    cbn [findExtendedInterval fst snd] in *.
  - exact Hc.
  - assert (Hb : In b all) by (apply Hincl; left; reflexivity).
    assert (Hrest : incl rest all) by (intros x Hx; apply Hincl; right; exact Hx).
    destruct (N.eqb_spec lo 0) as [H0|H0].
    + destruct (pred (b, b)) eqn:Hp; apply IH; auto.
      right. unfold goodInterval. cbn [fst snd]. repeat split; auto. lia.
    + destruct Hc as [Hc|Hc]; [contradiction|].
      destruct (N.ltb_spec hi b) as [Hlt|Hge]; [apply IH; auto|].
      destruct (pred (b, hi)) eqn:Hp; [|right; exact Hc].
      apply IH; auto. right. destruct Hc as (_ & Hs & _ & _ & Hin).
      unfold goodInterval. cbn [fst snd] in *. repeat split; auto.
Qed.

(** ** The candidates of the prepare steps *)

Lemma set_insert_In {A} (cmp : A -> A -> comparison) x y l :
  In x (set_insert cmp y l) -> x = y \/ In x l.
Proof.
  induction l as [|z l IH]; simpl.
  - intros [H|[]]. left. congruence.
  - destruct (cmp y z); simpl; intros H.
    + right. exact H.
    + destruct H as [H|H]; [left; congruence|right; exact H].
    + destruct H as [H|H]; [right; left; exact H|].
      destruct (IH H) as [H'|H']; [left; exact H'|right; right; exact H'].
Qed.

Lemma lessAndCompatible_refl b : areBallotsLessAndCompatible b b = true.
Proof.
  unfold areBallotsLessAndCompatible, areBallotsCompatible.
  rewrite compareBallots_refl. apply andb_true_iff. split; [reflexivity|].
  apply value_eqb_eq. reflexivity.
Qed.

Lemma candidatesOfStatement_below topVote candidates st c :
  In c (candidatesOfStatement topVote candidates st) ->
  In c candidates \/ areBallotsLessAndCompatible c topVote = true.
Proof.
  unfold candidatesOfStatement, insertBallot.
  destruct (pledges st) as [p|con|ext].
  - destruct (p_preparedPrime p) as [pp|], (p_prepared p) as [pr|];
      repeat match goal with
             | |- context [if ?b then _ else _] => destruct b eqn:?
             end;
      intros H;
      repeat match goal with
             | H : In _ (set_insert _ _ _) |- _ =>
                 apply set_insert_In in H; destruct H as [H|H]; [subst; auto|]
             end; auto.
  - destruct (areBallotsCompatible topVote (c_ballot con)) eqn:Hc; [|auto].
    destruct (N.ltb_spec (c_nPrepared con) (counter topVote)) as [Hlt|Hge]; intros H;
      repeat match goal with
             | H : In _ (set_insert _ _ _) |- _ =>
                 apply set_insert_In in H; destruct H as [H|H]; [subst|]
             end; auto.
    + right. unfold areBallotsLessAndCompatible, areBallotsCompatible.
      apply andb_true_iff. split; [|apply value_eqb_eq; reflexivity].
      apply Z.leb_le. unfold compareBallots. cbn [counter].
      apply N.ltb_lt in Hlt. rewrite Hlt. lia.
    + right. apply lessAndCompatible_refl.
    + right. apply lessAndCompatible_refl.
  - destruct (areBallotsCompatible topVote (e_commit ext)); [|auto].
    intros H. apply set_insert_In in H. destruct H as [H|H]; [subst|auto].
    right. apply lessAndCompatible_refl.
Qed.

(** X16.  Every ballot [getPrepareCandidates] proposes is at most a ballot
    of the hint and carries its value: a hint ballot being the ballot, the
    prepared or the second prepared ballot of a PREPARE hint, and the ballots
    [(nPrepared, x)] and [(UINT32_MAX, x)] for the value [x] of a CONFIRM or
    EXTERNALIZE hint. *)
Theorem getPrepareCandidates_below_hint :
  forall (hint : SCPStatement) (envs : EnvMap),
    Forall (fun c => exists top,
                In top (hintBallots hint)
                /\ areBallotsLessAndCompatible c top = true)
      (getPrepareCandidates hint envs).
Proof.
  intros hint envs. unfold getPrepareCandidates.
  apply Forall_forall. intros c.
  assert (Hgen : forall tops acc,
             In c (fold_left
                     (fun candidates topVote =>
                        fold_left
                          (fun candidates e =>
                             candidatesOfStatement topVote candidates
                               (getStatement (snd e)))
                          envs candidates)
                     tops acc) ->
             In c acc
             \/ exists top, In top tops /\ areBallotsLessAndCompatible c top = true).
  { induction tops as [|top tops IH]; intros acc H; simpl in H; [left; exact H|].
    destruct (IH _ H) as [Hacc|(t & Ht & Hc)].
    - assert (Hin : forall (l : EnvMap) acc',
                 In c (fold_left
                         (fun candidates e =>
                            candidatesOfStatement top candidates (getStatement (snd e)))
                         l acc') ->
                 In c acc' \/ areBallotsLessAndCompatible c top = true).
      { induction l as [|e l IHl]; intros acc' H'; simpl in H'; [left; exact H'|].
        destruct (IHl _ H') as [H1|H1]; [|right; exact H1].
        apply candidatesOfStatement_below in H1. exact H1. }
      destruct (Hin _ _ Hacc) as [H1|H1]; [left; exact H1|].
      right. exists top. split; [left; reflexivity|exact H1].
    - right. exists t. split; [right; exact Ht|exact Hc]. }
  intros H. destruct (Hgen _ _ H) as [[]|(top & Ht & Hc)].
  exists top. split; [apply in_rev; exact Ht|exact Hc].
Qed.

(** ** Moving the current ballot *)

(** X17.  [bumpState] never lowers the current ballot.  Asked, in PREPARE
    or CONFIRM, for a ballot below the current one, it fails the assertion of
    [updateCurrentValue]; when assertions are compiled out it answers false
    and changes nothing. *)
Theorem bumpState_below_current :
  forall E pe v n s b,
    phaseIsPrepareOrConfirm s = true ->
    mCurrentBallot s = Some b ->
    (compareBallots (mkBallot n (bumpValue v s)) b < 0)%Z ->
    bumpState E pe v n s
    = if ndebug E then Ret false s else Raise AssertionFailed s.
Proof.
  intros E pe v n s b Hphase Hb Hlt.
  pose proof (compareBallots_opp (mkBallot n (bumpValue v s)) b) as Hopp.
  assert (Hu : updateCurrentValue E (mkBallot n (bumpValue v s)) s
               = if ndebug E then Ret false s else Raise AssertionFailed s).
  { unfold updateCurrentValue. unfold bind at 1. unfold get at 1. cbv beta iota.
    rewrite Hphase, Hb. cbn [negb].
    unfold dbgAssert, bind, ret, throw.
    destruct (compareBallots b _ <=? 0)%Z eqn:Hle; [apply Z.leb_le in Hle; lia|].
    destruct (ndebug E); [|reflexivity].
    destruct (mCommit s) as [c|]; [destruct (negb _); [reflexivity|]|];
      (destruct (compareBallots b _ <? 0)%Z eqn:H1; [apply Z.ltb_lt in H1; lia|]);
      (destruct (compareBallots b _ >? 0)%Z eqn:H2;
       [reflexivity|rewrite Z.gtb_ltb in H2; apply Z.ltb_ge in H2; lia]). }
  unfold bumpState. unfold bind at 1. unfold get at 1. cbv beta iota.
  rewrite Hphase. cbn [negb]. fold (bumpValue v s).
  unfold bind at 1. rewrite Hu. destruct (ndebug E); reflexivity.
Qed.

Lemma bumpState_below_current_witness :
  bumpState (network false None allValid)
    (processEnvelope (network false None allValid) 50 50) valueW 1 atTwoW
  = Raise AssertionFailed atTwoW.
Proof.
  apply (@bumpState_below_current (network false None allValid)
           (processEnvelope (network false None allValid) 50 50) valueW 1 atTwoW
           (mkBallot 2 valueW));
    vm_compute; reflexivity.
Defined.

(** ** The bump rule *)

Lemma insertCounter_In x y l : In x (insertCounter y l) <-> x = y \/ In x l.
Proof.
  unfold insertCounter. split; [apply set_insert_In|].
  induction l as [|z l IH]; simpl.
  - intros [H|[]]. left. congruence.
  - destruct (N.compare_spec y z) as [Heq|Hlt|Hgt]; simpl; intros [H|[H|H]]; subst; auto.
Qed.

Lemma insertCounter_sorted y l :
  StronglySorted N.lt l -> StronglySorted N.lt (insertCounter y l).
Proof.
  unfold insertCounter. induction 1 as [|z l Hl IH Hz]; simpl.
  - repeat constructor.
  - destruct (N.compare_spec y z) as [Heq|Hlt|Hgt].
    + constructor; assumption.
    + constructor; [constructor; assumption|].
      constructor; [exact Hlt|].
      eapply Forall_impl; [|exact Hz]. intros a Ha. lia.
    + constructor; [exact IH|].
      apply Forall_forall. intros a Ha. apply set_insert_In in Ha.
      destruct Ha as [->|Ha]; [exact Hgt|].
      rewrite Forall_forall in Hz. apply Hz, Ha.
Qed.

Lemma allCounters_spec (local : uint32) (envs : EnvMap) :
  let allCounters :=
    fold_left
      (fun acc e =>
         let c := statementBallotCounter (getStatement (snd e)) in
         if local <? c then insertCounter c acc else acc)
      envs [] in
  StronglySorted N.lt allCounters
  /\ forall c, In c allCounters <->
               local < c
               /\ exists e, In e envs /\ statementBallotCounter (getStatement (snd e)) = c.
Proof.
  cbv zeta.
  assert (Hgen : forall (l : EnvMap) acc,
             StronglySorted N.lt acc ->
             StronglySorted N.lt
               (fold_left
                  (fun acc e =>
                     let c := statementBallotCounter (getStatement (snd e)) in
                     if local <? c then insertCounter c acc else acc) l acc)
             /\ forall c,
                  In c (fold_left
                          (fun acc e =>
                             let c := statementBallotCounter (getStatement (snd e)) in
                             if local <? c then insertCounter c acc else acc) l acc)
                  <-> In c acc
                      \/ (local < c
                          /\ exists e, In e l
                                       /\ statementBallotCounter (getStatement (snd e)) = c)).
  { induction l as [|e l IH]; intros acc Hacc; simpl.
    - split; [exact Hacc|]. intros c. split; [auto|].
      intros [H|(_ & e & [] & _)]. exact H.
    - destruct (N.ltb_spec local (statementBallotCounter (getStatement (snd e))))
        as [Hlt|Hge].
      + destruct (IH _ (insertCounter_sorted
                          (statementBallotCounter (getStatement (snd e))) Hacc))
          as [Hs Hin].
        split; [exact Hs|]. intros c. rewrite Hin, insertCounter_In. split.
        * intros [[->|H]|(Hc & e' & He' & Heq)]; auto.
          -- right. split; [exact Hlt|]. exists e. auto.
          -- right. split; [exact Hc|]. exists e'. auto.
        * intros [H|(Hc & e' & [<-|He'] & Heq)]; auto.
          right. split; [exact Hc|]. exists e'. auto.
      + destruct (IH _ Hacc) as [Hs Hin].
        split; [exact Hs|]. intros c. rewrite Hin. split.
        * intros [H|(Hc & e' & He' & Heq)]; auto.
          right. split; [exact Hc|]. exists e'. auto.
        * intros [H|(Hc & e' & [<-|He'] & Heq)]; auto; [lia|].
          right. split; [exact Hc|]. exists e'. auto. }
  destruct (Hgen envs [] (SSorted_nil _)) as [Hs Hin].
  split; [exact Hs|]. intros c. rewrite Hin. split; [intros [[]|H]; exact H|auto].
Qed.

Lemma find_sorted_first (p : uint32 -> bool) l n :
  StronglySorted N.lt l -> find p l = Some n ->
  p n = true /\ In n l /\ forall c, In c l -> c < n -> p c = false.
Proof.
  induction 1 as [|z l Hl IH Hz]; simpl; [discriminate|].
  destruct (p z) eqn:Hp.
  - intros H. inversion H; subst. split; [exact Hp|]. split; [left; reflexivity|].
    intros c [->|Hc] Hlt; [lia|].
    rewrite Forall_forall in Hz. specialize (Hz c Hc). lia.
  - intros H. destruct (IH H) as (H1 & H2 & H3).
    split; [exact H1|]. split; [right; exact H2|].
    intros c [->|Hc] Hlt; [exact Hp|auto].
Qed.

(** X18.  [attemptBump] carries out the rule "move to the lowest counter at
    which the node is no longer behind a v-blocking set", and nothing else.
    When the rule does not apply (outside PREPARE and CONFIRM, with no
    v-blocking set strictly ahead of the local counter, or with one ahead of
    every counter on record) it answers false and changes nothing.  When it
    applies, [attemptBump] is [abandonBallot(n)] for the lowest counter [n]
    on record above the local one that no v-blocking set is strictly ahead
    of; and when the quorum oracle tells v-blocking sets by the statements on
    record alone, a v-blocking set is strictly ahead of every counter from
    the local one up to [n]. *)
Theorem attemptBump_target :
  forall E pe s,
    (~ bumpDue E s -> attemptBump E pe s = Ret false s)
    /\ (bumpDue E s ->
        exists n,
          localCounter s < n
          /\ (exists e, In e (mLatestEnvelopes s)
                        /\ statementBallotCounter (getStatement (snd e)) = n)
          /\ hasVBlockingSubsetStrictlyAheadOf E (mLatestEnvelopes s) n = false
          /\ (forall e, In e (mLatestEnvelopes s) ->
                        localCounter s < statementBallotCounter (getStatement (snd e)) ->
                        statementBallotCounter (getStatement (snd e)) < n ->
                        hasVBlockingSubsetStrictlyAheadOf E (mLatestEnvelopes s)
                          (statementBallotCounter (getStatement (snd e))) = true)
          /\ ((forall (p q : SCPStatement -> bool),
                  (forall e, In e (mLatestEnvelopes s) ->
                             p (getStatement (snd e)) = q (getStatement (snd e))) ->
                  isVBlocking E (mLatestEnvelopes s) p
                  = isVBlocking E (mLatestEnvelopes s) q) ->
              forall m, localCounter s <= m -> m < n ->
                        hasVBlockingSubsetStrictlyAheadOf E (mLatestEnvelopes s) m = true)
          /\ attemptBump E pe s = abandonBallot E pe n s).
Proof.
  intros E pe s. remember (attemptBump E pe s) as r eqn:Hr.
  unfold attemptBump in Hr. unfold bind at 1 in Hr. unfold get at 1 in Hr.
  cbv beta iota zeta in Hr. fold (localCounter s) in Hr.
  destruct (phaseIsPrepareOrConfirm s) eqn:Hph;
    [|split; [intros _; exact Hr|intros (H & _); rewrite Hph in H; discriminate H]].
  destruct (hasVBlockingSubsetStrictlyAheadOf E (mLatestEnvelopes s) (localCounter s))
    eqn:Hahead; cbn [negb] in Hr;
    [|split; [intros _; exact Hr|intros (_ & H & _); rewrite Hahead in H; discriminate H]].
  destruct (allCounters_spec (localCounter s) (mLatestEnvelopes s)) as [Hsorted Hin].
  cbv zeta in Hsorted, Hin.
  destruct (find _ _) as [n|] eqn:Hfind in Hr.
  - destruct (find_sorted_first _ Hsorted Hfind) as (Hn & Hnin & Hfirst).
    apply negb_true_iff in Hn. apply Hin in Hnin. destruct Hnin as [Hlt Hrec].
    assert (Hlow : forall e, In e (mLatestEnvelopes s) ->
                     localCounter s < statementBallotCounter (getStatement (snd e)) ->
                     statementBallotCounter (getStatement (snd e)) < n ->
                     hasVBlockingSubsetStrictlyAheadOf E (mLatestEnvelopes s)
                       (statementBallotCounter (getStatement (snd e))) = true).
    { intros e He Hlo Hhi. apply negb_false_iff. apply Hfirst; [|exact Hhi].
      apply Hin. split; [exact Hlo|]. exists e. split; [exact He|reflexivity]. }
    split.
    + intros Hnot. exfalso. apply Hnot. split; [exact Hph|]. split; [exact Hahead|].
      destruct Hrec as (e & He & Hc). exists e. rewrite Hc. auto.
    + intros _. exists n.
      split; [exact Hlt|]. split; [exact Hrec|]. split; [exact Hn|].
      split; [exact Hlow|]. split; [|exact Hr].
      intros Hext.
      assert (Hall : forall k m, m = localCounter s + N.of_nat k -> m < n ->
                     hasVBlockingSubsetStrictlyAheadOf E (mLatestEnvelopes s) m = true).
      { induction k as [|k IH]; intros m Hm Hmn.
        - replace m with (localCounter s) by lia. exact Hahead.
        - assert (Hprev : hasVBlockingSubsetStrictlyAheadOf E (mLatestEnvelopes s)
                            (localCounter s + N.of_nat k) = true)
            by (apply IH; [reflexivity|lia]).
          rewrite <- Hprev. unfold hasVBlockingSubsetStrictlyAheadOf.
          destruct (isVBlocking E (mLatestEnvelopes s)
                      (fun st => m <? statementBallotCounter st)) eqn:Hm_ahead.
          + symmetry. exact Hprev.
          + rewrite <- Hm_ahead. apply Hext. intros e He.
            destruct (N.ltb_spec m (statementBallotCounter (getStatement (snd e))))
              as [H1|H1];
              destruct (N.ltb_spec (localCounter s + N.of_nat k)
                          (statementBallotCounter (getStatement (snd e)))) as [H2|H2];
              try reflexivity; try lia.
            exfalso.
            assert (Heq : statementBallotCounter (getStatement (snd e)) = m) by lia.
            assert (Hlo : localCounter s < statementBallotCounter (getStatement (snd e)))
              by lia.
            assert (Hhi : statementBallotCounter (getStatement (snd e)) < n) by lia.
            pose proof (Hlow e He Hlo Hhi) as Habs. rewrite Heq in Habs.
            unfold hasVBlockingSubsetStrictlyAheadOf in Habs. congruence. }
      intros m Hlo Hhi. apply (Hall (N.to_nat (m - localCounter s))); [lia|exact Hhi].
  - split; [intros _; exact Hr|].
    intros (_ & _ & e & He & Hlo & Hfalse). exfalso.
    pose proof (find_none _ _ Hfind (statementBallotCounter (getStatement (snd e)))) as Hnone.
    cbv beta in Hnone. rewrite Hfalse in Hnone. cbn in Hnone.
    assert (true = false); [|discriminate].
    apply Hnone. apply Hin. split; [exact Hlo|]. exists e. split; [exact He|reflexivity].
Qed.

Lemma Oracle_isVBlocking_ext q (map : EnvMap) (p p' : SCPStatement -> bool) :
  (forall e, In e map -> p (getStatement (snd e)) = p' (getStatement (snd e))) ->
  Oracle.isVBlocking q map p = Oracle.isVBlocking q map p'.
Proof.
  intros H. unfold Oracle.isVBlocking, Oracle.nodesSatisfying.
  rewrite (filter_ext_in _ _ map H). reflexivity.
Qed.

(** Scenario 3 of the specification: with node 2 at counter 5 and node 3 at
    counter 7 the rule applies to the local node at [(2, W)], which moves to
    counter 5: a v-blocking set is strictly ahead of 2, 3 and 4, none of
    5. *)
Lemma attemptBump_target_witness :
  bumpDue (network false None allValid) peersAhead
  /\ attemptBump (network false None allValid)
       (processEnvelope (network false None allValid) 50 50) peersAhead
     = abandonBallot (network false None allValid)
         (processEnvelope (network false None allValid) 50 50) 5 peersAhead
  /\ (forall m, localCounter peersAhead <= m -> m < 5 ->
                hasVBlockingSubsetStrictlyAheadOf (network false None allValid)
                  (mLatestEnvelopes peersAhead) m = true)
  /\ option_map counter
       (mCurrentBallot
          (stateOf (attemptBump (network false None allValid)
                      (processEnvelope (network false None allValid) 50 50) peersAhead)))
     = Some 5.
Proof.
  assert (Hdue : bumpDue (network false None allValid) peersAhead).
  { split; [vm_compute; reflexivity|]. split; [vm_compute; reflexivity|].
    exists (2, peerPrepare 2 (mkBallot 5 valueV) None).
    split; [vm_compute; right; left; reflexivity|].
    split; vm_compute; reflexivity. }
  split; [exact Hdue|].
  destruct (proj2 (@attemptBump_target (network false None allValid)
                     (processEnvelope (network false None allValid) 50 50) peersAhead)
              Hdue) as (n & Hlt & Hrec & Hn & Hlow & Hint & Heq).
  assert (Hn5 : n = 5).
  { assert (H7 : hasVBlockingSubsetStrictlyAheadOf (network false None allValid)
                   (mLatestEnvelopes peersAhead) 5 = false) by (vm_compute; reflexivity).
    assert (H5in : In (2, peerPrepare 2 (mkBallot 5 valueV) None)
                     (mLatestEnvelopes peersAhead))
      by (vm_compute; right; left; reflexivity).
    destruct (N.lt_trichotomy n 5) as [Hn_lt|[Hn_eq|Hn_gt]]; [|exact Hn_eq|].
    - exfalso. destruct Hrec as (e & He & Hc).
      assert (Hl : mLatestEnvelopes peersAhead
                   = [ (1, mkWrapper (OwnPtr 1)
                             (mkEnvelope (getStatement (mkWrapper (OwnPtr 1)
                                (mkEnvelope (mkStatement 1 7
                                   (SCP_ST_PREPARE (mkPrepare 11 (mkBallot 2 valueW)
                                                      None None 0 0))) []))) []));
                       (2, peerPrepare 2 (mkBallot 5 valueV) None);
                       (3, peerPrepare 3 (mkBallot 7 valueV) None) ])
        by (vm_compute; reflexivity).
      rewrite Hl in He.
      assert (Hlc : localCounter peersAhead = 2) by (vm_compute; reflexivity).
      rewrite Hlc in Hlt.
      destruct He as [<-|[<-|[<-|[]]]]; vm_compute in Hc; subst n; lia.
    - exfalso.
      assert (Hlc : localCounter peersAhead < 5) by (vm_compute; reflexivity).
      pose proof (Hlow (2, peerPrepare 2 (mkBallot 5 valueV) None) H5in Hlc Hn_gt) as Habs.
      change (statementBallotCounter
                (getStatement (snd (2, peerPrepare 2 (mkBallot 5 valueV) None))))
        with 5 in Habs.
      rewrite H7 in Habs. discriminate Habs. }
  subst n. split; [exact Heq|]. split.
  - apply Hint. intros p q H. apply Oracle_isVBlocking_ext. exact H.
  - vm_compute. reflexivity.
Defined.

(** ** Restoring the state from an envelope *)

Lemma checkInvariants_ok E s :
  ndebug E = true \/ invariantsHold s = true -> checkInvariants E s = Ret tt s.
Proof.
  intros [H|H]; [apply checkInvariants_release, H|].
  destruct (ndebug E) eqn:Hnd; [apply checkInvariants_release, Hnd|].
  apply (@checkInvariants_checks E s Hnd), H.
Qed.

Lemma setStateFromEnvelope_returns E e s :
  notStarted s ->
  exists s1,
    setStateFromEnvelope E e s = Ret tt s1
    /\ mLatestEnvelopes s1
       = map_set (nodeID (getStatement e)) e (mLatestEnvelopes s)
    /\ mLastEnvelope s1 = Some e /\ mLastEnvelopeEmit s1 = Some e
    /\ match pledges (getStatement e) with
       | SCP_ST_PREPARE prep =>
           mPhase s1 = SCP_PHASE_PREPARE
           /\ mCurrentBallot s1 = Some (p_ballot prep)
           /\ mPrepared s1 = p_prepared prep
           /\ mPreparedPrime s1 = p_preparedPrime prep
           /\ mHighBallot s1
              = (if p_nH prep =? 0 then None
                 else Some (mkBallot (p_nH prep) (value (p_ballot prep))))
           /\ mCommit s1
              = (if p_nC prep =? 0 then None
                 else Some (mkBallot (p_nC prep) (value (p_ballot prep))))
       | SCP_ST_CONFIRM c =>
           mPhase s1 = SCP_PHASE_CONFIRM
           /\ mCurrentBallot s1 = Some (c_ballot c)
           /\ mPrepared s1 = Some (mkBallot (c_nPrepared c) (value (c_ballot c)))
           /\ mPreparedPrime s1 = None
           /\ mHighBallot s1 = Some (mkBallot (c_nH c) (value (c_ballot c)))
           /\ mCommit s1 = Some (mkBallot (c_nCommit c) (value (c_ballot c)))
       | SCP_ST_EXTERNALIZE ext =>
           mPhase s1 = SCP_PHASE_EXTERNALIZE
           /\ mCurrentBallot s1 = Some (mkBallot UINT32_MAX (value (e_commit ext)))
           /\ mPrepared s1 = Some (mkBallot UINT32_MAX (value (e_commit ext)))
           /\ mPreparedPrime s1 = None
           /\ mHighBallot s1 = Some (mkBallot (e_nH ext) (value (e_commit ext)))
           /\ mCommit s1 = Some (e_commit ext)
       end.
Proof.
  intros (Hb & Hp & Hpp & Hh & Hc & Hphase).
  unfold setStateFromEnvelope. unfold bind at 1. unfold get at 1. cbv beta iota.
  rewrite Hb. cbn [isSome].
  unfold recordEnvelope, bind, modify, ret.
  assert (Hbump : forall ballot,
             bumpToBallot E ballot true
               (set_mLastEnvelopeEmit
                  (mLastEnvelope
                     (set_mLastEnvelope (Some e)
                        (call (recordStatement (getStatement e))
                           (set_mLatestEnvelopes
                              (map_set (nodeID (getStatement e)) e (mLatestEnvelopes s))
                              s))))
                  (set_mLastEnvelope (Some e)
                     (call (recordStatement (getStatement e))
                        (set_mLatestEnvelopes
                           (map_set (nodeID (getStatement e)) e (mLatestEnvelopes s))
                           s))))
             = Ret tt
                 (bumpResult ballot
                    (set_mLastEnvelopeEmit (Some e)
                       (set_mLastEnvelope (Some e)
                          (call (recordStatement (getStatement e))
                             (set_mLatestEnvelopes
                                (map_set (nodeID (getStatement e)) e
                                   (mLatestEnvelopes s))
                                s)))))).
  { intros ballot. apply bumpToBallot_eq; cbn; [rewrite Hphase; reflexivity|].
    rewrite Hb. exact I. }
  destruct (pledges (getStatement e)) as [prep|c|ext]; rewrite Hbump.
  - destruct (p_prepared prep) as [pr|], (p_preparedPrime prep) as [pp|],
      (p_nH prep =? 0), (p_nC prep =? 0); cbn [negb];
      (eexists; split; [reflexivity|]);
      cbn; autorewrite with bump; rewrite ?bump_envelopes; cbn;
      rewrite ?Hh, ?Hc, ?Hp, ?Hpp;
      repeat split; reflexivity.
  - eexists; split; [reflexivity|].
    cbn; autorewrite with bump; rewrite ?bump_envelopes; cbn;
      rewrite ?Hh, ?Hc, ?Hp, ?Hpp;
      repeat split; reflexivity.
  - eexists; split; [reflexivity|].
    cbn; autorewrite with bump; rewrite ?bump_envelopes; cbn;
      rewrite ?Hh, ?Hc, ?Hp, ?Hpp;
      repeat split; reflexivity.
Qed.

(** X19.  Restoring the state from an envelope and asking for the current
    statement gives the pledges of that envelope back.  On a state without
    ballots [setStateFromEnvelope] returns; when the restored state passes
    [checkInvariants], [createStatement] rebuilds the pledges of an envelope
    of the local node, and [emitCurrentStateStatement] finds nothing new: it
    does not hand an envelope to the slot, emits nothing and leaves the
    state. *)
Theorem setStateFromEnvelope_round_trip :
  forall E pe e s,
    notStarted s ->
    ownEnvelope E e ->
    ndebug E = true \/ invariantsHold (stateOf (setStateFromEnvelope E e s)) = true ->
    exists s1 st,
      setStateFromEnvelope E e s = Ret tt s1
      /\ createStatement E (statementTypeOf (mPhase s1)) s1 = Ret st s1
      /\ pledges st = pledges (getStatement e)
      /\ emitCurrentStateStatement E pe s1 = Ret tt s1.
Proof.
  intros E pe e s Hs [Hown Hhash] Hinv.
  destruct (setStateFromEnvelope_returns E e Hs)
    as (s1 & Hret & Hmap & Hlast & Hsent & Hfields).
  rewrite Hret in Hinv. cbn [stateOf] in Hinv.
  pose proof (checkInvariants_ok E s1 Hinv) as Hcheck.
  exists s1.
  assert (Hst : createStatement E (statementTypeOf (mPhase s1)) s1
                = Ret (mkStatement 0 0 (pledges (getStatement e))) s1).
  { unfold createStatement. unfold bind at 1. rewrite Hcheck.
    unfold bind at 1. unfold get at 1. cbv beta iota.
    unfold getCompanionQuorumSetHashFromStatement in Hhash.
    destruct (pledges (getStatement e)) as [prep|c|ext];
      destruct Hfields as (Hph & Hb & Hp & Hpp & Hh & Hc);
      rewrite Hph; cbn [statementTypeOf];
      rewrite ?Hb, ?Hp, ?Hpp, ?Hh, ?Hc; cbn [deref bind ret].
    - destruct prep as [hash b p pp nC nH]. cbn [p_nH p_nC p_ballot p_prepared
        p_preparedPrime p_quorumSetHash] in *. subst hash.
      destruct (N.eqb_spec nC 0), (N.eqb_spec nH 0); subst; reflexivity.
    - destruct c as [b nP nC nH hash]. cbn in *. subst hash. reflexivity.
    - destruct ext as [c nH hash]. cbn in *. subst hash. reflexivity. }
  exists (mkStatement 0 0 (pledges (getStatement e))).
  split; [exact Hret|]. split; [exact Hst|]. split; [reflexivity|].
  unfold emitCurrentStateStatement. unfold bind at 1. unfold get at 1. cbv beta iota zeta.
  fold (statementTypeOf (mPhase s1)). unfold bind at 1. rewrite Hst.
  unfold bind at 1. unfold get at 1. cbv beta iota.
  assert (Hnode : nodeID (getStatement e) = getLocalNodeID E).
  { unfold getStatement at 1. rewrite Hown. reflexivity. }
  rewrite Hmap, Hnode, map_find_set_same.
  replace (createEnvelope E (mkStatement 0 0 (pledges (getStatement e))))
    with (getEnvelope e) by (rewrite Hown at 1; reflexivity).
  destruct (SCPEnvelope_eq_dec (getEnvelope e) (getEnvelope e)) as [_|Hne];
    [reflexivity|contradiction].
Qed.

Lemma setStateFromEnvelope_round_trip_witness :
  exists s1 st,
    setStateFromEnvelope (network false None allValid) ownExternalizeV initialState
    = Ret tt s1
    /\ createStatement (network false None allValid) (statementTypeOf (mPhase s1)) s1
       = Ret st s1
    /\ pledges st = pledges (getStatement ownExternalizeV)
    /\ emitCurrentStateStatement (network false None allValid)
         (processEnvelope (network false None allValid) 50 50) s1
       = Ret tt s1.
Proof.
  apply (@setStateFromEnvelope_round_trip (network false None allValid)
           (processEnvelope (network false None allValid) 50 50)
           ownExternalizeV initialState).
  - vm_compute. repeat split; reflexivity.
  - vm_compute. split; reflexivity.
  - right. vm_compute. reflexivity.
Defined.

(** ** What the attempt steps check before they change the state *)

Lemma acceptPreparedSearch_spec E l s :
  wp (acceptPreparedSearch E l) s
    (fun r s' =>
       s' = s
       /\ match r with
          | Some ballot => In ballot l /\ acceptsPrepared E s ballot
          | None => True
          end)
    (fun x s' => s' = s /\ (x = NullDereference \/ x = AssertionFailed))
    (fun _ => False).
Proof.
  induction l as [|ballot rest IH]; simpl.
  - apply wp_ret. auto.
  - assert (Hrec : wp (acceptPreparedSearch E rest) s
                     (fun r s' =>
                        s' = s
                        /\ match r with
                           | Some b => In b (ballot :: rest) /\ acceptsPrepared E s b
                           | None => True
                           end)
                     (fun x s' => s' = s /\ (x = NullDereference \/ x = AssertionFailed))
                     (fun _ => False)).
    { eapply wp_mono; [exact IH| |auto|auto].
      intros [b|] s' [-> H]; [|auto]. split; [reflexivity|].
      destruct H. split; [right; assumption|assumption]. }
    unfold dbgAssert.
    repeat first [exact Hrec | wp_step]; auto.
    all: split; [reflexivity|]; split; [left; reflexivity|].
    all: unfold acceptsPrepared; boolify.
    all: repeat split; try assumption.
    all: try (intros ? Heq; rewrite Heq in *; try discriminate; boolify; try lia;
              try assumption).
    all: try (intros Hph; rewrite Hph in *; try discriminate).
    all: match goal with
         | H : mPrepared _ = Some ?a |- _ => exists a; split; [exact H|]
         end;
      unfold areBallotsLessAndCompatible, areBallotsCompatible;
      apply andb_true_iff; split;
      [apply Z.leb_le; assumption|apply value_eqb_eq; assumption].
Qed.

(** X14.  [attemptAcceptPrepared] accepts a ballot as prepared only after
    the vote for it has passed: it answers false and changes nothing, or
    fails on an empty [p] or [c] in CONFIRM without a change, or it is
    [setAcceptPrepared(ballot)] for a candidate of the hint that federated
    voting accepts - a v-blocking set has it prepared, or a quorum votes for
    or has it prepared - that is above [p'], not covered by [p] and, in
    CONFIRM, at least [p] and compatible with it. *)
Theorem attemptAcceptPrepared_guard :
  forall E pe hint s,
    attemptAcceptPrepared E pe hint s = Ret false s
    \/ attemptAcceptPrepared E pe hint s = Raise NullDereference s
    \/ attemptAcceptPrepared E pe hint s = Raise AssertionFailed s
    \/ exists ballot,
         In ballot (getPrepareCandidates hint (mLatestEnvelopes s))
         /\ acceptsPrepared E s ballot
         /\ attemptAcceptPrepared E pe hint s = setAcceptPrepared E pe ballot s.
Proof.
  intros E pe hint s.
  remember (attemptAcceptPrepared E pe hint s) as r eqn:Hr.
  unfold attemptAcceptPrepared in Hr. unfold bind at 1 in Hr. unfold get at 1 in Hr.
  cbv beta iota zeta in Hr.
  destruct (negb (phaseIsPrepareOrConfirm s)); [left; exact Hr|].
  pose proof (acceptPreparedSearch_spec E
                (rev (getPrepareCandidates hint (mLatestEnvelopes s))) s) as Hs.
  unfold wp in Hs. unfold bind in Hr.
  destruct (acceptPreparedSearch E _ s) as [[ballot|] s'|x s'|k].
  - destruct Hs as [-> [Hin Hacc]]. right. right. right. exists ballot.
    split; [apply in_rev; exact Hin|]. split; [exact Hacc|exact Hr].
  - destruct Hs as [-> _]. left. exact Hr.
  - destruct Hs as [-> [->| ->]]; [right; left; exact Hr|right; right; left; exact Hr].
  - contradiction.
Qed.

Lemma findNewH_spec E s cur newH rest :
  findNewH E s cur = Some (newH, rest) ->
  In newH cur
  /\ (exists before, cur = before ++ rest) /\ (exists tail, rest = newH :: tail)
  /\ federatedRatify E (hasPreparedBallot newH) (mLatestEnvelopes s) = true
  /\ (forall h, mHighBallot s = Some h -> (compareBallots h newH < 0)%Z).
Proof.
  induction cur as [|ballot cur IH]; simpl; [discriminate|].
  destruct (match mHighBallot s with
            | Some h => (compareBallots h ballot >=? 0)%Z
            | None => false
            end) eqn:Hh; [discriminate|].
  destruct (federatedRatify E (hasPreparedBallot ballot) (mLatestEnvelopes s)) eqn:Hr.
  - intros H. inversion H; subst. split; [left; reflexivity|].
    split; [exists []; reflexivity|]. split; [exists cur; reflexivity|].
    split; [exact Hr|]. intros h Hs. rewrite Hs in Hh.
    rewrite Z.geb_leb in Hh. apply Z.leb_gt in Hh. exact Hh.
  - intros H. destruct (IH H) as (H1 & (before & H2) & H3 & H4 & H5).
    split; [right; exact H1|]. split; [exists (ballot :: before); rewrite H2; reflexivity|].
    split; [exact H3|]. split; [exact H4|exact H5].
Qed.

Lemma findNewC_spec E s b newH cur newC0 :
  let newC := findNewC E s b newH cur newC0 in
  newC = newC0
  \/ (In newC cur
      /\ federatedRatify E (hasPreparedBallot newC) (mLatestEnvelopes s) = true
      /\ areBallotsLessAndCompatible newC newH = true
      /\ (0 <= compareBallots newC b)%Z).
Proof.
  cbv zeta. revert newC0. induction cur as [|ballot cur IH]; intros newC0; simpl.
  - left. reflexivity.
  - destruct (compareBallots ballot b <? 0)%Z eqn:Hb; [left; reflexivity|].
    apply Z.ltb_ge in Hb.
    destruct (areBallotsLessAndCompatible ballot newH) eqn:Hc; cbn [negb].
    + destruct (federatedRatify E (hasPreparedBallot ballot) (mLatestEnvelopes s))
        eqn:Hr; [|left; reflexivity].
      destruct (IH ballot) as [->|(H1 & H2 & H3 & H4)].
      * right. split; [left; reflexivity|]. auto.
      * right. split; [right; exact H1|]. auto.
    + destruct (IH newC0) as [->|(H1 & H2 & H3 & H4)].
      * left. reflexivity.
      * right. split; [right; exact H1|]. auto.
Qed.

(** X15.  [attemptConfirmPrepared] raises [h], and sets [c], only to
    ballots that are ratified as prepared: it answers false and changes
    nothing, or it is [setConfirmPrepared(newC, newH)] where [newH] is a
    candidate of the hint above [h] that a quorum has prepared, and [newC] is
    the null ballot - leave [c] - or, [c] being unset, a candidate that a
    quorum has prepared, at most [newH] and compatible with it, and not below
    the current ballot. *)
Theorem attemptConfirmPrepared_guard :
  forall E pe hint s,
    attemptConfirmPrepared E pe hint s = Ret false s
    \/ exists newC newH,
         In newH (getPrepareCandidates hint (mLatestEnvelopes s))
         /\ federatedRatify E (hasPreparedBallot newH) (mLatestEnvelopes s) = true
         /\ (forall h, mHighBallot s = Some h -> (compareBallots h newH < 0)%Z)
         /\ (newC = nullBallot
             \/ confirmsCommit E s (getPrepareCandidates hint (mLatestEnvelopes s))
                  newH newC)
         /\ attemptConfirmPrepared E pe hint s = setConfirmPrepared E pe newC newH s.
Proof.
  intros E pe hint s.
  remember (attemptConfirmPrepared E pe hint s) as r eqn:Hr.
  unfold attemptConfirmPrepared in Hr. unfold bind at 1 in Hr. unfold get at 1 in Hr.
  cbv beta iota zeta in Hr.
  destruct (negb (phase_eqb (mPhase s) SCP_PHASE_PREPARE)); [left; exact Hr|].
  destruct (negb (isSome (mPrepared s))); [left; exact Hr|].
  destruct (findNewH E s (rev (getPrepareCandidates hint (mLatestEnvelopes s))))
    as [[newH cur]|] eqn:Hfind; [|left; exact Hr].
  destruct (findNewH_spec _ _ _ Hfind) as (Hin & (before & Hcur) & _ & Hrat & Hh).
  right. eexists. exists newH.
  split; [apply in_rev; exact Hin|]. split; [exact Hrat|]. split; [exact Hh|].
  split; [|exact Hr].
  destruct (negb (isSome (mCommit s)) && _ && _) eqn:Hcond; [|left; reflexivity].
  destruct (findNewC_spec E s
              (match mCurrentBallot s with Some b => b | None => nullBallot end)
              newH cur nullBallot) as [Heq|(H1 & H2 & H3 & H4)].
  - left. exact Heq.
  - right. unfold confirmsCommit. repeat split; try assumption.
    + apply andb_true_iff in Hcond. destruct Hcond as [Hcond _].
      apply andb_true_iff in Hcond. destruct Hcond as [Hcond _].
      destruct (mCommit s); [discriminate Hcond|reflexivity].
    + apply in_rev. rewrite Hcur. apply in_or_app. right. exact H1.
Qed.

Lemma findExtendedInterval_found pred boundaries :
  fst (findExtendedInterval (0, 0) boundaries pred) <> 0 ->
  goodInterval pred boundaries (findExtendedInterval (0, 0) boundaries pred).
Proof.
  intros H.
  destruct (@findExtendedInterval_good pred boundaries boundaries (0, 0)
              (incl_refl _) (or_introl eq_refl)) as [H0|H0];
    [contradiction|exact H0].
Qed.

(** X12.  [attemptAcceptCommit] accepts a commit only on an interval of
    counters that has passed the vote: it answers false and changes nothing,
    or fails on an empty [h] in CONFIRM without a change, or it is
    [setAcceptCommit(c, h)] for [c = (lo, x)] and [h = (hi, x)], where [x] is
    the value of the hint, [0 < lo <= hi], both counters are commit
    boundaries of statements on record, federated voting accepts the commit
    of [x] on the interval, and in CONFIRM [x] is the value of the current
    [h] and [hi] is above its counter. *)
Theorem attemptAcceptCommit_guard :
  forall E pe hint s,
    attemptAcceptCommit E pe hint s = Ret false s
    \/ attemptAcceptCommit E pe hint s = Raise NullDereference s
    \/ exists ballot lo hi,
         value ballot = value (getWorkingBallot hint)
         /\ lo <> 0 /\ lo <= hi
         /\ In lo (getCommitBoundariesFromStatements ballot (mLatestEnvelopes s))
         /\ In hi (getCommitBoundariesFromStatements ballot (mLatestEnvelopes s))
         /\ federatedAccept E (votesToCommit ballot (lo, hi))
              (commitPredicate ballot (lo, hi)) (mLatestEnvelopes s) = true
         /\ (mPhase s = SCP_PHASE_CONFIRM ->
             exists h, mHighBallot s = Some h
                       /\ value ballot = value h /\ counter h < hi)
         /\ attemptAcceptCommit E pe hint s
            = setAcceptCommit E pe (mkBallot lo (value ballot))
                (mkBallot hi (value ballot)) s.
Proof.
  intros E pe hint s.
  remember (attemptAcceptCommit E pe hint s) as r eqn:Hr.
  unfold attemptAcceptCommit in Hr. unfold bind at 1 in Hr. unfold get at 1 in Hr.
  cbv beta iota zeta in Hr.
  destruct (negb (phaseIsPrepareOrConfirm s)); [left; exact Hr|].
  match type of Hr with
  | r = match ?o with Some _ => _ | None => _ end _ =>
      destruct o as [ballot|] eqn:Hballot; [|left; exact Hr]
  end.
  assert (Hvalue : value ballot = value (getWorkingBallot hint)).
  { unfold getWorkingBallot. destruct (pledges hint) as [p|c|e].
    - destruct (negb (p_nC p =? 0)); inversion Hballot; reflexivity.
    - inversion Hballot; reflexivity.
    - inversion Hballot; reflexivity. }
  clear Hballot.
  destruct (phase_eqb (mPhase s) SCP_PHASE_CONFIRM) eqn:Hconfirm.
  - assert (Hph : mPhase s = SCP_PHASE_CONFIRM)
      by (destruct (mPhase s); try discriminate Hconfirm; reflexivity).
    unfold bind at 1 in Hr. unfold bind at 1 in Hr.
    destruct (mHighBallot s) as [h|] eqn:Hh; cbn [deref ret throw] in Hr;
      [|right; left; exact Hr].
    destruct (areBallotsCompatible ballot h) eqn:Hcompat; cbn [negb] in Hr;
      [|left; exact Hr].
    destruct (getCommitBoundariesFromStatements ballot (mLatestEnvelopes s))
      as [|b0 bs] eqn:Hbounds; [left; exact Hr|].
    rewrite <- Hbounds in *.
    match type of Hr with
    | context [findExtendedInterval (0, 0) ?l ?p] =>
        pose proof (@findExtendedInterval_found p l) as Hgood;
        destruct (findExtendedInterval (0, 0) l p) as [lo hi] eqn:Hcand
    end.
    cbn [fst snd] in *.
    destruct (N.eqb_spec lo 0) as [H0|H0]; cbn [negb] in Hr; [left; exact Hr|].
    unfold bind at 1 in Hr. cbn [negb] in Hr. unfold bind at 1 in Hr.
    cbn [deref ret] in Hr.
    destruct (N.ltb_spec (counter h) hi) as [Hhi|Hhi]; [|left; exact Hr].
    destruct (Hgood H0) as (Hp & _ & Hle & Hlo & Hhiin). cbn [fst snd] in *.
    right. right. exists ballot, lo, hi.
    split; [exact Hvalue|]. split; [exact H0|]. split; [exact Hle|].
    split; [apply in_rev; exact Hlo|]. split; [apply in_rev; exact Hhiin|].
    split; [exact Hp|]. split; [|exact Hr].
    intros _. exists h. split; [reflexivity|]. split; [|exact Hhi].
    unfold areBallotsCompatible in Hcompat. apply value_eqb_eq. exact Hcompat.
  - assert (Hph : mPhase s <> SCP_PHASE_CONFIRM)
      by (intros H; rewrite H in Hconfirm; discriminate Hconfirm).
    unfold bind at 1 in Hr. cbn [ret] in Hr.
    destruct (getCommitBoundariesFromStatements ballot (mLatestEnvelopes s))
      as [|b0 bs] eqn:Hbounds; [left; exact Hr|].
    rewrite <- Hbounds in *.
    match type of Hr with
    | context [findExtendedInterval (0, 0) ?l ?p] =>
        pose proof (@findExtendedInterval_found p l) as Hgood;
        destruct (findExtendedInterval (0, 0) l p) as [lo hi] eqn:Hcand
    end.
    cbn [fst snd] in *.
    destruct (N.eqb_spec lo 0) as [H0|H0]; cbn [negb] in Hr; [left; exact Hr|].
    unfold bind at 1 in Hr. cbn [negb ret] in Hr.
    destruct (Hgood H0) as (Hp & _ & Hle & Hlo & Hhiin). cbn [fst snd] in *.
    right. right. exists ballot, lo, hi.
    split; [exact Hvalue|]. split; [exact H0|]. split; [exact Hle|].
    split; [apply in_rev; exact Hlo|]. split; [apply in_rev; exact Hhiin|].
    split; [exact Hp|]. split; [|exact Hr].
    intros H. contradiction.
Qed.

(** X13.  [attemptConfirmCommit] externalizes only what a quorum has
    accepted to commit, and only the value of [c]: it answers false and
    changes nothing, or it is [setConfirmCommit(c, h)] in CONFIRM for
    [c = (lo, x)] and [h = (hi, x)], where [x] is the value of the hint and
    of the current commit ballot, [0 < lo <= hi], both counters are commit
    boundaries of statements on record, and a quorum accepts the commit of
    [x] on the interval. *)
Theorem attemptConfirmCommit_guard :
  forall E pe hint s,
    attemptConfirmCommit E pe hint s = Ret false s
    \/ exists ballot lo hi oldC,
         mPhase s = SCP_PHASE_CONFIRM
         /\ mCommit s = Some oldC
         /\ value ballot = value oldC
         /\ value ballot = value (getWorkingBallot hint)
         /\ lo <> 0 /\ lo <= hi
         /\ In lo (getCommitBoundariesFromStatements ballot (mLatestEnvelopes s))
         /\ In hi (getCommitBoundariesFromStatements ballot (mLatestEnvelopes s))
         /\ federatedRatify E (commitPredicate ballot (lo, hi)) (mLatestEnvelopes s)
            = true
         /\ attemptConfirmCommit E pe hint s
            = setConfirmCommit E pe (mkBallot lo (value ballot))
                (mkBallot hi (value ballot)) s.
Proof.
  intros E pe hint s.
  remember (attemptConfirmCommit E pe hint s) as r eqn:Hr.
  unfold attemptConfirmCommit in Hr. unfold bind at 1 in Hr. unfold get at 1 in Hr.
  cbv beta iota zeta in Hr.
  destruct (phase_eqb (mPhase s) SCP_PHASE_CONFIRM) eqn:Hconfirm; cbn [negb] in Hr;
    [|left; exact Hr].
  assert (Hph : mPhase s = SCP_PHASE_CONFIRM)
    by (destruct (mPhase s); try discriminate Hconfirm; reflexivity).
  destruct (mHighBallot s) as [oldH|]; [|left; exact Hr].
  destruct (mCommit s) as [oldC|]; [|left; exact Hr].
  match type of Hr with
  | r = match ?o with Some _ => _ | None => _ end _ =>
      destruct o as [ballot|] eqn:Hballot; [|left; exact Hr]
  end.
  assert (Hvalue : value ballot = value (getWorkingBallot hint)).
  { unfold getWorkingBallot. destruct (pledges hint) as [p|c|e].
    - discriminate Hballot.
    - inversion Hballot; reflexivity.
    - inversion Hballot; reflexivity. }
  clear Hballot.
  destruct (areBallotsCompatible ballot oldC) eqn:Hcompat; cbn [negb] in Hr;
    [|left; exact Hr].
  match type of Hr with
  | context [findExtendedInterval (0, 0) ?l ?p] =>
      pose proof (@findExtendedInterval_found p l) as Hgood;
      destruct (findExtendedInterval (0, 0) l p) as [lo hi] eqn:Hcand
  end.
  cbn [fst snd] in *.
  destruct (N.eqb_spec lo 0) as [H0|H0]; cbn [negb] in Hr; [left; exact Hr|].
  destruct (Hgood H0) as (Hp & _ & Hle & Hlo & Hhiin). cbn [fst snd] in *.
  right. exists ballot, lo, hi, oldC.
  split; [exact Hph|]. split; [reflexivity|].
  split; [apply value_eqb_eq; exact Hcompat|].
  split; [exact Hvalue|]. split; [exact H0|]. split; [exact Hle|].
  split; [apply in_rev; exact Hlo|]. split; [apply in_rev; exact Hhiin|].
  split; [exact Hp|exact Hr].
Qed.

(** ** The record of statements and the calls on the driver *)

Lemma forward_refl o : forward o o.
Proof. destruct o; simpl; auto. Qed.

Lemma forward_trans a b c : forward a b -> forward b c -> forward a c.
Proof.
  unfold forward. destruct a as [x|], b as [y|], c as [z|]; try tauto.
  intros [->|H1] [->|H2]; auto. right. eapply isNewerStatement_trans; eassumption.
Qed.

Lemma Evolves_refl E s : Evolves E s s.
Proof.
  constructor; auto using forward_refl.
Qed.

Lemma pending_trans E a b c :
  forward (map_find (getLocalNodeID E) (mLatestEnvelopes a))
    (map_find (getLocalNodeID E) (mLatestEnvelopes b)) ->
  (mLastEnvelope b = mLastEnvelope a
   \/ exists m, mLastEnvelope b = Some m
        /\ forall w, map_find (getLocalNodeID E) (mLatestEnvelopes a) = Some w ->
                     isNewerStatement (getStatement w) (getStatement m) = true) ->
  (mLastEnvelope c = mLastEnvelope b
   \/ exists m, mLastEnvelope c = Some m
        /\ forall w, map_find (getLocalNodeID E) (mLatestEnvelopes b) = Some w ->
                     isNewerStatement (getStatement w) (getStatement m) = true) ->
  mLastEnvelope c = mLastEnvelope a
  \/ exists m, mLastEnvelope c = Some m
       /\ forall w, map_find (getLocalNodeID E) (mLatestEnvelopes a) = Some w ->
                    isNewerStatement (getStatement w) (getStatement m) = true.
Proof.
  intros Hf [H1|(m1 & H1 & N1)] [H2|(m2 & H2 & N2)].
  - left. congruence.
  - right. exists m2. split; [exact H2|]. intros w Hw.
    unfold forward in Hf. rewrite Hw in Hf.
    destruct (map_find (getLocalNodeID E) (mLatestEnvelopes b)) as [wb|];
      [|contradiction].
    destruct Hf as [->|Hf]; [apply N2; reflexivity|].
    eapply isNewerStatement_trans; [exact Hf|apply N2; reflexivity].
  - right. exists m1. split; [congruence|exact N1].
  - right. exists m2. split; [exact H2|]. intros w Hw.
    unfold forward in Hf. rewrite Hw in Hf.
    destruct (map_find (getLocalNodeID E) (mLatestEnvelopes b)) as [wb|];
      [|contradiction].
    destruct Hf as [->|Hf]; [apply N2; reflexivity|].
    eapply isNewerStatement_trans; [exact Hf|apply N2; reflexivity].
Qed.

Lemma Evolves_trans E a b c : Evolves E a b -> Evolves E b c -> Evolves E a c.
Proof.
  intros [p1 o1 w1 f1 n1 q1] [p2 o2 w2 f2 n2 q2]. constructor.
  - intros n Hn. rewrite (p2 n Hn). apply p1, Hn.
  - eapply forward_trans; eassumption.
  - auto.
  - intros H. destruct (f1 H) as (x & y & z). destruct (f2 x) as (x' & y' & z').
    repeat split; congruence.
  - intros Hp He. destruct (n1 Hp He) as [H|(Hb & cc & Hc & Hx)].
    + assert (Hdec : mPhase b = SCP_PHASE_EXTERNALIZE
                     \/ mPhase b <> SCP_PHASE_EXTERNALIZE)
        by (destruct (mPhase b); auto; right; discriminate).
      destruct Hdec as [Hpb|Hpb].
      * destruct (f2 Hpb) as (x & y & z). left. congruence.
      * apply n2; assumption.
    + destruct (f2 Hb) as (x & y & z). right. split; [exact x|].
      exists cc. split; congruence.
  - eapply pending_trans; eassumption.
Qed.

Lemma Returns_refl E s : Returns E s s.
Proof. split; [apply Evolves_refl|auto]. Qed.

Lemma Returns_trans E a b c : Returns E a b -> Returns E b c -> Returns E a c.
Proof.
  intros [H1 K1] [H2 K2]. split; [eapply Evolves_trans; eassumption|auto].
Qed.

Lemma Returns_Evolves E a b c : Returns E a b -> Evolves E b c -> Evolves E a c.
Proof. intros [H1 _] H2. eapply Evolves_trans; eassumption. Qed.

Lemma bump_extCalls b s :
  flat_map (fun c => match c with valueExternalized v => [v] | _ => [] end)
    (driverCalls (bumpResult b s))
  = flat_map (fun c => match c with valueExternalized v => [v] | _ => [] end)
      (driverCalls s).
Proof. bump_cases s. Qed.

(** The phase of [s] is known from a test the code has made. *)
Ltac phase_known :=
  unfold phaseIsPrepareOrConfirm in *;
  repeat match goal with
         | H : mPhase ?s = _ |- _ => rewrite H in *
         | H : context [mPhase ?s] |- _ =>
             lazymatch type of H with
             | mPhase s = _ => fail
             | mPhase s <> _ => fail
             | _ => destruct (mPhase s) eqn:?; cbn in H; try discriminate H
             end
         end.

Ltac ev_simpl :=
  unfold announced, ownOnly, emitted, extCalls in *;
  repeat progress (cbn; autorewrite with bump; rewrite ?bump_extCalls, ?bump_envelopes).

Ltac own_field :=
  let Hl := fresh "Hl" in
  let Hf := fresh "Hf" in
  repeat match goal with
         | H : mLastEnvelope ?s = _ |- _ => rewrite H in *
         end;
  intros [Hl Hf];
  split;
  [ first [exact Hl | exact I | split; reflexivity]
  | first [exact Hf | constructor; [exact Hl|exact Hf]] ].

Ltac ev_field :=
  ev_simpl;
  first
    [ solve [ intros; reflexivity | intros; assumption | apply forward_refl
            | left; reflexivity
            | intros; repeat split; first [reflexivity | assumption] ]
    | solve [ own_field ]
    | solve [ intros; left; assumption ]
    | solve [ intros; exfalso; phase_known; cbn in *; congruence ]
    | solve [ intros; phase_known; cbn in *;
              first [ congruence | discriminate | tauto
                    | repeat split; first [reflexivity | assumption | congruence] ] ] ].

Ltac ev_relate := constructor; ev_field.

Ltac rt_relate := split; [ev_relate | ev_field].

Ltac ev_leaf :=
  match goal with
  | Href : Returns ?E ?s0 _ |- Returns ?E ?s0 _ =>
      apply (Returns_trans Href); first [apply Returns_refl | rt_relate]
  | Href : Returns ?E ?s0 _ |- Evolves ?E ?s0 _ =>
      apply (Returns_Evolves Href); first [apply Evolves_refl | ev_relate]
  | |- True => exact I
  end.

Ltac ev_call L :=
  match goal with
  | Href : Returns ?E ?s0 _ |- wp _ ?scur _ _ _ =>
      let Hcur := fresh "Hcur" in
      assert (Hcur : Returns E s0 scur)
        by (apply (Returns_trans Href); first [apply Returns_refl | rt_relate]);
      eapply wp_mono;
      [ apply L
      | let a := fresh "r" in let s' := fresh "s" in let Hn := fresh "Hn" in
        intros a s' Hn; pose proof (Returns_trans Hcur Hn); clear Href Hcur Hn;
        match goal with H : Returns E s0 s' |- _ => rename H into Href end
      | let Hn := fresh "Hn" in
        intros ? ? Hn; exact (Returns_Evolves Hcur Hn)
      | intros; exact I ]
  end; cbv beta.

Ltac ev_bump :=
  match goal with
  | |- wp (bumpToBallot _ _ _) _ _ _ _ => apply bumpToBallot_wp; [intros ?|]
  | |- wp (updateCurrentIfNeeded _ _) _ _ _ _ =>
      apply updateCurrentIfNeeded_wp; [intros ?|intros ?|intros ? ? ?]
  end; cbv beta.

Lemma sendLatestEnvelope_tracks E : tracks E sendLatestEnvelope.
Proof.
  intros s. pose proof (Returns_refl E s) as Href.
  unfold sendLatestEnvelope. repeat wp_step. all: try ev_leaf.
Qed.

Lemma recordEnvelope_tracks E e :
  nodeID (getStatement e) = getLocalNodeID E ->
  forall s,
    forward (map_find (getLocalNodeID E) (mLatestEnvelopes s)) (Some e) ->
    wp (recordEnvelope e) s (fun _ s' => Returns E s s') (fun _ s' => Evolves E s s')
      (fun _ => True).
Proof.
  intros He s Hf. pose proof (Returns_refl E s) as Href.
  unfold recordEnvelope. repeat wp_step.
  split; [constructor|]; ev_simpl; rewrite ?He.
  - intros n Hn. apply map_find_set_other, Hn.
  - rewrite map_find_set_same. exact Hf.
  - exact (fun H => H).
  - auto.
  - auto.
  - left. reflexivity.
  - exact (fun H => H).
Qed.

Lemma checkHeardFromQuorum_tracks E : tracks E (checkHeardFromQuorum E).
Proof.
  intros s. pose proof (Returns_refl E s) as Href.
  unfold checkHeardFromQuorum, startBallotProtocolTimer, stopBallotProtocolTimer.
  repeat wp_step. all: try ev_leaf.
Qed.

Lemma updateCurrentValue_tracks E ballot : tracks E (updateCurrentValue E ballot).
Proof.
  intros s. pose proof (Returns_refl E s) as Href.
  unfold updateCurrentValue.
  repeat first [wp_step | ev_bump]. all: try ev_leaf.
Qed.

Lemma setPrepared_tracks E ballot : tracks E (setPrepared ballot).
Proof.
  intros s. pose proof (Returns_refl E s) as Href.
  unfold setPrepared. repeat wp_step. all: try ev_leaf.
Qed.

(** The phase of the state at hand is not EXTERNALIZE, or is the one asked
    for. *)
Ltac ev_phase :=
  ev_simpl; try assumption;
  solve [ intros; phase_known; cbn in *; first [congruence | discriminate | reflexivity] ].

Section Tracking.

Variable E : Env.
Variable pe : SCPEnvelopeWrapper -> bool -> M EnvelopeState.
Hypothesis pe_tracks :
  forall e self, nodeID (getStatement e) = getLocalNodeID E -> tracksOwn E e (pe e self).

(** The statement that [emitCurrentStateStatement] has had processed
    becomes the one waiting to be broadcast. *)
Lemma Returns_pending s0 s w :
  Returns E s0 s ->
  ownStatement E (getStatement w) ->
  (forall o, map_find (getLocalNodeID E) (mLatestEnvelopes s0) = Some o ->
             isNewerStatement (getStatement o) (getStatement w) = true) ->
  Returns E s0 (set_mLastEnvelope (Some w) s).
Proof.
  intros [[p o ow f n q] Ha] Hw Hnew. split; [constructor|]; ev_simpl.
  - exact p.
  - exact o.
  - intros Hown. destruct (ow Hown) as [_ Hem]. split; [exact Hw|exact Hem].
  - exact f.
  - exact n.
  - right. exists w. split; [reflexivity|exact Hnew].
  - exact Ha.
Qed.

Lemma emitCurrentStateStatement_tracks : tracks E (emitCurrentStateStatement E pe).
Proof.
  intros s. pose proof (Returns_refl E s) as Href.
  unfold emitCurrentStateStatement, wrapEnvelope.
  repeat first
    [ match goal with
      | Href : Returns E ?s0 _ |- wp (pe ?e ?self) ?scur _ _ _ =>
          let Hcur := fresh "Hcur" in
          assert (Hcur : Returns E s0 scur)
            by (apply (Returns_trans Href); first [apply Returns_refl | rt_relate]);
          eapply wp_mono;
          [ apply (@pe_tracks e self eq_refl)
          | let a := fresh "r" in let s' := fresh "s" in let Hn := fresh "Hn" in
            let Hfr := fresh "Hfresh" in
            intros a s' [Hn Hfr]; pose proof (Returns_trans Hcur Hn);
            clear Href Hcur Hn;
            match goal with H : Returns E s0 s' |- _ => rename H into Href end
          | let Hn := fresh "Hn" in
            intros ? ? Hn; exact (Returns_Evolves Hcur Hn)
          | intros; exact I ]; cbv beta
      | Href : Returns E ?s0 ?s2, Hfresh : VALID = VALID -> fresh ?w _
        |- wp (bind (modify (set_mLastEnvelope (Some ?w))) _) ?s2 _ _ _ =>
          apply wp_bind, wp_modify;
          let Hnew := fresh "Hnew" in
          assert (Hnew : Returns E s0 (set_mLastEnvelope (Some w) s2));
          [ apply Returns_pending; [exact Href|split; reflexivity|];
            specialize (Hfresh eq_refl); unfold fresh in Hfresh; cbn in Hfresh;
            intros o Ho; rewrite Ho in Hfresh; exact Hfresh
          | clear Href; rename Hnew into Href ]
      end
    | wp_step
    | ev_call (@sendLatestEnvelope_tracks E) ].
  all: try ev_leaf.
Qed.

Ltac ev_go tac :=
  repeat first
    [ wp_step | ev_bump
    | ev_call emitCurrentStateStatement_tracks
    | tac ];
  try ev_leaf.

Lemma bumpState_tracks v n : tracks E (bumpState E pe v n).
Proof.
  intros s. pose proof (Returns_refl E s) as Href. unfold bumpState.
  ev_go ltac:(first [ ev_call (@updateCurrentValue_tracks E)
                    | ev_call (@checkHeardFromQuorum_tracks E) ]).
Qed.

Lemma bumpStateForce_tracks v f : tracks E (bumpStateForce E pe v f).
Proof.
  intros s. pose proof (Returns_refl E s) as Href. unfold bumpStateForce.
  ev_go ltac:(ev_call bumpState_tracks).
Qed.

Lemma abandonBallot_tracks n : tracks E (abandonBallot E pe n).
Proof.
  intros s. pose proof (Returns_refl E s) as Href. unfold abandonBallot.
  ev_go ltac:(first [ev_call bumpState_tracks | ev_call bumpStateForce_tracks]).
Qed.

Lemma ballotProtocolTimerExpired_tracks : tracks E (ballotProtocolTimerExpired E pe).
Proof.
  intros s. pose proof (Returns_refl E s) as Href. unfold ballotProtocolTimerExpired.
  ev_go ltac:(ev_call abandonBallot_tracks).
Qed.

Lemma setAcceptPrepared_tracks b s :
  mPhase s <> SCP_PHASE_EXTERNALIZE ->
  wp (setAcceptPrepared E pe b) s (fun _ s' => Returns E s s')
    (fun _ s' => Evolves E s s') (fun _ => True).
Proof.
  intros Hph. pose proof (Returns_refl E s) as Href. unfold setAcceptPrepared, setPrepared.
  ev_go fail.
Qed.

(** A call of a function that asks for the phase of the state it is called
    in. *)
Ltac ev_call_pre L :=
  match goal with
  | Href : Returns ?E ?s0 _ |- wp _ ?scur _ _ _ =>
      let Hcur := fresh "Hcur" in
      assert (Hcur : Returns E s0 scur)
        by (apply (Returns_trans Href); first [apply Returns_refl | rt_relate]);
      eapply wp_mono;
      [ apply L; ev_phase
      | let a := fresh "r" in let s' := fresh "s" in let Hn := fresh "Hn" in
        intros a s' Hn; pose proof (Returns_trans Hcur Hn); clear Href Hcur Hn;
        match goal with H : Returns E s0 s' |- _ => rename H into Href end
      | let Hn := fresh "Hn" in
        intros ? ? Hn; exact (Returns_Evolves Hcur Hn)
      | intros; exact I ]
  end; cbv beta.

Lemma attemptAcceptPrepared_tracks hint : tracks E (attemptAcceptPrepared E pe hint).
Proof.
  intros s. pose proof (Returns_refl E s) as Href. unfold attemptAcceptPrepared.
  ev_go ltac:(first [ ev_call_pre setAcceptPrepared_tracks
                    | apply wp_readOnly;
                      [apply readOnly_acceptPreparedSearch|intros ?|intros ?] ]).
Qed.

Lemma setConfirmPrepared_tracks newC newH s :
  mPhase s <> SCP_PHASE_EXTERNALIZE ->
  wp (setConfirmPrepared E pe newC newH) s (fun _ s' => Returns E s s')
    (fun _ s' => Evolves E s s') (fun _ => True).
Proof.
  intros Hph. pose proof (Returns_refl E s) as Href. unfold setConfirmPrepared.
  ev_go fail.
Qed.

Lemma attemptConfirmPrepared_tracks hint : tracks E (attemptConfirmPrepared E pe hint).
Proof.
  intros s. pose proof (Returns_refl E s) as Href. unfold attemptConfirmPrepared.
  ev_go ltac:(ev_call_pre setConfirmPrepared_tracks).
Qed.

Lemma setAcceptCommit_tracks c h s :
  mPhase s <> SCP_PHASE_EXTERNALIZE ->
  wp (setAcceptCommit E pe c h) s (fun _ s' => Returns E s s')
    (fun _ s' => Evolves E s s') (fun _ => True).
Proof.
  intros Hph. pose proof (Returns_refl E s) as Href. unfold setAcceptCommit.
  ev_go fail.
Qed.

Lemma attemptAcceptCommit_tracks hint : tracks E (attemptAcceptCommit E pe hint).
Proof.
  intros s. pose proof (Returns_refl E s) as Href. unfold attemptAcceptCommit.
  ev_go ltac:(ev_call_pre setAcceptCommit_tracks).
Qed.

(** The end of [setConfirmCommit], from the assignment of the phase on. *)
Lemma setConfirmCommit_end s s1 :
  Evolves E s s1 ->
  mPhase s <> SCP_PHASE_EXTERNALIZE ->
  mPhase s1 = SCP_PHASE_EXTERNALIZE ->
  extCalls s1 = extCalls s ->
  wp (emitCurrentStateStatement E pe ;;
      modify (call stopNomination) ;;
      s <- get ;;
      cm <- deref (mCommit s) ;;
      modify (call (valueExternalized (value cm))) ;;
      ret true) s1
    (fun _ s' => Returns E s s') (fun _ s' => Evolves E s s') (fun _ => True).
Proof.
  intros Hs Hph Hext Hcalls. apply wp_bind.
  eapply wp_mono; [apply emitCurrentStateStatement_tracks| | |auto].
  - intros u s2 [Hn _]. cbv beta.
    destruct (ev_final Hn Hext) as (Hph2 & Hc2 & Hx2).
    assert (Hs2 : Evolves E s (call stopNomination s2)).
    { apply (Evolves_trans Hs). apply (Evolves_trans Hn). ev_relate. }
    repeat wp_step.
    + split.
      * destruct Hs2 as [p o w f n q]. constructor; try assumption.
        -- intros Hx. contradiction.
        -- intros _ He. right. split; [exact Hph2|].
           match goal with
           | H : mCommit _ = Some ?cm |- _ => exists cm; split; [exact H|]
           end.
           unfold extCalls in *. cbn. rewrite Hx2, Hcalls, He. reflexivity.
      * intros _ _. unfold extCalls. cbn. discriminate.
    + exact Hs2.
  - intros x s2 Hn. exact (Evolves_trans Hs Hn).
Qed.

Lemma setConfirmCommit_tracks c h s :
  mPhase s = SCP_PHASE_CONFIRM ->
  wp (setConfirmCommit E pe c h) s (fun _ s' => Returns E s s')
    (fun _ s' => Evolves E s s') (fun _ => True).
Proof.
  intros Hph. unfold setConfirmCommit.
  apply wp_bind, wp_modify. apply wp_bind, wp_modify. apply wp_bind.
  ev_bump.
  - ev_relate.
  - apply wp_bind, wp_modify. apply setConfirmCommit_end.
    + ev_relate.
    + congruence.
    + reflexivity.
    + ev_simpl. reflexivity.
  - apply wp_bind, wp_modify. apply setConfirmCommit_end.
    + ev_relate.
    + congruence.
    + reflexivity.
    + ev_simpl. reflexivity.
Qed.

Lemma attemptConfirmCommit_tracks hint : tracks E (attemptConfirmCommit E pe hint).
Proof.
  intros s. pose proof (Returns_refl E s) as Href. unfold attemptConfirmCommit.
  ev_go ltac:(ev_call_pre setConfirmCommit_tracks).
Qed.

Lemma attemptBump_tracks : tracks E (attemptBump E pe).
Proof.
  intros s. pose proof (Returns_refl E s) as Href. unfold attemptBump.
  ev_go ltac:(ev_call abandonBallot_tracks).
Qed.

Lemma bumpLoop_tracks fuel didWork : tracks E (bumpLoop E pe fuel didWork).
Proof.
  revert didWork. induction fuel as [|fuel IH]; intros didWork s.
  - exact I.
  - pose proof (Returns_refl E s) as Href. simpl.
    ev_go ltac:(first [ev_call attemptBump_tracks | ev_call IH]).
Qed.

Lemma advanceSlot_tracks loopFuel hint : tracks E (advanceSlot E pe loopFuel hint).
Proof.
  intros s. pose proof (Returns_refl E s) as Href. unfold advanceSlot.
  ev_go ltac:(first [ ev_call attemptAcceptPrepared_tracks
                    | ev_call attemptConfirmPrepared_tracks
                    | ev_call attemptAcceptCommit_tracks
                    | ev_call attemptConfirmCommit_tracks
                    | ev_call bumpLoop_tracks
                    | ev_call (@checkHeardFromQuorum_tracks E)
                    | ev_call (@sendLatestEnvelope_tracks E) ]).
Qed.

Lemma processEnvelopeBody_returns loopFuel e self :
  nodeID (getStatement e) = getLocalNodeID E ->
  tracks E (processEnvelopeBody E pe loopFuel e self).
Proof.
  intros He s. pose proof (Returns_refl E s) as Href.
  unfold processEnvelopeBody, isNewerStatementFrom.
  ev_go ltac:(first [ ev_call (@recordEnvelope_tracks E e He)
                    | ev_call advanceSlot_tracks ]).
  all: ev_simpl; rewrite <- He;
    repeat match goal with
           | H : map_find _ _ = _ |- _ => rewrite H
           end; cbn;
    try exact I;
    match goal with
    | H : negb _ = false |- _ => apply negb_false_iff in H; right; exact H
    end.
Qed.

Lemma processEnvelopeBody_fresh loopFuel e self s :
  wp (processEnvelopeBody E pe loopFuel e self) s
    (fun r _ => r = VALID -> fresh e s) (fun _ _ => True) (fun _ => True).
Proof.
  unfold processEnvelopeBody, isNewerStatementFrom.
  repeat first
    [ match goal with
      | |- wp (bind (recordEnvelope _) _) _ _ _ _ =>
          apply wp_bind; eapply wp_mono; [apply wp_True| |auto|auto]; intros ? ? _;
          cbv beta
      | |- wp (bind (advanceSlot _ _ _ _) _) _ _ _ _ =>
          apply wp_bind; eapply wp_mono; [apply wp_True| |auto|auto]; intros ? ? _;
          cbv beta
      end
    | wp_step ].
  all: try exact I.
  all: try (intros Habs; discriminate Habs).
  all: intros _; unfold fresh;
    match goal with
    | H : map_find _ _ = _ |- _ => rewrite H
    end;
    first [exact I | apply negb_false_iff; assumption].
Qed.

Lemma processEnvelopeBody_tracks loopFuel e self :
  nodeID (getStatement e) = getLocalNodeID E ->
  tracksOwn E e (processEnvelopeBody E pe loopFuel e self).
Proof.
  intros He s.
  eapply wp_mono;
    [ apply wp_conj;
      [ apply (@processEnvelopeBody_returns loopFuel e self He s)
      | apply (@processEnvelopeBody_fresh loopFuel e self s) ]
    | intros r s' H; exact H
    | intros x s' [H _]; exact H
    | auto ].
Qed.

End Tracking.

Lemma processEnvelope_tracks E depth loopFuel :
  forall e self,
    nodeID (getStatement e) = getLocalNodeID E ->
    tracksOwn E e (processEnvelope E depth loopFuel e self).
Proof.
  induction depth as [|depth IH]; intros e self He; rewrite processEnvelope_eq;
    apply processEnvelopeBody_tracks; try exact He.
  - intros e' self' _ s. exact I.
  - exact IH.
Qed.

Lemma slotCallback_tracks E depth loopFuel :
  forall e self,
    nodeID (getStatement e) = getLocalNodeID E ->
    tracksOwn E e (slotCallback E depth loopFuel e self).
Proof.
  destruct depth as [|depth]; intros e self He s.
  - exact I.
  - apply processEnvelope_tracks, He.
Qed.

(** [processEnvelope] answers INVALID and changes nothing, or takes the
    envelope, which is fresh, and goes on from there. *)
Lemma processEnvelope_taken E depth loopFuel e self s :
  wp (processEnvelope E depth loopFuel e self) s
    (fun r s' =>
       (r = INVALID /\ s' = s)
       \/ (r = VALID /\ fresh e s /\ exists v, Returns E (taken e v s) s'))
    (fun _ s' => s' = s \/ (fresh e s /\ exists v, Evolves E (taken e v s) s'))
    (fun _ => True).
Proof.
  rewrite processEnvelope_eq.
  unfold processEnvelopeBody, isNewerStatementFrom, recordEnvelope.
  repeat first
    [ match goal with
      | |- wp (bind (advanceSlot _ _ _ _) _) ?scur _ _ _ =>
          apply wp_bind; eapply wp_mono;
          [ apply (@advanceSlot_tracks E _ (slotCallback_tracks E depth loopFuel))
          | intros ? ? ? | intros ? ? ? | auto ]; cbv beta
      end
    | wp_step ].
  all: auto.
  all: assert (Hfresh : fresh e s)
    by (unfold fresh;
        match goal with
        | H : map_find _ _ = _ |- _ => rewrite H
        end;
        first [exact I | apply negb_false_iff; assumption]).
  all: right; repeat (split; [first [reflexivity | exact Hfresh]|]);
    try (split; [exact Hfresh|]).
  all: first
    [ exists true; unfold taken, recorded; cbn;
      first [assumption | apply Returns_refl]
    | exists false; unfold taken, recorded; cbn; assumption ].
Qed.

Lemma onRecord_refl s : onRecord s s.
Proof. unfold onRecord. repeat split; auto using forward_refl. Qed.

Lemma onRecord_taken e v s : fresh e s -> onRecord s (taken e v s).
Proof.
  intros Hf. unfold onRecord, taken, recorded, extCalls, emitted.
  destruct v; cbn; repeat split; try reflexivity.
  all: intros n; destruct (N.eq_dec n (nodeID (getStatement e))) as [->|Hn];
    [ rewrite map_find_set_same; unfold fresh in Hf;
      destruct (map_find (nodeID (getStatement e)) (mLatestEnvelopes s));
      [right; exact Hf|exact I]
    | rewrite map_find_set_other by exact Hn; apply forward_refl ].
Qed.

(** Every input is handled as a member function handles its work, from the
    state the input is taken in. *)
Lemma handle_tracks E depth loopFuel i s :
  wp (handle E depth loopFuel i) s
    (fun _ s' => exists s1, onRecord s s1 /\ Returns E s1 s')
    (fun _ s' => exists s1, onRecord s s1 /\ Evolves E s1 s')
    (fun _ => True).
Proof.
  pose proof (processEnvelope_tracks E depth loopFuel) as Hpe.
  assert (Hsame : forall A (m : M A), tracks E m ->
             wp m s (fun _ s' => exists s1, onRecord s s1 /\ Returns E s1 s')
               (fun _ s' => exists s1, onRecord s s1 /\ Evolves E s1 s')
               (fun _ => True)).
  { intros A m Hm. eapply wp_mono; [apply Hm| | |auto].
    - intros a s' H. exists s. split; [apply onRecord_refl|exact H].
    - intros x s' H. exists s. split; [apply onRecord_refl|exact H]. }
  destruct i; unfold handle, runBumpState, runAbandonBallot,
    runBallotProtocolTimerExpired.
  - apply wp_bind. eapply wp_mono; [apply processEnvelope_taken| | |auto].
    + intros r s' [[_ ->]|(_ & Hf & v & H)]; apply wp_ret.
      * exists s. split; [apply onRecord_refl|apply Returns_refl].
      * exists (taken e v s). split; [apply onRecord_taken, Hf|exact H].
    + intros x s' [->|(Hf & v & H)].
      * exists s. split; [apply onRecord_refl|apply Evolves_refl].
      * exists (taken e v s). split; [apply onRecord_taken, Hf|exact H].
  - apply wp_bind. eapply wp_mono;
      [apply Hsame, (@bumpStateForce_tracks E _ Hpe)| |auto|auto].
    intros r s' H. apply wp_ret. exact H.
  - apply wp_bind. eapply wp_mono;
      [apply Hsame, (@abandonBallot_tracks E _ Hpe)| |auto|auto].
    intros r s' H. apply wp_ret. exact H.
  - apply Hsame, (@ballotProtocolTimerExpired_tracks E _ Hpe).
Qed.

(** X20.  A VALID answer to a peer's envelope means that the envelope is on
    record: afterwards [getLatestMessage] answers it for its sender, and
    what it answered before for every other peer. *)
Theorem processEnvelope_valid_is_on_record :
  forall E depth loopFuel e self s s',
    nodeID (getStatement e) <> getLocalNodeID E ->
    processEnvelope E depth loopFuel e self s = Ret VALID s' ->
    getLatestMessage (nodeID (getStatement e)) s' = Some (getEnvelope e)
    /\ forall n,
         n <> getLocalNodeID E -> n <> nodeID (getStatement e) ->
         getLatestMessage n s' = getLatestMessage n s.
Proof.
  intros E depth loopFuel e self s s' Hpeer Hret.
  pose proof (processEnvelope_taken E depth loopFuel e self s) as H.
  unfold wp in H. rewrite Hret in H.
  destruct H as [[H _]|(_ & _ & v & [H _])]; [discriminate H|].
  unfold getLatestMessage. split.
  - rewrite (ev_peers H Hpeer). unfold taken, recorded. destruct v; cbn;
      rewrite map_find_set_same; reflexivity.
  - intros n Hn Hne. rewrite (ev_peers H Hn). unfold taken, recorded.
    destruct v; cbn; rewrite map_find_set_other by exact Hne; reflexivity.
Qed.

Lemma processEnvelope_valid_witness :
  getLatestMessage 2
    (stateOf (processEnvelope (network false None allValid) 50 50 (confirmV 2) false
                atTwoW))
  = Some (getEnvelope (confirmV 2))
  /\ forall n,
       n <> getLocalNodeID (network false None allValid) ->
       n <> nodeID (getStatement (confirmV 2)) ->
       getLatestMessage n
         (stateOf (processEnvelope (network false None allValid) 50 50 (confirmV 2)
                     false atTwoW))
       = getLatestMessage n atTwoW.
Proof.
  apply (@processEnvelope_valid_is_on_record (network false None allValid) 50 50
           (confirmV 2) false atTwoW).
  - vm_compute. discriminate.
  - vm_compute. reflexivity.
Defined.

(** X21.  The record of latest statements only moves forward: whatever
    input the slot hands over, and whether it is handled to the end or an
    exception stops it, no node's entry in [mLatestEnvelopes] is removed, and
    an entry that changes is replaced by a statement that [isNewerStatement]
    finds newer. *)
Theorem latest_statements_move_forward :
  forall E depth loopFuel i s,
    match handle E depth loopFuel i s with
    | Ret _ s' | Raise _ s' =>
        forall n old,
          map_find n (mLatestEnvelopes s) = Some old ->
          exists new,
            map_find n (mLatestEnvelopes s') = Some new
            /\ (new = old
                \/ isNewerStatement (getStatement old) (getStatement new) = true)
    | OutOfFuel _ => True
    end.
Proof.
  intros E depth loopFuel i s.
  pose proof (handle_tracks E depth loopFuel i s) as H. unfold wp in H.
  assert (Hgen : forall s', (exists s1, onRecord s s1 /\ Evolves E s1 s') ->
             forall n old,
               map_find n (mLatestEnvelopes s) = Some old ->
               exists new,
                 map_find n (mLatestEnvelopes s') = Some new
                 /\ (new = old
                     \/ isNewerStatement (getStatement old) (getStatement new) = true)).
  { intros s' (s1 & (_ & _ & _ & _ & _ & Hrec) & Hev) n old Hold.
    assert (Hf : forward (Some old) (map_find n (mLatestEnvelopes s'))).
    { rewrite <- Hold. eapply forward_trans; [apply Hrec|].
      destruct (N.eq_dec n (getLocalNodeID E)) as [->|Hn].
      - apply (ev_own Hev).
      - rewrite (ev_peers Hev Hn). apply forward_refl. }
    simpl in Hf. destruct (map_find n (mLatestEnvelopes s')) as [new|]; [|contradiction].
    exists new. split; [reflexivity|exact Hf]. }
  destruct (handle E depth loopFuel i s) as [u s'|x s'|k]; [| |exact I].
  - apply Hgen. destruct H as (s1 & Hr & [He _]). exists s1. split; assumption.
  - apply Hgen, H.
Qed.

Lemma onRecord_notExternalized s s1 :
  onRecord s s1 -> notExternalized s -> notExternalized s1.
Proof.
  intros (Hp & _ & Hx & _) [H1 H2]. split; congruence.
Qed.

Lemma handleAll_externalizes E depth loopFuel inputs :
  forall s,
    notExternalized s \/ externalizedOnce s ->
    wp (handleAll E depth loopFuel inputs) s
      (fun _ s' => notExternalized s' \/ externalizedOnce s')
      (fun _ s' => extCalls s' = [] \/ externalizedOnce s')
      (fun _ => True).
Proof.
  induction inputs as [|i rest IH]; intros s Hs; simpl.
  - apply wp_ret. exact Hs.
  - apply wp_bind. eapply wp_mono; [apply handle_tracks| | |auto].
    + intros u s' (s1 & Hr & [Hev Hann]). apply IH.
      destruct Hr as (Hp & Hc & Hx & _).
      destruct Hs as [[Hph He]|(Hph & c & Hc' & He)].
      * destruct (ev_once Hev) as [Hnone|Hone]; [congruence|congruence| |].
        -- left. split; [|exact Hnone]. intros Hext.
           apply Hann in Hext; [contradiction|].
           intros Hext1. congruence.
        -- right. exact Hone.
      * right. destruct (ev_final Hev) as (H1 & H2 & H3); [congruence|].
        split; [exact H1|]. exists c. split; congruence.
    + intros x s' (s1 & Hr & Hev).
      destruct Hr as (Hp & Hc & Hx & _).
      destruct Hs as [[Hph He]|(Hph & c & Hc' & He)].
      * destruct (ev_once Hev) as [Hnone|Hone]; [congruence|congruence| |].
        -- left. exact Hnone.
        -- right. exact Hone.
      * right. destruct (ev_final Hev) as (H1 & H2 & H3); [congruence|].
        split; [exact H1|]. exists c. split; congruence.
Qed.

(** X22.  The driver is told that the slot has externalized at most once,
    and then the value of the commit ballot [c].  Over any sequence of
    inputs to a slot that has not externalized: as long as the inputs return,
    either the phase is not EXTERNALIZE and [valueExternalized] has not been
    called, or the phase is EXTERNALIZE and it has been called exactly once,
    with the value of [c]; when an input throws, it has not been called at
    all or exactly once with the value of [c]. *)
Theorem valueExternalized_at_most_once :
  forall E depth loopFuel inputs s,
    mPhase s <> SCP_PHASE_EXTERNALIZE ->
    extCalls s = [] ->
    match handleAll E depth loopFuel inputs s with
    | Ret _ s' => notExternalized s' \/ externalizedOnce s'
    | Raise _ s' => extCalls s' = [] \/ externalizedOnce s'
    | OutOfFuel _ => True
    end.
Proof.
  intros E depth loopFuel inputs s Hph He.
  apply (@handleAll_externalizes E depth loopFuel inputs s).
  left. split; assumption.
Qed.

Lemma valueExternalized_witness :
  match handleAll (network false None allValid) 50 50 runToExternalize initialState with
  | Ret _ s' => notExternalized s' \/ externalizedOnce s'
  | Raise _ s' => extCalls s' = [] \/ externalizedOnce s'
  | OutOfFuel _ => True
  end.
Proof.
  apply (@valueExternalized_at_most_once (network false None allValid) 50 50
           runToExternalize initialState).
  - vm_compute. discriminate.
  - vm_compute. reflexivity.
Defined.

Lemma handleAll_ownOnly E depth loopFuel inputs :
  forall s,
    ownOnly E s ->
    wp (handleAll E depth loopFuel inputs) s
      (fun _ s' => ownOnly E s') (fun _ s' => ownOnly E s') (fun _ => True).
Proof.
  assert (Hrec : forall s s1, onRecord s s1 -> ownOnly E s -> ownOnly E s1).
  { intros s s1 (_ & _ & _ & Hl & Hem & _) [H1 H2]. unfold ownOnly.
    rewrite Hl, Hem. split; assumption. }
  induction inputs as [|i rest IH]; intros s Hs; simpl.
  - apply wp_ret. exact Hs.
  - apply wp_bind. eapply wp_mono; [apply handle_tracks| | |auto].
    + intros u s' (s1 & Hr & [Hev _]). apply IH.
      apply (ev_ownOnly Hev), (Hrec _ _ Hr), Hs.
    + intros x s' (s1 & Hr & Hev).
      apply (ev_ownOnly Hev), (Hrec _ _ Hr), Hs.
Qed.

(** X23.  The node broadcasts its own statements only.  When the envelope
    waiting to be broadcast and the envelopes broadcast so far are statements
    of the local node for this slot, as at the start, they still are after
    any sequence of inputs, handled to the end or stopped by an exception. *)
Theorem only_own_statements_are_broadcast :
  forall E depth loopFuel inputs s,
    ownOnly E s ->
    match handleAll E depth loopFuel inputs s with
    | Ret _ s' | Raise _ s' =>
        Forall (fun env => ownStatement E (statement env)) (emitted s')
    | OutOfFuel _ => True
    end.
Proof.
  intros E depth loopFuel inputs s Hs.
  pose proof (@handleAll_ownOnly E depth loopFuel inputs s Hs) as H.
  unfold wp in H.
  destruct (handleAll E depth loopFuel inputs s); [apply H|apply H|exact I].
Qed.

Lemma only_own_statements_witness :
  match handleAll (network false None allValid) 50 50 runToExternalize initialState with
  | Ret _ s' | Raise _ s' =>
      Forall (fun env => ownStatement (network false None allValid) (statement env))
        (emitted s')
  | OutOfFuel _ => True
  end.
Proof.
  apply (@only_own_statements_are_broadcast (network false None allValid) 50 50
           runToExternalize initialState).
  vm_compute. split; [exact I|constructor].
Defined.

(** ** C8: one broadcast for one input *)

(** *** A step that does no work leaves the waiting envelope alone *)

Ltac q_leaf :=
  unfold quiet;
  let Hq := fresh "Hq" in
  intros Hq;
  first
    [ discriminate Hq
    | repeat progress (cbn; autorewrite with bump); first [reflexivity | congruence] ].

Ltac q_skip :=
  match goal with
  | |- wp (bind (emitCurrentStateStatement _ _) _) _ _ _ _ =>
      apply wp_bind; eapply wp_mono;
      [ apply wp_True | intros ? ? _ | intros; exact I | intros; exact I ]
  | |- wp (emitCurrentStateStatement _ _) _ _ _ _ =>
      eapply wp_mono;
      [ apply wp_True | intros ? ? _ | intros; exact I | intros; exact I ]
  | |- wp (bind (checkHeardFromQuorum _) _) _ _ _ _ =>
      apply wp_bind; eapply wp_mono;
      [ apply wp_True | intros ? ? _ | intros; exact I | intros; exact I ]
  | |- wp (checkHeardFromQuorum _) _ _ _ _ =>
      eapply wp_mono;
      [ apply wp_True | intros ? ? _ | intros; exact I | intros; exact I ]
  end; cbv beta.

Ltac q_go tac :=
  repeat first [ q_skip | tac | ev_bump | wp_step ];
  try exact I; try q_leaf.

Section Quiet.

Variable E : Env.
Variable pe : SCPEnvelopeWrapper -> bool -> M EnvelopeState.

Lemma updateCurrentValue_exact ballot s F :
  wp (updateCurrentValue E ballot) s
    (fun r s' => if r then s' = bumpResult ballot s else s' = s)
    (fun _ s' => s' = s \/ s' = bumpResult ballot s) F.
Proof.
  unfold updateCurrentValue.
  repeat first [wp_step | apply bumpToBallot_wp; [intros ?|]]; auto.
Qed.

Lemma bumpState_quiet v n s :
  wp (bumpState E pe v n) s (quiet s) (fun _ _ => True) (fun _ => True).
Proof.
  unfold bumpState. apply wp_bind, wp_get. cbv beta.
  destruct (negb (phaseIsPrepareOrConfirm s)); [apply wp_ret; q_leaf|].
  cbv zeta. apply wp_bind.
  eapply wp_mono; [apply updateCurrentValue_exact with (F := fun _ => True)| |auto|auto].
  intros [|] s1 Hs1; cbv beta in *; subst s1.
  - q_go fail.
  - q_go fail.
Qed.

Lemma bumpStateForce_quiet v f s :
  wp (bumpStateForce E pe v f) s (quiet s) (fun _ _ => True) (fun _ => True).
Proof.
  unfold bumpStateForce. q_go ltac:(apply bumpState_quiet).
Qed.

Lemma abandonBallot_quiet n s :
  wp (abandonBallot E pe n) s (quiet s) (fun _ _ => True) (fun _ => True).
Proof.
  unfold abandonBallot.
  q_go ltac:(first [apply bumpState_quiet | apply bumpStateForce_quiet]).
Qed.

Lemma attemptBump_quiet s :
  wp (attemptBump E pe) s (quiet s) (fun _ _ => True) (fun _ => True).
Proof.
  unfold attemptBump. q_go ltac:(apply abandonBallot_quiet).
Qed.

Lemma bumpLoop_quiet fuel :
  forall didWork s,
    wp (bumpLoop E pe fuel didWork) s
      (fun r s' => r = false -> didWork = false /\ mLastEnvelope s' = mLastEnvelope s)
      (fun _ _ => True) (fun _ => True).
Proof.
  induction fuel as [|fuel IH]; intros didWork s; [exact I|].
  simpl. apply wp_bind.
  eapply wp_mono; [apply attemptBump_quiet| |auto|auto].
  intros [|] s1 Hq; cbv beta zeta.
  - eapply wp_mono; [apply IH| |auto|auto].
    intros r s2 H Hr. destruct (H Hr) as [Habs _]. discriminate Habs.
  - apply wp_ret. intros Hr. cbn in Hr. split; [exact Hr|]. apply Hq. reflexivity.
Qed.

Lemma setAcceptPrepared_quiet b s :
  wp (setAcceptPrepared E pe b) s (quiet s) (fun _ _ => True) (fun _ => True).
Proof. unfold setAcceptPrepared, setPrepared. q_go fail. Qed.

Lemma attemptAcceptPrepared_quiet hint s :
  wp (attemptAcceptPrepared E pe hint) s (quiet s) (fun _ _ => True) (fun _ => True).
Proof.
  unfold attemptAcceptPrepared.
  q_go ltac:(first [ apply setAcceptPrepared_quiet
                   | apply wp_readOnly;
                     [apply readOnly_acceptPreparedSearch|intros ?|intros ?] ]).
Qed.

Lemma setConfirmPrepared_quiet c h s :
  wp (setConfirmPrepared E pe c h) s (quiet s) (fun _ _ => True) (fun _ => True).
Proof. unfold setConfirmPrepared. q_go fail. Qed.

Lemma attemptConfirmPrepared_quiet hint s :
  wp (attemptConfirmPrepared E pe hint) s (quiet s) (fun _ _ => True) (fun _ => True).
Proof.
  unfold attemptConfirmPrepared. q_go ltac:(apply setConfirmPrepared_quiet).
Qed.

Lemma setAcceptCommit_quiet c h s :
  wp (setAcceptCommit E pe c h) s (quiet s) (fun _ _ => True) (fun _ => True).
Proof. unfold setAcceptCommit. q_go fail. Qed.

Lemma attemptAcceptCommit_quiet hint s :
  wp (attemptAcceptCommit E pe hint) s (quiet s) (fun _ _ => True) (fun _ => True).
Proof.
  unfold attemptAcceptCommit. q_go ltac:(apply setAcceptCommit_quiet).
Qed.

Lemma setConfirmCommit_quiet c h s :
  wp (setConfirmCommit E pe c h) s (quiet s) (fun _ _ => True) (fun _ => True).
Proof. unfold setConfirmCommit. q_go fail. Qed.

Lemma attemptConfirmCommit_quiet hint s :
  wp (attemptConfirmCommit E pe hint) s (quiet s) (fun _ _ => True) (fun _ => True).
Proof.
  unfold attemptConfirmCommit. q_go ltac:(apply setConfirmCommit_quiet).
Qed.

End Quiet.

(** *** After a broadcast nothing waits *)

Lemma sendLatestEnvelope_settles s X F :
  mCurrentMessageLevel s = 0%Z ->
  wp sendLatestEnvelope s
    (fun _ s' => nothingPending s' /\ mCurrentMessageLevel s' = 0%Z) X F.
Proof.
  intros Hl. unfold sendLatestEnvelope. apply wp_bind, wp_get. cbv beta.
  rewrite Hl. cbn [Z.eqb andb].
  destruct (mLastEnvelope s) as [last|] eqn:Hlast; cbn [isSome andb].
  - destruct (isFullyValidated s) eqn:Hv.
    + destruct (mLastEnvelopeEmit s) as [sent|] eqn:Hsent.
      * destruct (Ptr_eq_dec (w_ptr last) (w_ptr sent)) as [Heq|Hne].
        -- apply wp_ret. split; [|exact Hl]. intros _. rewrite Hlast.
           exists sent. split; assumption.
        -- apply wp_bind, wp_modify, wp_modify. split; [|exact Hl]. intros _. cbn.
           rewrite Hlast. exists last. split; reflexivity.
      * apply wp_bind, wp_modify, wp_modify. split; [|exact Hl]. intros _. cbn.
        rewrite Hlast. exists last. split; reflexivity.
    + apply wp_ret. split; [|exact Hl]. intros H. congruence.
  - apply wp_ret. split; [|exact Hl]. intros _. rewrite Hlast. exact I.
Qed.

Lemma checkHeardFromQuorum_sameQueue E s F :
  wp (checkHeardFromQuorum E) s (fun _ s' => sameQueue s s')
    (fun _ s' => sameQueue s s') F.
Proof.
  unfold checkHeardFromQuorum, startBallotProtocolTimer, stopBallotProtocolTimer.
  repeat wp_step.
  all: unfold sameQueue, emitted; cbn; repeat split; reflexivity.
Qed.

Lemma sameQueue_bump b s : sameQueue s (bumpResult b s).
Proof.
  unfold sameQueue, emitted. autorewrite with bump. repeat split; reflexivity.
Qed.

Lemma sameQueue_pending a b : sameQueue a b -> nothingPending a -> nothingPending b.
Proof.
  intros (_ & Hl & He & Hv & _) H. unfold nothingPending in *.
  rewrite Hl, He, Hv. exact H.
Qed.

Lemma sameQueue_order a b : sameQueue a b -> broadcastOrder a -> broadcastOrder b.
Proof.
  intros (_ & Hl & He & _) H. unfold broadcastOrder in *. rewrite Hl, He. exact H.
Qed.

Lemma sameQueue_sym a b : sameQueue a b -> sameQueue b a.
Proof. intros (H1 & H2 & H3 & H4 & H5). repeat split; congruence. Qed.

(** [broadcastsAtMostOnce] between states that are, as far as broadcasting
    goes, those of another pair. *)
Lemma broadcastsAtMostOnce_transfer a a' b b' :
  sameQueue a a' -> broadcastsAtMostOnce a' b' -> sameQueue b' b ->
  broadcastsAtMostOnce a b.
Proof.
  intros Ha [[Hem Hse]|(w & Hem & Hse & Hl & Hv & Hsent)] (B1 & B2 & B3 & B4 & _).
  - left. destruct Ha as (A1 & _ & A3 & _). split; congruence.
  - right. exists w. destruct Ha as (A1 & A2 & A3 & A4 & A5).
    split; [congruence|]. split; [congruence|]. split; [congruence|].
    split; [congruence|].
    intros sent Hs. rewrite <- A3 in Hs. destruct (Hsent sent Hs) as [Hp Ho].
    split; [exact Hp|]. intros Hord. apply Ho.
    unfold broadcastOrder in *. rewrite A2, A3. exact Hord.
Qed.

Lemma broadcastsAtMostOnce_atMostOne a b :
  broadcastsAtMostOnce a b -> atMostOneBroadcast a b.
Proof.
  intros [[H _]|(w & H & _)]; [left; exact H|right; eexists; exact H].
Qed.

(** *** [processEnvelope] at level 0 leaves nothing waiting *)

Section Settles.

Variable E : Env.
Variable d : nat.
Variable pe : SCPEnvelopeWrapper -> bool -> M EnvelopeState.
Hypothesis pe_keeps : forall e self, keeps d (pe e self).

(** A call in the body of [advanceSlot]: what it keeps, and that it is
    quiet when it has done no work. *)
Lemma quiet_call (m : M bool) s0 (acc : bool) s :
  keeps d m ->
  (forall s, wp m s (quiet s) (fun _ _ => True) (fun _ => True)) ->
  Step s0 s ->
  (acc = false -> mLastEnvelope s = mLastEnvelope s0) ->
  wp m s
    (fun r s' =>
       Step s0 s' /\ (r || acc = false -> mLastEnvelope s' = mLastEnvelope s0))
    (fun _ _ => True) (fun _ => True).
Proof.
  intros Hk Hq Hs Ha.
  eapply wp_mono; [apply wp_conj; [apply Hk|apply Hq]| |auto|auto].
  intros r s' [H1 H2]. split; [eapply Step_trans; eassumption|].
  intros Hr. apply orb_false_elim in Hr. destruct Hr as [Hr Hacc].
  rewrite (H2 Hr). apply Ha, Hacc.
Qed.

(** The end of [advanceSlot]: the level goes back to 0, and when work was
    done the envelope that waits is broadcast. *)
Lemma advanceSlot_end s t (didWork : bool) :
  mCurrentMessageLevel s = 0%Z ->
  nothingPending s ->
  Step (set_mCurrentMessageLevel (mCurrentMessageLevel s + 1) s) t ->
  (didWork = false -> mLastEnvelope t = mLastEnvelope s) ->
  wp (modify (fun s => set_mCurrentMessageLevel (mCurrentMessageLevel s - 1) s) ;;
      if didWork then sendLatestEnvelope else ret tt) t
    (fun _ s' => nothingPending s') (fun _ _ => True) (fun _ => True).
Proof.
  intros Hl Hp Hstep Hq. apply wp_bind, wp_modify.
  pose proof (step_level Hstep) as Hlv. cbn in Hlv.
  destruct didWork.
  - eapply wp_mono;
      [ apply sendLatestEnvelope_settles
          with (X := fun _ _ => True) (F := fun _ => True)
      | intros ? ? [H _]; exact H | auto | auto ].
    cbn. lia.
  - apply wp_ret. intros Hv. cbn in Hv. cbn.
    rewrite (Hq eq_refl).
    destruct (isFullyValidated s) eqn:Hvs.
    + unfold nothingPending in Hp. specialize (Hp Hvs).
      destruct (mLastEnvelope s) as [last|]; [|exact I].
      destruct (step_nested Hstep) as [_ Hse]; [cbn; lia|]. cbn in Hse.
      rewrite Hse. exact Hp.
    + destruct (step_unvalidated Hstep) as [Habs _]; [exact Hvs|]. congruence.
Qed.

Lemma advanceSlot_settles loopFuel hint s :
  mCurrentMessageLevel s = 0%Z ->
  nothingPending s ->
  wp (advanceSlot E pe loopFuel hint) s
    (fun _ s' => nothingPending s') (fun _ _ => True) (fun _ => True).
Proof.
  intros Hl Hp. unfold advanceSlot.
  apply wp_bind, wp_modify. apply wp_bind, wp_get. cbv beta.
  match goal with
  | |- wp (if ?c then _ else _) _ _ _ _ => destruct c; [apply wp_throw; exact I|]
  end.
  cbv zeta.
  pose proof (Step_refl (set_mCurrentMessageLevel (mCurrentMessageLevel s + 1) s))
    as Hs0.
  apply wp_bind.
  eapply wp_mono;
    [ apply (@quiet_call _ _ false _ (@attemptAcceptPrepared_keeps E d pe pe_keeps hint)
               (@attemptAcceptPrepared_quiet E pe hint) Hs0 (fun _ => eq_refl))
    | | auto | auto ].
  intros r1 t1 [Hs1 Hq1]. cbv beta.
  apply wp_bind.
  eapply wp_mono;
    [ apply (@quiet_call _ _ _ _ (@attemptConfirmPrepared_keeps E d pe pe_keeps hint)
               (@attemptConfirmPrepared_quiet E pe hint) Hs1 Hq1)
    | | auto | auto ].
  intros r2 t2 [Hs2 Hq2]. cbv beta.
  apply wp_bind.
  eapply wp_mono;
    [ apply (@quiet_call _ _ _ _ (@attemptAcceptCommit_keeps E d pe pe_keeps hint)
               (@attemptAcceptCommit_quiet E pe hint) Hs2 Hq2)
    | | auto | auto ].
  intros r3 t3 [Hs3 Hq3]. cbv beta.
  apply wp_bind.
  eapply wp_mono;
    [ apply (@quiet_call _ _ _ _ (@attemptConfirmCommit_keeps E d pe pe_keeps hint)
               (@attemptConfirmCommit_quiet E pe hint) Hs3 Hq3)
    | | auto | auto ].
  intros r4 t4 [Hs4 Hq4]. cbv beta.
  apply wp_bind, wp_get. cbv beta. apply wp_bind.
  destruct (mCurrentMessageLevel t4 =? 1)%Z.
  - apply wp_bind.
    eapply wp_mono;
      [ apply wp_conj;
        [ apply (@bumpLoop_keeps E d pe pe_keeps)
        | apply (@bumpLoop_quiet E pe) ]
      | | auto | auto ].
    intros r5 t5 [Hs5 Hq5]. cbv beta. apply wp_bind.
    eapply wp_mono;
      [ apply wp_conj;
        [ apply (@checkHeardFromQuorum_keeps E (fun _ => True))
        | apply (@checkHeardFromQuorum_sameQueue E t5 (fun _ => True)) ]
      | | auto | auto ].
    intros u t6 [Hs6 Hq6]. cbv beta. apply wp_ret.
    apply (advanceSlot_end Hl Hp).
    + eapply Step_trans; [exact Hs4|]. eapply Step_trans; eassumption.
    + intros Hr. destruct (Hq5 Hr) as [Hacc Hl5].
      destruct Hq6 as (_ & Hl6 & _). rewrite Hl6, Hl5. apply Hq4, Hacc.
  - apply wp_ret. apply (advanceSlot_end Hl Hp Hs4 Hq4).
Qed.

Lemma processEnvelopeBody_settles loopFuel e self s :
  mCurrentMessageLevel s = 0%Z ->
  nothingPending s ->
  wp (processEnvelopeBody E pe loopFuel e self) s
    (fun _ s' => nothingPending s') (fun _ _ => True) (fun _ => True).
Proof.
  intros Hl Hp. unfold processEnvelopeBody, isNewerStatementFrom, recordEnvelope.
  repeat first
    [ match goal with
      | |- wp (bind (advanceSlot _ _ _ _) _) _ _ _ _ =>
          apply wp_bind; eapply wp_mono;
          [ apply advanceSlot_settles | intros ? ? ?; apply wp_ret; assumption
          | auto | auto ]
      end
    | wp_step ].
  all: try exact I.
  all: try exact Hp.
  all: try exact Hl.
  all: try (unfold nothingPending in *; cbn; first [exact Hp | intros Habs; discriminate Habs]).
Qed.

End Settles.

Lemma processEnvelope_settles E depth loopFuel e self s :
  mCurrentMessageLevel s = 0%Z ->
  nothingPending s ->
  wp (processEnvelope E depth loopFuel e self) s
    (fun _ s' => nothingPending s') (fun _ _ => True) (fun _ => True).
Proof.
  intros Hl Hp. rewrite processEnvelope_eq.
  apply (@processEnvelopeBody_settles E depth _ (slotCallback_keeps E depth loopFuel));
    assumption.
Qed.

(** *** An input handled at level 0 *)

Lemma processEnvelope_own E depth loopFuel e self s :
  nodeID (getStatement e) = getLocalNodeID E ->
  mCurrentMessageLevel s = 0%Z ->
  nothingPending s ->
  wp (processEnvelope E depth loopFuel e self) s
    (fun r s' => (r = INVALID /\ s' = s) \/ (r = VALID /\ processedOwn e s s'))
    (fun _ s' => emitted s' = emitted s) (fun _ => True).
Proof.
  intros He Hl Hp.
  pose proof (@processEnvelope_broadcasts E depth loopFuel e self s Hl) as H1.
  pose proof (@processEnvelope_settles E depth loopFuel e self s Hl Hp) as H2.
  pose proof (processEnvelope_keeps E loopFuel depth e self s) as H3.
  pose proof (processEnvelope_taken E depth loopFuel e self s) as H4.
  unfold wp in *.
  destruct (processEnvelope E depth loopFuel e self s) as [r s'|x s'|k];
    [|exact H1|exact I].
  destruct H4 as [[-> ->]|(-> & Hf & v & [Hev _])]; [left; split; reflexivity|].
  right. split; [reflexivity|]. split; [exact H1|]. split; [exact H2|].
  split; [exact H3|].
  destruct (ev_pending Hev) as [Hsame|(m & Hm & Hnew)].
  - left. rewrite Hsame. unfold taken, recorded. destruct v; reflexivity.
  - right. exists m. split; [exact Hm|]. apply Hnew.
    unfold taken, recorded. destruct v; cbn; rewrite <- He; apply map_find_set_same.
Qed.

Lemma isNewerStatement_asym a b :
  isNewerStatement a b = true -> isNewerStatement b a = true -> False.
Proof.
  intros H1 H2. pose proof (isNewerStatement_trans _ _ _ H1 H2) as H.
  rewrite isNewerStatement_irrefl in H. discriminate H.
Qed.

Lemma emitCurrentStateStatement_once E depth loopFuel s :
  mCurrentMessageLevel s = 0%Z ->
  nothingPending s ->
  wp (emitCurrentStateStatement E (processEnvelope E depth loopFuel)) s
    (fun _ s' => handledOnce s s')
    (fun _ s' => emitted s' = emitted s) (fun _ => True).
Proof.
  intros Hl Hp. unfold emitCurrentStateStatement, wrapEnvelope.
  apply wp_bind, wp_get. cbv beta zeta. apply wp_bind.
  apply wp_readOnly; [apply readOnly_createStatement| |intros; reflexivity].
  intros stmt. cbv beta. apply wp_bind, wp_get. cbv beta zeta.
  match goal with
  | |- wp (if ?c then _ else _) _ _ _ _ => destruct c
  end;
    [|apply wp_ret; split; [apply broadcastsAtMostOnce_same; reflexivity|];
      split; assumption].
  apply wp_bind. apply wp_bind, wp_get. cbv beta. apply wp_bind, wp_modify, wp_ret.
  set (s1 := set_nextPtr (nextPtr s + 1) s).
  set (envW := mkWrapper (OwnPtr (nextPtr s)) (createEnvelope E stmt)).
  assert (Hq1 : sameQueue s s1) by (unfold sameQueue, emitted; repeat split; reflexivity).
  apply wp_bind.
  eapply wp_mono;
    [ apply (@processEnvelope_own E depth loopFuel envW true s1 eq_refl Hl
               (sameQueue_pending Hq1 Hp))
    | | intros x s2 Hx; exact Hx | auto ].
  intros r s2 [[-> ->]|(-> & Hb & Hp2 & Hstep & Hpend)].
  - apply wp_throw. reflexivity.
  - pose proof (step_level Hstep) as Hl2. cbn in Hl2.
    apply wp_bind, wp_get. cbv beta.
    match goal with
    | |- wp (if ?c then _ else _) _ _ _ _ => destruct c eqn:Hcond
    end.
    + apply andb_true_iff in Hcond. destruct Hcond as [_ Hcond].
      apply wp_bind, wp_modify.
      destruct Hb as [[Hem Hse]|(w & Hem & Hse & Hlw & Hv & Hsent)].
      * eapply wp_mono;
          [ apply wp_conj;
            [ apply sendLatestEnvelope_once
                with (s0 := s) (F := fun _ => True)
            | apply sendLatestEnvelope_settles
                with (X := fun _ _ => True) (F := fun _ => True) ]
          | intros u s3 [H1 [H2 H3]]; repeat split; assumption
          | intros x s3 [H1 _]; exact H1
          | auto ].
        -- cbn. exact Hse.
        -- unfold emitted in *. cbn. exact Hem.
        -- intros Hord. apply (sameQueue_order Hq1) in Hord.
           apply (step_order Hstep) in Hord.
           unfold broadcastOrder in *. cbn.
           destruct (mLastEnvelopeEmit s2) as [sent|]; [|exact I].
           destruct (mLastEnvelope s2) as [last|]; [|contradiction].
           right. destruct Hord as [->|Hord]; [exact Hcond|].
           eapply isNewerStatement_trans; [exact Hord|exact Hcond].
        -- cbn. lia.
      * exfalso. rewrite Hlw in Hcond.
        destruct Hpend as [Hsame|(m & Hm & Hnew)].
        -- rewrite Hlw in Hsame.
           assert (Hvs : isFullyValidated s = true).
           { destruct (isFullyValidated s) eqn:Hvs; [reflexivity|].
             destruct (step_unvalidated Hstep) as [Habs _]; [exact Hvs|]. congruence. }
           unfold nothingPending in Hp. specialize (Hp Hvs).
           change (mLastEnvelope s1) with (mLastEnvelope s) in Hsame.
           rewrite <- Hsame in Hp. destruct Hp as (sent & Hs & Hptr).
           destruct (Hsent sent Hs) as [Hne _]. contradiction.
        -- rewrite Hlw in Hm. inversion Hm; subst m.
           exact (isNewerStatement_asym _ _ Hnew Hcond).
    + apply wp_ret. split; [|split; [exact Hp2|lia]].
      apply (@broadcastsAtMostOnce_transfer s s1 s2 s2 Hq1 Hb).
      unfold sameQueue. repeat split; reflexivity.
Qed.

Lemma bumpState_once E depth loopFuel v n s :
  mCurrentMessageLevel s = 0%Z ->
  nothingPending s ->
  wp (bumpState E (processEnvelope E depth loopFuel) v n) s
    (fun _ s' => handledOnce s s')
    (fun _ s' => atMostOneBroadcast s s') (fun _ => True).
Proof.
  intros Hl Hp. unfold bumpState. apply wp_bind, wp_get. cbv beta.
  assert (Hsame : handledOnce s s).
  { split; [apply broadcastsAtMostOnce_same; reflexivity|]. split; assumption. }
  destruct (negb (phaseIsPrepareOrConfirm s)); [apply wp_ret; exact Hsame|].
  cbv zeta. apply wp_bind.
  eapply wp_mono;
    [ apply updateCurrentValue_exact with (F := fun _ => True)
    | | intros x s1 [->| ->]; left; [reflexivity|]; unfold emitted;
        autorewrite with bump; reflexivity
    | auto ].
  intros [|] s1 Hs1; cbv beta in *; subst s1;
    [|apply wp_bind, wp_ret, wp_ret; exact Hsame].
  match goal with
  | |- wp _ (bumpResult ?b s) _ _ _ => pose proof (sameQueue_bump b s) as Hq1
  end.
  apply wp_bind. apply wp_bind.
  eapply wp_mono;
    [ apply emitCurrentStateStatement_once;
      [ rewrite bump_level; exact Hl | exact (sameQueue_pending Hq1 Hp) ]
    | | intros x s2 Hx; left; rewrite Hx; apply Hq1
    | auto ].
  intros u s2 (Hb & Hp2 & Hl2). cbv beta.
  eapply wp_mono;
    [ apply checkHeardFromQuorum_sameQueue with (F := fun _ => True) | | | auto ].
  - intros u' s3 Hq3. apply wp_ret. split; [|split].
    + exact (broadcastsAtMostOnce_transfer Hq1 Hb Hq3).
    + exact (sameQueue_pending Hq3 Hp2).
    + destruct Hq3 as (_ & _ & _ & _ & H). lia.
  - intros x s3 Hq3. apply broadcastsAtMostOnce_atMostOne.
    exact (broadcastsAtMostOnce_transfer Hq1 Hb Hq3).
Qed.

Lemma bumpStateForce_once E depth loopFuel v f s :
  mCurrentMessageLevel s = 0%Z ->
  nothingPending s ->
  wp (bumpStateForce E (processEnvelope E depth loopFuel) v f) s
    (fun _ s' => handledOnce s s')
    (fun _ s' => atMostOneBroadcast s s') (fun _ => True).
Proof.
  intros Hl Hp. unfold bumpStateForce.
  repeat first [apply bumpState_once; assumption | wp_step].
  split; [apply broadcastsAtMostOnce_same; reflexivity|]. split; assumption.
Qed.

Lemma abandonBallot_once E depth loopFuel n s :
  mCurrentMessageLevel s = 0%Z ->
  nothingPending s ->
  wp (abandonBallot E (processEnvelope E depth loopFuel) n) s
    (fun _ s' => handledOnce s s')
    (fun _ s' => atMostOneBroadcast s s') (fun _ => True).
Proof.
  intros Hl Hp. unfold abandonBallot.
  repeat first
    [ apply bumpState_once; assumption
    | apply bumpStateForce_once; assumption
    | wp_step ].
  all: split; [apply broadcastsAtMostOnce_same; reflexivity|]; split; assumption.
Qed.

(** Every input, handled at level 0 from a state in which nothing waits:
    at most one broadcast, and again nothing waits. *)
Lemma handle_once E depth loopFuel i s :
  mCurrentMessageLevel s = 0%Z ->
  nothingPending s ->
  wp (handle E depth loopFuel i) s
    (fun _ s' => handledOnce s s')
    (fun _ s' => atMostOneBroadcast s s') (fun _ => True).
Proof.
  intros Hl Hp.
  destruct i; unfold handle, runBumpState, runAbandonBallot,
    runBallotProtocolTimerExpired.
  - apply wp_bind.
    pose proof (@processEnvelope_broadcasts E depth loopFuel e self s Hl) as H1.
    pose proof (@processEnvelope_settles E depth loopFuel e self s Hl Hp) as H2.
    pose proof (processEnvelope_keeps E loopFuel depth e self s) as H3.
    unfold wp in *.
    destruct (processEnvelope E depth loopFuel e self s) as [r s'|x s'|k];
      [|left; exact H1|exact I].
    cbn. split; [exact H1|]. split; [exact H2|].
    rewrite (step_level H3). exact Hl.
  - apply wp_bind.
    eapply wp_mono; [apply bumpStateForce_once; assumption| |auto|auto].
    intros r s' H. apply wp_ret. exact H.
  - apply wp_bind.
    eapply wp_mono; [apply abandonBallot_once; assumption| |auto|auto].
    intros r s' H. apply wp_ret. exact H.
  - unfold ballotProtocolTimerExpired. apply wp_bind, wp_modify.
    match goal with
    | |- wp _ ?s1 _ _ _ =>
        assert (Hq1 : sameQueue s s1)
          by (unfold sameQueue, emitted; repeat split; reflexivity)
    end.
    apply wp_bind.
    eapply wp_mono;
      [ apply abandonBallot_once; [exact Hl|exact (sameQueue_pending Hq1 Hp)] | | | auto ].
    + intros r s' (Hb & Hp' & Hl'). apply wp_ret. split; [|split; assumption].
      apply (broadcastsAtMostOnce_transfer Hq1 Hb).
      unfold sameQueue. repeat split; reflexivity.
    + intros x s' [H|(env & H)]; [left|right; exists env];
        rewrite H, (proj1 Hq1); reflexivity.
Qed.

Lemma handleAll_once E depth loopFuel inputs :
  forall s,
    mCurrentMessageLevel s = 0%Z ->
    nothingPending s ->
    wp (handleAll E depth loopFuel inputs) s
      (fun _ s' => mCurrentMessageLevel s' = 0%Z /\ nothingPending s')
      (fun _ _ => True) (fun _ => True).
Proof.
  induction inputs as [|i rest IH]; intros s Hl Hp; simpl.
  - apply wp_ret. split; assumption.
  - apply wp_bind. eapply wp_mono; [apply handle_once; assumption| |auto|auto].
    intros u s' (_ & Hp' & Hl'). apply IH; assumption.
Qed.

(** C8.  [sendLatestEnvelope], the one place that calls the driver's
    [emitEnvelope], does so only at nesting level 0, on a fully validated
    slot, and with a wrapper other than the one broadcast last.  So an
    external input handled at a nesting level above 0, or on a slot that is
    not fully validated, broadcasts nothing; and an envelope processed at
    level 0 leads to at most one broadcast, of a statement other than the
    one broadcast last.  The same holds of every external input (an
    envelope, [bumpState], [abandonBallot], the expiry of the timer) handled
    at level 0 when no envelope waits to be broadcast, as at the start: at
    most one envelope is broadcast, and again none waits when the input has
    been handled; so over any sequence of inputs, from such a state or from
    the initial state, every one of them leads to at most one broadcast. *)
Theorem C8_broadcast_discipline :
  forall E depth loopFuel,
    (forall s, exists s',
        sendLatestEnvelope s = Ret tt s'
        /\ (s' = s
            \/ (mCurrentMessageLevel s = 0%Z /\ isFullyValidated s = true
                /\ exists last, mLastEnvelope s = Some last
                     /\ emitted s' = getEnvelope last :: emitted s
                     /\ mLastEnvelopeEmit s' = Some last
                     /\ forall sent, mLastEnvelopeEmit s = Some sent ->
                                     w_ptr last <> w_ptr sent)))
    /\ (forall i s,
          (1 <= mCurrentMessageLevel s)%Z \/ isFullyValidated s = false ->
          match handle E depth loopFuel i s with
          | Ret _ s' => emitted s' = emitted s
          | Raise _ s' => emitted s' = emitted s
          | OutOfFuel _ => True
          end)
    /\ (forall e self s,
          mCurrentMessageLevel s = 0%Z ->
          match processEnvelope E depth loopFuel e self s with
          | Ret _ s' => broadcastsAtMostOnce s s'
          | Raise _ s' => emitted s' = emitted s
          | OutOfFuel _ => True
          end)
    /\ (forall i s,
          mCurrentMessageLevel s = 0%Z ->
          nothingPending s ->
          match handle E depth loopFuel i s with
          | Ret _ s' =>
              broadcastsAtMostOnce s s' /\ nothingPending s'
              /\ mCurrentMessageLevel s' = 0%Z
          | Raise _ s' => atMostOneBroadcast s s'
          | OutOfFuel _ => True
          end)
    /\ (forall inputs i s,
          mCurrentMessageLevel s = 0%Z ->
          nothingPending s ->
          match handleAll E depth loopFuel inputs s with
          | Ret _ s1 =>
              match handle E depth loopFuel i s1 with
              | Ret _ s2 | Raise _ s2 => atMostOneBroadcast s1 s2
              | OutOfFuel _ => True
              end
          | Raise _ _ | OutOfFuel _ => True
          end)
    /\ (forall inputs i,
          match handleAll E depth loopFuel inputs initialState with
          | Ret _ s1 =>
              match handle E depth loopFuel i s1 with
              | Ret _ s2 | Raise _ s2 => atMostOneBroadcast s1 s2
              | OutOfFuel _ => True
              end
          | Raise _ _ | OutOfFuel _ => True
          end).
Proof.
  intros E depth loopFuel. split; [exact sendLatestEnvelope_guards|]. split; [|split].
  - intros i s Hs. pose proof (handle_keeps E depth loopFuel i s) as H.
    unfold wp in H. destruct (handle E depth loopFuel i s) as [r s'|x s'|k]; [| |exact I].
    + destruct Hs as [Hs|Hs]; [apply (step_nested H Hs)|apply (step_unvalidated H Hs)].
    + destruct Hs as [Hs|Hs]; [apply (stop_nested H Hs)|apply (stop_unvalidated H Hs)].
  - intros e self s Hl. exact (processEnvelope_broadcasts E depth loopFuel e self s Hl).
  - assert (Hseq : forall inputs i s,
               mCurrentMessageLevel s = 0%Z ->
               nothingPending s ->
               match handleAll E depth loopFuel inputs s with
               | Ret _ s1 =>
                   match handle E depth loopFuel i s1 with
                   | Ret _ s2 | Raise _ s2 => atMostOneBroadcast s1 s2
                   | OutOfFuel _ => True
                   end
               | Raise _ _ | OutOfFuel _ => True
               end).
    { intros inputs i s Hl Hp.
      pose proof (@handleAll_once E depth loopFuel inputs s Hl Hp) as H.
      unfold wp in H.
      destruct (handleAll E depth loopFuel inputs s) as [u s1|x s1|k]; [|exact I..].
      destruct H as [Hl1 Hp1].
      pose proof (@handle_once E depth loopFuel i s1 Hl1 Hp1) as H1.
      unfold wp in H1.
      destruct (handle E depth loopFuel i s1) as [u' s2|x s2|k]; [| |exact I].
      - apply broadcastsAtMostOnce_atMostOne, H1.
      - exact H1. }
    split; [|split; [exact Hseq|]].
    + intros i s Hl Hp. exact (@handle_once E depth loopFuel i s Hl Hp).
    + intros inputs i. apply Hseq; [reflexivity|intros _; exact I].
Qed.

(** The timer of the local node at [(2, W)] expires: the node moves to
    [(3, W)] and one statement goes out. *)
Lemma C8_witness :
  match handle (network false None allValid) 50 50 TimerExpired atTwoW with
  | Ret _ s' =>
      broadcastsAtMostOnce atTwoW s' /\ nothingPending s'
      /\ mCurrentMessageLevel s' = 0%Z
  | Raise _ s' => atMostOneBroadcast atTwoW s'
  | OutOfFuel _ => True
  end
  /\ List.length
       (emitted (stateOf (handle (network false None allValid) 50 50 TimerExpired
                            atTwoW)))
     = S (List.length (emitted atTwoW)).
Proof.
  assert (H1 : mCurrentMessageLevel atTwoW = 0%Z) by (vm_compute; reflexivity).
  assert (H2 : nothingPending atTwoW).
  { intros _. vm_compute. eexists. split; reflexivity. }
  split.
  - exact (proj1 (proj2 (proj2 (proj2
             (C8_broadcast_discipline (network false None allValid) 50 50))))
             TimerExpired atTwoW H1 H2).
  - vm_compute. reflexivity.
Defined.

(** ** The nesting level after an exception *)

Lemma wp_dbgAssert_ret E (b : bool) s (Q : unit -> BallotProtocol -> Prop)
    (X : Exn -> BallotProtocol -> Prop) F :
  Q tt s -> X AssertionFailed s -> wp (dbgAssert E (ret b)) s Q X F.
Proof.
  intros HQ HX. unfold wp, dbgAssert, bind, ret, throw.
  destruct (ndebug E); [exact HQ|]. destruct b; [exact HQ|exact HX].
Qed.

Lemma sendLatestEnvelope_returns s (Q : unit -> BallotProtocol -> Prop)
    (X : Exn -> BallotProtocol -> Prop) F :
  (forall s', Q tt s') -> wp sendLatestEnvelope s Q X F.
Proof. intros HQ. unfold sendLatestEnvelope. repeat wp_step; apply HQ. Qed.

Lemma processEnvelopeBody_level E d pe
    (pe_keeps : forall e self, keeps d (pe e self)) loopFuel e self s :
  wp (processEnvelopeBody E pe loopFuel e self) s
    (fun _ _ => True) (levelRaised (mCurrentMessageLevel s)) (fun _ => True).
Proof.
  unfold processEnvelopeBody, isNewerStatementFrom, recordEnvelope.
  repeat first
    [ match goal with
      | |- wp (dbgAssert _ (ret _)) _ _ _ _ => apply wp_dbgAssert_ret
      | |- wp (bind (advanceSlot _ _ _ _) _) _ _ _ _ =>
          apply wp_bind; apply (@advanceSlot_wp E d pe pe_keeps);
          [ intros _
          | intros _ didWork s' _; apply wp_bind, wp_modify;
            destruct didWork; [apply sendLatestEnvelope_returns; intros|];
            apply wp_ret; exact I
          | intros _ x s' Hstop; apply stop_level in Hstop
          | intros _ k _; exact I ]
      end
    | wp_step ].
  all: try exact I.
  all: unfold levelRaised; cbn in *; try lia.
  all: destruct x; try exact I; lia.
Qed.

Lemma handleAll_silent E depth loopFuel inputs :
  forall s,
    (1 <= mCurrentMessageLevel s)%Z ->
    wp (handleAll E depth loopFuel inputs) s
      (fun _ s' => emitted s' = emitted s) (fun _ s' => emitted s' = emitted s)
      (fun _ => True).
Proof.
  induction inputs as [|i rest IH]; intros s Hs; simpl.
  - apply wp_ret. reflexivity.
  - apply wp_bind. eapply wp_mono; [apply (handle_keeps E depth loopFuel i)| | |auto].
    + intros u s1 Hstep. cbv beta.
      destruct (step_nested Hstep Hs) as [Hem _].
      eapply wp_mono; [apply IH| | |auto].
      * rewrite (step_level Hstep). exact Hs.
      * intros; cbv beta in *; congruence.
      * intros; cbv beta in *; congruence.
    + intros x s1 Hstop. apply (stop_nested Hstop Hs).
Qed.

(** X24.  An exception is not cleaned up after.  [advanceSlot] raises the
    nesting level on entry and lowers it only on the way out, so a runtime
    error that [processEnvelope] throws leaves the level above what it was;
    from then on the slot broadcasts nothing, whatever inputs it is handed,
    since [sendLatestEnvelope] broadcasts at level 0 only. *)
Theorem runtime_error_silences_the_slot :
  forall E depth loopFuel e self s msg s',
    (0 <= mCurrentMessageLevel s)%Z ->
    processEnvelope E depth loopFuel e self s = Raise (RuntimeError msg) s' ->
    (mCurrentMessageLevel s < mCurrentMessageLevel s')%Z
    /\ forall inputs,
         match handleAll E depth loopFuel inputs s' with
         | Ret _ s'' | Raise _ s'' => emitted s'' = emitted s'
         | OutOfFuel _ => True
         end.
Proof.
  intros E depth loopFuel e self s msg s' Hs Hraise.
  pose proof (@processEnvelopeBody_level E depth (slotCallback E depth loopFuel)
                (slotCallback_keeps E depth loopFuel) loopFuel e self s) as H.
  rewrite processEnvelope_eq in Hraise. unfold wp in H. rewrite Hraise in H.
  cbn in H. split; [exact H|].
  intros inputs.
  pose proof (@handleAll_silent E depth loopFuel inputs s') as Hq.
  unfold wp in Hq.
  destruct (handleAll E depth loopFuel inputs s'); [apply Hq; lia|apply Hq; lia|exact I].
Qed.

Lemma runtime_error_witness :
  Z.lt (mCurrentMessageLevel belowCap)
    (mCurrentMessageLevel
       (stateOf (processEnvelope (network false None allValid) 50 50 (confirmV 2)
                   false belowCap)))
  /\ forall inputs,
       match handleAll (network false None allValid) 50 50 inputs
               (stateOf (processEnvelope (network false None allValid) 50 50
                           (confirmV 2) false belowCap)) with
       | Ret _ s'' | Raise _ s'' =>
           emitted s''
           = emitted (stateOf (processEnvelope (network false None allValid) 50 50
                                 (confirmV 2) false belowCap))
       | OutOfFuel _ => True
       end.
Proof.
  apply (@runtime_error_silences_the_slot (network false None allValid) 50 50
           (confirmV 2) false belowCap
           "maximum number of transitions reached in advanceSlot").
  - vm_compute. discriminate.
  - vm_compute. reflexivity.
Defined.

(** ** Hearing from a quorum *)

(** X25.  [checkHeardFromQuorum] always returns.  With a current ballot [b]
    it sets [mHeardFromQuorum] to whether a quorum is at the counter of [b]
    or beyond; it tells the driver so, and outside EXTERNALIZE arms the
    timer, only when the flag rises from false to true.  Called again at
    once, it tells the driver nothing and does not arm the timer anew. *)
Theorem checkHeardFromQuorum_rising_edge :
  forall E s,
  exists s1 s2,
    checkHeardFromQuorum E s = Ret tt s1
    /\ checkHeardFromQuorum E s1 = Ret tt s2
    /\ match mCurrentBallot s with
       | None => s1 = s
       | Some b =>
           let rises := negb (mHeardFromQuorum s) && mHeardFromQuorum s1 in
           mHeardFromQuorum s1 = isQuorum E (mLatestEnvelopes s) (atLeastAt b)
           /\ heardCalls s1 = (if rises then [b] else []) ++ heardCalls s
           /\ timerStarts s1
              = (if rises && negb (phase_eqb (mPhase s) SCP_PHASE_EXTERNALIZE)
                 then [counter b] else []) ++ timerStarts s
       end
    /\ mHeardFromQuorum s2 = mHeardFromQuorum s1
    /\ heardCalls s2 = heardCalls s1
    /\ timerStarts s2 = timerStarts s1.
Proof.
  intros E s.
  unfold checkHeardFromQuorum, startBallotProtocolTimer, stopBallotProtocolTimer,
    heardCalls, timerStarts.
  unfold bind, get, modify, ret, deref.
  destruct (mCurrentBallot s) as [b|] eqn:Hb; cbn.
  - change (fun st : SCPStatement =>
              match pledges st with
              | SCP_ST_PREPARE p => counter b <=? counter (p_ballot p)
              | _ => true
              end) with (atLeastAt b).
    destruct (isQuorum E (mLatestEnvelopes s) (atLeastAt b)) eqn:Hq;
      destruct (mHeardFromQuorum s) eqn:Hh;
      destruct (mPhase s) eqn:Hp; cbn; rewrite ?Hb; cbn;
      (eexists; eexists; split; [reflexivity|]); cbn; rewrite ?Hb; cbn;
      change (fun st : SCPStatement =>
                match pledges st with
                | SCP_ST_PREPARE p => counter b <=? counter (p_ballot p)
                | _ => true
                end) with (atLeastAt b);
      rewrite ?Hq, ?Hp; cbn;
      (split; [reflexivity|]); cbn; rewrite ?Hq; repeat split; reflexivity.
  - exists s, s. rewrite Hb. repeat split; reflexivity.
Qed.
